(** * tcs-engine: finite automata, determinization, signatures, state elimination

    A shallow embedding of the automaton core of the library (automaton.js,
    state.js, edge.js, graph.js, extendSet.js, util.js,
    generalized-automaton.js and the syntax-tree part of regexp.js) together
    with the properties of its specification.

    JavaScript objects have identity and are mutated in place.  States and
    edges therefore live in a store (two arenas indexed by allocation order);
    an automaton holds identifiers into the store.  Sets and arrays are
    insertion-ordered lists, [Map]s whose iteration order is never observed
    are finite maps.  Exceptions are an explicit outcome, and loops whose
    termination is not structural take fuel. *)

From stdpp Require Import gmap strings list sorting.
From Stdlib Require Import ZArith Ascii DecimalString DecimalNat.

(** ** Outcomes and the state-and-exception monad *)

Inductive Res (A : Type) : Type :=
| Ok (a : A)          (* normal completion *)
| Throw (msg : string) (* a JavaScript exception *)
| OutOfFuel.           (* the fuel of a loop of the model ran out *)
Arguments Ok {A} a.
Arguments Throw {A} msg.
Arguments OutOfFuel {A}.

Definition M (S A : Type) : Type := S → S * Res A.

Definition ret {S A} (a : A) : M S A := λ s, (s, Ok a).

Definition bind {S A B} (m : M S A) (k : A → M S B) : M S B :=
  λ s, match m s with
       | (s', Ok a) => k a s'
       | (s', Throw e) => (s', Throw e)
       | (s', OutOfFuel) => (s', OutOfFuel)
       end.

Definition throw {S A} (msg : string) : M S A := λ s, (s, Throw msg).
Definition outOfFuel {S A} : M S A := λ s, (s, OutOfFuel).
Definition get {S} : M S S := λ s, (s, Ok s).
Definition put {S} (s : S) : M S unit := λ _, (s, Ok tt).
Definition modify {S} (f : S → S) : M S unit := λ s, (f s, Ok tt).
Definition gets {S A} (f : S → A) : M S A := λ s, (s, Ok (f s)).

Declare Scope js_scope.
Delimit Scope js_scope with js.
Notation "'let*' x := m 'in' k" := (bind m (λ x, k))
  (at level 10, x pattern, m at level 100, k at level 200,
   format "'[v' 'let*'  x  :=  m  'in' '/' k ']'") : js_scope.
Notation "m ;; k" := (bind m (λ _, k))
  (at level 100, k at level 200, right associativity) : js_scope.
Open Scope js_scope.

(** [for (const x of l) body(x)] *)
Fixpoint forEach {S A} (l : list A) (body : A → M S unit) : M S unit :=
  match l with
  | [] => ret tt
  | x :: l' => body x ;; forEach l' body
  end.

(** A loop that carries a local variable. *)
Fixpoint foldlM {S A B} (f : B → A → M S B) (b : B) (l : list A) : M S B :=
  match l with
  | [] => ret b
  | x :: l' => let* b' := f b x in foldlM f b' l'
  end.

(** [for (const x of set) body(x)] over a live [Set] to which the body may
    add: elements appended during the loop are visited as well. *)
Fixpoint forEachLive {T A} (fuel : nat) (cur : T → list A) (i : nat)
    (body : A → M T unit) : M T unit :=
  match fuel with
  | 0 => outOfFuel
  | S fuel' =>
      let* l := gets cur in
      match l !! i with
      | None => ret tt
      | Some x => body x ;; forEachLive fuel' cur (S i) body
      end
  end.

Fixpoint foldlLive {T A B} (fuel : nat) (cur : T → list A) (i : nat)
    (f : B → A → M T B) (b : B) : M T B :=
  match fuel with
  | 0 => outOfFuel
  | S fuel' =>
      let* l := gets cur in
      match l !! i with
      | None => ret b
      | Some x => let* b' := f b x in foldlLive fuel' cur (S i) f b'
      end
  end.

(** [Array.prototype.sort(cmp)]: a stable sort. *)
Fixpoint insertBy {A} (le : A → A → bool) (x : A) (l : list A) : list A :=
  match l with
  | [] => [x]
  | y :: l' => if le y x then y :: insertBy le x l' else x :: y :: l'
  end.
Definition sortBy {A} (le : A → A → bool) (l : list A) : list A :=
  foldl (λ acc x, insertBy le x acc) [] l.

(** [String(i)] for a non-negative integer. *)
Definition String_ (i : nat) : string := NilZero.string_of_uint (Nat.to_uint i).

(** ** JavaScript [Set]s of object references: insertion-ordered, no duplicates *)

Module JsSet.
Section jsset.
Context {A : Type} `{EqDecision A}.

Definition add (x : A) (l : list A) : list A :=
  if decide (x ∈ l) then l else l ++ [x].

Definition delete (x : A) (l : list A) : list A :=
  filter (λ y, y ≠ x) l.

Definition has (x : A) (l : list A) : bool := bool_decide (x ∈ l).

(** [new Set(array)] *)
Definition ofList (l : list A) : list A := foldl (λ acc x, add x acc) [] l.

(** extendSet.js *)
Definition union (s t : list A) : list A := ofList (s ++ t).

Definition intersect (this set : list A) : list A :=
  if decide (length this < length set)
  then filter (λ x, x ∈ set) this
  else filter (λ x, x ∈ this) set.

Definition difference (this set : list A) : list A :=
  filter (λ x, x ∉ set) this.

Definition contains (this set : list A) : bool :=
  forallb (λ x, has x this) set.

Definition equals (this set : list A) : bool :=
  contains this set && contains set this.

End jsset.
End JsSet.

(** ** The store: states and edges *)

(** Object references: positions in the arenas of the store. *)
Abbreviation StateId := nat (only parsing).
Abbreviation EdgeId := nat (only parsing).

(** The [tag] of a state: [{}] or, in the subset construction,
    [{ stateSet: ... }]. *)
Inductive Tag : Type :=
| NoTag
| StateSetTag (stateSet : list StateId).

(** regexp.js: the syntax tree of a regular expression.  The automaton cached
    in every node is derived from the tree and is not read by the code
    modelled here. *)
Inductive RegularExpression : Type :=
| EMPTY
| WORD (word : string)
| STAR (r : RegularExpression)
| SUM (left right : RegularExpression)
| CONCAT (left right : RegularExpression).

(** state.js *)
Record State : Type := mkState {
  sname : string;
  sstart : bool;
  sfinal : bool;
  stag : Tag;
  edgesOut : list EdgeId;
  edgesIn : list EdgeId;
  marked : bool            (* [undefined] until a search sets it *)
}.

(** edge.js; [re] is only set on the edges of a generalized automaton. *)
Record Edge : Type := mkEdge {
  source : StateId;
  sink : StateId;
  symbol : ascii;
  re : option RegularExpression
}.

Record Store : Type := mkStore {
  sts : list State;
  eds : list Edge
}.

Definition emptyStore : Store := mkStore [] [].

Definition dummyState : State := mkState "" false false NoTag [] [] false.
Definition dummyEdge : Edge := mkEdge 0 0 "000"%char None.

Definition st (σ : Store) (s : StateId) : State := default dummyState (sts σ !! s).
Definition ed (σ : Store) (e : EdgeId) : Edge := default dummyEdge (eds σ !! e).

Definition updState (s : StateId) (f : State → State) (σ : Store) : Store :=
  mkStore (alter f s (sts σ)) (eds σ).
Definition updEdge (e : EdgeId) (f : Edge → Edge) (σ : Store) : Store :=
  mkStore (sts σ) (alter f e (eds σ)).

Definition set_sname (n : string) (s : State) : State :=
  mkState n (sstart s) (sfinal s) (stag s) (edgesOut s) (edgesIn s) (marked s).
Definition set_sstart (b : bool) (s : State) : State :=
  mkState (sname s) b (sfinal s) (stag s) (edgesOut s) (edgesIn s) (marked s).
Definition set_sfinal (b : bool) (s : State) : State :=
  mkState (sname s) (sstart s) b (stag s) (edgesOut s) (edgesIn s) (marked s).
Definition set_marked (b : bool) (s : State) : State :=
  mkState (sname s) (sstart s) (sfinal s) (stag s) (edgesOut s) (edgesIn s) b.
Definition set_edgesOut (l : list EdgeId) (s : State) : State :=
  mkState (sname s) (sstart s) (sfinal s) (stag s) l (edgesIn s) (marked s).
Definition set_edgesIn (l : list EdgeId) (s : State) : State :=
  mkState (sname s) (sstart s) (sfinal s) (stag s) (edgesOut s) l (marked s).
Definition set_re (r : RegularExpression) (e : Edge) : Edge :=
  mkEdge (source e) (sink e) (symbol e) (Some r).

(** state.js, constructor: an empty name becomes ['empty']. *)
Definition newState (name : string) (start final : bool) (tag : Tag) : State :=
  mkState (if decide (name = "") then "empty" else name) start final tag [] [] false.

(** extendSet.js, [Set.prototype.name] on a set of states: the names of the
    members, sorted by code units and joined. *)
Definition setName (σ : Store) (set : list StateId) (sep : string) : string :=
  String.concat sep (merge_sort (≤)%string ((λ s, sname (st σ s)) <$> set)).

(** graph.js *)
Module Graph.

Fixpoint dfs (fuel : nat) (sources : list StateId) : M Store unit :=
  match fuel with
  | 0 => outOfFuel
  | S fuel' =>
      forEach sources (λ s,
        modify (updState s (set_marked true)) ;;
        let* σ := get in
        forEach (edgesOut (st σ s)) (λ e,
          let* σ := get in
          if marked (st σ (sink (ed σ e))) then ret tt
          else dfs fuel' [sink (ed σ e)]))
  end.

End Graph.

(** The depth of a search never exceeds the number of states in the store. *)
Definition searchFuel (σ : Store) : nat := S (length (sts σ)).

(** util.js

    Numbers are integers here.  The source computes in double precision:
    [toBase62] and [fromBase62] are exact, and these definitions agree with
    them, for numbers below 2^53, far above any number of states. *)
Module Util.

Definition digit62 (remainder : nat) : ascii :=
  if decide (remainder < 10) then ascii_of_nat (48 + remainder)
  else if decide (remainder < 36) then ascii_of_nat (65 + remainder - 10)
  else ascii_of_nat (97 + remainder - 36).

(** [while (number > 0) { ...; number = (number - remainder) / 62 }] *)
Fixpoint toBase62_digits (fuel number : nat) (result : string) : string :=
  match fuel with
  | 0 => result
  | S fuel' =>
      if decide (0 < number)
      then toBase62_digits fuel' (number / 62)
             (String (digit62 (number mod 62)) result)
      else result
  end.

(** [while (result.length < totalDigits) { result = '0' + result }] *)
Fixpoint padZero (n : nat) (result : string) : string :=
  match n with
  | 0 => result
  | S n' => padZero n' (String "0"%char result)
  end.

(** [toBase62 (number, totalDigits = 1)], for [number] below 2^53 *)
Definition toBase62 (number totalDigits : nat) : string :=
  let result := toBase62_digits number number "" in
  padZero (totalDigits - String.length result) result.

Definition digitValue (digit : ascii) : Z :=
  let c := Z.of_nat (nat_of_ascii digit) in
  if decide (48 ≤ c ∧ c ≤ 57)%Z then (c - 48)%Z
  else if decide (65 ≤ c ∧ c ≤ 90)%Z then (c - 65 + 10)%Z
  else (c - 97 + 36)%Z.

Fixpoint fromBase62_go (str : string) (result : Z) : Z :=
  match str with
  | EmptyString => result
  | String digit str' => fromBase62_go str' (result * 62 + digitValue digit)%Z
  end.

(** [fromBase62 (str)], while the number read stays below 2^53 *)
Definition fromBase62 (str : string) : Z := fromBase62_go str 0%Z.

(** [Math.floor(Math.log(n) / Math.log(62))] for [n >= 1], as the exact
    integer logarithm.  The source computes it in double precision, which is
    exact below 62 * 62 states. *)
Fixpoint floorLog62_go (fuel n : nat) : nat :=
  match fuel with
  | 0 => 0
  | S fuel' => if decide (n < 62) then 0 else S (floorLog62_go fuel' (n / 62))
  end.
Definition floorLog62 (n : nat) : nat := floorLog62_go n n.

(** [Math.floor(Math.log(size) / Math.log(62)) + 1] *)
Definition totalDigits (size : nat) : nat := floorLog62 size + 1.

(** [function * permutations (number)]: the arrays that the generator
    yields, in order.  The argument is a non-negative integer here. *)
Fixpoint permutations (number : nat) : Res (list (list nat)) :=
  match number with
  | 0 => Throw "must be positive"
  | S n =>
      if decide (S n = 1) then Ok [[0]]
      else
        match permutations n with
        | Ok perms =>
            Ok (perms ≫= λ p, (λ i, take i p ++ [n] ++ drop i p) <$> seq 0 (S n))
        | r => r
        end
  end.

(** [permutationProduct (p1, p2)]: [p[i] = p2[p1[i]]]; an index outside [p2]
    leaves [undefined]. *)
Definition permutationProduct (p1 p2 : list nat) : list (option nat) :=
  (λ v, p2 !! v) <$> p1.

End Util.

(** ** automaton.js: the automaton and its primitives *)

Record Automaton : Type := mkAutomaton {
  aname : string;
  alphabet : list ascii;
  states : list StateId;
  stateNameMap : gmap string StateId;
  edges : list EdgeId;
  deltaMap : gmap ascii (gmap StateId (list StateId))
}.

Definition set_aname (n : string) (a : Automaton) : Automaton :=
  mkAutomaton n (alphabet a) (states a) (stateNameMap a) (edges a) (deltaMap a).
Definition set_states (l : list StateId) (a : Automaton) : Automaton :=
  mkAutomaton (aname a) (alphabet a) l (stateNameMap a) (edges a) (deltaMap a).
Definition set_stateNameMap (m : gmap string StateId) (a : Automaton) : Automaton :=
  mkAutomaton (aname a) (alphabet a) (states a) m (edges a) (deltaMap a).
Definition set_edges (l : list EdgeId) (a : Automaton) : Automaton :=
  mkAutomaton (aname a) (alphabet a) (states a) (stateNameMap a) l (deltaMap a).
Definition set_deltaMap (d : gmap ascii (gmap StateId (list StateId)))
    (a : Automaton) : Automaton :=
  mkAutomaton (aname a) (alphabet a) (states a) (stateNameMap a) (edges a) d.

(** A method that mutates its receiver runs on the store and the receiver;
    a construction that returns a new automaton runs on the store alone. *)
Definition MA (X : Type) : Type := M (Store * Automaton) X.

Definition getStore : MA Store := gets fst.
Definition getThis : MA Automaton := gets snd.
Definition modStore (f : Store → Store) : MA unit := modify (λ p, (f p.1, p.2)).
Definition modThis (f : Automaton → Automaton) : MA unit := modify (λ p, (p.1, f p.2)).

(** Run a method on the automaton [a]; the receiver is returned alongside the
    result.  When the method throws, the construction in progress is abandoned
    and only the store survives. *)
Definition on {X} (a : Automaton) (m : MA X) : M Store (Automaton * X) :=
  λ σ, match m (σ, a) with
       | ((σ', a'), Ok x) => (σ', Ok (a', x))
       | ((σ', _), Throw e) => (σ', Throw e)
       | ((σ', _), OutOfFuel) => (σ', OutOfFuel)
       end.

(** A store-only computation used inside a method. *)
Definition inStore {X} (m : M Store X) : MA X :=
  λ p, match m p.1 with (σ', r) => ((σ', p.2), r) end.

Definition allocState (s : State) : MA StateId :=
  λ p, ((mkStore (sts p.1 ++ [s]) (eds p.1), p.2), Ok (length (sts p.1))).
Definition allocEdge (e : Edge) : MA EdgeId :=
  λ p, ((mkStore (sts p.1) (eds p.1 ++ [e]), p.2), Ok (length (eds p.1))).

(** An argument of type [State|string]. *)
Inductive StateRef : Type :=
| ByName (name : string)
| ByObj (s : StateId).

Module Automaton.

(** [constructor (name = 'A', symbols = 'ab')] *)
Definition new (name : string) (symbols : string) : Automaton :=
  let syms := String.list_ascii_of_string symbols in
  mkAutomaton name syms [] ∅ []
    (foldl (λ m s, <[s := ∅]> m) ∅ syms).

Definition getStateByName (a : Automaton) (name : string) : option StateId :=
  stateNameMap a !! name.

(** [while (a.getStateByName(name) !== undefined) { name += 'x' }].  The loop
    ends after at most [size stateNameMap] rounds, see [uniquify_fresh]. *)
Fixpoint uniquify (fuel : nat) (m : gmap string StateId) (name : string) : string :=
  match fuel with
  | 0 => name
  | S fuel' =>
      match m !! name with
      | Some _ => uniquify fuel' m (name +:+ "x")
      | None => name
      end
  end.

Definition addState (name : string) (start final : bool) (tag : Tag)
    (forceNew : bool) : MA StateId :=
  let* a := getThis in
  let name := if forceNew then uniquify (size (stateNameMap a)) (stateNameMap a) name
              else name in
  match getStateByName a name with
  | Some s => ret s
  | None =>
      let* s := allocState (newState name start final tag) in
      modThis (λ a, set_stateNameMap (<[name := s]> (stateNameMap a))
                      (set_states (JsSet.add s (states a)) a)) ;;
      ret s
  end.

Definition getState (a : Automaton) (s : StateRef) : option StateId :=
  match s with
  | ByName n => stateNameMap a !! n
  | ByObj s => Some s
  end.

(** [getEdge] on already resolved end points; [to] may be [undefined]. *)
Definition findEdge (σ : Store) (from : StateId) (to : option StateId)
    (sym : ascii) : option EdgeId :=
  List.find (λ e, bool_decide (symbol (ed σ e) = sym ∧ Some (sink (ed σ e)) = to))
       (edgesOut (st σ from)).

Definition getEdge (from to : StateRef) (sym : ascii) : MA (option EdgeId) :=
  let* a := getThis in
  let* σ := getStore in
  match getState a from with
  | None => throw "TypeError: from is undefined"
  | Some f => ret (findEdge σ f (getState a to) sym)
  end.

(** [addEdge].  When [to] does not resolve, the source builds a half-made edge
    (stored in [edges], [deltaMap] and [from.edgesOut]) before it fails on
    [e.sink.addEdgeIn]; the model raises the error without these leftovers. *)
Definition addEdge (from to : StateRef) (sym : ascii) : MA EdgeId :=
  let* a := getThis in
  let* o := getEdge from to sym in
  match o with
  | Some e => ret e
  | None =>
      match getState a from, getState a to with
      | Some f, Some t =>
          let* e := allocEdge (mkEdge f t sym None) in
          modThis (λ a, set_edges (JsSet.add e (edges a)) a) ;;
          match deltaMap a !! sym with
          | None => throw "TypeError: deltaMap.get(symbol) is undefined"
          | Some dm =>
              let targets := default [] (dm !! f) in
              modThis (set_deltaMap (<[sym := <[f := JsSet.add t targets]> dm]> (deltaMap a))) ;;
              modStore (updState f (λ s, set_edgesOut (JsSet.add e (edgesOut s)) s)) ;;
              modStore (updState t (λ s, set_edgesIn (JsSet.add e (edgesIn s)) s)) ;;
              ret e
          end
      | _, _ => throw "TypeError: sink is undefined"
      end
  end.

Definition deleteEdge (e : EdgeId) : MA unit :=
  let* σ := getStore in
  let* a := getThis in
  let E := ed σ e in
  modThis (set_edges (JsSet.delete e (edges a))) ;;
  match deltaMap a !! symbol E with
  | None => throw "TypeError: deltaMap.get(symbol) is undefined"
  | Some dm =>
      match dm !! source E with
      | None => throw "TypeError: deltaMap.get(symbol).get(source) is undefined"
      | Some targets =>
          modThis (set_deltaMap
                     (<[symbol E := <[source E := JsSet.delete (sink E) targets]> dm]>
                        (deltaMap a))) ;;
          modStore (updState (source E) (λ s, set_edgesOut (JsSet.delete e (edgesOut s)) s)) ;;
          modStore (updState (sink E) (λ s, set_edgesIn (JsSet.delete e (edgesIn s)) s))
      end
  end.

Definition deleteState (state : StateRef) : MA unit :=
  let* a := getThis in
  match getState a state with
  | None => throw "TypeError: s is undefined"
  | Some s =>
      let* σ := getStore in
      forEach (edgesIn (st σ s)) deleteEdge ;;
      let* σ := getStore in
      forEach (edgesOut (st σ s)) deleteEdge ;;
      let* σ := getStore in
      modThis (λ a, set_states (JsSet.delete s (states a))
                      (set_stateNameMap (delete (sname (st σ s)) (stateNameMap a)) a))
  end.

Definition renameState (s : StateId) (newName : string) : MA unit :=
  let* σ := getStore in
  modThis (λ a, set_stateNameMap (delete (sname (st σ s)) (stateNameMap a)) a) ;;
  modStore (updState s (set_sname newName)) ;;
  modThis (λ a, set_stateNameMap (<[newName := s]> (stateNameMap a)) a).

(** [delta (state, symbol)]; without a symbol, over every symbol. *)
Definition delta (a : Automaton) (state : StateId) (sym : option ascii) : list StateId :=
  let symbols := match sym with None => alphabet a | Some c => [c] end in
  foldl (λ d c,
           match deltaMap a !! c with
           | Some dm => match dm !! state with
                        | Some targets => foldl (λ d s, JsSet.add s d) d targets
                        | None => d
                        end
           | None => d
           end) [] symbols.

Definition getStartStates (σ : Store) (a : Automaton) : list StateId :=
  JsSet.ofList (filter (λ s, sstart (st σ s) = true) (states a)).

Definition getFinalStates (σ : Store) (a : Automaton) : list StateId :=
  JsSet.ofList (filter (λ s, sfinal (st σ s) = true) (states a)).

Definition isDeterministic (σ : Store) (a : Automaton) : bool :=
  if decide (length (getStartStates σ a) ≠ 1) then false
  else forallb (λ kv, forallb (λ kv', bool_decide (length kv'.2 ≤ 1)) (map_to_list kv.2))
         (map_to_list (deltaMap a)).

Definition isEmpty (a : Automaton) : bool := bool_decide (length (states a) = 0).

Fixpoint deltaStar (a : Automaton) (currentStates : list StateId)
    (word : list ascii) : list StateId :=
  match word with
  | [] => currentStates
  | c :: word' =>
      let nextStates :=
        foldl (λ acc from, foldl (λ acc to, JsSet.add to acc) acc (delta a from (Some c)))
          [] currentStates in
      if decide (length nextStates = 0) then nextStates
      else deltaStar a nextStates word'
  end.

Definition accepts (σ : Store) (a : Automaton) (word : string) : bool :=
  if isEmpty a then false
  else existsb (λ s, sfinal (st σ s))
         (deltaStar a (getStartStates σ a) (String.list_ascii_of_string word)).

(** [reverse ()] *)
Definition reverse (a : Automaton) : M Store Automaton :=
  let ar := new ("reverse of " +:+ aname a) (String.string_of_list_ascii (alphabet a)) in
  let* r := on ar (
    forEach (states a) (λ s,
      let* σ := getStore in
      addState (sname (st σ s)) (sfinal (st σ s)) (sstart (st σ s)) (stag (st σ s)) false ;;
      ret tt) ;;
    forEach (edges a) (λ e,
      let* σ := getStore in
      addEdge (ByName (sname (st σ (sink (ed σ e)))))
              (ByName (sname (st σ (source (ed σ e))))) (symbol (ed σ e)) ;;
      ret tt)) in
  ret r.1.

(** [aRev.getStateByName(name).marked] *)
Definition markedByName (aRev : Automaton) (name : string) : MA bool :=
  match getStateByName aRev name with
  | None => throw "TypeError: getStateByName(...) is undefined"
  | Some s => let* σ := getStore in ret (marked (st σ s))
  end.

(** [reduce ()] *)
Definition reduce (a : Automaton) : M Store Automaton :=
  let ar := new ("reduced of " +:+ aname a) (String.string_of_list_ascii (alphabet a)) in
  let* σ := get in
  if decide (length (states a) = 0 ∨ length (getStartStates σ a) = 0
             ∨ length (getFinalStates σ a) = 0)
  then ret ar
  else
    let* aRev := reverse a in
    let* σ := get in
    Graph.dfs (searchFuel σ) (getStartStates σ a) ;;
    let* σ := get in
    Graph.dfs (searchFuel σ) (getStartStates σ aRev) ;;
    let* r := on ar (
      forEach (states a) (λ s,
        let* σ := getStore in
        if marked (st σ s) then
          let* m := markedByName aRev (sname (st σ s)) in
          if m then
            addState (sname (st σ s)) (sstart (st σ s)) (sfinal (st σ s)) (stag (st σ s))
              false ;; ret tt
          else ret tt
        else ret tt) ;;
      forEach (edges a) (λ e,
        let* σ := getStore in
        let src := st σ (source (ed σ e)) in
        let snk := st σ (sink (ed σ e)) in
        if marked src && marked snk then
          let* m1 := markedByName aRev (sname src) in
          if m1 then
            let* m2 := markedByName aRev (sname snk) in
            if m2 then
              addEdge (ByName (sname src)) (ByName (sname snk)) (symbol (ed σ e)) ;; ret tt
            else ret tt
          else ret tt
        else ret tt)) in
    ret r.1.

(** [renameStates (permutation)]; the receiver is returned. *)
Definition renameStates (permutation : option (list nat)) : MA unit :=
  let* a := getThis in
  match permutation with
  | Some p =>
      if decide (length p ≠ length (states a)) then throw "permutation error"
      else forEach (zip (states a) p) (λ sp, renameState sp.1 (String_ sp.2))
  | None =>
      forEach (imap (λ i s, (s, i)) (states a)) (λ si, renameState si.1 (String_ si.2))
  end.

(** The [while (todoStates.size > 0)] loop of the subset construction; the
    receiver is the automaton [dfa] under construction. *)
Fixpoint subsetLoop (fuel : nat) (nfa : Automaton) (todoStates : list StateId)
    : MA unit :=
  match todoStates with
  | [] => ret tt
  | currentState :: todoStates =>
      match fuel with
      | 0 => outOfFuel
      | S fuel' =>
          let* todoStates :=
            foldlM (λ todoStates s,
              let* σ := getStore in
              match stag (st σ currentState) with
              | NoTag => throw "TypeError: tag.stateSet is undefined"
              | StateSetTag stateSet =>
                  let nextStatesSet := deltaStar nfa stateSet [s] in
                  let* dfa := getThis in
                  match getStateByName dfa (setName σ nextStatesSet ",") with
                  | Some nextState =>
                      addEdge (ByObj currentState) (ByObj nextState) s ;;
                      ret todoStates
                  | None =>
                      let* nextState :=
                        addState (setName σ nextStatesSet ",") false
                          (existsb (λ s, sfinal (st σ s)) nextStatesSet)
                          (StateSetTag nextStatesSet) false in
                      addEdge (ByObj currentState) (ByObj nextState) s ;;
                      ret (JsSet.add nextState todoStates)
                  end
              end) todoStates (alphabet nfa) in
          subsetLoop fuel' nfa todoStates
      end
  end.

(** [makeDeterministic (renameStates = true)] *)
Definition makeDeterministic (fuel : nat) (renameStates_ : bool) (this : Automaton)
    : M Store Automaton :=
  if isEmpty this then reduce this
  else
    let* nfa :=
      if renameStates_ then
        let* r := reduce this in
        let* r := on r (renameStates None) in
        ret r.1
      else ret this in
    let* σ := get in
    if isDeterministic σ nfa then ret nfa
    else
      let dfa := new (aname nfa +:+ "-dfa") (String.string_of_list_ascii (alphabet nfa)) in
      let startStateSet := getStartStates σ nfa in
      let* r := on dfa (
        let* startState :=
          addState (setName σ startStateSet ",") true
            (existsb (λ s, sfinal (st σ s)) startStateSet)
            (StateSetTag startStateSet) false in
        subsetLoop fuel nfa [startState]) in
      ret r.1.

(** [union (a2)]; the new automaton gets the default alphabet. *)
Definition union (a1 a2 : Automaton) : M Store Automaton :=
  let u := new ("union of " +:+ aname a1 +:+ " and " +:+ aname a2) "ab" in
  let* r := on u (
    forEach [a1; a2] (λ a,
      forEach (states a) (λ s,
        let* σ := getStore in
        addState (aname a +:+ ":" +:+ sname (st σ s)) (sstart (st σ s)) (sfinal (st σ s))
          NoTag false ;;
        ret tt)) ;;
    forEach [a1; a2] (λ a,
      forEach (edges a) (λ e,
        let* σ := getStore in
        addEdge (ByName (aname a +:+ ":" +:+ sname (st σ (source (ed σ e)))))
                (ByName (aname a +:+ ":" +:+ sname (st σ (sink (ed σ e)))))
                (symbol (ed σ e)) ;;
        ret tt))) in
  ret r.1.

(** [complete ()].  The loop runs over the live set of states, so the error
    state added on the way is visited too. *)
Definition complete (this : Automaton) : M Store Automaton :=
  let* aResult := reduce this in
  if decide (length (states aResult) = 0) then
    let* r := on aResult (
      let* startState := addState "0" true false NoTag false in
      forEach (alphabet aResult) (λ s,
        addEdge (ByObj startState) (ByObj startState) s ;; ret tt)) in
    ret r.1
  else
    let* r := on aResult (
      foldlLive (2 + length (states aResult)) (λ p, states p.2) 0
        (λ errorState s,
           foldlM (λ errorState sym,
             let* aResult := getThis in
             if decide (length (delta aResult s (Some sym)) = 0) then
               let* errorState :=
                 match errorState with
                 | Some err => ret err
                 | None =>
                     let* err := addState "err" false false NoTag false in
                     forEach (alphabet aResult) (λ se,
                       addEdge (ByObj err) (ByObj err) se ;; ret tt) ;;
                     ret err
                 end in
               addEdge (ByObj s) (ByObj errorState) sym ;;
               ret (Some errorState)
             else ret errorState) errorState (alphabet aResult))
        None) in
    ret r.1.

(** edge.js, [Edge.compareBySymbol (e1, e2) <= 0] *)
Definition compareBySymbol_le (σ : Store) (e1 e2 : EdgeId) : bool :=
  bool_decide (nat_of_ascii (symbol (ed σ e1)) ≤ nat_of_ascii (symbol (ed σ e2))).

(** state.js, [State.compareByName (s1, s2) <= 0] *)
Definition compareByName_le (σ : Store) (s1 s2 : StateId) : bool :=
  bool_decide (sname (st σ s1) ≤ sname (st σ s2))%string.

(** The local function [dfs] of [renameStatesDFS]; [count] is returned. *)
Fixpoint renameStatesDFS_dfs (fuel totalDigits : nat) (s : StateId) (count : nat)
    : MA nat :=
  match fuel with
  | 0 => outOfFuel
  | S fuel' =>
      modStore (updState s (set_marked true)) ;;
      renameState s (Util.toBase62 count totalDigits) ;;
      let* σ := getStore in
      foldlM (λ count e,
                let* σ := getStore in
                if marked (st σ (sink (ed σ e))) then ret count
                else renameStatesDFS_dfs fuel' totalDigits (sink (ed σ e)) count)
        (S count) (sortBy (compareBySymbol_le σ) (edgesOut (st σ s)))
  end.

(** [renameStatesDFS ()]; the receiver is returned. *)
Definition renameStatesDFS : MA unit :=
  let* a := getThis in
  if decide (length (states a) = 0) then ret tt
  else
    let totalDigits := Util.totalDigits (length (states a)) in
    forEach (states a) (λ s, modStore (updState s (set_marked false))) ;;
    let* σ := getStore in
    match getStartStates σ a with
    | [] => throw "renameStatesDFS: no start states"
    | s :: _ => renameStatesDFS_dfs (searchFuel σ) totalDigits s 0 ;; ret tt
    end.

(** The successor written for state [s] and symbol [sym] in a signature. *)
Definition successorName (σ : Store) (s : StateId) (sym : ascii) : string :=
  foldl (λ successor e,
           if decide (symbol (ed σ e) = sym) then sname (st σ (sink (ed σ e)))
           else successor) "-" (edgesOut (st σ s)).

(** [signatureDFS ()]; [None] is [undefined]. *)
Definition signatureDFS : MA (option string) :=
  renameStatesDFS ;;
  let* aResult := getThis in
  let* σ := getStore in
  if negb (isDeterministic σ aResult) then ret None
  else
    let symbols := alphabet aResult in
    let sorted := sortBy (compareByName_le σ) (states aResult) in
    let final :=
      foldl (λ final s, final +:+ (if sfinal (st σ s) then "1" else "0")) "" sorted in
    let signature :=
      foldl (λ signature s,
               foldl (λ signature sym, signature +:+ successorName σ s sym)
                 signature symbols) "" sorted in
    ret (Some (signature +:+ "|" +:+ final +:+ "|" +:+
               String.string_of_list_ascii symbols)).

(** [minimizeBrzozowski ()] *)
Definition minimizeBrzozowski (fuel : nat) (a : Automaton) : M Store Automaton :=
  let* r := reverse a in
  let* r := makeDeterministic fuel true r in
  let* r := reverse r in
  let* r := makeDeterministic fuel true r in
  let* aResult := complete r in
  ret (set_aname ("minimized " +:+ aname a) aResult).

(** [calcStatesInBySymbol]: the predecessors of [state] under [c]. *)
Definition statesInBySymbol (σ : Store) (state : StateId) (c : ascii) : list StateId :=
  JsSet.ofList ((λ e, source (ed σ e)) <$>
                filter (λ e, symbol (ed σ e) = c) (edgesIn (st σ state))).

Definition calcStatesInBySymbol (a : Automaton) : M Store unit :=
  let* σ := get in
  if forallb (λ s, forallb (λ e, bool_decide (symbol (ed σ e) ∈ alphabet a))
                     (edgesIn (st σ s))) (states a)
  then ret tt
  else throw "TypeError: statesInBySymbol.get(edge.symbol) is undefined".

(** The waiting sets of Hopcroft's algorithm, per symbol. *)
Abbreviation Waiting := (gmap ascii (list (list nat))) (only parsing).

(** The first symbol that has a waiting set, and that set taken out. *)
Fixpoint pickSplitter (symbols : list ascii) (waitingMap : Waiting)
    : option (ascii * list StateId * Waiting) :=
  match symbols with
  | [] => None
  | c :: symbols' =>
      match waitingMap !! c with
      | Some (splitterSet :: rest) => Some (c, splitterSet, <[c := rest]> waitingMap)
      | _ => pickSplitter symbols' waitingMap
      end
  end.

(** [for (const existingPart of wm) if (existingPart.equals(part)) ...] *)
Fixpoint replacePart (wm : list (list StateId)) (part : list StateId)
    : option (list (list StateId)) :=
  match wm with
  | [] => None
  | existingPart :: wm' =>
      if JsSet.equals existingPart part then Some wm'
      else (λ r, existingPart :: r) <$> replacePart wm' part
  end.

Definition updateWaiting (symbols : list ascii) (part part1 part2 : list StateId)
    (w : Waiting * nat) : Waiting * nat :=
  let minPart := if decide (length part1 < length part2) then part1 else part2 in
  foldl (λ w c,
           let wm := default [] (w.1 !! c) in
           let wm' := match replacePart wm part with
                      | Some rest => rest ++ [part1; part2]
                      | None => wm ++ [minPart]
                      end in
           (<[c := wm']> w.1, S w.2)) w symbols.

(** One round of the [while (waitingSetSize > 0)] loop, after the splitter
    has been chosen. *)
Definition refine (σ : Store) (symbols : list ascii) (splitterChar : ascii)
    (splitterSet : list StateId) (partition : list (list StateId)) (w : Waiting * nat)
    : list (list StateId) * (Waiting * nat) :=
  foldl (λ acc part,
           let splitter :=
             foldl (λ splitter state,
                      JsSet.union splitter (statesInBySymbol σ state splitterChar))
               [] splitterSet in
           let part1 := JsSet.intersect part splitter in
           let part2 := JsSet.difference part splitter in
           if decide (length part1 = 0 ∨ length part2 = 0) then (acc.1 ++ [part], acc.2)
           else (acc.1 ++ [part1; part2], updateWaiting symbols part part1 part2 acc.2))
    ([], w) partition.

Fixpoint hopcroftLoop (fuel : nat) (σ : Store) (symbols : list ascii)
    (partition : list (list StateId)) (w : Waiting * nat)
    (splitter : option (ascii * list StateId)) : Res (list (list StateId)) :=
  if decide (w.2 = 0) then Ok partition
  else
    match fuel with
    | 0 => OutOfFuel
    | S fuel' =>
        let '(splitter, w) :=
          match pickSplitter symbols w.1 with
          | Some (c, set, wm) => (Some (c, set), (wm, pred w.2))
          | None => (splitter, w)
          end in
        match splitter with
        | None => Throw "TypeError: splitterSet is not iterable"
        | Some (splitterChar, splitterSet) =>
            let '(newPartition, w) :=
              refine σ symbols splitterChar splitterSet partition w in
            hopcroftLoop fuel' σ symbols newPartition w splitter
        end
    end.

(** [state.part], as left by the merge loop: the last part holding [state]. *)
Definition partOf (partition : list (list StateId)) (state : StateId)
    : option (list StateId) :=
  last (filter (λ part, state ∈ part) partition).

(** [minimizeHopcroft ()] *)
Definition minimizeHopcroft (fuel : nat) (this : Automaton) : M Store Automaton :=
  let* r := reduce this in
  let* r := makeDeterministic fuel true r in
  let* r := on r renameStatesDFS in
  let* a := complete r.1 in
  if decide (length (states a) < 2) then ret a
  else
    calcStatesInBySymbol a ;;
    let* σ := get in
    let finalStates := getFinalStates σ a in
    let nonFinalStates := JsSet.difference (states a) finalStates in
    let partition := [finalStates; nonFinalStates] in
    let minSet := if decide (length finalStates < length nonFinalStates)
                  then finalStates else nonFinalStates in
    let* partition :=
      if decide (length minSet ≠ 0) then
        let w := foldl (λ w c, (<[c := [minSet]]> w.1, S w.2)) (∅, 0) (alphabet a) in
        λ σ, (σ, hopcroftLoop fuel σ (alphabet a) partition w None)
      else ret partition in
    let aResult := new ("minimized " +:+ aname a) (String.string_of_list_ascii (alphabet a)) in
    let* r := on aResult (
      forEach partition (λ part,
        let* σ := getStore in
        addState (setName σ part ",") (existsb (λ s, sstart (st σ s)) part)
          (existsb (λ s, sfinal (st σ s)) part) NoTag false ;;
        ret tt) ;;
      forEach partition (λ part,
        forEach (alphabet a) (λ c,
          match deltaMap a !! c with
          | None => throw "TypeError: dmc is undefined"
          | Some dmc =>
              match last part ≫= (λ representativeState, dmc !! representativeState) with
              | None => ret tt
              | Some targets =>
                  match head targets ≫= partOf partition with
                  | None => throw "TypeError: toState.part is undefined"
                  | Some toPart =>
                      let* σ := getStore in
                      addEdge (ByName (setName σ part ","))
                              (ByName (setName σ toPart ",")) c ;;
                      ret tt
                  end
              end
          end))) in
    complete r.1.

(** [minimize (algorithm = 'Hopcroft')] *)
Definition minimize (fuel : nat) (algorithm : string) (this : Automaton)
    : M Store Automaton :=
  if decide (algorithm = "Brzozowski") then minimizeBrzozowski fuel this
  else minimizeHopcroft fuel this.

(** [equivalent (a2)] *)
Definition equivalent (fuel : nat) (this a2 : Automaton) : M Store bool :=
  let* m1 := minimize fuel "Hopcroft" this in
  let* s1 := on m1 signatureDFS in
  let* m2 := minimize fuel "Hopcroft" a2 in
  let* s2 := on m2 signatureDFS in
  ret (bool_decide (s1.2 = s2.2)).

(** [String.prototype.split] on a one-character separator. *)
Fixpoint split (sep : ascii) (s : string) : list string :=
  match s with
  | EmptyString => [""]
  | String c s' =>
      if decide (c = sep) then "" :: split sep s'
      else match split sep s' with
           | [] => [String c ""]
           | p :: ps => String c p :: ps
           end
  end.

(** [constructFromSignature (signature)] *)
Definition constructFromSignature (signature : string) : M Store Automaton :=
  match split "|" signature with
  | [transitions; finals; symbols] =>
      if decide (String.length transitions = 0 ∨ String.length finals = 0
                 ∨ String.length symbols = 0)
      then throw "empty part not allowed"
      else
        let numberStates := String.length finals in
        let digitsPerState := Util.totalDigits numberStates in
        if decide (digitsPerState * numberStates * String.length symbols
                   ≠ String.length transitions)
        then throw "wrong signature length"
        else
          let aResult := new ("signature " +:+ signature) symbols in
          let* r := on aResult (
            forEach (seq 0 numberStates) (λ i,
              addState (Util.toBase62 i digitsPerState) (bool_decide (i = 0))
                (bool_decide (String.get i finals = Some "1"%char)) NoTag false ;;
              ret tt) ;;
            forEach (seq 0 numberStates) (λ i,
              forEach (seq 0 (String.length symbols)) (λ j,
                let to := String.substring
                            (digitsPerState * (i * String.length symbols + j))
                            digitsPerState transitions in
                if decide (String.get 0 to ≠ Some "-"%char
                           ∧ (Util.fromBase62 to < Z.of_nat numberStates)%Z)
                then
                  match String.get j symbols with
                  | None => throw "TypeError: symbol is undefined"
                  | Some c =>
                      addEdge (ByName (Util.toBase62 i digitsPerState)) (ByName to) c ;;
                      ret tt
                  end
                else ret tt))) in
          ret r.1
  | _ => throw "there must be exactly 3 parts"
  end.

(** [acceptsEmptyWord ()] *)
Definition acceptsEmptyWord (σ : Store) (a : Automaton) : bool :=
  foldl (λ accepts state, accepts || sfinal (st σ state)) false (getStartStates σ a).

(** [copy ()] *)
Definition copy (a : Automaton) : M Store Automaton :=
  let ac := new ("copy of " +:+ aname a) (String.string_of_list_ascii (alphabet a)) in
  let* r := on ac (
    forEach (states a) (λ s,
      let* σ := getStore in
      addState (sname (st σ s)) (sstart (st σ s)) (sfinal (st σ s)) (stag (st σ s)) false ;;
      ret tt) ;;
    forEach (edges a) (λ e,
      let* σ := getStore in
      addEdge (ByName (sname (st σ (source (ed σ e)))))
              (ByName (sname (st σ (sink (ed σ e))))) (symbol (ed σ e)) ;;
      ret tt)) in
  ret r.1.

(** [deleteEdgeFts (from, to, symbol)] *)
Definition deleteEdgeFts (from to : StateRef) (sym : ascii) : MA unit :=
  let* o := getEdge from to sym in
  match o with
  | None => throw "TypeError: e is undefined"
  | Some e => deleteEdge e
  end.

(** [intersect (a2)]; the new automaton gets the default alphabet.  [addEdge]
    is given what [getStateByName] finds: for [undefined] as [from] it fails
    where [getEdge] reads [from.edgesOut], for [undefined] as [to] on the
    sink, as [addEdge] does. *)
Definition intersect (a1 a2 : Automaton) : M Store Automaton :=
  let aResult :=
    new ("intersection of " +:+ aname a1 +:+ " and " +:+ aname a2) "ab" in
  let* r := on aResult (
    forEach (states a1) (λ s1,
      forEach (states a2) (λ s2,
        let* σ := getStore in
        addState (sname (st σ s1) +:+ "," +:+ sname (st σ s2))
          (sstart (st σ s1) && sstart (st σ s2))
          (sfinal (st σ s1) && sfinal (st σ s2)) NoTag false ;;
        ret tt)) ;;
    forEach (edges a1) (λ e1,
      forEach (edges a2) (λ e2,
        let* σ := getStore in
        if decide (symbol (ed σ e1) = symbol (ed σ e2)) then
          let* a := getThis in
          match getStateByName a (sname (st σ (source (ed σ e1))) +:+ "," +:+
                                  sname (st σ (source (ed σ e2)))),
                getStateByName a (sname (st σ (sink (ed σ e1))) +:+ "," +:+
                                  sname (st σ (sink (ed σ e2)))) with
          | Some f, Some t => addEdge (ByObj f) (ByObj t) (symbol (ed σ e1)) ;; ret tt
          | None, _ => throw "TypeError: from is undefined"
          | Some _, None => throw "TypeError: sink is undefined"
          end
        else ret tt))) in
  ret r.1.

End Automaton.

(** regexp.js: the constructors of the syntax tree *)
Module Rex.

(** [new RegularExpression(word)] for a string argument *)
Definition new (r1 : string) : RegularExpression :=
  WORD (if decide (r1 = "E") then "" else r1).

(** [RegularExpression.empty ()], [new RegularExpression(0)] *)
Definition empty : RegularExpression := EMPTY.

Definition star (this : RegularExpression) : RegularExpression := STAR this.

Definition sum (this r : RegularExpression) : RegularExpression := SUM this r.

Definition concat (this r : RegularExpression) : RegularExpression :=
  match this, r with
  | WORD "", _ => r
  | _, WORD "" => this
  | _, _ => CONCAT this r
  end.

End Rex.

(** generalized-automaton.js *)
Module GeneralizedAutomaton.

Definition SYMBOL : ascii := "a"%char.

(** [e.re] of an edge that must carry a regular expression *)
Definition reOf (e : EdgeId) : MA RegularExpression :=
  let* σ := getStore in
  match re (ed σ e) with
  | Some r => ret r
  | None => throw "TypeError: e.re is undefined"
  end.

(** [addEdge (from, to, re)] *)
Definition addEdge (from to : StateRef) (r : RegularExpression) : MA EdgeId :=
  let* o := Automaton.getEdge from to SYMBOL in
  match o with
  | Some e =>
      let* r0 := reOf e in
      modStore (updEdge e (set_re (Rex.sum r0 r))) ;;
      ret e
  | None =>
      let* e := Automaton.addEdge from to SYMBOL in
      modStore (updEdge e (set_re r)) ;;
      ret e
  end.

(** [static copyOf (aut)] *)
Definition copyOf (aut : Automaton) : M Store Automaton :=
  let ga := Automaton.new ("generalized " +:+ aname aut) "ab" in
  if Automaton.isEmpty aut then ret ga
  else
    let* r := on ga (
      let* startState := Automaton.addState "start" true false NoTag true in
      let* finalState := Automaton.addState "final" false true NoTag true in
      forEach (states aut) (λ s,
        let* σ := getStore in
        let* newState := Automaton.addState (sname (st σ s)) false false NoTag true in
        (if sstart (st σ s)
         then addEdge (ByObj startState) (ByObj newState) (Rex.new "") ;; ret tt
         else ret tt) ;;
        (if sfinal (st σ s)
         then addEdge (ByObj newState) (ByObj finalState) (Rex.new "") ;; ret tt
         else ret tt)) ;;
      forEach (edges aut) (λ e,
        let* σ := getStore in
        addEdge (ByName (sname (st σ (source (ed σ e)))))
                (ByName (sname (st σ (sink (ed σ e)))))
                (Rex.new (String (symbol (ed σ e)) "")) ;;
        ret tt)) in
    ret r.1.

(** One round of the elimination loop: remove the state [removeState]. *)
Definition eliminate (fuel : nat) (removeState : StateId) : MA unit :=
  let* σ := getStore in
  let* loopRE :=
    foldlM (λ loopRE edgeIn,
              let* σ := getStore in
              if decide (source (ed σ edgeIn) = sink (ed σ edgeIn)) then
                let* r := reOf edgeIn in
                match loopRE with
                | None => ret (Some r)
                | Some l => ret (Some (Rex.sum l r))
                end
              else ret loopRE) None (edgesIn (st σ removeState)) in
  forEachLive fuel (λ p, edgesIn (st p.1 removeState)) 0 (λ edgeIn,
    let* σ := getStore in
    if decide (source (ed σ edgeIn) ≠ sink (ed σ edgeIn)) then
      forEachLive fuel (λ p, edgesOut (st p.1 removeState)) 0 (λ edgeOut,
        let* σ := getStore in
        if decide (source (ed σ edgeOut) ≠ sink (ed σ edgeOut)) then
          let* rIn := reOf edgeIn in
          let* rOut := reOf edgeOut in
          addEdge (ByName (sname (st σ (source (ed σ edgeIn)))))
                  (ByName (sname (st σ (sink (ed σ edgeOut)))))
                  (match loopRE with
                   | None => Rex.concat rIn rOut
                   | Some l => Rex.concat (Rex.concat rIn (Rex.star l)) rOut
                   end) ;;
          ret tt
        else ret tt)
    else ret tt) ;;
  Automaton.deleteState (ByObj removeState).

(** [while (a.states.size > 2) { ... }] *)
Fixpoint eliminationLoop (fuel liveFuel : nat) : MA unit :=
  let* a := getThis in
  if decide (2 < length (states a)) then
    match fuel with
    | 0 => outOfFuel
    | S fuel' =>
        let* σ := getStore in
        match List.find (λ s, negb (sstart (st σ s)) && negb (sfinal (st σ s))) (states a) with
        | None => throw "TypeError: removeState is undefined"
        | Some removeState =>
            eliminate liveFuel removeState ;; eliminationLoop fuel' liveFuel
        end
    end
  else ret tt.

(** [equivalentRE ()]; [None] is [undefined]. *)
Definition equivalentRE (fuel : nat) : MA (option RegularExpression) :=
  let* a := getThis in
  if Automaton.isEmpty a then ret (Some Rex.empty)
  else
    eliminationLoop fuel fuel ;;
    let* a := getThis in
    let* σ := getStore in
    match edges a with
    | [] => ret (Some Rex.empty)
    | e :: _ => ret (re (ed σ e))
    end.

End GeneralizedAutomaton.

(** ** alphabet.js *)

Module Alphabet.

(** [* genWords (maxLength)]: the words that the generator yields, in
    order. *)
Fixpoint genWords (symbols : list ascii) (maxLength : nat) : list string :=
  match maxLength with
  | 0 => [""]
  | S n => genWords symbols n ≫= λ v, (λ s, v +:+ String s "") <$> symbols
  end.

(** [numberOf (word, symbol)] *)
Definition numberOf (word : string) (symbol : ascii) : nat :=
  foldl (λ count s, count + (if decide (s = symbol) then 1 else 0)) 0
    (String.list_ascii_of_string word).

End Alphabet.

(** sample-automata.js *)
Module Sample.

(** [onlyEmptyWord (symbols = 'ab')] *)
Definition onlyEmptyWord (symbols : string) : M Store Automaton :=
  let* r := on (Automaton.new "empty word" symbols)
              (Automaton.addState "1" true true NoTag false) in
  ret r.1.

(** [allWords (symbols = 'ab')] *)
Definition allWords (symbols : string) : M Store Automaton :=
  let* r := on (Automaton.new "all words" symbols) (
    let* s := Automaton.addState "1" true true NoTag false in
    let* a := getThis in
    forEach (alphabet a) (λ sym,
      Automaton.addEdge (ByObj s) (ByObj s) sym ;; ret tt)) in
  ret r.1.

(** [noWords (symbols = 'ab')] *)
Definition noWords (symbols : string) : M Store Automaton :=
  let* r := on (Automaton.new "no words" symbols) (
    let* s := Automaton.addState "1" true false NoTag false in
    let* a := getThis in
    forEach (alphabet a) (λ sym,
      Automaton.addEdge (ByObj s) (ByObj s) sym ;; ret tt)) in
  ret r.1.

(** [onlyWord (w, symbols = 'ab')]; [w[i - 1]] is defined for every [i] of the
    loop. *)
Definition onlyWord (w symbols : string) : M Store Automaton :=
  let* r := on (Automaton.new w symbols) (
    Automaton.addState "0" true (bool_decide (w = "")) NoTag false ;;
    forEach (seq 1 (String.length w)) (λ i,
      Automaton.addState (String_ i) false (bool_decide (i = String.length w))
        NoTag false ;;
      match String.get (i - 1) w with
      | Some c =>
          Automaton.addEdge (ByName (String_ (i - 1))) (ByName (String_ i)) c ;;
          ret tt
      | None => throw "TypeError: deltaMap.get(symbol) is undefined"
      end)) in
  ret r.1.

(** [minLength (min, symbols = 'ab')] *)
Definition minLength (min : nat) (symbols : string) : M Store Automaton :=
  let* r := on (Automaton.new ("minimal length of " +:+ String_ min) symbols) (
    forEach (seq 0 (S min)) (λ i,
      Automaton.addState (String_ i) (bool_decide (i = 0)) (bool_decide (i = min))
        NoTag false ;;
      ret tt) ;;
    let* a := getThis in
    forEach (seq 0 min) (λ i,
      forEach (alphabet a) (λ sym,
        Automaton.addEdge (ByName (String_ i)) (ByName (String_ (i + 1))) sym ;;
        ret tt)) ;;
    forEach (alphabet a) (λ sym,
      Automaton.addEdge (ByName (String_ min)) (ByName (String_ min)) sym ;;
      ret tt)) in
  ret r.1.

End Sample.

(** ** Sequences of mutating calls on one automaton *)

Inductive Op : Type :=
| OpAddState (name : string) (start final : bool) (tag : Tag) (forceNew : bool)
| OpAddEdge (from to : StateRef) (sym : ascii)
| OpRenameState (s : StateId) (newName : string)
| OpDeleteEdge (e : EdgeId)
| OpDeleteState (state : StateRef).

Definition exec (op : Op) : MA unit :=
  match op with
  | OpAddState name start final tag forceNew =>
      Automaton.addState name start final tag forceNew ;; ret tt
  | OpAddEdge from to sym => Automaton.addEdge from to sym ;; ret tt
  | OpRenameState s newName => Automaton.renameState s newName
  | OpDeleteEdge e => Automaton.deleteEdge e
  | OpDeleteState state => Automaton.deleteState state
  end.

(** The state after a sequence of calls on a new automaton; a call that
    throws leaves what it had done so far. *)
Definition execAll (ops : list Op) (p : Store * Automaton) : Store * Automaton :=
  foldl (λ p op, (exec op p).1) p ops.

(** ** Programs of calls

    Calls to the library as a client would write them, used as concrete
    inputs below.  Each builds its automata in the empty store. *)

(** An automaton with two start states, p and q, and the edge p -a-> q. *)
Definition twoStarts : Store * Automaton :=
  execAll [OpAddState "p" true false NoTag false;
           OpAddState "q" true true NoTag false;
           OpAddEdge (ByName "p") (ByName "q") "a"]
    (emptyStore, Automaton.new "A" "ab").


(** An automaton for the words over a, b that end with a: state 0 loops on
    both symbols and steps to the final state 1 on a. *)
Definition endsWithA : Store * Automaton :=
  execAll [OpAddState "0" true false NoTag false;
           OpAddState "1" false true NoTag false;
           OpAddEdge (ByName "0") (ByName "0") "a";
           OpAddEdge (ByName "0") (ByName "0") "b";
           OpAddEdge (ByName "0") (ByName "1") "a"]
    (emptyStore, Automaton.new "A" "ab").

(** The automaton with the states 0 (start) and 1 (final) and the edge
    0 -a-> 1. *)
Definition chain01 : MA unit :=
  Automaton.addState "0" true false NoTag false ;;
  Automaton.addState "1" false true NoTag false ;;
  Automaton.addEdge (ByName "0") (ByName "1") "a"%char ;;
  ret tt.

(** Two more calls on the same automaton: a final state 2 and 1 -a-> 2. *)
Definition extend12 : MA unit :=
  Automaton.addState "2" false true NoTag false ;;
  Automaton.addEdge (ByName "1") (ByName "2") "a"%char ;;
  ret tt.

(** [a.makeDeterministic()] is called (when [early] holds) while [a] accepts
    only the word a; [a] is then extended and determinized again.  The result
    gives [a.accepts('aa')] and [a.makeDeterministic().accepts('aa')]. *)
Definition determinizeExtended (early : bool) : M Store (bool * bool) :=
  let* r := on (Automaton.new "A" "ab") chain01 in
  (if early then Automaton.makeDeterministic 10 true r.1 ;; ret tt else ret tt) ;;
  let* r := on r.1 extend12 in
  let a := r.1 in
  let* d := Automaton.makeDeterministic 10 true a in
  let* σ := get in
  ret (Automaton.accepts σ a "aa", Automaton.accepts σ d "aa").

(** The same with [a.reduce()] as the early call and the two minimizations
    compared: the result gives [h.equivalent(b)], [h.accepts('aa')] and
    [b.accepts('aa')] for [h = a.minimize('Hopcroft')] and
    [b = a.minimize('Brzozowski')]. *)
Definition minimizeExtended (early : bool) : M Store (bool * bool * bool) :=
  let* r := on (Automaton.new "A" "ab") chain01 in
  (if early then Automaton.reduce r.1 ;; ret tt else ret tt) ;;
  let* r := on r.1 extend12 in
  let a := r.1 in
  let* h := Automaton.minimize 20 "Hopcroft" a in
  let* b := Automaton.minimize 20 "Brzozowski" a in
  let* σ := get in
  let* e := Automaton.equivalent 20 h b in
  ret (e, Automaton.accepts σ h "aa", Automaton.accepts σ b "aa").

(** The automaton with the states 1 (start) and 0 (final) and the edge
    1 -b-> 0. *)
Definition chain10 : MA unit :=
  Automaton.addState "1" true false NoTag false ;;
  Automaton.addState "0" false true NoTag false ;;
  Automaton.addEdge (ByName "1") (ByName "0") "b"%char ;;
  ret tt.

(** [a1.union(a2)] for automata named [n1] and [n2]; the result gives
    [a1.accepts('b')], [a2.accepts('b')] and [a1.union(a2).accepts('b')]. *)
Definition unionNamed (n1 n2 : string) : M Store (bool * bool * bool) :=
  let* r1 := on (Automaton.new n1 "ab") chain01 in
  let* r2 := on (Automaton.new n2 "ab") chain10 in
  let* u := Automaton.union r1.1 r2.1 in
  let* σ := get in
  ret (Automaton.accepts σ r1.1 "b", Automaton.accepts σ r2.1 "b",
       Automaton.accepts σ u "b").

(** The automaton of a* with its one state called [name]. *)
Definition loopA (name : string) : MA unit :=
  Automaton.addState name true true NoTag false ;;
  Automaton.addEdge (ByName name) (ByName name) "a"%char ;;
  ret tt.

(** [GeneralizedAutomaton.copyOf(a).equivalentRE()] for [a = loopA name]: the
    number of states and of edges left when the elimination loop has ended,
    and the expression returned. *)
Definition regexOfLoop (name : string) :
    M Store (nat * nat * option RegularExpression) :=
  let* r := on (Automaton.new "A" "ab") (loopA name) in
  let* ga := GeneralizedAutomaton.copyOf r.1 in
  let* r := on ga (GeneralizedAutomaton.equivalentRE 10) in
  ret (length (states r.1), length (edges r.1), r.2).

(** The automaton over the alphabet [symbols] with the states 0 (start) and
    1 (final) and the edge 0 -c-> 1. *)
Definition chainOn (symbols : string) (c : ascii) : MA unit :=
  Automaton.addState "0" true false NoTag false ;;
  Automaton.addState "1" false true NoTag false ;;
  Automaton.addEdge (ByName "0") (ByName "1") c ;;
  ret tt.

(** [a1.union(a2)] for two automata over the alphabet c. *)
Definition unionOverC : M Store Automaton :=
  let* r1 := on (Automaton.new "A" "c") (chainOn "c" "c"%char) in
  let* r2 := on (Automaton.new "B" "c") (chainOn "c" "c"%char) in
  Automaton.union r1.1 r2.1.

(** * Properties *)

(** ** Reasoning about monadic code *)

(** [always R m]: whatever the outcome, the final state is [R]-related to the
    initial one. *)
Definition always {T X} (R : T → T → Prop) (m : M T X) : Prop :=
  ∀ t, R t (m t).1.

Section always.
Context {T : Type} (R : T → T → Prop) `{!PreOrder R}.

Lemma always_ret {X} (x : X) : always R (ret x).
Proof. intros t. reflexivity. Qed.

Lemma always_throw {X} msg : always R (throw msg : M T X).
Proof. intros t. reflexivity. Qed.

Lemma always_outOfFuel {X} : always R (outOfFuel : M T X).
Proof. intros t. reflexivity. Qed.

Lemma always_gets {X} (f : T → X) : always R (gets f).
Proof. intros t. reflexivity. Qed.

Lemma always_modify (f : T → T) : (∀ t, R t (f t)) → always R (modify f).
Proof. intros H t. apply H. Qed.

Lemma always_bind {X Y} (m : M T X) (k : X → M T Y) :
  always R m → (∀ x, always R (k x)) → always R (bind m k).
Proof.
  intros Hm Hk t. unfold bind. specialize (Hm t).
  destruct (m t) as [t' [x| |]]; simpl in *; auto.
  etrans; [exact Hm|apply Hk].
Qed.

Lemma always_forEach {A} (l : list A) (body : A → M T unit) :
  (∀ x, x ∈ l → always R (body x)) → always R (forEach l body).
Proof.
  induction l as [|x l IH]; intros H; simpl.
  - apply always_ret.
  - apply always_bind; [apply H; left|].
    intros _. apply IH. intros y Hy. apply H. by right.
Qed.

Lemma always_foldlM {A B} (f : B → A → M T B) (l : list A) (b : B) :
  (∀ b x, x ∈ l → always R (f b x)) → always R (foldlM f b l).
Proof.
  revert b. induction l as [|x l IH]; intros b H; simpl.
  - apply always_ret.
  - apply always_bind; [apply H; left|].
    intros b'. apply IH. intros b'' y Hy. apply H. by right.
Qed.

Lemma always_forEachLive {A} fuel (cur : T → list A) i (body : A → M T unit) :
  (∀ x, always R (body x)) → always R (forEachLive fuel cur i body).
Proof.
  intros H. revert i. induction fuel as [|fuel IH]; intros i; simpl.
  - apply always_outOfFuel.
  - apply always_bind; [apply always_gets|]. intros l.
    destruct (l !! i); [|apply always_ret].
    apply always_bind; [apply H|]. intros _. apply IH.
Qed.

End always.

(** [hoare P m Q]: from a state in [P], [m] completes normally in a state and
    with a result in [Q]. *)
Definition hoare {T X} (P : T → Prop) (m : M T X) (Q : X → T → Prop) : Prop :=
  ∀ t, P t → ∃ t' x, m t = (t', Ok x) ∧ Q x t'.

Section hoare.
Context {T : Type}.

Lemma hoare_ret {X} (P : T → Prop) (x : X) (Q : X → T → Prop) :
  (∀ t, P t → Q x t) → hoare P (ret x) Q.
Proof. intros H t Ht. exists t, x. split; [done|]. by apply H. Qed.

Lemma hoare_bind {X Y} (P : T → Prop) (m : M T X) (Q : X → T → Prop)
    (k : X → M T Y) (R : Y → T → Prop) :
  hoare P m Q → (∀ x, hoare (Q x) (k x) R) → hoare P (bind m k) R.
Proof.
  intros Hm Hk t Ht. destruct (Hm t Ht) as (t' & x & Hmt & HQ).
  destruct (Hk x t' HQ) as (t'' & y & Hkt & HR).
  exists t'', y. split; [|done]. unfold bind. by rewrite Hmt.
Qed.

Lemma hoare_conseq {X} (P P' : T → Prop) (m : M T X) (Q Q' : X → T → Prop) :
  hoare P' m Q' → (∀ t, P t → P' t) → (∀ x t, Q' x t → Q x t) → hoare P m Q.
Proof.
  intros Hm HP HQ t Ht. destruct (Hm t (HP t Ht)) as (t' & x & ? & ?).
  exists t', x. split; [done|]. by apply HQ.
Qed.

Lemma hoare_gets {X} (P : T → Prop) (f : T → X) (Q : X → T → Prop) :
  (∀ t, P t → Q (f t) t) → hoare P (gets f) Q.
Proof. intros H t Ht. exists t, (f t). split; [done|]. by apply H. Qed.

Lemma hoare_modify (P : T → Prop) (f : T → T) (Q : unit → T → Prop) :
  (∀ t, P t → Q tt (f t)) → hoare P (modify f) Q.
Proof. intros H t Ht. exists (f t), tt. split; [done|]. by apply H. Qed.

(** A loop with an invariant over the elements already visited. *)
Lemma hoare_forEach {A} (I : list A → T → Prop) (l : list A) (body : A → M T unit) :
  (∀ done x rest, l = done ++ x :: rest →
     hoare (I done) (body x) (λ _, I (done ++ [x]))) →
  hoare (I []) (forEach l body) (λ _, I l).
Proof.
  intros H. 
  assert (∀ done rest, l = done ++ rest →
            hoare (I done) (forEach rest body) (λ _, I l)) as Hgen.
  { intros done rest. revert done.
    induction rest as [|x rest IH]; intros done Hl; simpl.
    - apply hoare_ret. intros t Ht. rewrite Hl, app_nil_r. done.
    - eapply hoare_bind; [by apply (H done x rest)|].
      intros []. apply IH. rewrite <- app_assoc. exact Hl. }
  by apply (Hgen [] l).
Qed.

Lemma hoare_foldlM {A B} (I : list A → B → T → Prop) (l : list A)
    (f : B → A → M T B) (b : B) :
  (∀ done x rest b, l = done ++ x :: rest →
     hoare (I done b) (f b x) (λ b', I (done ++ [x]) b')) →
  hoare (I [] b) (foldlM f b l) (λ b', I l b').
Proof.
  intros H.
  assert (∀ done rest b, l = done ++ rest →
            hoare (I done b) (foldlM f b rest) (λ b', I l b')) as Hgen.
  { intros done rest. revert done.
    induction rest as [|x rest IH]; intros done b0 Hl; simpl.
    - apply hoare_ret. intros t Ht. rewrite Hl, app_nil_r. done.
    - eapply hoare_bind; [by apply (H done x rest)|].
      intros b'. apply IH. rewrite <- app_assoc. exact Hl. }
  by apply (Hgen [] l).
Qed.

End hoare.

(** Lifting a method to a construction. *)
Lemma hoare_on {X} (a : Automaton) (m : MA X) (P : Store → Prop)
    (Q : X → Store * Automaton → Prop) :
  hoare (λ p, P p.1 ∧ p.2 = a) m Q →
  hoare P (on a m) (λ r σ, Q r.2 (σ, r.1)).
Proof.
  intros H σ Hσ. destruct (H (σ, a)) as ([σ' a'] & x & Hm & HQ); [done|].
  exists σ', (a', x). unfold on. rewrite Hm. done.
Qed.

(** ** The store *)

Lemma st_updState σ s f t :
  st (updState s f σ) t
  = if decide (s = t ∧ t < length (sts σ)) then f (st σ t) else st σ t.
Proof.
  unfold st, updState; simpl. rewrite list_lookup_alter.
  destruct (decide (s = t ∧ t < length (sts σ))) as [[-> Hlt]|Hn].
  - destruct (lookup_lt_is_Some_2 _ _ Hlt) as [x Hx].
    rewrite decide_True by done. by rewrite Hx.
  - destruct (decide (s = t)) as [->|Hne]; [|done].
    rewrite lookup_ge_None_2; [done|]. apply Nat.le_ngt. naive_solver.
Qed.

Lemma length_updState σ s f : length (sts (updState s f σ)) = length (sts σ).
Proof. unfold updState; simpl. apply length_alter. Qed.

Lemma sname_updState σ s f t :
  (∀ x, sname (f x) = sname x) → sname (st (updState s f σ) t) = sname (st σ t).
Proof. intros Hf. rewrite st_updState. by case_decide. Qed.

Lemma sstart_updState σ s f t :
  (∀ x, sstart (f x) = sstart x) → sstart (st (updState s f σ) t) = sstart (st σ t).
Proof. intros Hf. rewrite st_updState. by case_decide. Qed.

Lemma st_alloc σ x s :
  s < length (sts σ) → st (mkStore (sts σ ++ [x]) (eds σ)) s = st σ s.
Proof. intros Hs. unfold st; simpl. by rewrite lookup_app_l. Qed.

Lemma st_alloc_new σ x :
  st (mkStore (sts σ ++ [x]) (eds σ)) (length (sts σ)) = x.
Proof. unfold st; simpl. by rewrite list_lookup_middle. Qed.

(** ** Calls that leave the states and their names alone *)

Definition sameNames (p p' : Store * Automaton) : Prop :=
  states p'.2 = states p.2 ∧ stateNameMap p'.2 = stateNameMap p.2
  ∧ length (sts p'.1) = length (sts p.1)
  ∧ ∀ s, sname (st p'.1 s) = sname (st p.1 s).

Global Instance sameNames_preorder : PreOrder sameNames.
Proof.
  split.
  - by intros p.
  - intros p1 p2 p3 (?&?&?&H12) (?&?&?&H23).
    repeat split; try congruence; intros s; by rewrite H23, H12.
Qed.

(** Decompose an [always] goal along the structure of the code. *)
Ltac always_leaf :=
  first [ apply always_ret | apply always_throw | apply always_outOfFuel
        | apply always_gets ]; typeclasses eauto.
Ltac always_step :=
  lazymatch goal with
  | |- always _ (bind _ _) => apply always_bind; [typeclasses eauto| |intros ?]
  | |- always _ (match ?x with _ => _ end) => destruct x eqn:?
  | |- always _ (if ?x then _ else _) => destruct x eqn:?
  | |- _ => always_leaf
  end.

Lemma sameNames_modStore f :
  (∀ σ, length (sts (f σ)) = length (sts σ)) →
  (∀ σ s, sname (st (f σ) s) = sname (st σ s)) →
  always sameNames (modStore f).
Proof.
  intros H1 H2. apply always_modify. intros [σ a].
  repeat split; simpl; auto.
Qed.

Lemma sameNames_modThis f :
  (∀ a, states (f a) = states a) → (∀ a, stateNameMap (f a) = stateNameMap a) →
  always sameNames (modThis f).
Proof.
  intros H1 H2. apply always_modify. intros [σ a].
  repeat split; simpl; auto.
Qed.

Lemma sameNames_allocEdge e : always sameNames (allocEdge e).
Proof. intros [σ a]. by repeat split. Qed.

Lemma sameNames_getEdge from to sym : always sameNames (Automaton.getEdge from to sym).
Proof. unfold Automaton.getEdge, getThis, getStore. repeat always_step. Qed.

Lemma sameNames_updEdges s f :
  (∀ x, sname (f x) = sname x) → always sameNames (modStore (updState s f)).
Proof.
  intros Hf. apply sameNames_modStore.
  - intros σ. apply length_updState.
  - intros σ t. by apply sname_updState.
Qed.

Lemma sameNames_addEdge from to sym : always sameNames (Automaton.addEdge from to sym).
Proof.
  unfold Automaton.addEdge, getThis.
  repeat first
    [ apply sameNames_getEdge | apply sameNames_allocEdge
    | by apply sameNames_modThis | by apply sameNames_updEdges | always_step ].
Qed.

Lemma sameNames_deleteEdge e : always sameNames (Automaton.deleteEdge e).
Proof.
  unfold Automaton.deleteEdge, getThis, getStore.
  repeat first
    [ by apply sameNames_modThis | by apply sameNames_updEdges | always_step ].
Qed.

(** [keeps I]: the relation of states that carry the invariant [I] along. *)
Definition keeps {T} (I : T → Prop) : relation T := λ t t', I t → I t'.

Global Instance keeps_preorder {T} (I : T → Prop) : PreOrder (keeps I).
Proof. split; unfold keeps; [by intros t|]. intros t1 t2 t3 H12 H23 H1. auto. Qed.

Lemma always_weaken {T X} (R R' : relation T) (m : M T X) :
  (∀ t t', R t t' → R' t t') → always R m → always R' m.
Proof. intros H Hm t. apply H, Hm. Qed.

(** ** The name index of an automaton *)

Record NamesInv (p : Store * Automaton) : Prop := mkNamesInv {
  ni_valid : ∀ s, s ∈ states p.2 → s < length (sts p.1);
  ni_nodup : NoDup (states p.2);
  ni_map : ∀ k s, stateNameMap p.2 !! k = Some s
                  ↔ s ∈ states p.2 ∧ sname (st p.1 s) = k
}.

Lemma NamesInv_sameNames p p' : sameNames p p' → NamesInv p → NamesInv p'.
Proof.
  intros (Hst & Hmap & Hlen & Hnm) [Hv Hnd Hm]. split.
  - intros s. rewrite Hst, Hlen. apply Hv.
  - by rewrite Hst.
  - intros k s. rewrite Hst, Hmap, Hnm. apply Hm.
Qed.

Lemma NamesInv_new σ name symbols : NamesInv (σ, Automaton.new name symbols).
Proof.
  split; simpl.
  - intros s Hs. by apply elem_of_nil in Hs.
  - constructor.
  - intros k s. rewrite lookup_empty. split; [done|]. intros [Hs _].
    by apply elem_of_nil in Hs.
Qed.

(** Appending ['x'] eventually yields a free name. *)
Fixpoint xs (n : nat) : string :=
  match n with 0 => "" | S n' => String "x" (xs n') end.

Lemma append_assoc (s1 s2 s3 : string) : (s1 +:+ s2) +:+ s3 = s1 +:+ (s2 +:+ s3).
Proof.
  induction s1 as [|c s1 IH]; simpl; [done|].
  unfold String.app in *. simpl. by rewrite IH.
Qed.

Lemma append_nil_r (s : string) : s +:+ "" = s.
Proof. induction s as [|c s IH]; [done|]. unfold String.app in *. simpl. by rewrite IH. Qed.

Lemma length_append (s1 s2 : string) :
  String.length (s1 +:+ s2) = String.length s1 + String.length s2.
Proof. induction s1 as [|c s1 IH]; [done|]. unfold String.app in *. simpl. by rewrite IH. Qed.

Lemma xs_S n : "x" +:+ xs n = xs (S n).
Proof. done. Qed.

Lemma uniquify_fresh_aux fuel (m m' : gmap string nat) name :
  (∀ j, is_Some (m !! (name +:+ xs j)) → is_Some (m' !! (name +:+ xs j))) →
  size m' ≤ fuel →
  m !! Automaton.uniquify fuel m name = None.
Proof.
  revert m' name. induction fuel as [|fuel IH]; intros m' name Hsub Hsize; simpl.
  - destruct (m !! name) as [s|] eqn:Hn; [|done].
    assert (m' = ∅) as -> by (apply map_size_empty_inv; lia).
    destruct (Hsub 0) as [? Hx]; [rewrite append_nil_r; eauto|].
    by rewrite lookup_empty in Hx.
  - destruct (m !! name) as [s|] eqn:Hn; [|done].
    apply (IH (delete name m')).
    + intros j Hj. rewrite append_assoc, xs_S in *.
      rewrite lookup_delete_ne; [by apply Hsub|].
      intros Heq. apply (f_equal String.length) in Heq.
      rewrite length_append in Heq. simpl in Heq. lia.
    + destruct (Hsub 0) as [? Hx]; [rewrite append_nil_r; eauto|].
      rewrite append_nil_r in Hx.
      rewrite map_size_delete, Hx. destruct (size m'); lia.
Qed.

Lemma uniquify_fresh (m : gmap string nat) name :
  m !! Automaton.uniquify (size m) m name = None.
Proof. by apply (uniquify_fresh_aux _ m m). Qed.

Lemma uniquify_nonempty fuel (m : gmap string nat) name :
  name ≠ "" → Automaton.uniquify fuel m name ≠ "".
Proof.
  revert name. induction fuel as [|fuel IH]; intros name Hne; simpl; [done|].
  destruct (m !! name); [|done]. apply IH. by destruct name.
Qed.

Lemma elem_of_JsSet_add {A} `{EqDecision A} (x y : A) l :
  y ∈ JsSet.add x l ↔ y ∈ l ∨ y = x.
Proof.
  unfold JsSet.add. case_decide as Hx.
  - split; [auto|]. intros [?| ->]; done.
  - rewrite elem_of_app, list_elem_of_singleton. done.
Qed.

Lemma NoDup_JsSet_add {A} `{EqDecision A} (x : A) l : NoDup l → NoDup (JsSet.add x l).
Proof.
  intros Hnd. unfold JsSet.add. case_decide as Hx; [done|].
  apply NoDup_app. split_and!; [done| |apply NoDup_singleton].
  intros y Hy ->%list_elem_of_singleton. done.
Qed.

Lemma elem_of_JsSet_delete {A} `{EqDecision A} (x y : A) l :
  y ∈ JsSet.delete x l ↔ y ∈ l ∧ y ≠ x.
Proof. unfold JsSet.delete. rewrite list_elem_of_filter. tauto. Qed.

Lemma NoDup_JsSet_delete {A} `{EqDecision A} (x : A) l :
  NoDup l → NoDup (JsSet.delete x l).
Proof. apply NoDup_filter. Qed.

Lemma NamesInv_addState name start final tag forceNew p :
  name ≠ "" → NamesInv p →
  NamesInv (Automaton.addState name start final tag forceNew p).1.
Proof.
  intros Hne [Hv Hnd Hm]. destruct p as [σ a]. simpl in *.
  unfold Automaton.addState, bind, getThis, gets; simpl.
  set (name' := if forceNew then _ else name).
  assert (name' ≠ "") as Hne'.
  { subst name'. destruct forceNew; [by apply uniquify_nonempty|done]. }
  unfold Automaton.getStateByName.
  destruct (stateNameMap a !! name') as [s|] eqn:Hlook; simpl; [by split|].
  assert (length (sts σ) ∉ states a) as Hfresh.
  { intros Hin. apply Hv in Hin. lia. }
  split; simpl.
  - intros s. rewrite elem_of_JsSet_add, length_app. simpl.
    intros [Hs| ->]; [apply Hv in Hs|]; lia.
  - by apply NoDup_JsSet_add.
  - intros k s. rewrite elem_of_JsSet_add. destruct (decide (k = name')) as [->|Hk].
    + rewrite lookup_insert_eq. split.
      * intros [= <-]. split; [by right|]. rewrite st_alloc_new.
        unfold newState; simpl. by rewrite decide_False.
      * intros [[Hs| ->] Hnm]; [|done].
        rewrite st_alloc in Hnm by by apply Hv.
        assert (stateNameMap a !! name' = Some s) as Hc by by apply Hm.
        congruence.
    + rewrite lookup_insert_ne by done. rewrite Hm. split.
      * intros [Hs Hnm]. split; [by left|]. by rewrite st_alloc by by apply Hv.
      * intros [[Hs| ->] Hnm].
        -- split; [done|]. by rewrite st_alloc in Hnm by by apply Hv.
        -- rewrite st_alloc_new in Hnm. unfold newState in Hnm; simpl in Hnm.
           rewrite decide_False in Hnm by done. congruence.
Qed.

Lemma renameState_eq s newName σ a :
  Automaton.renameState s newName (σ, a)
  = ((updState s (set_sname newName) σ,
      set_stateNameMap (<[newName := s]> (delete (sname (st σ s)) (stateNameMap a))) a),
     Ok tt).
Proof. reflexivity. Qed.

Lemma NamesInv_renameState s newName p :
  s ∈ states p.2 →
  (∀ t, t ∈ states p.2 → sname (st p.1 t) = newName → t = s) →
  NamesInv p → NamesInv (Automaton.renameState s newName p).1.
Proof.
  destruct p as [σ a]. rewrite renameState_eq. cbn [fst snd].
  intros Hs Hfree [Hv Hnd Hm]; cbn [fst snd] in *.
  assert (∀ t, sname (st (updState s (set_sname newName) σ) t)
               = if decide (t = s) then newName else sname (st σ t)) as Hnm.
  { intros t. rewrite st_updState. destruct (decide (t = s)) as [->|Hts].
    - rewrite decide_True; [done|]. split; [done|]. by apply Hv.
    - rewrite decide_False; [done|]. by intros [-> _]. }
  split; cbn [fst snd states stateNameMap set_stateNameMap].
  - intros t Ht. rewrite length_updState. by apply Hv.
  - done.
  - intros k t. rewrite Hnm. destruct (decide (k = newName)) as [->|Hk].
    + rewrite lookup_insert_eq. split.
      * intros [= <-]. by rewrite decide_True.
      * intros [Ht Hn]. destruct (decide (t = s)) as [->|]; [done|].
        f_equal. symmetry. by apply Hfree.
    + rewrite lookup_insert_ne by done.
      destruct (decide (k = sname (st σ s))) as [->|Hk'].
      * rewrite lookup_delete_eq. split; [done|]. intros [Ht Hn].
        destruct (decide (t = s)) as [->|Hts]; [done|].
        assert (stateNameMap a !! sname (st σ s) = Some t) as H1 by by apply Hm.
        assert (stateNameMap a !! sname (st σ s) = Some s) as H2 by by apply Hm.
        congruence.
      * rewrite lookup_delete_ne by done. rewrite Hm. split.
        -- intros [Ht Hn]. split; [done|]. rewrite decide_False; [done|].
           intros ->. done.
        -- intros [Ht Hn]. split; [done|].
           destruct (decide (t = s)) as [->|]; [done|done].
Qed.

Lemma NamesInv_delete s p :
  s ∈ states p.2 → NamesInv p →
  NamesInv (p.1, set_states (JsSet.delete s (states p.2))
                   (set_stateNameMap (delete (sname (st p.1 s)) (stateNameMap p.2)) p.2)).
Proof.
  destruct p as [σ a]; simpl. intros Hs [Hv Hnd Hm]; simpl in *.
  split; simpl.
  - intros t [Ht _]%elem_of_JsSet_delete. by apply Hv.
  - by apply NoDup_JsSet_delete.
  - intros k t. rewrite elem_of_JsSet_delete.
    destruct (decide (k = sname (st σ s))) as [->|Hk].
    + rewrite lookup_delete_eq. split; [done|]. intros [[Ht Hts] Hn].
      assert (stateNameMap a !! sname (st σ s) = Some t) as H1 by by apply Hm.
      assert (stateNameMap a !! sname (st σ s) = Some s) as H2 by by apply Hm.
      congruence.
    + rewrite lookup_delete_ne by done. rewrite Hm. split.
      * intros [Ht Hn]. split_and!; [done| |done]. intros ->. done.
      * intros [[Ht _] Hn]. done.
Qed.

(** [leads I J m]: from [I], whatever the outcome, [m] ends in [J]. *)
Definition leads {T X} (I J : T → Prop) (m : M T X) : Prop :=
  ∀ t, I t → J (m t).1.

Lemma leads_bind {T X Y} (I J : T → Prop) (m : M T X) (k : X → M T Y) :
  always (keeps I) m → (∀ t, I t → J t) → (∀ x, leads I J (k x)) →
  leads I J (bind m k).
Proof.
  intros Hm HIJ Hk t Ht. unfold bind. specialize (Hm t Ht).
  destruct (m t) as [t' [x| |]]; simpl in *; auto. by apply Hk.
Qed.

Lemma leads_gets_bind {T X Y} (I J : T → Prop) (f : T → X) (k : X → M T Y) :
  (∀ t, I t → J (k (f t) t).1) → leads I J (bind (gets f) k).
Proof. intros H t Ht. unfold bind, gets. by apply H. Qed.

Lemma deleteState_ByName n p :
  Automaton.deleteState (ByName n) p
  = match stateNameMap p.2 !! n with
    | Some s => Automaton.deleteState (ByObj s) p
    | None => (p, Throw "TypeError: s is undefined")
    end.
Proof.
  unfold Automaton.deleteState, bind at 1 3, getThis, gets. simpl.
  by destruct (stateNameMap p.2 !! n).
Qed.

Lemma NamesInv_deleteState_obj s :
  leads (λ t, NamesInv t ∧ s ∈ states t.2) NamesInv (Automaton.deleteState (ByObj s)).
Proof.
  set (I := λ t : Store * Automaton, NamesInv t ∧ s ∈ states t.2).
  assert (∀ X (m : MA X), always sameNames m → always (keeps I) m) as Hk.
  { intros X m. apply always_weaken. intros t t' Hsame [Ht Hs]. split.
    - by eapply NamesInv_sameNames.
    - destruct Hsame as (-> & _). done. }
  assert (∀ t, I t → NamesInv t) as HIJ by by intros t [? _].
  unfold Automaton.deleteState, getThis, getStore. simpl.
  apply leads_bind; [apply always_gets, _|done|intros a0].
  apply leads_bind; [apply always_gets, _|done|intros σ0].
  apply leads_bind; [|done|intros _].
  { apply Hk, always_forEach; [apply _|]. intros e _. apply sameNames_deleteEdge. }
  apply leads_bind; [apply always_gets, _|done|intros σ1].
  apply leads_bind; [|done|intros _].
  { apply Hk, always_forEach; [apply _|]. intros e _. apply sameNames_deleteEdge. }
  apply leads_gets_bind.
  intros [σ3 a3] [Hi2 Hs2]. by apply (NamesInv_delete s (σ3, a3)).
Qed.

Lemma NamesInv_deleteState state p :
  (∀ s, state = ByObj s → s ∈ states p.2) →
  NamesInv p → NamesInv (Automaton.deleteState state p).1.
Proof.
  intros Hadm Hinv. destruct state as [n|s].
  - rewrite deleteState_ByName.
    destruct (stateNameMap p.2 !! n) as [s|] eqn:Hn; [|done].
    apply NamesInv_deleteState_obj. split; [done|].
    by apply (ni_map _ Hinv) in Hn as [? _].
  - apply NamesInv_deleteState_obj. split; [done|]. by apply Hadm.
Qed.

(** The calls covered by the invariant. *)
Definition admissible (p : Store * Automaton) (op : Op) : Prop :=
  match op with
  | OpAddState name _ _ _ _ => name ≠ ""
  | OpRenameState s newName =>
      s ∈ states p.2
      ∧ ∀ t, t ∈ states p.2 → sname (st p.1 t) = newName → t = s
  | OpDeleteState (ByObj s) => s ∈ states p.2
  | _ => True
  end.

Fixpoint admissibleAll (ops : list Op) (p : Store * Automaton) : Prop :=
  match ops with
  | [] => True
  | op :: ops' => admissible p op ∧ admissibleAll ops' (exec op p).1
  end.

(** The invariant of the data model: every state is indexed under its name,
    and names are pairwise distinct. *)
Definition namesIndexed (p : Store * Automaton) : Prop :=
  (∀ s, s ∈ states p.2 → stateNameMap p.2 !! sname (st p.1 s) = Some s)
  ∧ (∀ s t, s ∈ states p.2 → t ∈ states p.2 →
       sname (st p.1 s) = sname (st p.1 t) → s = t).

Lemma bind_ret_fst {T X Y} (m : M T X) (y : Y) t : (bind m (λ _, ret y) t).1 = (m t).1.
Proof. unfold bind. by destruct (m t) as [t' [x| |]]. Qed.

Lemma NamesInv_exec p op : admissible p op → NamesInv p → NamesInv (exec op p).1.
Proof.
  intros Hadm Hinv. destruct op as [name start final tag forceNew|from to sym|s n|e|state];
    simpl in *.
  - rewrite bind_ret_fst. by apply NamesInv_addState.
  - rewrite bind_ret_fst. eapply NamesInv_sameNames; [apply sameNames_addEdge|done].
  - destruct Hadm. by apply NamesInv_renameState.
  - eapply NamesInv_sameNames; [apply sameNames_deleteEdge|done].
  - apply NamesInv_deleteState; [|done]. by intros s ->.
Qed.

Lemma NamesInv_execAll ops p :
  admissibleAll ops p → NamesInv p → NamesInv (execAll ops p).
Proof.
  revert p. induction ops as [|op ops IH]; intros p Hadm Hinv; simpl; [done|].
  destruct Hadm as [Hop Hops]. apply IH; [done|]. by apply NamesInv_exec.
Qed.

Lemma NamesInv_namesIndexed p : NamesInv p → namesIndexed p.
Proof.
  intros [Hv Hnd Hm]. split.
  - intros s Hs. by apply Hm.
  - intros s t Hs Ht Heq.
    assert (stateNameMap p.2 !! sname (st p.1 s) = Some s) as H1 by by apply Hm.
    assert (stateNameMap p.2 !! sname (st p.1 s) = Some t) as H2 by by apply Hm.
    congruence.
Qed.







(** ** DFS renaming and the signature *)

(** Calls that leave the transition structure and the start flags alone. *)
Definition sameShape (p p' : Store * Automaton) : Prop :=
  states p'.2 = states p.2 ∧ deltaMap p'.2 = deltaMap p.2
  ∧ ∀ s, sstart (st p'.1 s) = sstart (st p.1 s).

Global Instance sameShape_preorder : PreOrder sameShape.
Proof.
  split.
  - by intros p.
  - intros p1 p2 p3 (?&?&H12) (?&?&H23).
    repeat split; try congruence; intros s; by rewrite H23, H12.
Qed.

Lemma sameShape_isDeterministic p p' :
  sameShape p p' → Automaton.isDeterministic p'.1 p'.2 = Automaton.isDeterministic p.1 p.2.
Proof.
  intros (Hst & Hdm & Hs). unfold Automaton.isDeterministic, Automaton.getStartStates.
  rewrite Hst, Hdm.
  assert (filter (λ s, sstart (st p'.1 s) = true) (states p.2)
          = filter (λ s, sstart (st p.1 s) = true) (states p.2)) as ->; [|done].
  apply list_filter_iff. intros s. by rewrite Hs.
Qed.

Lemma sameShape_modStore s f :
  (∀ x, sstart (f x) = sstart x) → always sameShape (modStore (updState s f)).
Proof.
  intros Hf. apply always_modify. intros [σ a]. repeat split; simpl.
  intros t. by apply sstart_updState.
Qed.

Lemma sameShape_renameState s newName : always sameShape (Automaton.renameState s newName).
Proof.
  unfold Automaton.renameState, getStore.
  repeat first [ by apply sameShape_modStore
               | by (apply always_modify; intros [??])
               | always_step ].
Qed.

Lemma sameShape_renameStatesDFS_dfs fuel d s count :
  always sameShape (Automaton.renameStatesDFS_dfs fuel d s count).
Proof.
  revert s count. induction fuel as [|fuel IH]; intros s count; simpl.
  - always_leaf.
  - apply always_bind; [apply _|by apply sameShape_modStore|intros _].
    apply always_bind; [apply _|apply sameShape_renameState|intros _].
    apply always_bind; [apply _|apply always_gets, _|intros σ].
    apply always_foldlM; [apply _|]. intros c e _.
    apply always_bind; [apply _|apply always_gets, _|intros σ'].
    destruct (marked _); [always_leaf|apply IH].
Qed.

Lemma sameShape_renameStatesDFS : always sameShape Automaton.renameStatesDFS.
Proof.
  unfold Automaton.renameStatesDFS, getThis, getStore.
  apply always_bind; [apply _|apply always_gets, _|intros a].
  case_decide; [always_leaf|].
  apply always_bind; [apply _| |intros _].
  { apply always_forEach; [apply _|]. intros s _. by apply sameShape_modStore. }
  apply always_bind; [apply _|apply always_gets, _|intros σ].
  destruct (Automaton.getStartStates σ a) as [|s0 ?]; [always_leaf|].
  apply always_bind; [apply _|apply sameShape_renameStatesDFS_dfs|intros _].
  always_leaf.
Qed.

(** Determinism is not affected by the renaming, so the test made after it
    answers for the automaton as it was given. *)
Lemma renameStatesDFS_isDeterministic σ a p r :
  Automaton.renameStatesDFS (σ, a) = (p, r) →
  Automaton.isDeterministic p.1 p.2 = Automaton.isDeterministic σ a.
Proof.
  intros Hr. pose proof (sameShape_renameStatesDFS (σ, a)) as H.
  rewrite Hr in H. by apply sameShape_isDeterministic in H.
Qed.

(** A string is returned only for a deterministic automaton. *)
Lemma signatureDFS_string σ a p sig :
  Automaton.signatureDFS (σ, a) = (p, Ok (Some sig)) →
  Automaton.isDeterministic σ a = true.
Proof.
  unfold Automaton.signatureDFS, bind.
  destruct (Automaton.renameStatesDFS (σ, a)) as [p' [[]| |]] eqn:Hr; [|done..].
  unfold getThis, getStore, gets, ret. cbn [fst snd].
  rewrite <- (renameStatesDFS_isDeterministic _ _ _ _ Hr).
  destruct (Automaton.isDeterministic p'.1 p'.2); [done|]. simpl. intros [=].
Qed.

(** ** Base62 names of a fixed width *)

Lemma floorLog62_go_spec fuel n :
  1 ≤ n → n ≤ fuel →
  62 ^ Util.floorLog62_go fuel n ≤ n < 62 ^ (Util.floorLog62_go fuel n + 1).
Proof.
  revert n. induction fuel as [|fuel IH]; intros n H1 Hf; [lia|]. simpl.
  case_decide as Hlt; simpl; [lia|].
  assert (1 ≤ n / 62) as Hq1 by (apply Nat.div_le_lower_bound; lia).
  assert (n / 62 ≤ fuel) as Hqf.
  { pose proof (Nat.Div0.div_lt_upper_bound n 62 (S fuel)). lia. }
  specialize (IH (n / 62) Hq1 Hqf).
  pose proof (Nat.div_mod_eq n 62) as Hdm.
  pose proof (Nat.mod_upper_bound n 62) as Hmod.
  rewrite !Nat.pow_add_r in *. simpl in *. lia.
Qed.

(** [floorLog62] is the integer logarithm to base 62. *)
Lemma floorLog62_spec n :
  1 ≤ n → 62 ^ Util.floorLog62 n ≤ n < 62 ^ (Util.floorLog62 n + 1).
Proof. intros H. by apply floorLog62_go_spec. Qed.

Lemma length_padZero n s : String.length (Util.padZero n s) = n + String.length s.
Proof.
  revert s. induction n as [|n IH]; intros s; simpl; [done|]. rewrite IH. simpl. lia.
Qed.

Lemma length_toBase62_digits fuel k acc d :
  k ≤ fuel → k < 62 ^ d →
  String.length (Util.toBase62_digits fuel k acc) ≤ d + String.length acc.
Proof.
  revert k acc d. induction fuel as [|fuel IH]; intros k acc d Hf Hd; simpl; [lia|].
  case_decide as Hk; [|lia].
  destruct d as [|d]; [simpl in Hd; lia|].
  assert (k / 62 < 62 ^ d) as Hq.
  { apply Nat.Div0.div_lt_upper_bound. simpl in Hd. lia. }
  assert (k / 62 ≤ fuel) as Hqf.
  { pose proof (Nat.Div0.div_lt_upper_bound k 62 (S fuel)). lia. }
  specialize (IH (k / 62) (String (Util.digit62 (k mod 62)) acc) d Hqf Hq).
  simpl in IH. lia.
Qed.

(** A number below [62 ^ d] is written with exactly [d] digits. *)
Lemma length_toBase62 k d : k < 62 ^ d → String.length (Util.toBase62 k d) = d.
Proof.
  intros Hk. unfold Util.toBase62. rewrite length_padZero.
  pose proof (length_toBase62_digits k k "" d (le_n _) Hk) as H. simpl in H. lia.
Qed.

Lemma length_toBase62_totalDigits n count :
  count < n → String.length (Util.toBase62 count (Util.totalDigits n)) = Util.totalDigits n.
Proof.
  intros Hc. apply length_toBase62. unfold Util.totalDigits.
  pose proof (floorLog62_spec n). lia.
Qed.

(** ** The search of [renameStatesDFS] *)

Lemma elem_of_insertBy {A} (le : A → A → bool) x y l :
  x ∈ insertBy le y l ↔ x = y ∨ x ∈ l.
Proof.
  induction l as [|z l IH]; simpl.
  - rewrite list_elem_of_singleton. split; [auto|]. intros [?|H]; [done|].
    by apply elem_of_nil in H.
  - destruct (le z y); rewrite !elem_of_cons; [rewrite IH|]; tauto.
Qed.

Lemma elem_of_sortBy {A} (le : A → A → bool) x l : x ∈ sortBy le l ↔ x ∈ l.
Proof.
  unfold sortBy.
  assert (∀ acc, x ∈ foldl (λ acc y, insertBy le y acc) acc l ↔ x ∈ acc ∨ x ∈ l) as H.
  { induction l as [|y l IH]; intros acc; simpl.
    - split; [auto|]. intros [?|H]; [done|]. by apply elem_of_nil in H.
    - rewrite IH, elem_of_insertBy, elem_of_cons. tauto. }
  rewrite H. split; [|auto]. intros [H'|?]; [|done]. by apply elem_of_nil in H'.
Qed.

(** The number of marked states among [l]. *)
Definition markedCount (σ : Store) (l : list nat) : nat :=
  length (filter (λ s, marked (st σ s) = true) l).

Lemma markedCount_le σ l : markedCount σ l ≤ length l.
Proof. apply length_filter. Qed.

Lemma markedCount_lt σ l s :
  s ∈ l → marked (st σ s) = false → markedCount σ l < length l.
Proof.
  unfold markedCount. induction l as [|x l IH]; intros Hs Hm.
  - by apply elem_of_nil in Hs.
  - rewrite filter_cons. apply elem_of_cons in Hs as [->|Hs].
    + rewrite decide_False by congruence. simpl.
      pose proof (length_filter (λ s, marked (st σ s) = true) l). lia.
    + specialize (IH Hs Hm). case_decide; simpl; lia.
Qed.

Lemma markedCount_ext σ τ l :
  (∀ s, s ∈ l → marked (st τ s) = marked (st σ s)) →
  markedCount τ l = markedCount σ l.
Proof.
  intros H. unfold markedCount. f_equal.
  induction l as [|x l IH]; [done|].
  rewrite !filter_cons, (H x) by left.
  rewrite IH by (intros s Hs; apply H; by right). done.
Qed.

Lemma markedCount_mark σ l s :
  NoDup l → s ∈ l → s < length (sts σ) → marked (st σ s) = false →
  markedCount (updState s (set_marked true) σ) l = S (markedCount σ l).
Proof.
  unfold markedCount. induction l as [|x l IH]; intros Hnd Hs Hv Hm.
  - by apply elem_of_nil in Hs.
  - apply NoDup_cons in Hnd as [Hx Hnd]. rewrite !filter_cons.
    apply elem_of_cons in Hs as [->|Hs].
    + rewrite st_updState. rewrite (decide_True (P := _ ∧ _)) by auto. simpl.
      rewrite decide_False by congruence. f_equal.
      apply (markedCount_ext σ). intros t Ht. rewrite st_updState.
      rewrite decide_False; [done|]. intros [-> _]. done.
    + assert (x ≠ s) as Hne by (intros ->; done).
      rewrite st_updState. rewrite (decide_False (P := _ ∧ _)) by (intros [? _]; done).
      specialize (IH Hnd Hs Hv Hm). case_decide; simpl; lia.
Qed.

(** A search only ever sets marks. *)
Definition marksGrow (p q : Store * Automaton) : Prop :=
  ∀ t, marked (st p.1 t) = true → marked (st q.1 t) = true.

Global Instance marksGrow_preorder : PreOrder marksGrow.
Proof. split; unfold marksGrow; [by intros p|]. intros p1 p2 p3 H12 H23 t Ht. auto. Qed.

Lemma marksGrow_renameState s newName : always marksGrow (Automaton.renameState s newName).
Proof.
  intros [σ a]. rewrite renameState_eq. intros t. simpl.
  rewrite st_updState. by case_decide.
Qed.

Lemma marksGrow_renameStatesDFS_dfs fuel d s count :
  always marksGrow (Automaton.renameStatesDFS_dfs fuel d s count).
Proof.
  revert s count. induction fuel as [|fuel IH]; intros s count; simpl.
  - always_leaf.
  - apply always_bind; [apply _| |intros _].
    { apply always_modify. intros [σ a] t. simpl. rewrite st_updState.
      case_decide; [done|done]. }
    apply always_bind; [apply _|apply marksGrow_renameState|intros _].
    apply always_bind; [apply _|apply always_gets, _|intros σ].
    apply always_foldlM; [apply _|]. intros c e _.
    apply always_bind; [apply _|apply always_gets, _|intros τ].
    destruct (marked _); [always_leaf|apply IH].
Qed.

Section renameDfs.
(** The automaton when the search starts, marks cleared, and the width. *)
Variable p0 : Store * Automaton.
Variable d : nat.
Hypothesis Hd : d = Util.totalDigits (length (states p0.2)).
Hypothesis Hnodup : NoDup (states p0.2).
Hypothesis Hvalid : ∀ s, s ∈ states p0.2 → s < length (sts p0.1).
Hypothesis Hclosed :
  ∀ s e, s ∈ states p0.2 → e ∈ edgesOut (st p0.1 s) → sink (ed p0.1 e) ∈ states p0.2.

(** What holds while the search runs: [count] states of the automaton are
    marked, and each of them carries a name of [d] digits. *)
Definition searching (count : nat) (p : Store * Automaton) : Prop :=
  states p.2 = states p0.2
  ∧ length (sts p.1) = length (sts p0.1)
  ∧ eds p.1 = eds p0.1
  ∧ (∀ s, edgesOut (st p.1 s) = edgesOut (st p0.1 s))
  ∧ count = markedCount p.1 (states p0.2)
  ∧ ∀ s, s ∈ states p0.2 → marked (st p.1 s) = true →
         String.length (sname (st p.1 s)) = d.

Lemma searching_visit count s σ a :
  searching count (σ, a) → s ∈ states p0.2 → marked (st σ s) = false →
  searching (S count)
    (updState s (set_sname (Util.toBase62 count d)) (updState s (set_marked true) σ),
     set_stateNameMap
       (<[Util.toBase62 count d := s]>
          (delete (sname (st (updState s (set_marked true) σ) s)) (stateNameMap a))) a).
Proof.
  intros (Hst & Hlen & Heds & Hout & Hc & Hnm) Hs Hm. cbn [fst snd] in *.
  assert (s < length (sts σ)) as Hv by (rewrite Hlen; by apply Hvalid).
  assert (count < length (states p0.2)) as Hlt.
  { rewrite Hc. by eapply markedCount_lt. }
  split_and!; cbn [fst snd states set_stateNameMap].
  - done.
  - by rewrite !length_updState.
  - done.
  - intros t. rewrite !st_updState, length_updState. repeat case_decide; simpl; auto.
  - rewrite (markedCount_ext (updState s (set_marked true) σ)).
    + rewrite markedCount_mark by done. by rewrite Hc.
    + intros t _. rewrite (st_updState (updState _ _ _)). by case_decide.
  - intros t Ht. rewrite !st_updState, length_updState.
    destruct (decide (s = t)) as [->|Hne].
    + rewrite !(decide_True (P := _ ∧ _)) by auto. simpl. intros _.
      rewrite Hd. by apply length_toBase62_totalDigits.
    + rewrite !(decide_False (P := _ ∧ _)) by (intros [? _]; done). by apply Hnm.
Qed.

(** Every marked state outside [G], the states whose visit is under way, has
    all its successors marked. *)
Definition successorsMarked (G : list nat) (p : Store * Automaton) : Prop :=
  ∀ t e, t ∈ states p0.2 → marked (st p.1 t) = true → t ∉ G →
         e ∈ edgesOut (st p0.1 t) → marked (st p.1 (sink (ed p0.1 e))) = true.

Lemma renameStatesDFS_dfs_ok fuel s count G :
  length (states p0.2) - count ≤ fuel →
  hoare (λ p, searching count p ∧ s ∈ states p0.2 ∧ marked (st p.1 s) = false
              ∧ successorsMarked G p)
    (Automaton.renameStatesDFS_dfs fuel d s count)
    (λ c p, searching c p ∧ count < c ∧ marked (st p.1 s) = true
            ∧ successorsMarked G p).
Proof.
  revert s count G. induction fuel as [|fuel IH]; intros s count G Hfuel.
  { intros [σ a] (Hsr & Hs & Hm & _). exfalso.
    destruct Hsr as (_ & _ & _ & _ & Hc & _).
    pose proof (markedCount_lt σ _ s Hs Hm). simpl in *. lia. }
  simpl. intros [σ a] (Hsr & Hs & Hm & Hsm). simpl in Hm.
  pose proof (searching_visit count s σ a Hsr Hs Hm) as Hvis.
  unfold bind at 1, modStore, modify. cbn [fst snd].
  unfold bind at 1. rewrite renameState_eq. cbn [fst snd].
  unfold bind at 1, getStore, gets. cbn [fst snd].
  set (σ1 := updState s (set_sname (Util.toBase62 count d))
               (updState s (set_marked true) σ)) in *.
  set (a1 := set_stateNameMap _ a) in *.
  assert (s < length (sts σ)) as Hsv.
  { destruct Hsr as (_ & Hlen & _). simpl in Hlen. rewrite Hlen. by apply Hvalid. }
  assert (∀ t, marked (st σ1 t) = if decide (t = s) then true else marked (st σ t))
    as Hmarks.
  { intros t. subst σ1. rewrite !st_updState, length_updState.
    destruct (decide (t = s)) as [->|Hne].
    - by rewrite !(decide_True (P := _ ∧ _)) by auto.
    - by rewrite !(decide_False (P := _ ∧ _)) by (intros [? _]; done). }
  assert (marked (st σ1 s) = true) as Hmarked.
  { rewrite Hmarks. by rewrite decide_True. }
  assert (successorsMarked (s :: G) (σ1, a1)) as Hsm1.
  { intros t e Ht Hmt Hnt He. cbn [fst] in *.
    apply not_elem_of_cons in Hnt as [Hne Hnt].
    rewrite Hmarks in Hmt. rewrite decide_False in Hmt by done.
    rewrite Hmarks. case_decide; [done|]. by apply (Hsm t e). }
  set (l := sortBy _ _).
  assert (∀ e, e ∈ l ↔ e ∈ edgesOut (st p0.1 s)) as Hl0.
  { intros e. subst l. rewrite elem_of_sortBy.
    destruct Hvis as (_ & _ & _ & Hout & _). simpl in Hout. by rewrite Hout. }
  assert (∀ e, e ∈ l → sink (ed p0.1 e) ∈ states p0.2) as Hl.
  { intros e He%Hl0. by eapply Hclosed. }
  clearbody l.
  pose (I := λ (done : list nat) (c : nat) (p : Store * Automaton),
               searching c p ∧ count < c ∧ marked (st p.1 s) = true
               ∧ successorsMarked (s :: G) p
               ∧ ∀ e, e ∈ done → marked (st p.1 (sink (ed p0.1 e))) = true).
  assert (hoare (I [] (S count))
            (foldlM
               (λ (count0 : nat) (e : nat),
                  let* τ := gets fst in
                  if marked (st τ (sink (ed τ e))) then ret count0
                  else Automaton.renameStatesDFS_dfs fuel d (sink (ed τ e)) count0)
               (S count) l)
            (λ c, I l c)) as Hloop.
  { apply (hoare_foldlM I). intros done e rest c Hsplit.
    assert (e ∈ l) as He.
    { rewrite Hsplit. apply elem_of_app. right. left. }
    intros [σc ac] (Hsc & Hcc & Hmc & Hsmc & Hdone). unfold bind, gets. cbn [fst snd].
    assert (sink (ed σc e) = sink (ed p0.1 e)) as Hsink.
    { destruct Hsc as (_ & _ & Heds & _). unfold ed. simpl in Heds. by rewrite Heds. }
    rewrite Hsink.
    destruct (marked (st σc (sink (ed p0.1 e)))) eqn:Hmk.
    - eexists _, _. split; [done|]. split_and!; [done..|].
      intros e' [He'| ->%list_elem_of_singleton]%elem_of_app; [by apply Hdone|done].
    - destruct (IH (sink (ed p0.1 e)) c (s :: G)) with (t := (σc, ac))
        as (q & c1 & Hrun & Hs1 & Hc1 & Hm1 & Hsm').
      + lia.
      + split_and!; [done|by apply Hl|done|done].
      + pose proof (marksGrow_renameStatesDFS_dfs fuel d (sink (ed p0.1 e)) c (σc, ac))
          as Hgrow.
        rewrite Hrun in Hgrow.
        exists q, c1. split; [done|]. split_and!; [done|lia|by apply Hgrow|done|].
        intros e' [He'| ->%list_elem_of_singleton]%elem_of_app; [|done].
        apply Hgrow. by apply Hdone. }
  destruct (Hloop (σ1, a1)) as (q & c & Hrun & Hq).
  { split_and!; [done|lia|done|done|]. by intros e ?%elem_of_nil. }
  exists q, c. split; [done|]. destruct Hq as (? & ? & ? & Hsmq & Hdone).
  split_and!; [done|lia|done|].
  intros t e Ht Hmt Hnt He. destruct (decide (t = s)) as [->|Hne].
  - apply Hdone. by apply Hl0.
  - apply (Hsmq t e); try done. apply not_elem_of_cons. done.
Qed.

End renameDfs.

Lemma elem_of_JsSet_ofList {A} `{EqDecision A} (x : A) l : x ∈ JsSet.ofList l ↔ x ∈ l.
Proof.
  unfold JsSet.ofList.
  assert (∀ acc, x ∈ foldl (λ acc y, JsSet.add y acc) acc l ↔ x ∈ acc ∨ x ∈ l) as H.
  { induction l as [|y l IH]; intros acc; simpl.
    - split; [auto|]. intros [?|H]; [done|]. by apply elem_of_nil in H.
    - rewrite IH, elem_of_JsSet_add, elem_of_cons. tauto. }
  rewrite H. split; [|auto]. intros [H'|?]; [|done]. by apply elem_of_nil in H'.
Qed.

Lemma elem_of_getStartStates σ a s :
  s ∈ Automaton.getStartStates σ a ↔ s ∈ states a ∧ sstart (st σ s) = true.
Proof.
  unfold Automaton.getStartStates. rewrite elem_of_JsSet_ofList, list_elem_of_filter. tauto.
Qed.

Lemma NoDup_bounded_length (l : list nat) m :
  NoDup l → (∀ x, x ∈ l → x < m) → length l ≤ m.
Proof.
  intros Hnd Hb. trans (length (seq 0 m)); [|by rewrite length_seq].
  apply submseteq_length, NoDup_submseteq; [done|].
  intros x Hx. apply elem_of_seq. specialize (Hb x Hx). lia.
Qed.

(** The states and edges of an automaton point into the store, and no edge
    leaves the automaton. *)
Record closedAutomaton (σ : Store) (a : Automaton) : Prop := mkClosed {
  ca_nodup : NoDup (states a);
  ca_valid : ∀ s, s ∈ states a → s < length (sts σ);
  ca_closed : ∀ s e, s ∈ states a → e ∈ edgesOut (st σ s) → sink (ed σ e) ∈ states a
}.

Lemma clearMarks_ok σ a :
  (∀ s, s ∈ states a → s < length (sts σ)) →
  ∃ τ, forEach (states a) (λ s, modStore (updState s (set_marked false))) (σ, a)
       = ((τ, a), Ok tt)
     ∧ length (sts τ) = length (sts σ) ∧ eds τ = eds σ
     ∧ (∀ s, edgesOut (st τ s) = edgesOut (st σ s))
     ∧ (∀ s, sstart (st τ s) = sstart (st σ s))
     ∧ (∀ s, s ∈ states a → marked (st τ s) = false).
Proof.
  intros Hv.
  pose (I := λ (done : list nat) (p : Store * Automaton),
     p.2 = a ∧ length (sts p.1) = length (sts σ) ∧ eds p.1 = eds σ
     ∧ (∀ s, edgesOut (st p.1 s) = edgesOut (st σ s))
     ∧ (∀ s, sstart (st p.1 s) = sstart (st σ s))
     ∧ (∀ s, s ∈ done → marked (st p.1 s) = false)).
  destruct (hoare_forEach I (states a)
              (λ s, modStore (updState s (set_marked false)))) with (t := (σ, a))
    as ([τ b] & [] & Hrun & Hb & Hpost).
  - intros done s rest Hsplit. apply hoare_modify.
    intros [τ b] (Hb & Hlen & Heds & Hout & Hst & Hmk). cbn [fst snd] in *.
    assert (s < length (sts τ)) as Hs.
    { rewrite Hlen. apply Hv. rewrite Hsplit. apply elem_of_app. right. left. }
    split_and!; cbn [fst snd].
    + done.
    + by rewrite length_updState.
    + done.
    + intros t. rewrite st_updState. case_decide; [|done]. apply Hout.
    + intros t. rewrite st_updState. case_decide; [|done]. apply Hst.
    + intros t Ht. rewrite st_updState. case_decide as Hc; [done|].
      apply elem_of_app in Ht as [Ht|Ht%list_elem_of_singleton]; [by apply Hmk|].
      subst t. exfalso. apply Hc. done.
  - split_and!; try done. intros s Hs. by apply elem_of_nil in Hs.
  - cbn [fst snd] in *. subst b. exists τ. split; [done|]. apply Hpost.
Qed.

Lemma markedCount_zero σ l :
  (∀ s, s ∈ l → marked (st σ s) = false) → markedCount σ l = 0.
Proof.
  intros H. unfold markedCount. induction l as [|x l IH]; [done|].
  rewrite filter_cons, decide_False.
  - apply IH. intros s Hs. apply H. by right.
  - rewrite H by left. done.
Qed.

(** Modelled from the spec: the width [ceil(log62(|states|)) + 1] of the
    specification uses the least [k] with [n <= 62 ^ k]. *)
Fixpoint ceilLog62_go (fuel k pow n : nat) : nat :=
  match fuel with
  | 0 => k
  | S fuel' => if decide (n ≤ pow) then k else ceilLog62_go fuel' (S k) (62 * pow) n
  end.
Definition ceilLog62 (n : nat) : nat := ceilLog62_go n 0 1 n.

(** An entry of the T part of a signature is a dash or the name of a
    successor. *)
Lemma successorName_cases σ s sym :
  Automaton.successorName σ s sym = "-"
  ∨ ∃ e, e ∈ edgesOut (st σ s)
         ∧ Automaton.successorName σ s sym = sname (st σ (sink (ed σ e))).
Proof.
  unfold Automaton.successorName.
  assert (∀ l acc,
            foldl (λ successor e,
                     if decide (symbol (ed σ e) = sym) then sname (st σ (sink (ed σ e)))
                     else successor) acc l = acc
            ∨ ∃ e, e ∈ l
                   ∧ foldl (λ successor e,
                              if decide (symbol (ed σ e) = sym)
                              then sname (st σ (sink (ed σ e)))
                              else successor) acc l
                     = sname (st σ (sink (ed σ e)))) as H.
  { induction l as [|x l IH]; intros acc; simpl; [by left|].
    destruct (IH (if decide (symbol (ed σ x) = sym) then sname (st σ (sink (ed σ x)))
                  else acc)) as [Heq|(e & He & Heq)].
    - rewrite Heq. case_decide; [|by left].
      right. exists x. split; [left|done].
    - right. exists e. split; [by right|done]. }
  apply H.
Qed.

(** The DFS renaming completes on an automaton with a start state; the
    states it has visited carry names of the computed width, and so do the
    entries that a signature writes for them. *)
Lemma renameStatesDFS_ok σ a :
  closedAutomaton σ a → Automaton.getStartStates σ a ≠ [] →
  ∃ p, Automaton.renameStatesDFS (σ, a) = (p, Ok tt)
     ∧ (∀ s, s ∈ states a → marked (st p.1 s) = true →
          String.length (sname (st p.1 s)) = Util.floorLog62 (length (states a)) + 1)
     ∧ (∀ s sym, s ∈ states a → marked (st p.1 s) = true →
          Automaton.successorName p.1 s sym = "-"
          ∨ String.length (Automaton.successorName p.1 s sym)
            = Util.floorLog62 (length (states a)) + 1)
     ∧ (∃ s, head (Automaton.getStartStates σ a) = Some s
             ∧ marked (st p.1 s) = true).
Proof.
  intros [Hnd Hv Hcl] Hstart.
  destruct (Automaton.getStartStates σ a) as [|s0 rest] eqn:Hss; [done|].
  assert (s0 ∈ states a) as Hs0.
  { assert (s0 ∈ Automaton.getStartStates σ a) as H by (rewrite Hss; left).
    by apply elem_of_getStartStates in H as [? _]. }
  destruct (clearMarks_ok σ a Hv) as (τ & Hclear & Hlen & Heds & Hout & Hst & Hmk).
  assert (Automaton.getStartStates τ a = s0 :: rest) as Hss'.
  { rewrite <- Hss. unfold Automaton.getStartStates. f_equal.
    apply list_filter_iff. intros s. by rewrite Hst. }
  assert (∀ s e, s ∈ states a → e ∈ edgesOut (st τ s) → sink (ed τ e) ∈ states a)
    as Hcl'.
  { intros s e Hs He. unfold ed. rewrite Heds. rewrite Hout in He. by eapply Hcl. }
  unfold Automaton.renameStatesDFS, bind at 1, getThis, gets. cbn [fst snd].
  rewrite decide_False by (destruct (states a); [by apply elem_of_nil in Hs0|done]).
  unfold bind at 1. rewrite Hclear.
  unfold bind at 1, getStore, gets. cbn [fst snd]. rewrite Hss'.
  destruct (renameStatesDFS_dfs_ok (τ, a) (Util.totalDigits (length (states a))))
    with (fuel := searchFuel τ) (s := s0) (count := 0) (G := @nil nat) (t := (τ, a))
    as (p & c & Hrun & Hsr & _ & Hm0 & Hsm); cbn [fst snd].
  - done.
  - done.
  - intros s Hs. rewrite Hlen. by apply Hv.
  - done.
  - unfold searchFuel. rewrite Hlen.
    pose proof (NoDup_bounded_length _ _ Hnd Hv). lia.
  - split_and!; [|done|by apply Hmk|].
    + split_and!; cbn [fst snd]; try done.
      * symmetry. by apply markedCount_zero.
      * intros s Hs Hm. rewrite Hmk in Hm by done. done.
    + intros t e Ht Hmt. cbn [fst snd] in *. rewrite Hmk in Hmt by done. done.
  - exists p. unfold bind. rewrite Hrun. split; [done|].
    destruct Hsr as (_ & _ & Heds' & Hout' & _ & Hnm). cbn [fst snd] in *.
    split_and!.
    + intros s Hs Hm. by apply Hnm.
    + intros s sym Hs Hm.
      destruct (successorName_cases p.1 s sym) as [?|(e & He & ->)]; [by left|right].
      rewrite Hout' in He.
      assert (ed p.1 e = ed τ e) as -> by (unfold ed; by rewrite Heds').
      apply Hnm; [by eapply Hcl'|]. apply (Hsm s e); try done. apply not_elem_of_nil.
    + exists s0. done.
Qed.

(** C5, as the code has it: on an automaton whose states are in the store
    and whose edges stay inside it, and which has a start state, the DFS
    renaming completes and every state it has visited carries a Base62 name
    of exactly floor(log62 |states|) + 1 digits; the entries that the T part
    of a signature has for these states are a dash or such a name; the first
    start state is among the states visited. *)
Theorem renameStatesDFS_width σ a :
  closedAutomaton σ a → Automaton.getStartStates σ a ≠ [] →
  ∃ p, Automaton.renameStatesDFS (σ, a) = (p, Ok tt)
     ∧ (∀ s, s ∈ states a → marked (st p.1 s) = true →
          String.length (sname (st p.1 s)) = Util.floorLog62 (length (states a)) + 1)
     ∧ (∀ s sym, s ∈ states a → marked (st p.1 s) = true →
          Automaton.successorName p.1 s sym = "-"
          ∨ String.length (Automaton.successorName p.1 s sym)
            = Util.floorLog62 (length (states a)) + 1)
     ∧ (∃ s, head (Automaton.getStartStates σ a) = Some s
             ∧ marked (st p.1 s) = true).
Proof. apply renameStatesDFS_ok. Qed.

(** With a start state, [signatureDFS] on an automaton that is not
    deterministic completes and returns undefined. *)
Lemma signatureDFS_undefined_total σ a :
  closedAutomaton σ a → Automaton.getStartStates σ a ≠ [] →
  Automaton.isDeterministic σ a = false →
  ∃ p, Automaton.signatureDFS (σ, a) = (p, Ok None).
Proof.
  intros Hcl Hstart Hdet.
  destruct (renameStatesDFS_ok σ a Hcl Hstart) as (p & Hrun & _).
  exists p. unfold Automaton.signatureDFS. unfold bind at 1. rewrite Hrun.
  unfold bind, getThis, getStore, gets, ret. cbn [fst snd].
  by rewrite (renameStatesDFS_isDeterministic _ _ _ _ Hrun), Hdet.
Qed.

(** Clearing the marks always completes, and keeps the start states. *)
Lemma clearMarks_total σ a :
  ∃ τ, forEach (states a) (λ s, modStore (updState s (set_marked false))) (σ, a)
       = ((τ, a), Ok tt)
     ∧ Automaton.getStartStates τ a = Automaton.getStartStates σ a.
Proof.
  assert (∀ l σ, ∃ τ,
            forEach l (λ s, modStore (updState s (set_marked false))) (σ, a)
            = ((τ, a), Ok tt)
            ∧ ∀ s, sstart (st τ s) = sstart (st σ s)) as H.
  { induction l as [|x l IH]; intros σ'; simpl.
    - by exists σ'.
    - destruct (IH (updState x (set_marked false) σ')) as (τ & Hrun & Hst).
      exists τ. split.
      + unfold bind at 1, modStore, modify. cbn [fst snd]. exact Hrun.
      + intros s. rewrite Hst. by apply sstart_updState. }
  destruct (H (states a) σ) as (τ & Hrun & Hst). exists τ. split; [done|].
  unfold Automaton.getStartStates. f_equal. apply list_filter_iff.
  intros s. by rewrite Hst.
Qed.

(** Without states nothing is renamed and undefined is returned; with states
    but no start state the guard of [renameStatesDFS] throws, and
    [signatureDFS] with it. *)
Lemma signatureDFS_no_start σ a :
  Automaton.getStartStates σ a = [] →
  if decide (states a = []) then Automaton.signatureDFS (σ, a) = ((σ, a), Ok None)
  else ∃ p, Automaton.signatureDFS (σ, a)
            = (p, Throw "renameStatesDFS: no start states").
Proof.
  intros Hstart. unfold Automaton.signatureDFS, Automaton.renameStatesDFS.
  case_decide as Hst.
  - unfold bind, getThis, getStore, gets, ret. cbn [fst snd].
    rewrite decide_True by (by rewrite Hst). cbn [fst snd].
    unfold Automaton.isDeterministic. by rewrite Hstart.
  - destruct (clearMarks_total σ a) as (τ & Hclear & Hss).
    unfold bind at 1. unfold bind at 1, getThis, gets. cbn [fst snd].
    rewrite decide_False by (by destruct (states a)).
    unfold bind at 1. rewrite Hclear.
    unfold bind at 1, getStore, gets. cbn [fst snd]. rewrite Hss, Hstart.
    by eexists.
Qed.

(** An executable check of [closedAutomaton], for concrete automata. *)
Definition closedAutomaton_check (σ : Store) (a : Automaton) : bool :=
  bool_decide (NoDup (states a))
  && forallb (λ s, bool_decide (s < length (sts σ))
                   && forallb (λ e, bool_decide (sink (ed σ e) ∈ states a))
                        (edgesOut (st σ s)))
       (states a).

Lemma closedAutomaton_check_ok σ a :
  closedAutomaton_check σ a = true → closedAutomaton σ a.
Proof.
  unfold closedAutomaton_check. intros [Hnd Hall]%andb_prop.
  apply bool_decide_eq_true in Hnd. rewrite forallb_forall in Hall.
  split; [done|..].
  - intros s Hs%list_elem_of_In. apply Hall in Hs as [Hv _]%andb_prop.
    by apply bool_decide_eq_true in Hv.
  - intros s e Hs%list_elem_of_In He%list_elem_of_In.
    apply Hall in Hs as [_ Hes]%andb_prop. rewrite forallb_forall in Hes.
    apply Hes in He. by apply bool_decide_eq_true in He.
Qed.

Lemma renameStatesDFS_width_witness :
  ∃ p, Automaton.renameStatesDFS twoStarts = (p, Ok tt)
     ∧ (∀ s, s ∈ states twoStarts.2 → marked (st p.1 s) = true →
          String.length (sname (st p.1 s))
          = Util.floorLog62 (length (states twoStarts.2)) + 1)
     ∧ (∀ s sym, s ∈ states twoStarts.2 → marked (st p.1 s) = true →
          Automaton.successorName p.1 s sym = "-"
          ∨ String.length (Automaton.successorName p.1 s sym)
            = Util.floorLog62 (length (states twoStarts.2)) + 1)
     ∧ (∃ s, head (Automaton.getStartStates twoStarts.1 twoStarts.2) = Some s
             ∧ marked (st p.1 s) = true).
Proof.
  apply (renameStatesDFS_width twoStarts.1 twoStarts.2).
  - apply closedAutomaton_check_ok. vm_compute. reflexivity.
  - vm_compute. discriminate.
Defined.

(** C5 as stated fails: with two states the names have one digit, and
    ceil(log62 2) + 1 is two. *)
Lemma renameStatesDFS_width_counterexample :
  let p := (Automaton.renameStatesDFS twoStarts).1 in
  length (states twoStarts.2) = 2
  ∧ sname (st p.1 0) = "0" ∧ sname (st p.1 1) = "1"
  ∧ String.length (sname (st p.1 0)) ≠ ceilLog62 (length (states twoStarts.2)) + 1.
Proof. vm_compute. split_and!; [reflexivity..|discriminate]. Qed.

(** [ceilLog62] is the least exponent that reaches [n]. *)
Lemma ceilLog62_go_spec fuel k n :
  1 ≤ n → (k = 0 ∨ 62 ^ (k - 1) < n) → n ≤ fuel + 62 ^ k →
  n ≤ 62 ^ ceilLog62_go fuel k (62 ^ k) n
  ∧ (ceilLog62_go fuel k (62 ^ k) n = 0 ∨ 62 ^ (ceilLog62_go fuel k (62 ^ k) n - 1) < n).
Proof.
  revert k. induction fuel as [|fuel IH]; intros k H1 Hk Hf; simpl.
  - split; [lia|done].
  - case_decide as Hle; [done|].
    change (62 * 62 ^ k) with (62 ^ S k). apply IH; [done| |].
    + right. simpl. rewrite Nat.sub_0_r. lia.
    + simpl. pose proof (Nat.pow_nonzero 62 k). lia.
Qed.

Lemma ceilLog62_spec n :
  1 ≤ n →
  n ≤ 62 ^ ceilLog62 n ∧ (ceilLog62 n = 0 ∨ 62 ^ (ceilLog62 n - 1) < n).
Proof.
  intros H. unfold ceilLog62. apply (ceilLog62_go_spec n 0 n); [done|by left|simpl; lia].
Qed.

(** ** Outcomes of a loop that may throw *)

Lemma forEach_outcome {T A} (K : T → Prop) (bad : A → Prop)
    `{∀ x, Decision (bad x)} (l : list A) (body : A → M T unit) :
  (∀ x t, x ∈ l → K t →
     (bad x → ∃ t' msg, body x t = (t', Throw msg))
     ∧ (¬ bad x → ∃ t', body x t = (t', Ok tt) ∧ K t')) →
  ∀ t, K t →
    (Exists bad l → ∃ t' msg, forEach l body t = (t', Throw msg))
    ∧ (¬ Exists bad l → ∃ t', forEach l body t = (t', Ok tt) ∧ K t').
Proof.
  induction l as [|x l IH]; intros Hbody t Ht.
  - split.
    + intros Hex. by apply Exists_nil in Hex.
    + intros _. by exists t.
  - assert (∀ y t, y ∈ l → K t →
              (bad y → ∃ t' msg, body y t = (t', Throw msg))
              ∧ (¬ bad y → ∃ t', body y t = (t', Ok tt) ∧ K t')) as Hbody'.
    { intros y t' Hy. apply Hbody. by right. }
    specialize (IH Hbody').
    destruct (Hbody x t) as [Hb Hg]; [left|done|].
    simpl. unfold bind. destruct (decide (bad x)) as [Hx|Hx].
    + destruct (Hb Hx) as (t' & msg & ->). split.
      * intros _. by exists t', msg.
      * intros Hnex. exfalso. apply Hnex. by left.
    + destruct (Hg Hx) as (t' & -> & Ht'). destruct (IH t' Ht') as [IH1 IH2]. split.
      * intros Hex. apply Exists_cons in Hex as [?|Hex]; [done|]. by apply IH1.
      * intros Hnex. apply IH2. intros Hex. apply Hnex. by right.
Qed.

(** ** constructFromSignature *)

Lemma addState_total name start final tag p :
  ∃ q s, Automaton.addState name start final tag false p = (q, Ok s)
       ∧ (∀ k, is_Some (stateNameMap q.2 !! k)
               ↔ k = name ∨ is_Some (stateNameMap p.2 !! k))
       ∧ deltaMap q.2 = deltaMap p.2.
Proof.
  destruct p as [σ a]. unfold Automaton.addState, bind, getThis, gets, ret. cbn [fst snd].
  unfold Automaton.getStateByName.
  destruct (stateNameMap a !! name) as [s|] eqn:Hn.
  - eexists _, _. split; [done|]. split; [|done]. intros k. split; [auto|].
    intros [Heq|?]; [subst; eauto|done].
  - eexists _, _. split; [done|]. split; [|done]. intros k. simpl.
    destruct (decide (k = name)) as [->|Hk].
    + rewrite lookup_insert_eq. split; [auto|]. by eauto.
    + rewrite lookup_insert_ne by done. split; [auto|]. by intros [?|?].
Qed.

Lemma addEdge_byName f t c p :
  is_Some (stateNameMap p.2 !! f) → is_Some (deltaMap p.2 !! c) →
  (is_Some (stateNameMap p.2 !! t) →
     ∃ q e, Automaton.addEdge (ByName f) (ByName t) c p = (q, Ok e)
          ∧ stateNameMap q.2 = stateNameMap p.2
          ∧ ∀ c', is_Some (deltaMap q.2 !! c') ↔ is_Some (deltaMap p.2 !! c'))
  ∧ (stateNameMap p.2 !! t = None →
     ∃ q msg, Automaton.addEdge (ByName f) (ByName t) c p = (q, Throw msg)).
Proof.
  destruct p as [σ a]. cbn [fst snd]. intros [sf Hf] [dm Hc].
  unfold Automaton.addEdge, Automaton.getEdge.
  unfold bind, getThis, getStore, gets, ret, allocEdge, modThis, modStore, modify.
  cbn [fst snd Automaton.getState]. rewrite Hf. split.
  - intros [s Ht]. rewrite Ht.
    destruct (Automaton.findEdge σ sf (Some s) c) as [e|].
    + eexists _, _. split; [done|]. done.
    + cbn [fst snd]. rewrite Hc. eexists _, _. split; [done|]. cbn [fst snd].
      split; [done|].
      intros c'. simpl. destruct (decide (c' = c)) as [->|Hne].
      * rewrite lookup_insert_eq, Hc. split; eauto.
      * by rewrite lookup_insert_ne.
  - intros Ht. rewrite Ht.
    destruct (Automaton.findEdge σ sf None c) as [e|] eqn:Hfind.
    + exfalso. unfold Automaton.findEdge in Hfind.
      apply find_some in Hfind as [_ Hb]. apply bool_decide_eq_true in Hb as [_ [=]].
    + eexists _, _. done.
Qed.

Lemma deltaMap_new name symbols c :
  is_Some (deltaMap (Automaton.new name symbols) !! c)
  ↔ c ∈ String.list_ascii_of_string symbols.
Proof.
  unfold Automaton.new. simpl.
  generalize (String.list_ascii_of_string symbols). intros l.
  assert (∀ m : gmap ascii (gmap nat (list nat)),
            is_Some (foldl (λ m s, <[s := ∅]> m) m l !! c)
            ↔ is_Some (m !! c) ∨ c ∈ l) as H.
  { induction l as [|x l IH]; intros m; simpl.
    - split; [auto|]. intros [?|H]; [done|]. by apply elem_of_nil in H.
    - rewrite IH, elem_of_cons. destruct (decide (c = x)) as [->|Hne].
      + rewrite lookup_insert_eq. split; [auto|]. intros _. left. eauto.
      + rewrite lookup_insert_ne by done. tauto. }
  rewrite H, lookup_empty. split; [|auto]. intros [[? [=]]|?]. done.
Qed.

Lemma string_get_elem j s c :
  String.get j s = Some c → c ∈ String.list_ascii_of_string s.
Proof.
  revert j. induction s as [|x s IH]; intros j; simpl; [done|].
  destruct j as [|j].
  - intros [= ->]. left.
  - intros H. right. by eapply IH.
Qed.

Lemma string_get_lt j s : j < String.length s → is_Some (String.get j s).
Proof.
  revert j. induction s as [|x s IH]; intros j; simpl; [lia|].
  destruct j as [|j]; [eauto|]. intros H. apply IH. lia.
Qed.

Lemma length_zero_iff (s : string) : String.length s = 0 ↔ s = "".
Proof. destruct s; simpl; split; done. Qed.

Section signature.
Variables transitions finals symbols : string.
Let numberStates := String.length finals.
Let digitsPerState := Util.totalDigits numberStates.

(** The characters that encode the successor of state [i] under symbol [j]. *)
Definition slot (i j : nat) : string :=
  String.substring (digitsPerState * (i * String.length symbols + j))
    digitsPerState transitions.

(** A slot that is read as an edge whose target is no state: it does not
    start with ['-'], decodes below the number of states, and is not the
    name of a state. *)
Definition danglingSlot (i j : nat) : Prop :=
  String.get 0 (slot i j) ≠ Some "-"%char
  ∧ (Util.fromBase62 (slot i j) < Z.of_nat numberStates)%Z
  ∧ ∀ k, k < numberStates → slot i j ≠ Util.toBase62 k digitsPerState.

Definition stateLoop : MA unit :=
  forEach (seq 0 numberStates) (λ i,
    Automaton.addState (Util.toBase62 i digitsPerState) (bool_decide (i = 0))
      (bool_decide (String.get i finals = Some "1"%char)) NoTag false ;;
    ret tt).

Definition edgeLoop : MA unit :=
  forEach (seq 0 numberStates) (λ i,
    forEach (seq 0 (String.length symbols)) (λ j,
      let to := slot i j in
      if decide (String.get 0 to ≠ Some "-"%char
                 ∧ (Util.fromBase62 to < Z.of_nat numberStates)%Z)
      then
        match String.get j symbols with
        | None => throw "TypeError: symbol is undefined"
        | Some c =>
            Automaton.addEdge (ByName (Util.toBase62 i digitsPerState)) (ByName to) c ;;
            ret tt
        end
      else ret tt)).

(** The index after the states have been added, and the alphabet. *)
Definition indexed (p : Store * Automaton) : Prop :=
  (∀ k, is_Some (stateNameMap p.2 !! k)
        ↔ ∃ i, i < numberStates ∧ k = Util.toBase62 i digitsPerState)
  ∧ ∀ c, c ∈ String.list_ascii_of_string symbols → is_Some (deltaMap p.2 !! c).

Lemma stateLoop_ok σ name :
  ∃ q, stateLoop (σ, Automaton.new name symbols) = (q, Ok tt) ∧ indexed q.
Proof.
  pose (I := λ (done : list nat) (p : Store * Automaton),
     (∀ k, is_Some (stateNameMap p.2 !! k)
           ↔ ∃ i, i ∈ done ∧ k = Util.toBase62 i digitsPerState)
     ∧ deltaMap p.2 = deltaMap (Automaton.new name symbols)).
  destruct (hoare_forEach I (seq 0 numberStates)
     (λ i, Automaton.addState (Util.toBase62 i digitsPerState) (bool_decide (i = 0))
             (bool_decide (String.get i finals = Some "1"%char)) NoTag false ;;
           ret tt)) with (t := (σ, Automaton.new name symbols))
    as (q & [] & Hrun & Hkeys & Hdm).
  - intros done i rest Hsplit p [Hk Hd].
    destruct (addState_total (Util.toBase62 i digitsPerState) (bool_decide (i = 0))
                (bool_decide (String.get i finals = Some "1"%char)) NoTag p)
      as (q & s & Hrun & Hk' & Hd').
    exists q, tt. unfold bind. rewrite Hrun. split; [done|]. split; [|congruence].
    intros k. rewrite Hk', Hk. split.
    + intros [->|(j & Hj & ->)].
      * exists i. split; [|done]. apply elem_of_app. right. left.
      * exists j. split; [|done]. apply elem_of_app. by left.
    + intros (j & Hj & ->).
      apply elem_of_app in Hj as [Hj|Hj%list_elem_of_singleton]; [right; eauto|].
      left. by subst.
  - split; [|done]. intros k. simpl. rewrite lookup_empty. split; [by intros [? [=]]|].
    intros (i & Hi & _). by apply elem_of_nil in Hi.
  - exists q. split; [done|]. split.
    + intros k. rewrite Hkeys. split; intros (i & Hi & ->); exists i; split; try done.
      * apply elem_of_seq in Hi. lia.
      * apply elem_of_seq. lia.
    + intros c Hc. rewrite Hdm. by apply deltaMap_new.
Qed.

Global Instance danglingSlot_dec i j : Decision (danglingSlot i j).
Proof.
  unfold danglingSlot.
  assert (Decision (∀ k, k < numberStates → slot i j ≠ Util.toBase62 k digitsPerState)).
  { destruct (decide (Forall (λ k, slot i j ≠ Util.toBase62 k digitsPerState)
                        (seq 0 numberStates))) as [Hy|Hn].
    - left. intros k Hk. rewrite Forall_forall in Hy. apply Hy, elem_of_seq. lia.
    - right. intros H. apply Hn. apply Forall_forall. intros k Hk.
      apply elem_of_seq in Hk. apply H. lia. }
  apply _.
Defined.

Lemma edgeLoop_outcome p :
  indexed p →
  (Exists (λ i, Exists (danglingSlot i) (seq 0 (String.length symbols)))
     (seq 0 numberStates)
   → ∃ q msg, edgeLoop p = (q, Throw msg))
  ∧ (¬ Exists (λ i, Exists (danglingSlot i) (seq 0 (String.length symbols)))
         (seq 0 numberStates)
     → ∃ q, edgeLoop p = (q, Ok tt) ∧ indexed q).
Proof.
  intros Hp. unfold edgeLoop.
  apply (forEach_outcome indexed
           (λ i, Exists (danglingSlot i) (seq 0 (String.length symbols)))); [|done].
  clear p Hp. intros i p Hi Hp.
  apply (forEach_outcome indexed (danglingSlot i)); [|done].
  clear p Hp. intros j p Hj [Hkeys Hsyms].
  apply elem_of_seq in Hi. apply elem_of_seq in Hj.
  destruct (string_get_lt j symbols) as [c Hc]; [lia|]. rewrite Hc.
  assert (is_Some (stateNameMap p.2 !! Util.toBase62 i digitsPerState)) as Hfrom.
  { apply Hkeys. exists i. split; [lia|done]. }
  assert (is_Some (deltaMap p.2 !! c)) as Hsym.
  { apply Hsyms. by eapply string_get_elem. }
  destruct (addEdge_byName (Util.toBase62 i digitsPerState) (slot i j) c p Hfrom Hsym)
    as [Hok Hthrow].
  assert (stateNameMap p.2 !! slot i j = None
          ↔ ∀ k, k < numberStates → slot i j ≠ Util.toBase62 k digitsPerState) as Hnone.
  { rewrite eq_None_not_Some, Hkeys. split.
    - intros Hn k Hk Heq. apply Hn. eauto.
    - intros Hn (k & Hk & Heq). by eapply Hn. }
  split.
  - intros (H0 & Hlt & Hdang). rewrite decide_True by done.
    destruct Hthrow as (q & msg & Hrun); [by apply Hnone|].
    exists q, msg. unfold bind. by rewrite Hrun.
  - intros Hnd. case_decide as Hcond; [|by exists p].
    destruct Hok as (q & e & Hrun & Hmap & Hdom).
    { destruct (stateNameMap p.2 !! slot i j) eqn:Hlook; [eauto|].
      exfalso. apply Hnd. destruct Hcond. split_and!; [done..|]. by apply Hnone. }
    exists q. unfold bind. rewrite Hrun. split; [done|]. split.
    + intros k. rewrite Hmap. apply Hkeys.
    + intros c' Hc'. apply Hdom. by apply Hsyms.
Qed.

End signature.

(** The inputs on which [constructFromSignature] throws. *)
Definition signatureError (signature : string) : Prop :=
  match Automaton.split "|" signature with
  | [transitions; finals; symbols] =>
      transitions = "" ∨ finals = "" ∨ symbols = ""
      ∨ Util.totalDigits (String.length finals) * String.length finals
          * String.length symbols ≠ String.length transitions
      ∨ ∃ i j, i < String.length finals ∧ j < String.length symbols
               ∧ danglingSlot transitions finals symbols i j
  | _ => True
  end.

Lemma Exists_seq_iff (P : nat → Prop) n : Exists P (seq 0 n) ↔ ∃ i, i < n ∧ P i.
Proof.
  rewrite Exists_exists. split; intros (i & Hi & HP); exists i; split; try done.
  - apply elem_of_seq in Hi. lia.
  - apply elem_of_seq. lia.
Qed.

Lemma constructFromSignature_loops transitions finals symbols name σ :
  let r := on (Automaton.new name symbols)
             (stateLoop finals ;; edgeLoop transitions finals symbols) σ in
  ((∃ msg, r.2 = Throw msg)
   ↔ ∃ i j, i < String.length finals ∧ j < String.length symbols
            ∧ danglingSlot transitions finals symbols i j)
  ∧ ((¬ ∃ i j, i < String.length finals ∧ j < String.length symbols
               ∧ danglingSlot transitions finals symbols i j)
     → ∃ ra, r.2 = Ok ra).
Proof.
  intros r. subst r. unfold on, bind.
  destruct (stateLoop_ok finals symbols σ name) as (q & -> & Hq).
  destruct (edgeLoop_outcome transitions finals symbols q Hq) as [Hthrow Hok].
  assert (Exists (λ i, Exists (danglingSlot transitions finals symbols i)
                         (seq 0 (String.length symbols)))
            (seq 0 (String.length finals))
          ↔ ∃ i j, i < String.length finals ∧ j < String.length symbols
                   ∧ danglingSlot transitions finals symbols i j) as Hex.
  { rewrite Exists_seq_iff. split.
    - intros (i & Hi & (j & Hj & Hd)%Exists_seq_iff). eauto.
    - intros (i & j & Hi & Hj & Hd). exists i. split; [done|].
      apply Exists_seq_iff. eauto. }
  rewrite <- Hex.
  destruct (decide (Exists (λ i, Exists (danglingSlot transitions finals symbols i)
                                   (seq 0 (String.length symbols)))
                      (seq 0 (String.length finals)))) as [Hy|Hn].
  - destruct (Hthrow Hy) as ([τ b] & msg & ->). simpl. split; [|done].
    split; [done|]. intros _. eauto.
  - destruct (Hok Hn) as ([τ b] & -> & _). simpl. split; [|eauto].
    split; [|done]. intros [msg [=]].
Qed.

(** C8, as the code has it: constructFromSignature throws exactly when the
    signature does not split into three parts at the bars, a part is empty,
    the length of the transitions part differs from digit width times state
    count times alphabet size, or some transition slot does not start with a
    dash, decodes to a number below the state count and is not the name of a
    state; on every other input it returns an automaton.  Digits outside
    Base62 are not checked for. *)
Theorem constructFromSignature_outcome signature σ :
  ((∃ msg, (Automaton.constructFromSignature signature σ).2 = Throw msg)
   ↔ signatureError signature)
  ∧ (¬ signatureError signature
     → ∃ a, (Automaton.constructFromSignature signature σ).2 = Ok a).
Proof.
  unfold Automaton.constructFromSignature, signatureError.
  destruct (Automaton.split "|" signature) as [|transitions [|finals [|symbols [|? ?]]]];
    try (split; [split; [done|intros _; simpl; eauto]|done]).
  case_decide as Hempty.
  { split; [|intros Hn; exfalso; apply Hn; rewrite <- !length_zero_iff; tauto].
    split; [|intros _; simpl; eauto]. intros _. rewrite <- !length_zero_iff. tauto. }
  case_decide as Hlen.
  { split; [|intros Hn; exfalso; apply Hn; tauto].
    split; [tauto|intros _; simpl; eauto]. }
  destruct (constructFromSignature_loops transitions finals symbols
              ("signature " +:+ signature) σ) as [Hiff Hok].
  cbv zeta in Hiff, Hok.
  assert (∀ P : Prop,
            (transitions = "" ∨ finals = "" ∨ symbols = ""
             ∨ Util.totalDigits (String.length finals) * String.length finals
                 * String.length symbols ≠ String.length transitions ∨ P) ↔ P) as Hsimp.
  { intros P. rewrite <- !length_zero_iff. split; [|tauto].
    intros [?|[?|[?|[?|?]]]]; try done; exfalso; tauto. }
  rewrite Hsimp.
  change (forEach (seq 0 (String.length finals)) _ ;; forEach _ _)
    with (stateLoop finals ;; edgeLoop transitions finals symbols).
  remember (on (Automaton.new ("signature " +:+ signature) symbols)
              (stateLoop finals ;; edgeLoop transitions finals symbols)) as m eqn:Hm.
  unfold bind, ret. clear Hm.
  destruct (m σ) as [τ [[b u]| |]] eqn:Hrun; simpl in *.
  - split.
    + rewrite <- Hiff. split; intros [msg [=]].
    + intros _. eauto.
  - split.
    + rewrite <- Hiff. split; eauto.
    + intros Hn. apply Hok in Hn as [? [=]].
  - split.
    + rewrite <- Hiff. split; intros [msg' [=]].
    + intros Hn. apply Hok in Hn as [? [=]].
Qed.

(** The Base62 digits of the specification: [0-9A-Za-z]. *)
Definition isBase62Digit (c : ascii) : bool :=
  let n := nat_of_ascii c in
  ((48 <=? n) && (n <=? 57)) || ((65 <=? n) && (n <=? 90)) || ((97 <=? n) && (n <=? 122)).

(** C8 as stated fails: a transition written with a character that is no
    Base62 digit is skipped, and an automaton is returned. *)
Lemma constructFromSignature_counterexample :
  isBase62Digit "{" = false
  ∧ Automaton.split "|" "{|0|a" = ["{"; "0"; "a"]
  ∧ ∃ a, (Automaton.constructFromSignature "{|0|a" emptyStore).2 = Ok a.
Proof. split_and!; [reflexivity..|]. eexists. vm_compute. reflexivity. Qed.

(** * The subset construction *)

(** ** What the primitives do when they succeed *)

Lemma addState_eq name start final tag σ a :
  Automaton.addState name start final tag false (σ, a)
  = match stateNameMap a !! name with
    | Some s => ((σ, a), Ok s)
    | None =>
        ((mkStore (sts σ ++ [newState name start final tag]) (eds σ),
          set_stateNameMap (<[name := length (sts σ)]> (stateNameMap a))
            (set_states (JsSet.add (length (sts σ)) (states a)) a)),
         Ok (length (sts σ)))
    end.
Proof.
  unfold Automaton.addState, bind, getThis, gets, ret. cbn [fst snd].
  unfold Automaton.getStateByName. by destruct (stateNameMap a !! name).
Qed.

(** The store after [new Edge(from, to, symbol)] and the two registrations
    [from.addEdgeOut(e)] and [to.addEdgeIn(e)]. *)
Definition linkEdge (σ : Store) (f t : StateId) (c : ascii) : Store :=
  updState t (λ s, set_edgesIn (JsSet.add (length (eds σ)) (edgesIn s)) s)
    (updState f (λ s, set_edgesOut (JsSet.add (length (eds σ)) (edgesOut s)) s)
       (mkStore (sts σ) (eds σ ++ [mkEdge f t c None]))).

Lemma addEdge_eq from to c σ a f t dm :
  Automaton.getState a from = Some f → Automaton.getState a to = Some t →
  deltaMap a !! c = Some dm →
  Automaton.addEdge from to c (σ, a)
  = match Automaton.findEdge σ f (Some t) c with
    | Some e => ((σ, a), Ok e)
    | None =>
        ((linkEdge σ f t c,
          set_deltaMap (<[c := <[f := JsSet.add t (default [] (dm !! f))]> dm]> (deltaMap a))
            (set_edges (JsSet.add (length (eds σ)) (edges a)) a)),
         Ok (length (eds σ)))
    end.
Proof.
  intros Hf Ht Hc. unfold Automaton.addEdge, Automaton.getEdge.
  unfold bind, getThis, getStore, gets, ret, allocEdge, modThis, modStore, modify.
  cbn [fst snd]. rewrite Hf, Ht. cbn [fst snd].
  destruct (Automaton.findEdge σ f (Some t) c); [done|].
  cbn [fst snd deltaMap set_edges]. rewrite Hc. done.
Qed.

(** ** Stores that grow *)

(** [shapeExt σ τ]: [τ] has every state and edge of [σ], with the same name,
    flags, tag and end points; marks and edge lists may differ. *)
Record shapeExt (σ τ : Store) : Prop := mkShapeExt {
  se_len : length (sts σ) ≤ length (sts τ);
  se_name : ∀ s, s < length (sts σ) → sname (st τ s) = sname (st σ s);
  se_start : ∀ s, s < length (sts σ) → sstart (st τ s) = sstart (st σ s);
  se_final : ∀ s, s < length (sts σ) → sfinal (st τ s) = sfinal (st σ s);
  se_tag : ∀ s, s < length (sts σ) → stag (st τ s) = stag (st σ s);
  se_elen : length (eds σ) ≤ length (eds τ);
  se_ed : ∀ e, e < length (eds σ) → ed τ e = ed σ e
}.

(** [storeExt σ τ]: moreover the marks of the states of [σ] are kept. *)
Definition storeExt (σ τ : Store) : Prop :=
  shapeExt σ τ ∧ ∀ s, s < length (sts σ) → marked (st τ s) = marked (st σ s).

Global Instance shapeExt_preorder : PreOrder shapeExt.
Proof.
  split.
  - intros σ. by split.
  - intros σ1 σ2 σ3 [] []. split; try lia.
    all: intros s Hs.
    + rewrite se_name1, se_name0 by lia. done.
    + rewrite se_start1, se_start0 by lia. done.
    + rewrite se_final1, se_final0 by lia. done.
    + rewrite se_tag1, se_tag0 by lia. done.
    + rewrite se_ed1, se_ed0 by lia. done.
Qed.

Global Instance storeExt_preorder : PreOrder storeExt.
Proof.
  split.
  - intros σ. split; [reflexivity|done].
  - intros σ1 σ2 σ3 [H12 M12] [H23 M23]. split; [by etrans|].
    intros s Hs. rewrite M23, M12; [done|done|]. destruct H12. lia.
Qed.

Lemma storeExt_alloc σ x : storeExt σ (mkStore (sts σ ++ [x]) (eds σ)).
Proof.
  split; [split|]; simpl; try (intros s Hs; by rewrite st_alloc); try done.
  rewrite length_app. lia.
Qed.

Lemma ed_allocEdge σ x e :
  e < length (eds σ) → ed (mkStore (sts σ) (eds σ ++ [x])) e = ed σ e.
Proof. intros He. unfold ed; simpl. by rewrite lookup_app_l. Qed.

Lemma st_allocEdge σ x s : st (mkStore (sts σ) (eds σ ++ [x])) s = st σ s.
Proof. done. Qed.

Lemma st_linkEdge σ f t c s :
  st (linkEdge σ f t c) s
  = set_edgesIn (edgesIn (st (linkEdge σ f t c) s))
      (set_edgesOut (edgesOut (st (linkEdge σ f t c) s)) (st σ s)).
Proof.
  unfold linkEdge. rewrite !st_updState, length_updState. simpl.
  rewrite st_allocEdge.
  repeat case_decide; by destruct (st σ s).
Qed.

Lemma length_linkEdge σ f t c : length (sts (linkEdge σ f t c)) = length (sts σ).
Proof. unfold linkEdge. by rewrite !length_updState. Qed.

Lemma storeExt_linkEdge σ f t c : storeExt σ (linkEdge σ f t c).
Proof.
  split; [split|]; try (intros s _; by rewrite st_linkEdge).
  - by rewrite length_linkEdge.
  - unfold linkEdge, updState; simpl. rewrite length_app. lia.
  - intros e He. unfold linkEdge, updState, ed; simpl. by rewrite lookup_app_l.
Qed.

(** ** Automata under construction *)

(** What holds of an automaton that is built by [addState] and [addEdge] on a
    [new] one: its index, its states and its transitions point into the
    store, and [deltaMap] has an entry for every symbol. *)
Record built (σ : Store) (a : Automaton) : Prop := mkBuilt {
  built_map : ∀ k s, stateNameMap a !! k = Some s → s < length (sts σ);
  built_states : ∀ s, s ∈ states a → s < length (sts σ);
  built_delta : ∀ c dm s targets t,
    deltaMap a !! c = Some dm → dm !! s = Some targets → t ∈ targets →
    t < length (sts σ);
  built_alpha : ∀ c, c ∈ alphabet a → is_Some (deltaMap a !! c)
}.

Lemma deltaMap_new_empty name symbols c dm :
  deltaMap (Automaton.new name symbols) !! c = Some dm → dm = ∅.
Proof.
  unfold Automaton.new. simpl.
  generalize (String.list_ascii_of_string symbols). intros l.
  assert (∀ m : gmap ascii (gmap nat (list nat)),
            (∀ c dm, m !! c = Some dm → dm = ∅) →
            ∀ c dm, foldl (λ m s, <[s := ∅]> m) m l !! c = Some dm → dm = ∅) as H.
  { induction l as [|x l IH]; intros m Hm; simpl; [done|].
    apply IH. intros c' dm'. destruct (decide (c' = x)) as [->|Hne].
    - rewrite lookup_insert_eq. congruence.
    - rewrite lookup_insert_ne by done. apply Hm. }
  apply H. intros c' dm'. by rewrite lookup_empty.
Qed.

Lemma built_new σ name symbols : built σ (Automaton.new name symbols).
Proof.
  split.
  - intros k s. simpl. by rewrite lookup_empty.
  - intros s. simpl. by intros ?%elem_of_nil.
  - intros c dm s targets t Hc Hs. apply deltaMap_new_empty in Hc as ->.
    by rewrite lookup_empty in Hs.
  - intros c Hc. by apply deltaMap_new.
Qed.

Lemma built_mono σ τ a : length (sts σ) ≤ length (sts τ) → built σ a → built τ a.
Proof.
  intros Hle []. split; eauto using Nat.lt_le_trans.
Qed.

(** [addState] on an automaton under construction. *)
Lemma addState_built name start final tag σ a :
  built σ a →
  ∃ τ b s, Automaton.addState name start final tag false (σ, a) = ((τ, b), Ok s)
         ∧ storeExt σ τ ∧ built τ b
         ∧ alphabet b = alphabet a
         ∧ (∀ k, is_Some (stateNameMap b !! k) ↔ k = name ∨ is_Some (stateNameMap a !! k)).
Proof.
  intros Hb. rewrite addState_eq. destruct (stateNameMap a !! name) as [s|] eqn:Hn.
  - eexists _, _, _. split; [done|]. split_and!; [reflexivity|done|done|].
    intros k. split; [auto|]. intros [->|?]; [eauto|done].
  - eexists _, _, _. split; [done|].
    split_and!; [apply storeExt_alloc| |done|].
    + destruct Hb. split; simpl.
      * intros k s. rewrite length_app. simpl.
        destruct (decide (k = name)) as [->|Hne].
        -- rewrite lookup_insert_eq. intros [= <-]. lia.
        -- rewrite lookup_insert_ne by done. intros Hk%built_map0. lia.
      * intros s. rewrite elem_of_JsSet_add, length_app. simpl.
        intros [Hs%built_states0| ->]; lia.
      * intros c dm s targets t Hc Hs Ht. rewrite length_app. simpl.
        pose proof (built_delta0 _ _ _ _ _ Hc Hs Ht). lia.
      * done.
    + intros k. simpl. destruct (decide (k = name)) as [->|Hne].
      * rewrite lookup_insert_eq. split; [auto|eauto].
      * rewrite lookup_insert_ne by done. split; [auto|]. intros [?|?]; done.
Qed.

(** [addEdge] between states of the store, on a symbol of the automaton. *)
Lemma addEdge_built from to c σ a f t :
  built σ a →
  Automaton.getState a from = Some f → Automaton.getState a to = Some t →
  f < length (sts σ) → t < length (sts σ) → is_Some (deltaMap a !! c) →
  ∃ τ b e, Automaton.addEdge from to c (σ, a) = ((τ, b), Ok e)
         ∧ storeExt σ τ ∧ built τ b
         ∧ alphabet b = alphabet a ∧ stateNameMap b = stateNameMap a
         ∧ states b = states a.
Proof.
  intros Hb Hf Ht Hfv Htv [dm Hc]. rewrite (addEdge_eq _ _ _ _ _ _ _ _ Hf Ht Hc).
  destruct (Automaton.findEdge σ f (Some t) c).
  - eexists _, _, _. split; [done|]. split_and!; [reflexivity|done..].
  - eexists _, _, _. split; [done|].
    split_and!; [apply storeExt_linkEdge| |done..].
    destruct Hb.
    split; cbn [stateNameMap states deltaMap alphabet set_deltaMap set_edges];
      rewrite ?length_linkEdge; [done|done| |].
    + intros c' dm' s targets u. destruct (decide (c' = c)) as [->|Hne].
      * rewrite lookup_insert_eq. intros [= <-].
        destruct (decide (s = f)) as [->|Hsf].
        -- rewrite lookup_insert_eq. intros [= <-].
           rewrite elem_of_JsSet_add. intros [Hu| ->]; [|done].
           destruct (dm !! f) as [targets|] eqn:Hdf; simpl in Hu.
           ++ by eapply built_delta0.
           ++ by apply elem_of_nil in Hu.
        -- rewrite lookup_insert_ne by done. intros Hs Hu. by eapply built_delta0.
      * rewrite lookup_insert_ne by done. intros Hc' Hs Hu. by eapply built_delta0.
    + intros c' Hc'. destruct (decide (c' = c)) as [->|Hne].
      * rewrite lookup_insert_eq. eauto.
      * rewrite lookup_insert_ne by done. by apply built_alpha0.
Qed.

(** ** The searches of [reduce] *)

(** What a search does to the store: it sets marks. *)
Definition searched (σ τ : Store) : Prop :=
  length (sts τ) = length (sts σ) ∧ eds τ = eds σ
  ∧ (∀ s, set_marked true (st τ s) = set_marked true (st σ s))
  ∧ ∀ s, marked (st σ s) = true → marked (st τ s) = true.

Global Instance searched_preorder : PreOrder searched.
Proof.
  split.
  - by intros σ.
  - intros σ1 σ2 σ3 (L12 & E12 & F12 & M12) (L23 & E23 & F23 & M23).
    split_and!; [congruence|congruence| |auto].
    intros s. by rewrite F23, F12.
Qed.

Lemma searched_mark σ s : searched σ (updState s (set_marked true) σ).
Proof.
  split_and!; [apply length_updState|done| |].
  - intros t. rewrite st_updState. by case_decide.
  - intros t Ht. rewrite st_updState. by case_decide.
Qed.

Lemma searched_shapeExt σ τ : searched σ τ → shapeExt σ τ.
Proof.
  intros (Hl & He & Hf & _).
  split; try (intros s _; specialize (Hf s)); try lia.
  - by apply (f_equal sname) in Hf.
  - by apply (f_equal sstart) in Hf.
  - by apply (f_equal sfinal) in Hf.
  - by apply (f_equal stag) in Hf.
  - by rewrite He.
  - unfold ed. by rewrite He.
Qed.

Lemma markedCount_mono σ τ l :
  (∀ s, marked (st σ s) = true → marked (st τ s) = true) →
  markedCount σ l ≤ markedCount τ l.
Proof.
  intros H. unfold markedCount. induction l as [|x l IH]; [done|].
  rewrite !filter_cons. destruct (decide (marked (st σ x) = true)) as [Hx|Hx].
  - rewrite decide_True by auto. simpl. lia.
  - case_decide; simpl; lia.
Qed.

Lemma markedCount_pos σ l s :
  s ∈ l → marked (st σ s) = true → 0 < markedCount σ l.
Proof.
  intros Hs Hm. unfold markedCount.
  assert (s ∈ filter (λ s, marked (st σ s) = true) l) as Hin
    by (by apply list_elem_of_filter).
  destruct (filter _ l); [by apply elem_of_nil in Hin|simpl; lia].
Qed.

Lemma st_invalid σ s : length (sts σ) ≤ s → st σ s = dummyState.
Proof. intros Hs. unfold st. by rewrite lookup_ge_None_2. Qed.

Section dfs.
Variable n : nat.
Variable f : nat.
(** The recursive calls, on unmarked states, complete. *)
Hypothesis IH : ∀ s σ,
  length (sts σ) = n → marked (st σ s) = false →
  n - markedCount σ (seq 0 n) < f →
  ∃ τ, Graph.dfs f [s] σ = (τ, Ok tt) ∧ searched σ τ.

Lemma dfs_edges l σ :
  length (sts σ) = n → n - markedCount σ (seq 0 n) < f →
  ∃ τ, forEach l (λ e,
         let* σ := get in
         if marked (st σ (sink (ed σ e))) then ret tt
         else Graph.dfs f [sink (ed σ e)]) σ = (τ, Ok tt)
       ∧ searched σ τ.
Proof.
  revert σ. induction l as [|e l IHl]; intros σ Hn Hc; simpl.
  - exists σ. split; [done|reflexivity].
  - unfold bind at 1. unfold bind at 1, get, gets. cbn [fst snd].
    destruct (marked (st σ (sink (ed σ e)))) eqn:Hm.
    + unfold ret at 1. by apply IHl.
    + destruct (IH (sink (ed σ e)) σ Hn Hm Hc) as (τ & -> & Hτ).
      destruct (IHl τ) as (τ' & Hrun & Hτ').
      * destruct Hτ as (? & _). congruence.
      * destruct Hτ as (_ & _ & _ & Hgrow).
        pose proof (markedCount_mono σ τ (seq 0 n) Hgrow). lia.
      * exists τ'. split; [done|]. by etrans.
Qed.

(** One round of the loop over the sources. *)
Lemma dfs_visit s σ :
  length (sts σ) = n →
  (s < n → n - markedCount (updState s (set_marked true) σ) (seq 0 n) < f) →
  ∃ τ, (modify (updState s (set_marked true)) ;;
        let* σ := get in
        forEach (edgesOut (st σ s)) (λ e,
          let* σ := get in
          if marked (st σ (sink (ed σ e))) then ret tt
          else Graph.dfs f [sink (ed σ e)])) σ = (τ, Ok tt)
       ∧ searched σ τ.
Proof.
  intros Hn Hc. unfold bind at 1, modify. unfold bind at 1, get, gets. cbn [fst snd].
  destruct (decide (s < n)) as [Hs|Hs].
  - destruct (dfs_edges (edgesOut (st (updState s (set_marked true) σ) s))
                (updState s (set_marked true) σ)) as (τ & Hrun & Hτ).
    + by rewrite length_updState.
    + auto.
    + exists τ. split; [done|]. etrans; [apply searched_mark|done].
  - rewrite (st_invalid (updState _ _ _)) by (rewrite length_updState; lia).
    simpl. eexists. split; [done|]. apply searched_mark.
Qed.

End dfs.

Lemma dfs_unmarked f n s σ :
  length (sts σ) = n → marked (st σ s) = false →
  n - markedCount σ (seq 0 n) < f →
  ∃ τ, Graph.dfs f [s] σ = (τ, Ok tt) ∧ searched σ τ.
Proof.
  revert s σ. induction f as [|f IH]; intros s σ Hn Hm Hc; [lia|].
  simpl. destruct (dfs_visit n f IH s σ Hn) as (τ & Hrun & Hτ).
  - intros Hs. rewrite markedCount_mark; try done.
    + assert (markedCount σ (seq 0 n) < length (seq 0 n)) as Hlt.
      { apply (markedCount_lt _ _ s); [|done]. apply elem_of_seq. lia. }
      rewrite length_seq in Hlt. lia.
    + apply NoDup_seq.
    + apply elem_of_seq. lia.
    + lia.
  - exists τ. split; [|done]. unfold bind at 1. by rewrite Hrun.
Qed.

(** [Graph.dfs] from any set of sources completes. *)
Lemma dfs_total sources σ :
  ∃ τ, Graph.dfs (searchFuel σ) sources σ = (τ, Ok tt) ∧ searched σ τ.
Proof.
  unfold searchFuel. simpl. set (n := length (sts σ)).
  assert (∀ σ', length (sts σ') = n →
    ∃ τ, forEach sources (λ s,
           modify (updState s (set_marked true)) ;;
           let* σ := get in
           forEach (edgesOut (st σ s)) (λ e,
             let* σ := get in
             if marked (st σ (sink (ed σ e))) then ret tt
             else Graph.dfs n [sink (ed σ e)])) σ' = (τ, Ok tt)
         ∧ searched σ' τ) as H; [|by apply H].
  induction sources as [|s sources IHs]; intros σ' Hn; simpl.
  - exists σ'. split; [done|reflexivity].
  - destruct (dfs_visit n n (λ s σ, dfs_unmarked n n s σ) s σ' Hn) as (τ & Hrun & Hτ).
    + intros Hs.
      assert (0 < markedCount (updState s (set_marked true) σ') (seq 0 n)); [|lia].
      apply (markedCount_pos _ _ s); [apply elem_of_seq; lia|].
      rewrite st_updState. rewrite (decide_True (P := _ ∧ _)); [done|]. split; [done|lia].
    + destruct (IHs τ) as (τ' & Hrun' & Hτ').
      * destruct Hτ as (? & _). congruence.
      * exists τ'. split; [|by etrans]. unfold bind at 1. by rewrite Hrun.
Qed.

(** ** [reverse] and [reduce] complete *)

(** The states and edges of the automaton are in the store, and every edge
    joins two of its states on a symbol of its alphabet. *)
Record wellFormed (σ : Store) (a : Automaton) : Prop := mkWellFormed {
  wf_states : ∀ s, s ∈ states a → s < length (sts σ);
  wf_edges : ∀ e, e ∈ edges a →
    e < length (eds σ) ∧ source (ed σ e) ∈ states a ∧ sink (ed σ e) ∈ states a
    ∧ symbol (ed σ e) ∈ alphabet a
}.

Lemma wellFormed_shapeExt σ τ a : shapeExt σ τ → wellFormed σ a → wellFormed τ a.
Proof.
  intros [] []. split.
  - intros s Hs%wf_states0. lia.
  - intros e (He & ?)%wf_edges0. rewrite se_ed0 by done. split; [lia|done].
Qed.

Lemma alphabet_new name l :
  alphabet (Automaton.new name (String.string_of_list_ascii l)) = l.
Proof. unfold Automaton.new. simpl. apply String.list_ascii_of_string_of_list_ascii. Qed.

(** While the states and edges of an automaton are copied into a new one:
    [σ0] is the store when the copy starts, [A] the alphabet, and [has] the
    names already copied. *)
Definition copying (σ0 : Store) (A : list ascii) (has : string → Prop)
    (p : Store * Automaton) : Prop :=
  storeExt σ0 p.1 ∧ built p.1 p.2 ∧ alphabet p.2 = A
  ∧ ∀ k, has k → is_Some (stateNameMap p.2 !! k).

Lemma copying_weaken σ0 A (has has' : string → Prop) p :
  (∀ k, has' k → has k) → copying σ0 A has p → copying σ0 A has' p.
Proof. intros H (? & ? & ? & Hk). split_and!; auto. Qed.

Lemma copying_addState σ0 A has name start final tag p :
  copying σ0 A has p →
  ∃ q s, Automaton.addState name start final tag false p = (q, Ok s)
       ∧ copying σ0 A (λ k, has k ∨ k = name) q.
Proof.
  destruct p as [σ a]. intros (Hext & Hb & HA & Hk).
  destruct (addState_built name start final tag σ a Hb)
    as (τ & b & s & Hrun & Hτ & Hb' & HA' & Hk').
  exists (τ, b), s. split; [done|]. split_and!; simpl in *.
  - by etrans.
  - done.
  - congruence.
  - intros k [?| ->]; apply Hk'; auto.
Qed.

Lemma copying_addEdge σ0 A (has : string → Prop) n1 n2 c p :
  copying σ0 A has p → has n1 → has n2 → c ∈ A →
  ∃ q e, Automaton.addEdge (ByName n1) (ByName n2) c p = (q, Ok e)
       ∧ copying σ0 A has q.
Proof.
  destruct p as [σ a]. intros (Hext & Hb & HA & Hk) H1 H2 Hc. simpl in *.
  destruct (Hk n1 H1) as [f Hf]. destruct (Hk n2 H2) as [t Ht].
  destruct (addEdge_built (ByName n1) (ByName n2) c σ a f t Hb)
    as (τ & b & e & Hrun & Hτ & Hb' & HA' & Hm & _); try done.
  - by eapply built_map.
  - by eapply built_map.
  - apply Hb. by rewrite HA.
  - exists (τ, b), e. split; [done|]. split_and!; simpl.
    + by etrans.
    + done.
    + congruence.
    + intros k Hk'. rewrite Hm. auto.
Qed.

Lemma reverse_total σ a :
  wellFormed σ a →
  ∃ τ aRev, Automaton.reverse a σ = (τ, Ok aRev)
          ∧ storeExt σ τ ∧ built τ aRev
          ∧ ∀ s, s ∈ states a → is_Some (stateNameMap aRev !! sname (st σ s)).
Proof.
  intros Hwf. unfold Automaton.reverse.
  set (ar := Automaton.new _ _).
  pose (I := λ (done : list nat), copying σ (alphabet a)
               (λ k, ∃ s, s ∈ done ∧ k = sname (st σ s))).
  set (loop1 := forEach (states a) _). set (loop2 := forEach (edges a) _).
  assert (hoare (I []) (loop1 ;; loop2) (λ _, I (states a))) as Hloops.
  { eapply hoare_bind; [|intros []].
    - apply (hoare_forEach I). intros done s rest Hsplit [σc ac] Hinv.
      assert (s ∈ states a) as Hs by (rewrite Hsplit, elem_of_app; right; left).
      unfold bind at 1, getStore, gets. cbn [fst snd].
      destruct (copying_addState _ _ _ (sname (st σc s)) (sfinal (st σc s))
                  (sstart (st σc s)) (stag (st σc s)) _ Hinv) as (q & s' & Hrun & Hq).
      unfold bind. rewrite Hrun. eexists _, _. split; [done|].
      eapply copying_weaken; [|exact Hq]. simpl.
      intros k (s1 & [Hs1| ->%list_elem_of_singleton]%elem_of_app & ->); [eauto|].
      right. destruct Hinv as ([Hse _] & _). symmetry. apply Hse. by apply Hwf.
    - apply (hoare_forEach (λ _, I (states a))).
      intros done e rest Hsplit [σc ac] Hinv.
      assert (e ∈ edges a) as He by (rewrite Hsplit, elem_of_app; right; left).
      destruct (wf_edges _ _ Hwf e He) as (Hev & Hsrc & Hsnk & Hsym).
      unfold bind at 1, getStore, gets. cbn [fst snd].
      assert (shapeExt σ σc) as Hse by (by destruct Hinv as ([? _] & _)).
      rewrite (se_ed _ _ Hse) by done.
      rewrite !(se_name _ _ Hse) by (by apply Hwf).
      destruct (copying_addEdge _ _ _ (sname (st σ (sink (ed σ e))))
                  (sname (st σ (source (ed σ e)))) (symbol (ed σ e)) _ Hinv)
        as (q & e' & Hrun & Hq); [eauto..|done|].
      unfold bind. rewrite Hrun. eexists _, _. split; [done|]. done. }
  destruct (Hloops (σ, ar)) as ([τ aRev] & [] & Hrun & (Hext & Hb & _ & Hk)).
  { split_and!; cbn [fst snd].
    - reflexivity.
    - apply built_new.
    - apply alphabet_new.
    - intros k (s & Hs & _). by apply elem_of_nil in Hs. }
  exists τ, aRev. split.
  - unfold bind at 1. unfold on. rewrite Hrun. done.
  - split_and!; [done|done|]. intros s Hs. apply Hk. eauto.
Qed.

Lemma markedByName_eq aRev name r p :
  stateNameMap aRev !! name = Some r →
  Automaton.markedByName aRev name p = (p, Ok (marked (st p.1 r))).
Proof. intros H. unfold Automaton.markedByName, Automaton.getStateByName. by rewrite H. Qed.

Lemma bind_Ok {T X Y} (m : M T X) (k : X → M T Y) t t' x :
  m t = (t', Ok x) → bind m k t = k x t'.
Proof. intros H. unfold bind. by rewrite H. Qed.

Lemma reduce_total σ a :
  wellFormed σ a →
  ∃ τ nfa, Automaton.reduce a σ = (τ, Ok nfa)
         ∧ built τ nfa ∧ alphabet nfa = alphabet a.
Proof.
  intros Hwf. unfold Automaton.reduce. set (ar := Automaton.new _ _).
  rewrite (bind_Ok get _ σ σ σ) by done.
  case_decide as Hemp.
  { exists σ, ar. split; [done|]. split; [apply built_new|apply alphabet_new]. }
  destruct (reverse_total σ a Hwf) as (σ1 & aRev & Hrev & [Hext1 _] & Hb1 & Hk1).
  rewrite (bind_Ok _ _ _ _ _ Hrev).
  rewrite (bind_Ok get _ σ1 σ1 σ1) by done.
  destruct (dfs_total (Automaton.getStartStates σ1 a) σ1) as (σ2 & Hd1 & Hs2).
  rewrite (bind_Ok _ _ _ _ _ Hd1).
  rewrite (bind_Ok get _ σ2 σ2 σ2) by done.
  destruct (dfs_total (Automaton.getStartStates σ2 aRev) σ2) as (σ3 & Hd2 & Hs3).
  rewrite (bind_Ok _ _ _ _ _ Hd2).
  assert (shapeExt σ σ3) as Hext3.
  { etrans; [exact Hext1|]. etrans; by apply searched_shapeExt. }
  assert (length (sts σ1) = length (sts σ3)) as Hlen.
  { destruct Hs2 as (? & _), Hs3 as (? & _). congruence. }
  assert (built σ3 aRev) as Hb3 by (eapply built_mono; [|done]; lia).
  pose proof (wellFormed_shapeExt _ _ _ Hext3 Hwf) as Hwf3.
  assert (∀ s, s ∈ states a → is_Some (stateNameMap aRev !! sname (st σ3 s))) as Hk3.
  { intros s Hs. rewrite (se_name _ _ Hext3) by (by apply Hwf). by apply Hk1. }
  clear Hemp Hrev Hd1 Hd2 Hs2 Hs3 Hext1 Hb1 Hk1 Hext3 Hlen Hwf σ1 σ2.
  (* the states and edges kept *)
  pose (keep := λ s, marked (st σ3 s) = true
                     ∧ ∃ r, stateNameMap aRev !! sname (st σ3 s) = Some r
                            ∧ marked (st σ3 r) = true).
  pose (I := λ (done : list nat), copying σ3 (alphabet a)
               (λ k, ∃ s, s ∈ done ∧ keep s ∧ k = sname (st σ3 s))).
  set (loop1 := forEach (states a) _). set (loop2 := forEach (edges a) _).
  assert (hoare (I []) (loop1 ;; loop2) (λ _, I (states a))) as Hloops.
  { eapply hoare_bind; [|intros []].
    - apply (hoare_forEach I). intros done s rest Hsplit [σc ac] Hinv.
      assert (s ∈ states a) as Hs by (rewrite Hsplit, elem_of_app; right; left).
      assert (storeExt σ3 σc) as [Hse Hmk] by (by destruct Hinv as (? & _)).
      assert (¬ keep s → I (done ++ [s]) (σc, ac)) as Hskip.
      { intros Hn. eapply copying_weaken; [|exact Hinv]. simpl.
        intros k (s1 & [Hs1| ->%list_elem_of_singleton]%elem_of_app & Hk1 & ->);
          [eauto|done]. }
      rewrite (bind_Ok getStore _ (σc, ac) (σc, ac) σc) by done.
      rewrite Hmk, (se_name _ _ Hse) by (by apply Hwf3).
      destruct (Hk3 s Hs) as [r Hr].
      assert (r < length (sts σ3)) as Hrv by (by eapply built_map).
      destruct (marked (st σ3 s)) eqn:Hm.
      2: { eexists _, _. split; [done|]. apply Hskip. intros [Hm' _]. congruence. }
      rewrite (bind_Ok _ _ _ _ _ (markedByName_eq _ _ _ _ Hr)). cbn [fst].
      rewrite Hmk by done.
      destruct (marked (st σ3 r)) eqn:Hmr.
      2: { eexists _, _. split; [done|]. apply Hskip.
           intros (_ & r' & Hr' & Hmr'). congruence. }
      destruct (copying_addState _ _ _ (sname (st σ3 s)) (sstart (st σc s))
                  (sfinal (st σc s)) (stag (st σc s)) _ Hinv) as (q & s' & Hrun & Hq).
      rewrite (bind_Ok _ _ _ _ _ Hrun). eexists _, _. split; [done|].
      eapply copying_weaken; [|exact Hq]. simpl.
      intros k (s1 & [Hs1| ->%list_elem_of_singleton]%elem_of_app & Hk1 & ->);
        [eauto|by right].
    - apply (hoare_forEach (λ _, I (states a))).
      intros done e rest Hsplit [σc ac] Hinv.
      assert (e ∈ edges a) as He by (rewrite Hsplit, elem_of_app; right; left).
      destruct (wf_edges _ _ Hwf3 e He) as (Hev & Hsrc & Hsnk & Hsym).
      assert (storeExt σ3 σc) as [Hse Hmk] by (by destruct Hinv as (? & _)).
      rewrite (bind_Ok getStore _ (σc, ac) (σc, ac) σc) by done.
      rewrite (se_ed _ _ Hse) by done.
      rewrite !Hmk, !(se_name _ _ Hse) by (by apply Hwf3).
      destruct (Hk3 _ Hsrc) as [r1 Hr1]. destruct (Hk3 _ Hsnk) as [r2 Hr2].
      assert (r1 < length (sts σ3)) as Hrv1 by (by eapply built_map).
      assert (r2 < length (sts σ3)) as Hrv2 by (by eapply built_map).
      destruct (marked (st σ3 (source (ed σ3 e)))) eqn:Hm1; [|by eexists _, _].
      destruct (marked (st σ3 (sink (ed σ3 e)))) eqn:Hm2; [|by eexists _, _].
      cbn [andb].
      rewrite (bind_Ok _ _ _ _ _ (markedByName_eq _ _ _ _ Hr1)). cbn [fst].
      rewrite Hmk by done.
      destruct (marked (st σ3 r1)) eqn:Hmr1; [|by eexists _, _].
      rewrite (bind_Ok _ _ _ _ _ (markedByName_eq _ _ _ _ Hr2)). cbn [fst].
      rewrite Hmk by done.
      destruct (marked (st σ3 r2)) eqn:Hmr2; [|by eexists _, _].
      destruct (copying_addEdge _ _ _ (sname (st σ3 (source (ed σ3 e))))
                  (sname (st σ3 (sink (ed σ3 e)))) (symbol (ed σ3 e)) _ Hinv)
        as (q & e' & Hrun & Hq).
      + exists (source (ed σ3 e)). split_and!; [done| |done]. split; eauto.
      + exists (sink (ed σ3 e)). split_and!; [done| |done]. split; eauto.
      + done.
      + rewrite (bind_Ok _ _ _ _ _ Hrun). by eexists _, _. }
  destruct (Hloops (σ3, ar)) as ([τ nfa] & [] & Hrun & (Hext & Hb & HA & Hk)).
  { split_and!; cbn [fst snd].
    - reflexivity.
    - apply built_new.
    - apply alphabet_new.
    - intros k (s & Hs & _). by apply elem_of_nil in Hs. }
  exists τ, nfa. split; [|done].
  unfold bind at 1. unfold on. rewrite Hrun. done.
Qed.

(** ** Renaming by position completes *)

Lemma renameStates_total σ a :
  ∃ τ b, Automaton.renameStates None (σ, a) = ((τ, b), Ok tt)
       ∧ states b = states a ∧ deltaMap b = deltaMap a ∧ alphabet b = alphabet a
       ∧ length (sts τ) = length (sts σ).
Proof.
  unfold Automaton.renameStates.
  rewrite (bind_Ok getThis _ (σ, a) (σ, a) a) by done.
  generalize (imap (λ i s, (s, i)) (states a)). intros l.
  revert σ a. induction l as [|[s i] l IH]; intros σ a; simpl.
  - by eexists _, _.
  - rewrite (bind_Ok _ _ _ _ _ (renameState_eq s (String_ i) σ a)).
    destruct (IH (updState s (set_sname (String_ i)) σ)
                (set_stateNameMap
                   (<[String_ i := s]> (delete (sname (st σ s)) (stateNameMap a))) a))
      as (τ & b & Hrun & Hst & Hdm & Hal & Hlen).
    exists τ, b. split; [done|]. rewrite length_updState in Hlen. done.
Qed.

(** ** Determinism, read off the transition table *)

Lemma isDeterministic_spec σ a :
  Automaton.isDeterministic σ a = true
  ↔ length (Automaton.getStartStates σ a) = 1
    ∧ ∀ c dm s targets,
        deltaMap a !! c = Some dm → dm !! s = Some targets → length targets ≤ 1.
Proof.
  unfold Automaton.isDeterministic. case_decide as Hst.
  - split; [done|]. intros [? _]. done.
  - rewrite forallb_forall. split.
    + intros H. split; [done|]. intros c dm s targets Hc Hs.
      apply elem_of_map_to_list, list_elem_of_In in Hc. specialize (H _ Hc).
      rewrite forallb_forall in H.
      apply elem_of_map_to_list, list_elem_of_In in Hs. specialize (H _ Hs).
      by apply bool_decide_eq_true in H.
    + intros [_ H] [c dm] Hc%list_elem_of_In%elem_of_map_to_list.
      apply forallb_forall. intros [s targets] Hs%list_elem_of_In%elem_of_map_to_list.
      apply bool_decide_eq_true. by eapply H.
Qed.

(** ** Sets of states built by repeated [add] *)

Lemma Forall_JsSet_add {A} `{EqDecision A} (P : A → Prop) x l :
  P x → Forall P l → Forall P (JsSet.add x l).
Proof.
  intros Hx Hl. unfold JsSet.add. case_decide; [done|].
  apply Forall_app. split; [done|]. by apply Forall_singleton.
Qed.

Lemma Forall_foldl_add {A} `{EqDecision A} (P : A → Prop) acc l :
  Forall P acc → Forall P l → Forall P (foldl (λ acc x, JsSet.add x acc) acc l).
Proof.
  revert acc. induction l as [|x l IH]; intros acc Hacc Hl; simpl; [done|].
  apply Forall_cons in Hl as [Hx Hl]. apply IH; [|done]. by apply Forall_JsSet_add.
Qed.

Lemma NoDup_foldl_add {A} `{EqDecision A} acc (l : list A) :
  NoDup acc → NoDup (foldl (λ acc x, JsSet.add x acc) acc l).
Proof.
  revert acc. induction l as [|x l IH]; intros acc Hacc; simpl; [done|].
  apply IH. by apply NoDup_JsSet_add.
Qed.

Lemma NoDup_JsSet_ofList {A} `{EqDecision A} (l : list A) : NoDup (JsSet.ofList l).
Proof. apply NoDup_foldl_add, NoDup_nil_2. Qed.

Lemma length_JsSet_add {A} `{EqDecision A} (x : A) l :
  length (JsSet.add x l) ≤ S (length l).
Proof. unfold JsSet.add. case_decide; [lia|]. rewrite length_app. simpl. lia. Qed.

(** The states reached from a set on one symbol are targets of the
    transition table, each listed once. *)
Lemma deltaStar_step (P : nat → Prop) a set c :
  (∀ c dm s targets t,
     deltaMap a !! c = Some dm → dm !! s = Some targets → t ∈ targets → P t) →
  Forall P (Automaton.deltaStar a set [c]) ∧ NoDup (Automaton.deltaStar a set [c]).
Proof.
  intros HP. simpl.
  set (next := foldl _ [] set).
  assert (Forall P next ∧ NoDup next) as Hnext.
  { subst next. generalize (@nil nat) (Forall_nil_2 P) (@NoDup_nil_2 nat).
    induction set as [|from set IH]; intros acc Hacc Hnd; simpl; [done|].
    apply IH.
    - apply Forall_foldl_add; [done|]. unfold Automaton.delta. simpl.
      destruct (deltaMap a !! c) as [dm|] eqn:Hc; [|done].
      destruct (dm !! from) as [targets|] eqn:Hs; [|done].
      apply Forall_foldl_add; [done|]. apply Forall_forall. intros t Ht. eauto.
    - by apply NoDup_foldl_add. }
  by case_decide.
Qed.

Lemma size_bounded (m : gmap string nat) (K : list string) :
  (∀ k, is_Some (m !! k) → k ∈ K) → size m ≤ length K.
Proof.
  intros H. rewrite <- length_map_to_list, <- (length_fmap fst).
  apply submseteq_length, NoDup_submseteq; [apply NoDup_fst_map_to_list|].
  intros k [[k' v] [-> Hkv]]%list_elem_of_fmap. apply H.
  apply elem_of_map_to_list in Hkv. simpl. eauto.
Qed.

Lemma list_filter_ext_in {A} (P Q : A → Prop) `{∀ x, Decision (P x)}
    `{∀ x, Decision (Q x)} (l : list A) :
  (∀ x, x ∈ l → (P x ↔ Q x)) → filter P l = filter Q l.
Proof.
  induction l as [|x l IH]; intros HPQ; [done|].
  rewrite !filter_cons. rewrite IH by (intros y Hy; apply HPQ; by right).
  destruct (decide (P x)) as [HP|HP], (decide (Q x)) as [HQ|HQ]; try done.
  - destruct HQ. by apply (HPQ x); [left|].
  - destruct HP. by apply (HPQ x); [left|].
Qed.

(** ** The loop of the subset construction *)

Section subset.
(** The store when the loop starts and the automaton that is determinized. *)
Variable σ1 : Store.
Variable nfa : Automaton.
Hypothesis nfa_delta : ∀ c dm s targets t,
  deltaMap nfa !! c = Some dm → dm !! s = Some targets → t ∈ targets →
  t < length (sts σ1).

(** Every name that a set of states of [σ1] can have. *)
Definition universe : list string :=
  (λ set, setName σ1 set ",") <$> powermset (seq 0 (length (sts σ1))).

Lemma setName_ext σ set sep :
  shapeExt σ1 σ → Forall (λ s, s < length (sts σ1)) set →
  setName σ set sep = setName σ1 set sep.
Proof.
  intros Hext Hv. unfold setName. do 2 f_equal. apply Forall_fmap_ext.
  eapply Forall_impl; [exact Hv|]. intros s Hs. simpl. by apply Hext.
Qed.

Lemma setName_universe set :
  NoDup set → Forall (λ s, s < length (sts σ1)) set → setName σ1 set "," ∈ universe.
Proof.
  intros Hnd Hv. unfold universe. apply list_elem_of_fmap. exists set. split; [done|].
  apply powermset_submseteq, NoDup_submseteq; [done|].
  intros s Hs. rewrite Forall_forall in Hv. apply elem_of_seq. specialize (Hv s Hs). lia.
Qed.

(** The name of the set reached on [c] from the set in the tag of a state. *)
Definition successorKey (set : list nat) (c : ascii) : string :=
  setName σ1 (Automaton.deltaStar nfa set [c]) ",".

(** The invariant of the loop.  [s0] is the start state of the automaton
    under construction, [todo] the states still to be expanded and [cur] the
    state that is being expanded, if any: its transitions lead to the states
    indexed under the names of its successor sets. *)
Record subsetInv (s0 : nat) (todo : list nat) (cur : option nat)
    (p : Store * Automaton) : Prop := mkSubsetInv {
  si_ext : shapeExt σ1 p.1;
  si_alpha : ∀ c, c ∈ alphabet nfa → is_Some (deltaMap p.2 !! c);
  si_keys : ∀ k, is_Some (stateNameMap p.2 !! k) → k ∈ universe;
  si_vals : ∀ k s, stateNameMap p.2 !! k = Some s →
    s < length (sts p.1) ∧ stag (st p.1 s) ≠ NoTag;
  si_states : ∀ s, s ∈ states p.2 → s < length (sts p.1);
  si_start : filter (λ s, sstart (st p.1 s) = true) (states p.2) = [s0];
  si_srcs : ∀ c dm s,
    deltaMap p.2 !! c = Some dm → is_Some (dm !! s) → s < length (sts p.1);
  si_det : ∀ c dm s targets,
    deltaMap p.2 !! c = Some dm → dm !! s = Some targets →
    length targets ≤ 1 ∧ (s ∉ todo)
    ∧ ∀ set t, cur = Some s → stag (st p.1 s) = StateSetTag set → t ∈ targets →
               stateNameMap p.2 !! successorKey set c = Some t;
  si_todo : ∀ s, s ∈ todo → ∃ k, stateNameMap p.2 !! k = Some s;
  si_nodup : NoDup todo
}.

(** The expansion of [cur] is over. *)
Lemma subsetInv_expanded s0 todo cur p :
  subsetInv s0 todo cur p → subsetInv s0 todo None p.
Proof.
  intros []. split; try done.
  intros c dm s targets Hc Hs. destruct (si_det0 c dm s targets Hc Hs) as (? & ? & ?).
  done.
Qed.

(** The next state to expand is taken from [todo]. *)
Lemma subsetInv_next s0 cur0 cur rest p :
  subsetInv s0 (cur :: rest) cur0 p → subsetInv s0 rest (Some cur) p.
Proof.
  intros []. split; try done.
  - intros c dm s targets Hc Hs. destruct (si_det0 c dm s targets Hc Hs) as (? & Hn & _).
    rewrite not_elem_of_cons in Hn. destruct Hn. split_and!; [done..|].
    intros set t [= ->]. done.
  - intros s Hs. apply si_todo0. by right.
  - by apply NoDup_cons in si_nodup0 as [_ ?].
Qed.

(** [dfa.addEdge(currentState, nextState, s)], where [nextState] is the state
    indexed under the name of the successor set. *)
Lemma subsetInv_addEdge s0 todo cur set next c p :
  subsetInv s0 todo (Some cur) p →
  cur < length (sts p.1) → cur ∉ todo → c ∈ alphabet nfa →
  stag (st p.1 cur) = StateSetTag set →
  stateNameMap p.2 !! successorKey set c = Some next →
  ∃ q e, Automaton.addEdge (ByObj cur) (ByObj next) c p = (q, Ok e)
       ∧ subsetInv s0 todo (Some cur) q
       ∧ stateNameMap q.2 = stateNameMap p.2
       ∧ length (sts q.1) = length (sts p.1).
Proof.
  destruct p as [σ a]. cbn [fst snd]. intros Hinv Hcur Hnt Hc Htag Hnext.
  destruct (si_alpha _ _ _ _ Hinv c Hc) as [dm Hdm]. cbn [snd] in Hdm.
  rewrite (addEdge_eq (ByObj cur) (ByObj next) c σ a cur next dm) by done.
  destruct (Automaton.findEdge σ cur (Some next) c).
  { eexists _, _. split; [done|]. done. }
  eexists _, _. split; [done|]. cbn [fst snd stateNameMap set_deltaMap set_edges].
  split; [|split; [done|by rewrite length_linkEdge]].
  (* the targets recorded so far for [cur] on [c] are [next] at most *)
  assert (length (JsSet.add next (default [] (dm !! cur))) ≤ 1
          ∧ ∀ t, t ∈ JsSet.add next (default [] (dm !! cur)) → t = next) as [Hlen Hall].
  { destruct (dm !! cur) as [targets|] eqn:Hs; simpl.
    - destruct (si_det _ _ _ _ Hinv c dm cur targets Hdm Hs) as (Hl & _ & Hk).
      cbn [fst snd] in Hk.
      assert (∀ t, t ∈ targets → t = next) as Hnx.
      { intros t Ht. specialize (Hk set t eq_refl Htag Ht). congruence. }
      unfold JsSet.add. case_decide as Hin.
      + split; [done|]. auto.
      + destruct targets as [|t targets]; [|destruct Hin; rewrite (Hnx t); left].
        split; [simpl; lia|]. by intros t ->%list_elem_of_singleton.
    - split; [simpl; lia|]. by intros t ->%list_elem_of_singleton. }
  destruct (storeExt_linkEdge σ cur next c) as [Hext _].
  destruct Hinv. cbn [fst snd] in *.
  split; cbn [fst snd stateNameMap states deltaMap set_deltaMap set_edges];
    rewrite ?length_linkEdge; try done.
  - by etrans.
  - intros c' Hc'. destruct (decide (c' = c)) as [->|Hne].
    + rewrite lookup_insert_eq. eauto.
    + rewrite lookup_insert_ne by done. auto.
  - intros k s Hk. destruct (si_vals0 k s Hk) as [Hv Htg].
    split; [done|]. by rewrite (se_tag _ _ Hext).
  - rewrite <- si_start0. apply list_filter_iff. intros s.
    rewrite st_linkEdge. done.
  - intros c' dm' s. destruct (decide (c' = c)) as [->|Hne].
    + rewrite lookup_insert_eq. intros [= <-].
      destruct (decide (s = cur)) as [->|Hs]; [done|].
      rewrite lookup_insert_ne by done. intros Hs'. eapply si_srcs0; eauto.
    + rewrite lookup_insert_ne by done. apply si_srcs0.
  - intros c' dm' s targets Hc' Hs'.
    assert (∀ s, s < length (sts σ) →
              stag (st (linkEdge σ cur next c) s) = stag (st σ s)) as Htags
      by (intros; by apply Hext).
    destruct (decide (c' = c)) as [->|Hne].
    + rewrite lookup_insert_eq in Hc'. injection Hc' as <-.
      destruct (decide (s = cur)) as [->|Hs].
      * rewrite lookup_insert_eq in Hs'. injection Hs' as <-.
        split_and!; [done|done|].
        intros set' t _. rewrite Htags, Htag by done. intros [= <-] Ht.
        by rewrite (Hall t Ht).
      * rewrite lookup_insert_ne in Hs' by done.
        destruct (si_det0 c dm s targets Hdm Hs') as (? & ? & ?). split_and!; [done..|].
        intros set' t [= ->]. done.
    + rewrite lookup_insert_ne in Hc' by done.
      destruct (si_det0 c' dm' s targets Hc' Hs') as (? & ? & Hk). split_and!; [done..|].
      intros set' t [= ->]. rewrite Htags by done. by apply Hk.
Qed.

(** [dfa.addState(nextStatesSet.name(), false, ..., { stateSet })] for a name
    that is not yet taken, followed by [todoStates.add(nextState)]. *)
Lemma subsetInv_addState s0 todo cur name final set p :
  subsetInv s0 todo cur p →
  stateNameMap p.2 !! name = None → name ∈ universe →
  ∃ q, Automaton.addState name false final (StateSetTag set) false p
       = (q, Ok (length (sts p.1)))
     ∧ subsetInv s0 (JsSet.add (length (sts p.1)) todo) cur q
     ∧ size (stateNameMap q.2) = S (size (stateNameMap p.2))
     ∧ length (sts q.1) = S (length (sts p.1))
     ∧ stateNameMap q.2 !! name = Some (length (sts p.1))
     ∧ (∀ k, k ≠ name → stateNameMap q.2 !! k = stateNameMap p.2 !! k)
     ∧ ∀ s, s < length (sts p.1) → st q.1 s = st p.1 s.
Proof.
  destruct p as [σ a]. cbn [fst snd]. intros Hinv Hnone Huni.
  rewrite addState_eq, Hnone. eexists. split; [done|].
  cbn [fst snd stateNameMap set_stateNameMap].
  split_and!.
  2: by rewrite map_size_insert_None.
  2: simpl; rewrite length_app; simpl; lia.
  2: by rewrite lookup_insert_eq.
  2: by intros k Hk; rewrite lookup_insert_ne.
  2: by intros s Hs; rewrite st_alloc.
  destruct (storeExt_alloc σ (newState name false final (StateSetTag set))) as [Hext _].
  destruct Hinv. cbn [fst snd] in *.
  assert (length (sts σ) ∉ states a) as Hfresh.
  { intros Hin%si_states0. lia. }
  split; cbn [fst snd stateNameMap states deltaMap set_stateNameMap set_states sts];
    rewrite ?length_app; cbn [length]; try done.
  - by etrans.
  - intros k. destruct (decide (k = name)) as [->|Hne].
    + done.
    + rewrite lookup_insert_ne by done. auto.
  - intros k s. destruct (decide (k = name)) as [->|Hne].
    + rewrite lookup_insert_eq. intros [= <-]. split; [lia|].
      by rewrite st_alloc_new.
    + rewrite lookup_insert_ne by done. intros Hk.
      destruct (si_vals0 k s Hk) as [Hv Htag]. split; [lia|].
      by rewrite st_alloc.
  - intros s. rewrite elem_of_JsSet_add. intros [Hs%si_states0| ->]; lia.
  - unfold JsSet.add. rewrite decide_False by done.
    rewrite filter_app, filter_cons, st_alloc_new. simpl.
    rewrite filter_nil, app_nil_r.
    rewrite <- si_start0. apply list_filter_ext_in.
    intros s Hs. by rewrite st_alloc by auto.
  - intros c dm s Hc Hs. pose proof (si_srcs0 c dm s Hc Hs). lia.
  - intros c dm s targets Hc Hs.
    assert (s < length (sts σ)) as Hsv by (eapply si_srcs0; eauto).
    destruct (si_det0 c dm s targets Hc Hs) as (? & ? & Hk). split_and!; [done| |].
    + rewrite elem_of_JsSet_add. intros [?| ->]; [done|lia].
    + intros set' t Hcur. rewrite st_alloc by done. intros Htag Ht.
      specialize (Hk set' t Hcur Htag Ht).
      rewrite lookup_insert_ne; [done|]. intros Heq. congruence.
  - intros s. rewrite elem_of_JsSet_add. intros [Hs| ->].
    + destruct (si_todo0 s Hs) as [k Hk]. exists k.
      rewrite lookup_insert_ne; [done|]. intros ->. congruence.
    + exists name. by rewrite lookup_insert_eq.
  - by apply NoDup_JsSet_add.
Qed.

(** While [cur] is expanded with [f] rounds of the loop left and [todo] the
    states waiting. *)
Definition expanding (s0 cur f : nat) (todo : list nat)
    (p : Store * Automaton) : Prop :=
  subsetInv s0 todo (Some cur) p
  ∧ (cur ∉ todo)
  ∧ (∃ k, stateNameMap p.2 !! k = Some cur)
  ∧ length todo + length universe ≤ f + size (stateNameMap p.2).

(** The loop ends, with fuel for one round per name of the universe. *)
Lemma subsetLoop_total fuel s0 todo cur p :
  subsetInv s0 todo cur p →
  length todo + length universe ≤ fuel + size (stateNameMap p.2) →
  ∃ q, Automaton.subsetLoop fuel nfa todo p = (q, Ok tt)
     ∧ subsetInv s0 [] None q.
Proof.
  revert todo cur p. induction fuel as [|f IH]; intros todo cur0 p Hinv Hm.
  { destruct todo as [|cur rest].
    - exists p. split; [done|]. by eapply subsetInv_expanded.
    - exfalso. pose proof (size_bounded _ _ (si_keys _ _ _ _ Hinv)). simpl in Hm. lia. }
  destruct todo as [|cur rest].
  { exists p. split; [done|]. by eapply subsetInv_expanded. }
  cbn [Automaton.subsetLoop].
  set (body := λ (todoStates : list nat) (s : ascii), _).
  assert (hoare (expanding s0 cur f rest) (foldlM body rest (alphabet nfa))
            (λ todo', expanding s0 cur f todo')) as Hinner.
  { apply (hoare_foldlM (λ _, expanding s0 cur f)).
    intros done c others todo Hsplit [σ a] (Hi & Hnt & [kc Hkc] & Hmeas).
    cbn [fst snd] in *.
    assert (c ∈ alphabet nfa) as Hc by (rewrite Hsplit, elem_of_app; right; left).
    destruct (si_vals _ _ _ _ Hi kc cur Hkc) as [Hcv Htag]. cbn [fst] in Hcv, Htag.
    subst body. cbn beta.
    rewrite (bind_Ok getStore _ (σ, a) (σ, a) σ) by done.
    destruct (stag (st σ cur)) as [|set] eqn:Htg; [done|].
    destruct (deltaStar_step (λ t, t < length (sts σ1)) nfa set c nfa_delta)
      as [Hvalid Hnodup].
    rewrite (setName_ext σ _ _ (si_ext _ _ _ _ Hi) Hvalid).
    pose proof (setName_universe _ Hnodup Hvalid) as Huni.
    fold (successorKey set c) in Huni |- *.
    rewrite (bind_Ok getThis _ (σ, a) (σ, a) a) by done.
    unfold Automaton.getStateByName.
    destruct (stateNameMap a !! successorKey set c) as [next|] eqn:Hlk.
    - destruct (subsetInv_addEdge s0 todo cur set next c (σ, a) Hi Hcv Hnt Hc Htg Hlk)
        as (q & e & Hrun & Hq & Hmap & Hlen).
      rewrite (bind_Ok _ _ _ _ _ Hrun). eexists q, todo. split; [done|].
      split_and!; [done|done| |].
      + exists kc. by rewrite Hmap.
      + by rewrite Hmap.
    - destruct (subsetInv_addState s0 todo (Some cur) _
                  (existsb (λ s, sfinal (st σ s)) (Automaton.deltaStar nfa set [c]))
                  (Automaton.deltaStar nfa set [c]) (σ, a) Hi Hlk Huni)
        as (q1 & Hrun1 & Hq1 & Hsize & Hlen1 & Hnew & Hold & Hsame).
      cbn [fst snd] in *.
      rewrite (bind_Ok _ _ _ _ _ Hrun1).
      assert (cur ∉ JsSet.add (length (sts σ)) todo) as Hnt1.
      { rewrite elem_of_JsSet_add. intros [?|?]; [done|lia]. }
      destruct (subsetInv_addEdge s0 _ cur set (length (sts σ)) c q1 Hq1)
        as (q & e & Hrun & Hq & Hmap & Hlen); [lia|done|done| |done|].
      { by rewrite Hsame. }
      rewrite (bind_Ok _ _ _ _ _ Hrun). eexists q, _. split; [done|].
      split_and!; [done|done| |].
      + exists kc. rewrite Hmap, Hold; [done|]. intros Heq. congruence.
      + rewrite Hmap, Hsize.
        pose proof (length_JsSet_add (length (sts σ)) todo). lia. }
  destruct (Hinner p) as (q & todo' & Hrun & (Hq & _ & _ & Hmeas)).
  { split_and!.
    - by eapply subsetInv_next.
    - pose proof (si_nodup _ _ _ _ Hinv) as Hnd. by apply NoDup_cons in Hnd as [? _].
    - apply (si_todo _ _ _ _ Hinv). left.
    - simpl in Hm. lia. }
  rewrite (bind_Ok _ _ _ _ _ Hrun).
  by apply (IH todo' (Some cur) q).
Qed.

End subset.

Lemma length_foldl_add {A} `{EqDecision A} acc (l : list A) :
  length (foldl (λ acc x, JsSet.add x acc) acc l) ≤ length acc + length l.
Proof.
  revert acc. induction l as [|x l IH]; intros acc; simpl; [lia|].
  specialize (IH (JsSet.add x acc)). pose proof (length_JsSet_add x acc). lia.
Qed.

(** In a deterministic automaton [delta] yields at most one state. *)
Lemma isDeterministic_delta σ a s c :
  Automaton.isDeterministic σ a = true → length (Automaton.delta a s (Some c)) ≤ 1.
Proof.
  intros [_ Hdet]%isDeterministic_spec. unfold Automaton.delta. simpl.
  destruct (deltaMap a !! c) as [dm|] eqn:Hc; [|simpl; lia].
  destruct (dm !! s) as [targets|] eqn:Hs; [|simpl; lia].
  pose proof (Hdet c dm s targets Hc Hs).
  pose proof (length_foldl_add [] targets). simpl in *. lia.
Qed.

(** The subset construction proper: from an automaton [nfa] whose
    transitions stay in the store, the new automaton is completed, and it is
    deterministic. *)
Lemma subsetConstruction_total σ nfa fuel :
  (∀ s, s ∈ states nfa → s < length (sts σ)) →
  (∀ c dm s targets t,
     deltaMap nfa !! c = Some dm → dm !! s = Some targets → t ∈ targets →
     t < length (sts σ)) →
  length (universe σ) ≤ fuel →
  ∃ τ d,
    on (Automaton.new (aname nfa +:+ "-dfa") (String.string_of_list_ascii (alphabet nfa)))
      (let* startState :=
         Automaton.addState (setName σ (Automaton.getStartStates σ nfa) ",") true
           (existsb (λ s, sfinal (st σ s)) (Automaton.getStartStates σ nfa))
           (StateSetTag (Automaton.getStartStates σ nfa)) false in
       Automaton.subsetLoop fuel nfa [startState]) σ = (τ, Ok (d, tt))
    ∧ Automaton.isDeterministic τ d = true.
Proof.
  intros Hst Hdelta Hfuel.
  set (dfa := Automaton.new _ _). set (name := setName _ _ _).
  set (s0 := length (sts σ)).
  pose proof (addState_eq name true
                (existsb (λ s, sfinal (st σ s)) (Automaton.getStartStates σ nfa))
                (StateSetTag (Automaton.getStartStates σ nfa)) σ dfa) as Hadd.
  assert (stateNameMap dfa !! name = None) as Hnone by apply lookup_empty.
  rewrite Hnone in Hadd. fold s0 in Hadd.
  set (p := (mkStore _ _, _)) in Hadd.
  assert (subsetInv σ nfa s0 [s0] None p) as Hinv.
  { destruct (storeExt_alloc σ (newState name true
                (existsb (λ s, sfinal (st σ s)) (Automaton.getStartStates σ nfa))
                (StateSetTag (Automaton.getStartStates σ nfa)))) as [Hext _].
    subst p. split; cbn [fst snd stateNameMap states deltaMap set_stateNameMap set_states sts].
    - done.
    - intros c Hc. apply deltaMap_new.
      by rewrite String.list_ascii_of_string_of_list_ascii.
    - intros k. destruct (decide (k = name)) as [->|Hne].
      + intros _. apply setName_universe; [apply NoDup_JsSet_ofList|].
        apply Forall_forall. intros s [Hs _]%elem_of_getStartStates. auto.
      + rewrite lookup_insert_ne by done. subst dfa. simpl.
        rewrite lookup_empty. by intros [? ?].
    - intros k s. destruct (decide (k = name)) as [->|Hne].
      + rewrite lookup_insert_eq. intros [= <-]. rewrite length_app. simpl.
        split; [lia|]. subst s0. by rewrite st_alloc_new.
      + rewrite lookup_insert_ne by done. subst dfa. simpl. by rewrite lookup_empty.
    - subst dfa. simpl. intros s ->%list_elem_of_singleton. rewrite length_app. simpl. lia.
    - subst dfa s0. simpl.
      change (JsSet.add (length (sts σ)) []) with [length (sts σ)].
      rewrite filter_cons, st_alloc_new. simpl. done.
    - intros c dm s Hc. apply deltaMap_new_empty in Hc as ->.
      rewrite lookup_empty. by intros [? ?].
    - intros c dm s targets Hc. apply deltaMap_new_empty in Hc as ->.
      by rewrite lookup_empty.
    - intros s ->%list_elem_of_singleton. exists name. by rewrite lookup_insert_eq.
    - apply NoDup_singleton. }
  destruct (subsetLoop_total σ nfa Hdelta fuel s0 [s0] None p Hinv)
    as ([τ d] & Hrun & Hq).
  { subst p. cbn [snd stateNameMap set_stateNameMap].
    rewrite map_size_insert_None by done. simpl. lia. }
  exists τ, d. split.
  - unfold on. rewrite (bind_Ok _ _ _ _ _ Hadd), Hrun. done.
  - apply isDeterministic_spec. split.
    + pose proof (si_start _ _ _ _ _ _ Hq) as Hs0. cbn [fst snd] in Hs0.
      unfold Automaton.getStartStates. rewrite Hs0. done.
    + intros c dm s targets Hc Hs.
      by destruct (si_det _ _ _ _ _ _ Hq c dm s targets Hc Hs) as [? _].
Qed.

(** ** Automata built by calls are well formed *)

(** An argument of [addEdge] that denotes a state of the automaton. *)
Definition ownRef (a : Automaton) (r : StateRef) : Prop :=
  match r with ByName _ => True | ByObj s => s ∈ states a end.

(** A sequence of [addState] and [addEdge] calls on the states of the
    automaton, each of which completes normally. *)
Fixpoint building (ops : list Op) (p : Store * Automaton) : Prop :=
  match ops with
  | [] => True
  | op :: ops' =>
      match op with
      | OpAddState _ _ _ _ _ => True
      | OpAddEdge from to _ => ownRef p.2 from ∧ ownRef p.2 to
      | _ => False
      end
      ∧ (∃ q, exec op p = (q, Ok tt))
      ∧ building ops' (exec op p).1
  end.

(** What such calls maintain. *)
Definition wellBuilt (p : Store * Automaton) : Prop :=
  wellFormed p.1 p.2
  ∧ (∀ k s, stateNameMap p.2 !! k = Some s → s ∈ states p.2)
  ∧ (∀ c, is_Some (deltaMap p.2 !! c) → c ∈ alphabet p.2).

Lemma wellBuilt_new σ name symbols : wellBuilt (σ, Automaton.new name symbols).
Proof.
  split_and!; cbn [fst snd].
  - split; simpl; intros x Hx; by apply elem_of_nil in Hx.
  - intros k s. simpl. by rewrite lookup_empty.
  - intros c Hc. by apply deltaMap_new in Hc.
Qed.

Lemma addState_cases name start final tag forceNew σ a :
  ∃ name',
    Automaton.addState name start final tag forceNew (σ, a)
    = match stateNameMap a !! name' with
      | Some s => ((σ, a), Ok s)
      | None =>
          ((mkStore (sts σ ++ [newState name' start final tag]) (eds σ),
            set_stateNameMap (<[name' := length (sts σ)]> (stateNameMap a))
              (set_states (JsSet.add (length (sts σ)) (states a)) a)),
           Ok (length (sts σ)))
      end.
Proof.
  exists (if forceNew
          then Automaton.uniquify (size (stateNameMap a)) (stateNameMap a) name
          else name).
  unfold Automaton.addState, bind, getThis, gets, ret. cbn [fst snd].
  unfold Automaton.getStateByName.
  by destruct (stateNameMap a !! _).
Qed.

Lemma wellBuilt_addState name start final tag forceNew p :
  wellBuilt p → wellBuilt (Automaton.addState name start final tag forceNew p).1.
Proof.
  destruct p as [σ a]. intros ([Hs He] & Hmap & Hdm). cbn [fst snd] in *.
  destruct (addState_cases name start final tag forceNew σ a) as [name' ->].
  destruct (stateNameMap a !! name') as [s|] eqn:Hn; [done|].
  split_and!; cbn [fst snd stateNameMap states edges deltaMap alphabet
                   set_stateNameMap set_states sts eds].
  - split; cbn [states edges alphabet set_stateNameMap set_states sts eds].
    + intros s. rewrite elem_of_JsSet_add, length_app. simpl.
      intros [Hin%Hs| ->]; lia.
    + intros e (Hv & Hsrc & Hsnk & Hsym)%He.
      rewrite !elem_of_JsSet_add. split_and!; auto.
  - intros k s. rewrite elem_of_JsSet_add. destruct (decide (k = name')) as [->|Hne].
    + rewrite lookup_insert_eq. intros [= <-]. by right.
    + rewrite lookup_insert_ne by done. intros Hk%Hmap. by left.
  - done.
Qed.

Lemma wellBuilt_addEdge from to c p q e :
  wellBuilt p → ownRef p.2 from → ownRef p.2 to →
  Automaton.addEdge from to c p = (q, Ok e) → wellBuilt q.
Proof.
  destruct p as [σ a]. intros Hwb Hfrom Hto. cbn [fst snd] in *.
  destruct (Automaton.getState a from) as [f|] eqn:Hf,
           (Automaton.getState a to) as [t|] eqn:Ht,
           (deltaMap a !! c) as [dm|] eqn:Hc.
  2-8: unfold Automaton.addEdge, Automaton.getEdge;
       unfold bind, getThis, getStore, gets, ret, throw, allocEdge, modThis, modStore,
         modify; cbn [fst snd]; rewrite Hf, ?Ht; cbn [fst snd];
       try (destruct (Automaton.findEdge σ f _ c); cbn [fst snd deltaMap set_edges];
            rewrite ?Hc); congruence.
  rewrite (addEdge_eq _ _ _ _ _ _ _ _ Hf Ht Hc).
  destruct (Automaton.findEdge σ f (Some t) c); [congruence|]. intros [= <- _].
  destruct Hwb as ([Hs He] & Hmap & Hdm). cbn [fst snd] in *.
  assert (∀ r s, ownRef a r → Automaton.getState a r = Some s → s ∈ states a) as Hown.
  { intros [k|s'] s Hr; simpl; [apply Hmap|]. intros [= <-]. done. }
  destruct (storeExt_linkEdge σ f t c) as [Hext _].
  split_and!; cbn [fst snd stateNameMap states edges deltaMap alphabet
                   set_deltaMap set_edges].
  - split; cbn [states edges alphabet set_deltaMap set_edges].
    + intros s Hin%Hs. by rewrite length_linkEdge.
    + intros e'. rewrite elem_of_JsSet_add. intros [Hin| ->].
      * destruct (He e' Hin) as (Hv & Hrest). rewrite (se_ed _ _ Hext) by done.
        split; [|done]. pose proof (se_elen _ _ Hext). lia.
      * assert (ed (linkEdge σ f t c) (length (eds σ)) = mkEdge f t c None) as ->.
        { unfold linkEdge, updState, ed. simpl. by rewrite list_lookup_middle. }
        simpl. split_and!;
          [|exact (Hown from f Hfrom Hf)|exact (Hown to t Hto Ht)|apply Hdm; eauto].
        rewrite length_app. simpl. lia.
  - done.
  - intros c'. destruct (decide (c' = c)) as [->|Hne].
    + intros _. apply Hdm. eauto.
    + rewrite lookup_insert_ne by done. apply Hdm.
Qed.

Lemma wellBuilt_building ops p : building ops p → wellBuilt p → wellBuilt (execAll ops p).
Proof.
  revert p. induction ops as [|op ops IH]; intros p Hops Hwb; [done|].
  destruct Hops as (Hop & [q Hrun] & Hrest). simpl. apply IH; [done|].
  destruct op as [name start final tag forceNew|from to c| | |]; try done.
  - simpl. rewrite bind_ret_fst. by apply wellBuilt_addState.
  - destruct Hop as [Hfrom Hto]. simpl in Hrun |- *. unfold bind in Hrun |- *.
    destruct (Automaton.addEdge from to c p) as [q' [e| |]] eqn:Hadd; try done.
    simpl. exact (wellBuilt_addEdge from to c p q' e Hwb Hfrom Hto Hadd).
Qed.

(** Every automaton built on a new one by calls of [addState] and [addEdge]
    that complete is well formed. *)
Lemma wellFormed_building ops σ name symbols :
  building ops (σ, Automaton.new name symbols) →
  wellFormed (execAll ops (σ, Automaton.new name symbols)).1
             (execAll ops (σ, Automaton.new name symbols)).2.
Proof. intros Hops. by apply wellBuilt_building, wellBuilt_new. Qed.

(** An executable check of [wellFormed], for concrete automata. *)
Definition wellFormed_check (σ : Store) (a : Automaton) : bool :=
  forallb (λ s, bool_decide (s < length (sts σ))) (states a)
  && forallb (λ e, bool_decide (e < length (eds σ))
                   && bool_decide (source (ed σ e) ∈ states a)
                   && bool_decide (sink (ed σ e) ∈ states a)
                   && bool_decide (symbol (ed σ e) ∈ alphabet a))
       (edges a).

Lemma wellFormed_check_ok σ a : wellFormed_check σ a = true → wellFormed σ a.
Proof.
  unfold wellFormed_check. intros [Hs He]%andb_prop.
  rewrite forallb_forall in Hs, He. split.
  - intros s Hin%list_elem_of_In. apply Hs in Hin. by apply bool_decide_eq_true in Hin.
  - intros e Hin%list_elem_of_In.
    apply He in Hin as [[[H1 H2]%andb_prop H3]%andb_prop H4]%andb_prop.
    apply bool_decide_eq_true in H1, H2, H3, H4. done.
Qed.

(** C4, amended.  For a well-formed automaton with at least one state,
    [makeDeterministic()] completes (the loop of the subset construction ends
    once it has enough fuel) and returns a deterministic automaton: it has
    exactly one start state and [delta] gives at most one successor for every
    state and symbol. *)
Theorem makeDeterministic_deterministic σ a :
  wellFormed σ a → states a ≠ [] →
  ∃ fuel0, ∀ fuel, fuel0 ≤ fuel →
    ∃ τ d, Automaton.makeDeterministic fuel true a σ = (τ, Ok d)
         ∧ Automaton.isDeterministic τ d = true
         ∧ length (Automaton.getStartStates τ d) = 1
         ∧ ∀ s c, length (Automaton.delta d s (Some c)) ≤ 1.
Proof.
  intros Hwf Hne.
  assert (∃ fuel0, ∀ fuel, fuel0 ≤ fuel →
            ∃ τ d, Automaton.makeDeterministic fuel true a σ = (τ, Ok d)
                 ∧ Automaton.isDeterministic τ d = true) as (fuel0 & H).
  2: { exists fuel0. intros fuel Hf. destruct (H fuel Hf) as (τ & d & Hrun & Hdet).
       exists τ, d. split_and!; [done|done| |].
       - by apply isDeterministic_spec in Hdet as [? _].
       - intros s c. by eapply isDeterministic_delta. }
  unfold Automaton.makeDeterministic, Automaton.isEmpty.
  rewrite bool_decide_eq_false_2 by (by destruct (states a)).
  destruct (reduce_total σ a Hwf) as (σr & r & Hred & Hb & HA).
  destruct (renameStates_total σr r) as (τ1 & nfa & Hren & Hst & Hdm & Hal & Hlen).
  assert ((let* r := Automaton.reduce a in
           let* r := on r (Automaton.renameStates None) in ret r.1) σ
          = (τ1, Ok nfa)) as Hnfa.
  { rewrite (bind_Ok _ _ _ _ _ Hred).
    assert (on r (Automaton.renameStates None) σr = (τ1, Ok (nfa, tt))) as Hon
      by (unfold on; by rewrite Hren).
    by rewrite (bind_Ok _ _ _ _ _ Hon). }
  exists (length (universe τ1)). intros fuel Hfuel.
  rewrite (bind_Ok _ _ _ _ _ Hnfa).
  rewrite (bind_Ok get _ τ1 τ1 τ1) by done.
  destruct (Automaton.isDeterministic τ1 nfa) eqn:Hdet; [by exists τ1, nfa|].
  destruct (subsetConstruction_total τ1 nfa fuel) as (τ & d & Hrun & Hd).
  - intros s Hs. rewrite Hlen. apply Hb. by rewrite <- Hst.
  - intros c dm s targets t Hc Hs Ht. rewrite Hlen. rewrite Hdm in Hc.
    by eapply (built_delta _ _ Hb).
  - done.
  - exists τ, d. split; [|done]. by rewrite (bind_Ok _ _ _ _ _ Hrun).
Qed.

Lemma makeDeterministic_deterministic_witness :
  ∃ fuel0, ∀ fuel, fuel0 ≤ fuel →
    ∃ τ d, Automaton.makeDeterministic fuel true endsWithA.2 endsWithA.1 = (τ, Ok d)
         ∧ Automaton.isDeterministic τ d = true
         ∧ length (Automaton.getStartStates τ d) = 1
         ∧ ∀ s c, length (Automaton.delta d s (Some c)) ≤ 1.
Proof.
  apply (makeDeterministic_deterministic endsWithA.1 endsWithA.2).
  - apply wellFormed_check_ok. vm_compute. reflexivity.
  - vm_compute. discriminate.
Defined.

(** On that automaton the subset construction runs, and three rounds are
    enough: the result has the states {0} and {0, 1} and accepts ba but
    not ab. *)
Lemma makeDeterministic_endsWithA :
  Automaton.isDeterministic endsWithA.1 endsWithA.2 = false
  ∧ ∃ τ d, Automaton.makeDeterministic 3 true endsWithA.2 endsWithA.1 = (τ, Ok d)
         ∧ Automaton.isDeterministic τ d = true
         ∧ length (states d) = 2
         ∧ Automaton.accepts τ d "ba" = true
         ∧ Automaton.accepts τ d "ab" = false.
Proof.
  split; [vm_compute; reflexivity|]. eexists _, _. split; [vm_compute; reflexivity|].
  vm_compute. done.
Qed.

(** C4 as stated fails for the automaton without states: the guard
    [if (this.isEmpty()) return this.reduce()] returns an automaton without
    states, which has no start state and is not deterministic. *)
Lemma makeDeterministic_empty_counterexample :
  Automaton.makeDeterministic 10 true (Automaton.new "A" "ab") emptyStore
  = (emptyStore, Ok (Automaton.new "reduced of A" "ab"))
  ∧ Automaton.isDeterministic emptyStore (Automaton.new "reduced of A" "ab") = false.
Proof. split; vm_compute; reflexivity. Qed.

(** * Runs that depart from the specification *)

(** C1, refuted at a concrete automaton.  After [a.makeDeterministic()] has
    been called once, the states 0 and 1 of [a] stay marked; [reduce] in the
    second call does not clear the marks, so its search stops at state 1 and
    state 2 is dropped: [a] accepts aa and [a.makeDeterministic()] does not.
    Without the early call both accept aa. *)
Theorem makeDeterministic_stale_marks :
  (determinizeExtended true emptyStore).2 = Ok (true, false) ∧
  (determinizeExtended false emptyStore).2 = Ok (true, true).
Proof. split; vm_compute; reflexivity. Qed.

(** C2, refuted at a concrete automaton.  [minimizeHopcroft] starts from
    [this.reduce()], which trusts the marks left on [a] by an earlier
    [reduce], and loses state 2; [minimizeBrzozowski] starts from
    [this.reverse()], which copies the states: the two minimal automata are
    not equivalent, and only the second accepts aa.  Without the early call
    they are equivalent. *)
Theorem minimize_stale_marks :
  (minimizeExtended true emptyStore).2 = Ok (false, false, true) ∧
  (minimizeExtended false emptyStore).2 = Ok (true, true, true).
Proof. split; vm_compute; reflexivity. Qed.

(** C3, refuted at a concrete pair.  Two automata that are both named A:
    the prefixed names of the second collide with those of the first, so
    [addState] returns the states of the first half and the start and final
    flags of the second are lost: the second accepts b, the union does not.
    With different names the union accepts b. *)
Theorem union_same_name :
  (unionNamed "A" "A" emptyStore).2 = Ok (false, true, false) ∧
  (unionNamed "A" "B" emptyStore).2 = Ok (false, true, true).
Proof. split; vm_compute; reflexivity. Qed.

(** [union] builds its result with [new Automaton(name)], that is over the
    default alphabet ab: on automata over another alphabet the first edge
    makes [addEdge] throw. *)
Lemma union_default_alphabet :
  ∃ msg, (unionOverC emptyStore).2 = Throw msg.
Proof. eexists. vm_compute. reflexivity. Qed.

(** C7, refuted at a concrete automaton.  A state of the copied automaton
    that is called start is renamed startx by [addState] with [forceNew], but
    [copyOf] adds the edges by the old names, which now denote the new start
    state: the loop on a lands on it.  The elimination loop ends with two
    states and two edges, and [equivalentRE] returns the expression of the
    first, a, for the language a*.  With the state called q one edge is left
    and its expression, the star of a, is returned. *)
Theorem equivalentRE_state_named_start :
  (regexOfLoop "start" emptyStore).2 = Ok (2, 2, Some (WORD "a")) ∧
  (regexOfLoop "q" emptyStore).2 = Ok (2, 1, Some (STAR (WORD "a"))).
Proof. split; vm_compute; reflexivity. Qed.

(** * Further properties of the library *)

(** ** util.js: Base62 *)

Lemma digitValue_digit62 r :
  r < 62 → Util.digitValue (Util.digit62 r) = Z.of_nat r.
Proof.
  intros Hr.
  assert (forallb (λ r, Z.eqb (Util.digitValue (Util.digit62 r)) (Z.of_nat r)) (seq 0 62)
          = true) as H by (vm_compute; reflexivity).
  rewrite forallb_forall in H. apply Z.eqb_eq, H, list_elem_of_In, elem_of_seq. lia.
Qed.

Lemma isBase62Digit_digit62 r : r < 62 → isBase62Digit (Util.digit62 r) = true.
Proof.
  intros Hr.
  assert (forallb (λ r, isBase62Digit (Util.digit62 r)) (seq 0 62) = true) as H
    by (vm_compute; reflexivity).
  rewrite forallb_forall in H. apply H, list_elem_of_In, elem_of_seq. lia.
Qed.

(** Reading the digits written for [m] in front of [result] continues the
    reading of [result] from [m]. *)
Lemma fromBase62_go_digits fuel m result :
  m ≤ fuel →
  Util.fromBase62_go (Util.toBase62_digits fuel m result) 0
  = Util.fromBase62_go result (Z.of_nat m).
Proof.
  revert m result. induction fuel as [|fuel IH]; intros m result Hm;
    cbn [Util.toBase62_digits].
  - by replace m with 0 by lia.
  - case_decide as Hpos; [|by replace m with 0 by lia].
    rewrite IH.
    + cbn [Util.fromBase62_go]. f_equal.
      rewrite digitValue_digit62 by (apply Nat.mod_upper_bound; lia).
      pose proof (Nat.div_mod_eq m 62). lia.
    + pose proof (Nat.Div0.div_lt_upper_bound m 62 (S fuel)). lia.
Qed.

Lemma fromBase62_go_padZero k s :
  Util.fromBase62_go (Util.padZero k s) 0 = Util.fromBase62_go s 0.
Proof. revert s. induction k as [|k IH]; intros s; simpl; [done|]. by rewrite IH. Qed.

(** X1: for a number below 2^53, the range in which the arithmetic of the
    source is exact, decoding the Base62 string of the number gives the
    number back, whatever the padding; so two such numbers with the same
    string are equal. *)
Theorem fromBase62_toBase62 n totalDigits :
  (Z.of_nat n < 2 ^ 53)%Z →
  Util.fromBase62 (Util.toBase62 n totalDigits) = Z.of_nat n
  ∧ ∀ m, (Z.of_nat m < 2 ^ 53)%Z →
         Util.toBase62 m totalDigits = Util.toBase62 n totalDigits → m = n.
Proof.
  intros _.
  assert (∀ k d, Util.fromBase62 (Util.toBase62 k d) = Z.of_nat k) as H.
  { intros k d. unfold Util.fromBase62, Util.toBase62.
    rewrite fromBase62_go_padZero, fromBase62_go_digits by done. done. }
  split; [apply H|]. intros m _ Hm.
  apply Nat2Z.inj. by rewrite <- (H m totalDigits), Hm, H.
Qed.

Lemma fromBase62_toBase62_witness :
  (Z.of_nat 152 < 2 ^ 53)%Z
  ∧ Util.toBase62 152 2 = "2S"
  ∧ Util.fromBase62 (Util.toBase62 152 2) = 152%Z.
Proof.
  split; [reflexivity|]. split; [reflexivity|].
  apply (fromBase62_toBase62 152 2). reflexivity.
Defined.

Lemma Forall_toBase62_digits (P : ascii → Prop) fuel m result :
  (∀ r, r < 62 → P (Util.digit62 r)) →
  Forall P (String.list_ascii_of_string result) →
  Forall P (String.list_ascii_of_string (Util.toBase62_digits fuel m result)).
Proof.
  intros HP. revert m result.
  induction fuel as [|fuel IH]; intros m result Hres; cbn [Util.toBase62_digits].
  - done.
  - case_decide; [|done]. apply IH. cbn [String.list_ascii_of_string].
    constructor; [|done].
    apply HP, Nat.mod_upper_bound. lia.
Qed.

Lemma Forall_padZero (P : ascii → Prop) k s :
  P "0"%char → Forall P (String.list_ascii_of_string s) →
  Forall P (String.list_ascii_of_string (Util.padZero k s)).
Proof.
  intros H0. revert s. induction k as [|k IH]; intros s Hs; simpl; [done|].
  apply IH. simpl. by constructor.
Qed.

(** X2: the Base62 string of a number below 2^53 has at least
    [totalDigits] characters, exactly [totalDigits] when the number is below
    62 ^ totalDigits, and consists of the digits 0-9, A-Z, a-z. *)
Theorem toBase62_shape n totalDigits :
  (Z.of_nat n < 2 ^ 53)%Z →
  totalDigits ≤ String.length (Util.toBase62 n totalDigits)
  ∧ (n < 62 ^ totalDigits → String.length (Util.toBase62 n totalDigits) = totalDigits)
  ∧ Forall (λ c, isBase62Digit c = true)
      (String.list_ascii_of_string (Util.toBase62 n totalDigits)).
Proof.
  intros _. split_and!.
  - unfold Util.toBase62. rewrite length_padZero. lia.
  - apply length_toBase62.
  - unfold Util.toBase62. apply Forall_padZero; [done|].
    apply Forall_toBase62_digits; [|constructor].
    intros r Hr. by apply isBase62Digit_digit62.
Qed.

Lemma toBase62_shape_witness :
  (Z.of_nat 3843 < 2 ^ 53)%Z
  ∧ Util.toBase62 3843 2 = "zz"
  ∧ 2 ≤ String.length (Util.toBase62 3843 2).
Proof.
  split; [reflexivity|]. split; [reflexivity|].
  apply (toBase62_shape 3843 2). reflexivity.
Defined.

(** ** util.js: permutations *)

Lemma length_bind_const {A B} (f : A → list B) (l : list A) k :
  (∀ x, x ∈ l → length (f x) = k) → length (l ≫= f) = length l * k.
Proof.
  induction l as [|x l IH]; intros H; [done|].
  rewrite bind_cons, length_app, IH, (H x) by (try left; intros; apply H; by right).
  simpl. lia.
Qed.

(** Putting [n] into a list at position [i]. *)
Lemma insert_at_Permutation {A} (n : A) i p : take i p ++ [n] ++ drop i p ≡ₚ n :: p.
Proof.
  rewrite <- (take_drop i p) at 3. simpl. by rewrite Permutation_middle.
Qed.

Lemma insert_at_inj (n : nat) i j p q :
  n ∉ p → n ∉ q → i ≤ length p → j ≤ length q →
  take i p ++ [n] ++ drop i p = take j q ++ [n] ++ drop j q → i = j ∧ p = q.
Proof.
  intros Hp Hq Hi Hj Heq.
  assert (n ∉ take i p) as Hti by (intros H%elem_of_take; destruct H as (? & ? & ?);
    apply Hp; by eapply list_elem_of_lookup_2).
  assert (n ∉ take j q) as Htj by (intros H%elem_of_take; destruct H as (? & ? & ?);
    apply Hq; by eapply list_elem_of_lookup_2).
  assert (take i p = take j q ∧ drop i p = drop j q) as [Ht Hd].
  { revert Hti Htj Heq. generalize (take i p) (take j q) (drop i p) (drop j q).
    intros l1. induction l1 as [|x l1 IH]; intros l2 r1 r2 H1 H2 Heq.
    - destruct l2 as [|y l2]; simpl in *; [by injection Heq|].
      injection Heq as -> _. destruct H2. left.
    - destruct l2 as [|y l2]; simpl in *.
      + injection Heq as -> _. destruct H1. left.
      + injection Heq as -> Heq. apply not_elem_of_cons in H1 as [_ H1], H2 as [_ H2].
        destruct (IH l2 r1 r2 H1 H2 Heq) as [-> ->]. done. }
  split.
  - apply (f_equal length) in Ht. rewrite !length_take in Ht. lia.
  - by rewrite <- (take_drop i p), <- (take_drop j q), Ht, Hd.
Qed.

Lemma permutations_S n perms :
  Util.permutations (S n) = Ok perms →
  Util.permutations (S (S n))
  = Ok (perms ≫= λ p, (λ i, take i p ++ [S n] ++ drop i p) <$> seq 0 (S (S n))).
Proof.
  intros H.
  change (Util.permutations (S (S n)))
    with (if decide (S (S n) = 1) then Ok [[0]]
          else match Util.permutations (S n) with
               | Ok perms =>
                   Ok (perms ≫= λ p, (λ i, take i p ++ [S n] ++ drop i p)
                                       <$> seq 0 (S (S n)))
               | r => r
               end).
  rewrite H. by rewrite decide_False by lia.
Qed.

Lemma permutations_ok n :
  ∃ l, Util.permutations (S n) = Ok l
     ∧ length l = fact (S n) ∧ NoDup l ∧ ∀ p, p ∈ l ↔ p ≡ₚ seq 0 (S n).
Proof.
  induction n as [|n (l & Hl & Hlen & Hnd & Hperm)].
  - exists [[0]]. split_and!; [done|done|apply NoDup_singleton|].
    intros p. rewrite list_elem_of_singleton. split; [by intros ->|].
    intros H. symmetry in H. by apply Permutation_singleton_l in H.
  - eexists. split; [by apply permutations_S|].
    assert (∀ p, p ∈ l → length p = S n ∧ S n ∉ p) as Hp.
    { intros p Hin%Hperm. split.
      - by rewrite Hin, length_seq.
      - rewrite Hin, elem_of_seq. lia. }
    split_and!.
    + rewrite (length_bind_const _ _ (S (S n))).
      * rewrite Hlen. change (fact (S (S n))) with (S (S n) * fact (S n)). lia.
      * intros p _. by rewrite length_fmap, length_seq.
    + apply NoDup_bind; [| |done].
      * intros p q r Hpl Hql (i & -> & Hi%elem_of_seq)%list_elem_of_fmap
          (j & Heq & Hj%elem_of_seq)%list_elem_of_fmap.
        destruct (Hp p Hpl) as [Hlp Hnp], (Hp q Hql) as [Hlq Hnq].
        apply (insert_at_inj (S n) i j p q) in Heq as [_ ?]; [done..|lia|lia].
      * intros p Hpl. destruct (Hp p Hpl) as [Hlp Hnp].
        apply NoDup_fmap_2_strong; [|apply NoDup_seq].
        intros i j Hi%elem_of_seq Hj%elem_of_seq Heq. cbn beta in Heq.
        apply (insert_at_inj (S n) i j p p) in Heq as [? _]; [done..|lia|lia].
    + intros q. rewrite list_elem_of_bind. split.
      * intros (p & (i & -> & _)%list_elem_of_fmap & Hpl%Hperm).
        rewrite insert_at_Permutation, Hpl.
        rewrite (seq_S (S n)), Nat.add_0_l. apply Permutation_cons_append.
      * intros Hq.
        assert (S n ∈ q) as Hin by (rewrite Hq, elem_of_seq; lia).
        apply list_elem_of_split in Hin as (q1 & q2 & ->).
        exists (q1 ++ q2). split.
        -- apply list_elem_of_fmap. exists (length q1). split.
           ++ by rewrite take_app_length, drop_app_length.
           ++ apply elem_of_seq. apply Permutation_length in Hq.
              rewrite length_app, length_seq in Hq. simpl in Hq. lia.
        -- apply Hperm. apply (Permutation_cons_inv (a := S n)).
           rewrite Permutation_middle, Hq, (seq_S (S n)), Nat.add_0_l.
           symmetry. apply Permutation_cons_append.
Qed.

(** X3: [permutations] throws on 0; for a positive number it yields
    each permutation of 0, ..., number - 1 exactly once, number! arrays in
    all. *)
Theorem permutations_spec number :
  Util.permutations 0 = Throw "must be positive"
  ∧ (0 < number →
     ∃ l, Util.permutations number = Ok l
        ∧ length l = fact number ∧ NoDup l ∧ ∀ p, p ∈ l ↔ p ≡ₚ seq 0 number).
Proof.
  split; [done|]. intros Hn. destruct number as [|n]; [lia|]. apply permutations_ok.
Qed.

Lemma fmap_lookup_total_seq (p : list nat) :
  (λ v, p !! v) <$> seq 0 (length p) = Some <$> p.
Proof.
  apply list_eq. intros i. rewrite !list_lookup_fmap.
  destruct (decide (i < length p)) as [Hi|Hi].
  - rewrite lookup_seq_lt by done. simpl.
    destruct (lookup_lt_is_Some_2 p i Hi) as [x Hx]. by rewrite Hx.
  - rewrite lookup_seq_ge by lia. by rewrite lookup_ge_None_2 by lia.
Qed.

(** X4: the product of two permutations of 0, ..., n - 1 is a
    permutation of 0, ..., n - 1 with no undefined entry, and the identity
    permutation is neutral on both sides. *)
Theorem permutationProduct_permutation n p1 p2 :
  p1 ≡ₚ seq 0 n → p2 ≡ₚ seq 0 n →
  (∃ p, Util.permutationProduct p1 p2 = Some <$> p ∧ p ≡ₚ seq 0 n)
  ∧ Util.permutationProduct (seq 0 n) p2 = Some <$> p2
  ∧ Util.permutationProduct p1 (seq 0 n) = Some <$> p1.
Proof.
  intros H1 H2. unfold Util.permutationProduct.
  assert (length p2 = n) as Hlen by (by rewrite H2, length_seq).
  split_and!.
  - exists ((λ v, default 0 (p2 !! v)) <$> p1). split.
    + rewrite <- list_fmap_compose. apply Forall_fmap_ext, Forall_forall.
      intros v Hv. simpl. rewrite H1 in Hv. apply elem_of_seq in Hv.
      destruct (lookup_lt_is_Some_2 p2 v) as [x ->]; [lia|done].
    + trans p2; [|done]. rewrite H1, <- Hlen.
      assert ((λ v, default 0 (p2 !! v)) <$> seq 0 (length p2) = p2) as ->; [|done].
      apply (inj (fmap Some)). rewrite <- list_fmap_compose, <- fmap_lookup_total_seq.
      apply Forall_fmap_ext, Forall_forall. intros v Hv%elem_of_seq. simpl.
      destruct (lookup_lt_is_Some_2 p2 v) as [x ->]; [lia|done].
  - rewrite <- Hlen. apply fmap_lookup_total_seq.
  - apply Forall_fmap_ext, Forall_forall. intros v Hv. rewrite H1 in Hv.
    apply elem_of_seq in Hv. rewrite lookup_seq_lt by lia. done.
Qed.

Lemma permutationProduct_permutation_witness :
  (∃ p, Util.permutationProduct [1; 2; 0] [2; 0; 1] = Some <$> p ∧ p ≡ₚ seq 0 3)
  ∧ Util.permutationProduct (seq 0 3) [2; 0; 1] = Some <$> [2; 0; 1]
  ∧ Util.permutationProduct [1; 2; 0] (seq 0 3) = Some <$> [1; 2; 0].
Proof.
  apply (permutationProduct_permutation 3 [1; 2; 0] [2; 0; 1]).
  - symmetry. apply (Permutation_cons_append [1; 2] 0).
  - apply (Permutation_cons_append [0; 1] 2).
Defined.

(** ** alphabet.js *)

Lemma list_ascii_of_string_app (s1 s2 : string) :
  String.list_ascii_of_string (s1 +:+ s2)
  = String.list_ascii_of_string s1 ++ String.list_ascii_of_string s2.
Proof. induction s1 as [|c s1 IH]; [done|]. simpl. f_equal. exact IH. Qed.

Lemma length_list_ascii_of_string (s : string) :
  length (String.list_ascii_of_string s) = String.length s.
Proof. induction s as [|c s IH]; simpl; [done|]. by rewrite IH. Qed.

(** X5: [genWords (n)] yields exactly the words of length [n] over the
    symbols of the alphabet, |symbols| ^ n of them. *)
Theorem genWords_spec symbols n :
  (∀ w, w ∈ Alphabet.genWords symbols n
        ↔ String.length w = n
          ∧ Forall (λ c, c ∈ symbols) (String.list_ascii_of_string w))
  ∧ length (Alphabet.genWords symbols n) = length symbols ^ n.
Proof.
  induction n as [|n [IHw IHl]].
  - split; [|done]. intros w. simpl. rewrite list_elem_of_singleton. split.
    + intros ->. split; [done|constructor].
    + intros [Hl _]. by destruct w.
  - split.
    + intros w. cbn [Alphabet.genWords]. rewrite list_elem_of_bind. split.
      * intros (v & (s & -> & Hs)%list_elem_of_fmap & [Hlen Hall]%IHw).
        rewrite length_append, list_ascii_of_string_app. simpl. split; [lia|].
        apply Forall_app. split; [done|]. by repeat constructor.
      * intros [Hlen Hall].
        rewrite <- length_list_ascii_of_string in Hlen.
        destruct (exists_last (l := String.list_ascii_of_string w)) as (l & c & Hw).
        { intros Hnil. by rewrite Hnil in Hlen. }
        rewrite Hw in Hlen, Hall.
        apply Forall_app in Hall as [Hl Hc]. apply Forall_inv in Hc. cbn beta in Hc.
        rewrite length_app in Hlen. simpl in Hlen.
        exists (String.string_of_list_ascii l). split.
        -- apply list_elem_of_fmap. exists c. split; [|exact Hc].
           rewrite <- (String.string_of_list_ascii_of_string w), Hw.
           rewrite <- (String.string_of_list_ascii_of_string (_ +:+ _)).
           f_equal. rewrite list_ascii_of_string_app.
           by rewrite String.list_ascii_of_string_of_list_ascii.
        -- apply IHw. rewrite <- length_list_ascii_of_string.
           rewrite String.list_ascii_of_string_of_list_ascii. split; [lia|done].
    + cbn [Alphabet.genWords]. rewrite (length_bind_const _ _ (length symbols)).
      * rewrite IHl. simpl. lia.
      * intros v _. by rewrite length_fmap.
Qed.

Lemma numberOf_foldl (c : ascii) l k :
  foldl (λ count s, count + (if decide (s = c) then 1 else 0)) k l
  = k + length (filter (λ s, s = c) l).
Proof.
  revert k. induction l as [|x l IH]; intros k; simpl; [lia|].
  rewrite IH, filter_cons. case_decide; simpl; lia.
Qed.

(** X6: [numberOf] adds up over concatenation, never exceeds the
    length of the word, and is zero exactly for a symbol that does not occur
    in the word. *)
Theorem numberOf_spec w1 w2 symbol :
  Alphabet.numberOf (w1 +:+ w2) symbol
  = Alphabet.numberOf w1 symbol + Alphabet.numberOf w2 symbol
  ∧ Alphabet.numberOf w1 symbol ≤ String.length w1
  ∧ (Alphabet.numberOf w1 symbol = 0 ↔ symbol ∉ String.list_ascii_of_string w1).
Proof.
  unfold Alphabet.numberOf. rewrite !numberOf_foldl, list_ascii_of_string_app.
  split_and!.
  - rewrite filter_app, length_app. lia.
  - rewrite <- length_list_ascii_of_string. simpl. apply length_filter.
  - simpl. rewrite length_zero_iff_nil. split.
    + intros Hnil Hin.
      assert (symbol ∈ filter (λ s, s = symbol) (String.list_ascii_of_string w1)) as H
        by (by apply list_elem_of_filter).
      rewrite Hnil in H. by apply elem_of_nil in H.
    + intros Hnin. induction (String.list_ascii_of_string w1) as [|x l IH]; [done|].
      rewrite filter_cons. apply not_elem_of_cons in Hnin as [Hx Hl].
      case_decide; [congruence|]. by apply IH.
Qed.

(** ** extendSet.js *)

Lemma elem_of_JsSet_intersect {A} `{EqDecision A} (x : A) s t :
  x ∈ JsSet.intersect s t ↔ x ∈ s ∧ x ∈ t.
Proof.
  unfold JsSet.intersect. case_decide; rewrite list_elem_of_filter; tauto.
Qed.

Lemma JsSet_contains_spec {A} `{EqDecision A} (s t : list A) :
  JsSet.contains s t = true ↔ ∀ x, x ∈ t → x ∈ s.
Proof.
  unfold JsSet.contains, JsSet.has. rewrite forallb_forall. split.
  - intros H x Hx. apply list_elem_of_In, H in Hx. by apply bool_decide_eq_true in Hx.
  - intros H x Hx. apply bool_decide_eq_true, H, list_elem_of_In, Hx.
Qed.

Lemma foldl_JsSet_add_app {A} `{EqDecision A} (s t : list A) :
  NoDup t →
  foldl (λ acc x, JsSet.add x acc) s t = s ++ JsSet.difference t s.
Proof.
  revert s. induction t as [|y t IH]; intros s Ht; simpl; [by rewrite app_nil_r|].
  apply NoDup_cons in Ht as [Hy Ht].
  unfold JsSet.difference in *. rewrite filter_cons, (IH _ Ht).
  unfold JsSet.add. case_decide as Hys.
  - by rewrite decide_False by tauto.
  - rewrite decide_True by done. rewrite <- app_assoc. simpl. do 2 f_equal.
    apply list_filter_ext_in. intros x Hx.
    rewrite elem_of_app, list_elem_of_singleton.
    split; [tauto|]. intros Hn [?| ->]; done.
Qed.

(** X7: on sets (lists without duplicates, in insertion order) [union],
    [intersect] and [difference] have the members of the set-theoretic
    operations and return sets again; [union] keeps the members of the
    receiver first, followed by the new members of the argument in their
    order. *)
Theorem JsSet_operations {A} `{EqDecision A} (s t : list A) :
  (∀ x, x ∈ JsSet.union s t ↔ x ∈ s ∨ x ∈ t)
  ∧ (∀ x, x ∈ JsSet.intersect s t ↔ x ∈ s ∧ x ∈ t)
  ∧ (∀ x, x ∈ JsSet.difference s t ↔ x ∈ s ∧ x ∉ t)
  ∧ NoDup (JsSet.union s t)
  ∧ (NoDup s → NoDup t →
     NoDup (JsSet.intersect s t) ∧ NoDup (JsSet.difference s t)
     ∧ JsSet.union s t = s ++ JsSet.difference t s).
Proof.
  split_and!.
  - intros x. unfold JsSet.union. by rewrite elem_of_JsSet_ofList, elem_of_app.
  - intros x. apply elem_of_JsSet_intersect.
  - intros x. unfold JsSet.difference. by rewrite list_elem_of_filter, (comm and).
  - apply NoDup_JsSet_ofList.
  - intros Hs Ht. split_and!.
    + unfold JsSet.intersect. case_decide; by apply NoDup_filter.
    + by apply NoDup_filter.
    + unfold JsSet.union, JsSet.ofList. rewrite foldl_app.
      rewrite (foldl_JsSet_add_app [] s Hs). simpl.
      replace (JsSet.difference s []) with s.
      * by apply foldl_JsSet_add_app.
      * unfold JsSet.difference. induction s as [|x s IH]; [done|].
        apply NoDup_cons in Hs as [_ Hs].
        rewrite filter_cons, decide_True by apply not_elem_of_nil. f_equal. by apply IH.
Qed.

(** X8: [contains] tests inclusion and [equals] tests for the same members;
    two sets are equal exactly when one lists the members of the other in
    some order. *)
Theorem JsSet_equals_spec {A} `{EqDecision A} (s t : list A) :
  (JsSet.contains s t = true ↔ ∀ x, x ∈ t → x ∈ s)
  ∧ (JsSet.equals s t = true ↔ ∀ x, x ∈ s ↔ x ∈ t)
  ∧ (NoDup s → NoDup t → (JsSet.equals s t = true ↔ s ≡ₚ t)).
Proof.
  assert (JsSet.equals s t = true ↔ ∀ x, x ∈ s ↔ x ∈ t) as Heq.
  { unfold JsSet.equals. rewrite andb_true_iff, !JsSet_contains_spec. split.
    - intros [H1 H2] x. split; auto.
    - intros Hx. split; intros x; apply Hx. }
  split_and!; [apply JsSet_contains_spec|exact Heq|].
  intros Hs Ht. rewrite Heq. split.
  - intros Hx. by apply NoDup_Permutation.
  - intros Hp x. by rewrite Hp.
Qed.

(** X9: the name of a set of states does not depend on the order in which
    the states were added to the set. *)
Theorem setName_Permutation σ set1 set2 sep :
  set1 ≡ₚ set2 → setName σ set1 sep = setName σ set2 sep.
Proof.
  intros Hp. unfold setName. f_equal.
  pose proof String.le_po as [[_ Htrans] Hanti]. pose proof String.le_total as Htot.
  apply (StronglySorted_unique String.le).
  1,2: by apply (StronglySorted_merge_sort String.le).
  by rewrite !merge_sort_Permutation, Hp.
Qed.

Lemma setName_Permutation_witness :
  let σ := mkStore [newState "q" false false NoTag; newState "p" false false NoTag] [] in
  [0; 1] ≡ₚ [1; 0] ∧ setName σ [0; 1] "," = setName σ [1; 0] ",".
Proof.
  intros σ. split; [apply perm_swap|].
  apply (setName_Permutation σ [0; 1] [1; 0] ","). apply perm_swap.
Defined.

(** ** Transitions, runs and acceptance *)

(** One entry of the transition table. *)
Definition step (a : Automaton) (s : StateId) (c : ascii) (t : StateId) : Prop :=
  ∃ dm targets, deltaMap a !! c = Some dm ∧ dm !! s = Some targets ∧ t ∈ targets.

(** A path through the transition table that reads a word. *)
Inductive run (a : Automaton) : StateId → list ascii → StateId → Prop :=
| run_nil s : run a s [] s
| run_cons s c t w u : step a s c t → run a t w u → run a s (c :: w) u.

Lemma elem_of_foldl_add {A} `{EqDecision A} (x : A) acc l :
  x ∈ foldl (λ acc y, JsSet.add y acc) acc l ↔ x ∈ acc ∨ x ∈ l.
Proof.
  revert acc. induction l as [|y l IH]; intros acc; simpl.
  - split; [auto|]. intros [?|H]; [done|]. by apply elem_of_nil in H.
  - rewrite IH, elem_of_JsSet_add, elem_of_cons. tauto.
Qed.

Lemma elem_of_delta a s c t :
  t ∈ Automaton.delta a s (Some c) ↔ step a s c t.
Proof.
  unfold Automaton.delta, step. simpl.
  destruct (deltaMap a !! c) as [dm|] eqn:Hc.
  - destruct (dm !! s) as [targets|] eqn:Hs.
    + rewrite elem_of_foldl_add. split.
      * intros [?%elem_of_nil|Ht]; [done|]. by exists dm, targets.
      * intros (dm' & targets' & [= <-] & Htg & Ht). rewrite Hs in Htg.
        injection Htg as <-. by right.
    + split; [by intros ?%elem_of_nil|].
      intros (dm' & targets' & [= <-] & Htg & Ht). congruence.
  - split; [by intros ?%elem_of_nil|]. by intros (? & ? & ? & ?).
Qed.

Lemma elem_of_delta_all a s t :
  t ∈ Automaton.delta a s None ↔ ∃ c, c ∈ alphabet a ∧ step a s c t.
Proof.
  unfold Automaton.delta.
  assert (∀ l acc,
    t ∈ foldl (λ d c,
           match deltaMap a !! c with
           | Some dm => match dm !! s with
                        | Some targets => foldl (λ d s, JsSet.add s d) d targets
                        | None => d
                        end
           | None => d
           end) acc l ↔ t ∈ acc ∨ ∃ c, c ∈ l ∧ step a s c t) as H.
  { induction l as [|c l IH]; intros acc; simpl.
    - split; [auto|]. intros [?|(c & ?%elem_of_nil & _)]; done.
    - rewrite IH. unfold step at 2.
      destruct (deltaMap a !! c) as [dm|] eqn:Hc; [destruct (dm !! s) as [targets|] eqn:Hs|].
      + rewrite elem_of_foldl_add. split.
        * intros [[?|Ht]|(c' & Hc' & Hst)]; [by left|right..].
          -- exists c. split; [left|]. exists dm, targets. done.
          -- exists c'. split; [by right|done].
        * intros [?|(c' & [->|Hc']%elem_of_cons & Hst)]; [by left; left| |right; eauto].
          destruct Hst as (dm' & targets' & Hdm & Htg & Ht).
          rewrite Hc in Hdm. injection Hdm as <-. rewrite Hs in Htg. injection Htg as <-.
          left. by right.
      + split.
        * intros [?|(c' & Hc' & Hst)]; [by left|right]. exists c'. split; [by right|done].
        * intros [?|(c' & [->|Hc']%elem_of_cons & Hst)]; [by left| |right; eauto].
          destruct Hst as (dm' & targets' & Hdm & Htg & Ht). congruence.
      + split.
        * intros [?|(c' & Hc' & Hst)]; [by left|right]. exists c'. split; [by right|done].
        * intros [?|(c' & [->|Hc']%elem_of_cons & Hst)]; [by left| |right; eauto].
          destruct Hst as (dm' & targets' & Hdm & Htg & Ht). congruence. }
  rewrite H. split; [|auto]. by intros [?%elem_of_nil|?].
Qed.

(** The set of successors of a set of states on one symbol. *)
Definition nextStates (a : Automaton) (currentStates : list StateId) (c : ascii)
    : list StateId :=
  foldl (λ acc from, foldl (λ acc to, JsSet.add to acc) acc
                       (Automaton.delta a from (Some c)))
    [] currentStates.

Lemma elem_of_nextStates a S c t :
  t ∈ nextStates a S c ↔ ∃ s, s ∈ S ∧ step a s c t.
Proof.
  unfold nextStates.
  assert (∀ acc,
    t ∈ foldl (λ acc from, foldl (λ acc to, JsSet.add to acc) acc
                             (Automaton.delta a from (Some c))) acc S
    ↔ t ∈ acc ∨ ∃ s, s ∈ S ∧ step a s c t) as H.
  { induction S as [|s S IH]; intros acc; simpl.
    - split; [auto|]. intros [?|(s & ?%elem_of_nil & _)]; done.
    - rewrite IH, elem_of_foldl_add, elem_of_delta. split.
      + intros [[?|?]|(s' & Hs' & Hst)]; [by left|right..].
        * exists s. split; [left|done].
        * exists s'. split; [by right|done].
      + intros [?|(s' & [->|Hs']%elem_of_cons & Hst)]; [by left; left|by left; right|].
        right. eauto. }
  rewrite H. split; [|auto]. by intros [?%elem_of_nil|?].
Qed.

Lemma NoDup_nextStates a S c : NoDup (nextStates a S c).
Proof.
  unfold nextStates. generalize (@NoDup_nil_2 nat). generalize (@nil nat).
  induction S as [|s S IH]; intros acc Hacc; simpl; [done|].
  apply IH. by apply NoDup_foldl_add.
Qed.

Lemma deltaStar_cons a S c w :
  Automaton.deltaStar a S (c :: w) = Automaton.deltaStar a (nextStates a S c) w.
Proof.
  simpl. fold (nextStates a S c). case_decide as Hn; [|done].
  apply nil_length_inv in Hn. rewrite Hn. by destruct w.
Qed.

Lemma deltaStar_nil_l a w : Automaton.deltaStar a [] w = [].
Proof. induction w as [|c w IH]; [done|]. by rewrite deltaStar_cons. Qed.

Lemma deltaStar_app a S w1 w2 :
  Automaton.deltaStar a S (w1 ++ w2)
  = Automaton.deltaStar a (Automaton.deltaStar a S w1) w2.
Proof.
  revert S. induction w1 as [|c w1 IH]; intros S; [done|].
  rewrite <- app_comm_cons, !deltaStar_cons. apply IH.
Qed.

Lemma elem_of_deltaStar a S w t :
  t ∈ Automaton.deltaStar a S w ↔ ∃ s, s ∈ S ∧ run a s w t.
Proof.
  revert S. induction w as [|c w IH]; intros S.
  - simpl. split.
    + intros Ht. exists t. split; [done|constructor].
    + intros (s & Hs & Hr). by inversion Hr; subst.
  - rewrite deltaStar_cons, IH. split.
    + intros (u & (s & Hs & Hst)%elem_of_nextStates & Hr).
      exists s. split; [done|]. by econstructor.
    + intros (s & Hs & Hr). inversion Hr as [|? ? u ? ? Hst Hr']; subst.
      exists u. split; [|done]. apply elem_of_nextStates. eauto.
Qed.

Lemma run_app a s w1 t w2 u : run a s w1 t → run a t w2 u → run a s (w1 ++ w2) u.
Proof.
  induction 1 as [|s c t' w u' Hst Hr IH]; intros H2; [done|].
  simpl. econstructor; [done|]. by apply IH.
Qed.

(** X10: reading a word from a set of states composes: the states reached on
    [w1 ++ w2] are those reached on [w2] from the states reached on [w1];
    nothing is reached from the empty set; and a state is reached from a set
    exactly when it is reached from one of its members along a path of the
    transition table. *)
Theorem deltaStar_compose a currentStates w1 w2 :
  Automaton.deltaStar a currentStates (w1 ++ w2)
  = Automaton.deltaStar a (Automaton.deltaStar a currentStates w1) w2
  ∧ Automaton.deltaStar a [] w1 = []
  ∧ (∀ t, t ∈ Automaton.deltaStar a currentStates w1
          ↔ ∃ s, s ∈ currentStates ∧ run a s w1 t)
  ∧ (NoDup currentStates → NoDup (Automaton.deltaStar a currentStates w1)).
Proof.
  split_and!.
  - apply deltaStar_app.
  - apply deltaStar_nil_l.
  - intros t. apply elem_of_deltaStar.
  - revert currentStates. induction w1 as [|c w1 IH]; intros S HS; [done|].
    rewrite deltaStar_cons. apply IH, NoDup_nextStates.
Qed.

Lemma accepts_iff σ a word :
  Automaton.accepts σ a word = true
  ↔ ∃ s t, s ∈ states a ∧ sstart (st σ s) = true
           ∧ run a s (String.list_ascii_of_string word) t ∧ sfinal (st σ t) = true.
Proof.
  unfold Automaton.accepts, Automaton.isEmpty. case_bool_decide as Hemp.
  - split; [done|]. intros (s & t & Hs & _).
    apply nil_length_inv in Hemp. rewrite Hemp in Hs. by apply elem_of_nil in Hs.
  - rewrite existsb_exists. split.
    + intros (t & Ht%list_elem_of_In & Hfin).
      apply elem_of_deltaStar in Ht as (s & [Hs Hst]%elem_of_getStartStates & Hr).
      by exists s, t.
    + intros (s & t & Hs & Hst & Hr & Hfin). exists t. split; [|done].
      apply list_elem_of_In, elem_of_deltaStar. exists s.
      split; [|done]. by apply elem_of_getStartStates.
Qed.

(** X11: [accepts (word)] holds exactly when the transition table has a path
    that reads the word from a start state of the automaton to a final
    state. *)
Theorem accepts_run σ a word :
  Automaton.accepts σ a word = true
  ↔ ∃ s t, s ∈ states a ∧ sstart (st σ s) = true
           ∧ run a s (String.list_ascii_of_string word) t ∧ sfinal (st σ t) = true.
Proof. apply accepts_iff. Qed.

(** ** graph.js: what a search marks *)

(** [u] is the sink of an edge that leaves [t]. *)
Definition successor (σ : Store) (t u : StateId) : Prop :=
  ∃ e, e ∈ edgesOut (st σ t) ∧ sink (ed σ e) = u.

(** [t] can be reached from one of the sources along edges. *)
Definition reachable (σ : Store) (sources : list StateId) (t : StateId) : Prop :=
  ∃ s, s ∈ sources ∧ rtc (successor σ) s t.

(** What a search from [sources] has done when it leaves the store [τ]. *)
Record explored (σ : Store) (sources : list StateId) (τ : Store) : Prop := mkExplored {
  ex_searched : searched σ τ;
  ex_sources : ∀ s, s ∈ sources → s < length (sts σ) → marked (st τ s) = true;
  ex_sound : ∀ t, marked (st τ t) = true →
    marked (st σ t) = true ∨ reachable σ sources t;
  ex_closed : ∀ t u, marked (st τ t) = true → marked (st σ t) = false →
    successor σ t u → u < length (sts σ) → marked (st τ u) = true
}.

Lemma successor_searched σ τ t u : searched σ τ → successor τ t u ↔ successor σ t u.
Proof.
  intros (_ & He & Hf & _). unfold successor, ed. rewrite He.
  specialize (Hf t). apply (f_equal edgesOut) in Hf. simpl in Hf. by rewrite Hf.
Qed.

Lemma reachable_searched σ τ S t : searched σ τ → reachable τ S t ↔ reachable σ S t.
Proof.
  intros Hs. unfold reachable.
  assert (∀ s, rtc (successor τ) s t ↔ rtc (successor σ) s t) as H.
  { intros s. split; induction 1 as [|x y z Hxy _ IH]; try done.
    - eapply rtc_l; [|done]. by apply (successor_searched σ τ).
    - eapply rtc_l; [|done]. by apply (successor_searched σ τ). }
  by setoid_rewrite H.
Qed.

Lemma marked_false_iff σ s : marked (st σ s) = false ↔ ¬ marked (st σ s) = true.
Proof. by destruct (marked (st σ s)). Qed.

Lemma explored_nil σ : explored σ [] σ.
Proof.
  split; [reflexivity| | |].
  - by intros s ?%elem_of_nil.
  - intros t Ht. by left.
  - intros t u Ht Hf. congruence.
Qed.

Lemma explored_cons σ1 x σ2 l σ3 :
  explored σ1 [x] σ2 → explored σ2 l σ3 → explored σ1 (x :: l) σ3.
Proof.
  intros [S1 A1 B1 C1] [S2 A2 B2 C2].
  pose proof S1 as (L1 & _ & _ & M1). pose proof S2 as (L2 & _ & _ & M2).
  split.
  - by etrans.
  - intros s [->|Hs]%elem_of_cons Hv.
    + apply M2, A1; [left|done].
    + apply A2; [done|lia].
  - intros t Ht. destruct (B2 t Ht) as [Hm|(s & Hs & Hr)].
    + destruct (B1 t Hm) as [?|(s & Hs%list_elem_of_singleton & Hr)]; [by left|].
      subst s. right. exists x. split; [left|done].
    + right. exists s. split; [by right|].
      destruct (reachable_searched σ1 σ2 [s] t S1) as [H _].
      destruct H as (s' & Hs'%list_elem_of_singleton & Hr'); [|by subst s'].
      exists s. split; [left|done].
  - intros t u Ht Hf Hsucc Hu.
    destruct (marked (st σ2 t)) eqn:Hm2.
    + apply M2. by apply (C1 t u).
    + apply (C2 t u); [done|done| |lia]. by apply (successor_searched σ1 σ2).
Qed.

Lemma explored_skip σ s : marked (st σ s) = true → explored σ [s] σ.
Proof.
  intros Hm. split; [reflexivity| | |].
  - intros s' Hs'%list_elem_of_singleton. by subst s'.
  - intros t Ht. by left.
  - intros t u Ht Hf. congruence.
Qed.

(** A loop whose rounds each explore from one source. *)
Lemma forEach_explored {A} (src : A → StateId) (body : A → M Store unit) l σ0 σ τ :
  (∀ x σ τ, x ∈ l → searched σ0 σ → body x σ = (τ, Ok tt) → explored σ [src x] τ) →
  searched σ0 σ →
  forEach l body σ = (τ, Ok tt) → explored σ (src <$> l) τ.
Proof.
  revert σ. induction l as [|x l IH]; intros σ Hbody H0; simpl.
  - intros [= <-]. apply explored_nil.
  - unfold bind at 1. destruct (body x σ) as [σ' [[]| |]] eqn:Hx; try done.
    intros Hrest. assert (explored σ [src x] σ') as Hex by (apply Hbody; [left|done..]).
    eapply explored_cons; [exact Hex|].
    apply IH; [| |done].
    + intros y σ1 σ2 Hy. apply Hbody. by right.
    + etrans; [done|]. apply Hex.
Qed.

(** The visit of one source: mark it, then search from the sinks of its
    edges that are not marked yet. *)
Lemma explored_visit σ s τ :
  explored (updState s (set_marked true) σ)
    ((λ e, sink (ed σ e)) <$> edgesOut (st σ s)) τ →
  explored σ [s] τ.
Proof.
  set (σ1 := updState s (set_marked true) σ).
  pose proof (searched_mark σ s) as S0. fold σ1 in S0.
  intros [S1 A1 B1 C1]. pose proof S1 as (L1 & _ & _ & M1).
  pose proof S0 as (L0 & _ & _ & M0).
  assert (∀ t, marked (st σ1 t) = true →
               marked (st σ t) = true ∨ (t = s ∧ s < length (sts σ))) as Hσ1.
  { intros t. unfold σ1. rewrite st_updState. case_decide as Hd; [|by left].
    destruct Hd as [-> ?]. by right. }
  split.
  - by etrans.
  - intros s' Hs'%list_elem_of_singleton Hv. subst s'. apply M1. unfold σ1.
    rewrite st_updState, decide_True by done. done.
  - intros t Ht. destruct (B1 t Ht) as [Hm|(u & Hu & Hr)].
    + destruct (Hσ1 t Hm) as [?|[-> _]]; [by left|].
      right. exists s. split; [left|done].
    + right. exists s. split; [left|].
      apply list_elem_of_fmap in Hu as (e & -> & He).
      eapply rtc_l; [by exists e|].
      destruct (reachable_searched σ σ1 [sink (ed σ e)] t S0) as [H _].
      destruct H as (s' & Hs'%list_elem_of_singleton & Hr'); [|by subst s'].
      exists (sink (ed σ e)). split; [left|done].
  - intros t u Ht Hf Hsucc Hu.
    destruct (marked (st σ1 t)) eqn:Hm1.
    + destruct (Hσ1 t Hm1) as [?|[-> Hs]]; [congruence|].
      destruct Hsucc as (e & He & <-). apply A1; [|lia].
      apply list_elem_of_fmap. by exists e.
    + apply (C1 t u); [done|done| |lia]. by apply (successor_searched σ σ1).
Qed.

Lemma dfs_explored fuel sources σ τ :
  Graph.dfs fuel sources σ = (τ, Ok tt) → explored σ sources τ.
Proof.
  revert sources σ τ. induction fuel as [|fuel IH]; intros sources σ τ; [done|].
  simpl. intros Hrun. rewrite <- (list_fmap_id sources).
  apply (forEach_explored id _ _ σ) in Hrun; [done| |reflexivity].
  clear Hrun. intros s σ' τ' _ _. unfold bind at 1, modify. unfold bind at 1, get, gets.
  cbn [fst snd]. set (σ1 := updState s (set_marked true) σ'). intros Hrun.
  apply explored_visit. fold σ1.
  assert (edgesOut (st σ1 s) = edgesOut (st σ' s)) as Hout.
  { unfold σ1. rewrite st_updState. by case_decide. }
  rewrite Hout in Hrun.
  apply (forEach_explored (λ e, sink (ed σ' e)) _ _ σ1) in Hrun; [done| |reflexivity].
  intros e σ2 σ3 _ H12. unfold bind at 1, get, gets. cbn [fst snd].
  assert (ed σ2 e = ed σ' e) as ->.
  { destruct H12 as (_ & He & _). unfold ed. by rewrite He. }
  destruct (marked (st σ2 (sink (ed σ' e)))) eqn:Hm.
  - intros [= <-]. by apply explored_skip.
  - apply IH.
Qed.

(** When no state that the sources reach is marked, the search marks
    exactly the states they reach. *)
Lemma dfs_reachable sources σ :
  (∀ t, reachable σ sources t → marked (st σ t) = false) →
  ∃ τ, Graph.dfs (searchFuel σ) sources σ = (τ, Ok tt)
       ∧ searched σ τ
       ∧ ∀ t, marked (st τ t) = true
              ↔ marked (st σ t) = true ∨ (t < length (sts σ) ∧ reachable σ sources t).
Proof.
  intros Hclean.
  destruct (dfs_total sources σ) as (τ & Hrun & Hs). exists τ.
  pose proof (dfs_explored _ _ _ _ Hrun) as [_ A B C].
  split_and!; [done..|]. intros t. split.
  - intros Ht. destruct (B t Ht) as [Hm|Hr]; [by left|]. right. split; [|done].
    destruct (decide (t < length (sts σ))) as [|Hn]; [done|].
    destruct Hs as (Hl & _). rewrite st_invalid in Ht by lia. done.
  - intros [Hm|[Hv (s & Hs' & Hr)]]; [by apply Hs|]. revert Hv.
    apply (rtc_ind_r (R := successor σ)
             (λ t, rtc (successor σ) s t → t < length (sts σ) → marked (st τ t) = true)
             s); [by intros; apply A| |exact Hr|exact Hr].
    clear t Hr. intros t u Hr Hsucc IHr Hru Hv.
    apply (C t u); [| |done..].
    + apply IHr; [done|].
      destruct (decide (t < length (sts σ))) as [|Hn]; [done|].
      destruct Hsucc as (e & He & _). rewrite st_invalid in He by lia.
      by apply elem_of_nil in He.
    + apply Hclean. by exists s.
Qed.

(** X12: a search from any sources completes; it changes nothing but marks
    and removes none; every state it marks can be reached from a source
    along edges; and when no state was marked before, it marks exactly the
    states of the store that can be reached from the sources. *)
Theorem dfs_marks_reachable sources σ :
  ∃ τ, Graph.dfs (searchFuel σ) sources σ = (τ, Ok tt)
       ∧ searched σ τ
       ∧ (∀ t, marked (st τ t) = true →
               marked (st σ t) = true ∨ reachable σ sources t)
       ∧ ((∀ s, marked (st σ s) = false) →
          ∀ t, marked (st τ t) = true
               ↔ t < length (sts σ) ∧ reachable σ sources t).
Proof.
  destruct (dfs_total sources σ) as (τ & Hrun & Hs). exists τ.
  pose proof (dfs_explored _ _ _ _ Hrun) as [_ A B C].
  split_and!; [done..|]. intros Hclean t. split.
  - intros Ht. split.
    + destruct (decide (t < length (sts σ))) as [|Hn]; [done|].
      destruct Hs as (Hl & _). rewrite st_invalid in Ht by lia. done.
    + destruct (B t Ht) as [Hm|?]; [|done]. by rewrite Hclean in Hm.
  - intros [Hv (s & Hs' & Hr)]. revert Hv.
    apply (rtc_ind_r (R := successor σ)
             (λ t, t < length (sts σ) → marked (st τ t) = true) s);
      [by apply A| |exact Hr].
    clear t Hr. intros t u Hr Hsucc IHr Hv.
    apply (C t u); [|done..]. apply IHr.
    destruct (decide (t < length (sts σ))) as [|Hn]; [done|].
    destruct Hsucc as (e & He & _). rewrite st_invalid in He by lia.
    by apply elem_of_nil in He.
Qed.

(** ** The numbering made by the DFS renaming *)

Section renameOrder.
(** The automaton when the search starts, marks cleared, the width of the
    names and the state the search starts from. *)
Variable p0 : Store * Automaton.
Variable d : nat.
Variable s0 : StateId.
Hypothesis Hd : d = Util.totalDigits (length (states p0.2)).
Hypothesis Hnodup : NoDup (states p0.2).
Hypothesis Hvalid : ∀ s, s ∈ states p0.2 → s < length (sts p0.1).
Hypothesis Hclosed :
  ∀ s e, s ∈ states p0.2 → e ∈ edgesOut (st p0.1 s) → sink (ed p0.1 e) ∈ states p0.2.

(** [order] lists the states visited so far in the order of their visit:
    they are the marked states, each reachable from [s0], the i-th carries
    the name of the number i, and the other states have kept their names. *)
Definition numbered (order : list StateId) (p : Store * Automaton) : Prop :=
  NoDup order
  ∧ (∀ u, u ∈ order ↔ u ∈ states p0.2 ∧ marked (st p.1 u) = true)
  ∧ (∀ i u, order !! i = Some u → sname (st p.1 u) = Util.toBase62 i d)
  ∧ (∀ u, u ∉ order → sname (st p.1 u) = sname (st p0.1 u))
  ∧ (∀ u, u ∈ order → rtc (successor p0.1) s0 u)
  ∧ (∀ u, head order = Some u → u = s0).

Lemma numbered_visit order s σ a a' :
  numbered order (σ, a) → s ∈ states p0.2 → s < length (sts σ) →
  marked (st σ s) = false → rtc (successor p0.1) s0 s → (order = [] → s = s0) →
  numbered (order ++ [s])
    (updState s (set_sname (Util.toBase62 (length order) d))
       (updState s (set_marked true) σ), a').
Proof.
  intros (Hnd & Hin & Hnm & Hout & Hreach & Hhead) Hs Hv Hm Hr H0. cbn [fst] in *.
  assert (s ∉ order) as Hnew.
  { intros [_ H]%Hin. congruence. }
  set (σ1 := updState s _ (updState s _ σ)).
  assert (∀ t, marked (st σ1 t) = if decide (t = s) then true else marked (st σ t))
    as Hmarks.
  { intros t. subst σ1. rewrite !st_updState, length_updState.
    destruct (decide (t = s)) as [->|Hne].
    - by rewrite !(decide_True (P := _ ∧ _)) by auto.
    - by rewrite !(decide_False (P := _ ∧ _)) by (intros [? _]; done). }
  assert (∀ t, sname (st σ1 t)
               = if decide (t = s) then Util.toBase62 (length order) d
                 else sname (st σ t)) as Hnames.
  { intros t. subst σ1. rewrite !st_updState, length_updState.
    destruct (decide (t = s)) as [->|Hne].
    - by rewrite !(decide_True (P := _ ∧ _)) by auto.
    - by rewrite !(decide_False (P := _ ∧ _)) by (intros [? _]; done). }
  split_and!; cbn [fst].
  - apply NoDup_app. split_and!; [done| |apply NoDup_singleton].
    intros x Hx ->%list_elem_of_singleton. done.
  - intros u. rewrite elem_of_app, list_elem_of_singleton, Hin, Hmarks.
    destruct (decide (u = s)) as [->|Hne]; [|tauto].
    split; [by intros _|by right].
  - intros i u [Hi|[Hlen Hi]]%lookup_app_Some.
    + assert (u ∈ order) as Hu by by eapply list_elem_of_lookup_2.
      rewrite Hnames, decide_False by (intros ->; done). by apply Hnm.
    + apply list_lookup_singleton_Some in Hi as [Hi ->].
      rewrite Hnames, decide_True by done. f_equal. lia.
  - intros u [Hu Hne%not_elem_of_cons]%not_elem_of_app.
    rewrite Hnames, decide_False by tauto. by apply Hout.
  - intros u [Hu| ->%list_elem_of_singleton]%elem_of_app; auto.
  - intros u Hh. destruct order as [|x order']; simpl in Hh.
    + injection Hh as <-. by apply H0.
    + by apply Hhead.
Qed.

Lemma renameStatesDFS_dfs_order fuel s count G :
  length (states p0.2) - count ≤ fuel →
  hoare (λ p, (searching p0 d count p ∧ s ∈ states p0.2 ∧ marked (st p.1 s) = false
               ∧ successorsMarked p0 G p)
              ∧ (∃ order, length order = count ∧ numbered order p)
              ∧ rtc (successor p0.1) s0 s ∧ (count = 0 → s = s0))
    (Automaton.renameStatesDFS_dfs fuel d s count)
    (λ c p, (searching p0 d c p ∧ count < c ∧ marked (st p.1 s) = true
             ∧ successorsMarked p0 G p)
            ∧ ∃ order, length order = c ∧ numbered order p).
Proof.
  revert s count G. induction fuel as [|fuel IH]; intros s count G Hfuel.
  { intros [σ a] ((Hsr & Hs & Hm & _) & _). exfalso.
    destruct Hsr as (_ & _ & _ & _ & Hc & _).
    pose proof (markedCount_lt σ _ s Hs Hm). simpl in *. lia. }
  simpl. intros [σ a] ((Hsr & Hs & Hm & Hsm) & (order & Hlen & Hnum) & Hreach & H0).
  simpl in Hm.
  pose proof (searching_visit p0 d Hd Hnodup Hvalid count s σ a Hsr Hs Hm) as Hvis.
  assert (s < length (sts σ)) as Hsv.
  { destruct Hsr as (_ & Hl & _). simpl in Hl. rewrite Hl. by apply Hvalid. }
  unfold bind at 1, modStore, modify. cbn [fst snd].
  unfold bind at 1. rewrite renameState_eq. cbn [fst snd].
  unfold bind at 1, getStore, gets. cbn [fst snd].
  set (a1 := set_stateNameMap _ a) in *.
  assert (numbered (order ++ [s])
            (updState s (set_sname (Util.toBase62 count d))
               (updState s (set_marked true) σ), a1)) as Hnum1.
  { rewrite <- Hlen. apply (numbered_visit order s σ a a1); try done.
    intros ->. apply H0. by rewrite <- Hlen. }
  set (σ1 := updState s (set_sname (Util.toBase62 count d))
               (updState s (set_marked true) σ)) in *.
  assert (∀ t, marked (st σ1 t) = if decide (t = s) then true else marked (st σ t))
    as Hmarks.
  { intros t. subst σ1. rewrite !st_updState, length_updState.
    destruct (decide (t = s)) as [->|Hne].
    - by rewrite !(decide_True (P := _ ∧ _)) by auto.
    - by rewrite !(decide_False (P := _ ∧ _)) by (intros [? _]; done). }
  assert (marked (st σ1 s) = true) as Hmarked.
  { rewrite Hmarks. by rewrite decide_True. }
  assert (successorsMarked p0 (s :: G) (σ1, a1)) as Hsm1.
  { intros t e Ht Hmt Hnt He. cbn [fst] in *.
    apply not_elem_of_cons in Hnt as [Hne Hnt].
    rewrite Hmarks in Hmt. rewrite decide_False in Hmt by done.
    rewrite Hmarks. case_decide; [done|]. by apply (Hsm t e). }
  set (l := sortBy _ _).
  assert (∀ e, e ∈ l ↔ e ∈ edgesOut (st p0.1 s)) as Hl0.
  { intros e. subst l. rewrite elem_of_sortBy.
    destruct Hvis as (_ & _ & _ & Hout & _). simpl in Hout. by rewrite Hout. }
  assert (∀ e, e ∈ l → sink (ed p0.1 e) ∈ states p0.2) as Hl.
  { intros e He%Hl0. by eapply Hclosed. }
  clearbody l.
  pose (I := λ (done : list nat) (c : nat) (p : Store * Automaton),
               (searching p0 d c p ∧ count < c ∧ marked (st p.1 s) = true
                ∧ successorsMarked p0 (s :: G) p
                ∧ ∀ e, e ∈ done → marked (st p.1 (sink (ed p0.1 e))) = true)
               ∧ ∃ order, length order = c ∧ numbered order p).
  assert (hoare (I [] (S count))
            (foldlM
               (λ (count0 : nat) (e : nat),
                  let* τ := gets fst in
                  if marked (st τ (sink (ed τ e))) then ret count0
                  else Automaton.renameStatesDFS_dfs fuel d (sink (ed τ e)) count0)
               (S count) l)
            (λ c, I l c)) as Hloop.
  { apply (hoare_foldlM I). intros done e rest c Hsplit.
    assert (e ∈ l) as He.
    { rewrite Hsplit. apply elem_of_app. right. left. }
    intros [σc ac] ((Hsc & Hcc & Hmc & Hsmc & Hdone) & Hnc).
    unfold bind, gets. cbn [fst snd].
    assert (sink (ed σc e) = sink (ed p0.1 e)) as Hsink.
    { destruct Hsc as (_ & _ & Heds & _). unfold ed. simpl in Heds. by rewrite Heds. }
    rewrite Hsink.
    destruct (marked (st σc (sink (ed p0.1 e)))) eqn:Hmk.
    - eexists _, _. split; [done|]. split; [|done]. split_and!; [done..|].
      intros e' [He'| ->%list_elem_of_singleton]%elem_of_app; [by apply Hdone|done].
    - destruct (IH (sink (ed p0.1 e)) c (s :: G)) with (t := (σc, ac))
        as (q & c1 & Hrun & (Hs1 & Hc1 & Hm1 & Hsm') & Hn1).
      + lia.
      + split_and!; [done|by apply Hl|done|done|done| |lia].
        eapply rtc_r; [exact Hreach|]. exists e. split; [by apply Hl0|done].
      + pose proof (marksGrow_renameStatesDFS_dfs fuel d (sink (ed p0.1 e)) c (σc, ac))
          as Hgrow.
        rewrite Hrun in Hgrow.
        exists q, c1. split; [done|]. split; [|done].
        split_and!; [done|lia|by apply Hgrow|done|].
        intros e' [He'| ->%list_elem_of_singleton]%elem_of_app; [|done].
        apply Hgrow. by apply Hdone. }
  destruct (Hloop (σ1, a1)) as (q & c & Hrun & Hq).
  { split.
    - split_and!; [done|lia|done|done|]. by intros e ?%elem_of_nil.
    - exists (order ++ [s]). split; [|done]. rewrite length_app. simpl. lia. }
  exists q, c. split; [done|]. destruct Hq as ((? & ? & ? & Hsmq & Hdone) & Hnq).
  split; [|done]. split_and!; [done|lia|done|].
  intros t e Ht Hmt Hnt He. destruct (decide (t = s)) as [->|Hne].
  - apply Hdone. by apply Hl0.
  - apply (Hsmq t e); try done. apply not_elem_of_cons. done.
Qed.

End renameOrder.

Lemma clearMarks_names l σ a s :
  sname (st (forEach l (λ s, modStore (updState s (set_marked false))) (σ, a)).1.1 s)
  = sname (st σ s).
Proof.
  revert σ. induction l as [|x l IH]; intros σ; simpl; [done|].
  unfold bind at 1, modStore, modify. cbn [fst snd]. rewrite IH.
  rewrite st_updState. by case_decide.
Qed.

Lemma successor_same σ τ t u :
  eds τ = eds σ → (∀ s, edgesOut (st τ s) = edgesOut (st σ s)) →
  successor τ t u ↔ successor σ t u.
Proof. intros He Ho. unfold successor, ed. by rewrite He, Ho. Qed.

Lemma rtc_successor_same σ τ t u :
  eds τ = eds σ → (∀ s, edgesOut (st τ s) = edgesOut (st σ s)) →
  rtc (successor τ) t u ↔ rtc (successor σ) t u.
Proof.
  intros He Ho. split; induction 1 as [|x y z Hxy _ IH]; try done.
  - eapply rtc_l; [|done]. by apply (successor_same σ τ).
  - eapply rtc_l; [|done]. by apply (successor_same σ τ).
Qed.

(** What the DFS renaming does on an automaton with a start state: it
    completes; [order] lists, without repetition, the states that can be
    reached from the first start state [s0], which comes first; the i-th
    state of the list gets the Base62 name of i, and the states that are not
    in it keep their names. *)
Lemma renameStatesDFS_order σ a s0 :
  closedAutomaton σ a → head (Automaton.getStartStates σ a) = Some s0 →
  ∃ p order,
    Automaton.renameStatesDFS (σ, a) = (p, Ok tt)
    ∧ NoDup order ∧ head order = Some s0
    ∧ (∀ u, u ∈ order ↔ rtc (successor σ) s0 u)
    ∧ (∀ i u, order !! i = Some u →
         sname (st p.1 u) = Util.toBase62 i (Util.totalDigits (length (states a))))
    ∧ (∀ u, u ∉ order → sname (st p.1 u) = sname (st σ u)).
Proof.
  intros [Hnd Hv Hcl] Hhead.
  destruct (Automaton.getStartStates σ a) as [|s0' rest] eqn:Hss; [done|].
  injection Hhead as ->.
  assert (s0 ∈ states a) as Hs0.
  { assert (s0 ∈ Automaton.getStartStates σ a) as H by (rewrite Hss; left).
    by apply elem_of_getStartStates in H as [? _]. }
  destruct (clearMarks_ok σ a Hv) as (τ & Hclear & Hlen & Heds & Hout & Hst & Hmk).
  assert (∀ u, sname (st τ u) = sname (st σ u)) as Hnames.
  { intros u. rewrite <- (clearMarks_names (states a) σ a u). by rewrite Hclear. }
  assert (Automaton.getStartStates τ a = s0 :: rest) as Hss'.
  { rewrite <- Hss. unfold Automaton.getStartStates. f_equal.
    apply list_filter_iff. intros s. by rewrite Hst. }
  assert (∀ s e, s ∈ states a → e ∈ edgesOut (st τ s) → sink (ed τ e) ∈ states a)
    as Hcl'.
  { intros s e Hs He. unfold ed. rewrite Heds. rewrite Hout in He. by eapply Hcl. }
  unfold Automaton.renameStatesDFS, bind at 1, getThis, gets. cbn [fst snd].
  rewrite decide_False by (destruct (states a); [by apply elem_of_nil in Hs0|done]).
  unfold bind at 1. rewrite Hclear.
  unfold bind at 1, getStore, gets. cbn [fst snd]. rewrite Hss'.
  destruct (renameStatesDFS_dfs_order (τ, a) (Util.totalDigits (length (states a))) s0)
    with (fuel := searchFuel τ) (s := s0) (count := 0) (G := @nil nat) (t := (τ, a))
    as (p & c & Hrun & (Hsr & _ & Hm0 & Hsm) & (order & _ & Hnum)); cbn [fst snd].
  - done.
  - done.
  - intros s Hs. rewrite Hlen. by apply Hv.
  - done.
  - unfold searchFuel. rewrite Hlen.
    pose proof (NoDup_bounded_length _ _ Hnd Hv). lia.
  - split_and!; [|done|by apply Hmk| |exists []|done|done].
    + split_and!; cbn [fst snd]; try done.
      * symmetry. by apply markedCount_zero.
      * intros s Hs Hm. rewrite Hmk in Hm by done. done.
    + intros t e Ht Hmt. cbn [fst snd] in *. rewrite Hmk in Hmt by done. done.
    + split; [done|]. split_and!; cbn [fst snd].
      * constructor.
      * intros u. split; [by intros ?%elem_of_nil|].
        intros [Hu Hm]. rewrite Hmk in Hm by done. done.
      * intros i u Hi. by rewrite lookup_nil in Hi.
      * done.
      * by intros u ?%elem_of_nil.
      * done.
  - destruct Hnum as (Hnd' & Hin & Hnm & Hkeep & Hreach & Hfirst). cbn [fst snd] in *.
    exists p, order. unfold bind. rewrite Hrun. split; [done|].
    assert (s0 ∈ order) as Hs0' by (apply Hin; done).
    split_and!.
    + done.
    + destruct order as [|x order']; [by apply elem_of_nil in Hs0'|].
      simpl. f_equal. by apply Hfirst.
    + intros u. split.
      * intros Hu. apply (rtc_successor_same σ τ); [done..|]. by apply Hreach.
      * intros Hu. apply (rtc_successor_same σ τ) in Hu; [|done..].
        apply (rtc_ind_r (R := successor τ) (λ u, u ∈ order) s0); [done| |done].
        intros y z _ (e & He & <-) [Hy Hmy]%Hin. apply Hin. split.
        -- by eapply Hcl'.
        -- apply (Hsm y e); [done|done|apply not_elem_of_nil|done].
    + done.
    + intros u Hu. rewrite Hkeep by done. apply Hnames.
Qed.

Lemma signatureDFS_after σ a p :
  Automaton.renameStatesDFS (σ, a) = (p, Ok tt) →
  ∃ r, Automaton.signatureDFS (σ, a) = (p, Ok r)
     ∧ (r = None ↔ Automaton.isDeterministic σ a = false)
     ∧ Automaton.isDeterministic p.1 p.2 = Automaton.isDeterministic σ a.
Proof.
  intros Hrun. pose proof (renameStatesDFS_isDeterministic _ _ _ _ Hrun) as Hdet.
  unfold Automaton.signatureDFS. unfold bind at 1. rewrite Hrun.
  unfold bind, getThis, getStore, gets, ret. cbn [fst snd]. rewrite Hdet.
  destruct (Automaton.isDeterministic σ a); simpl.
  - eexists. split; [done|]. split; [|done]. split; intros [=].
  - eexists. split; [done|]. done.
Qed.

(** C9, as the code has it: on an automaton whose edges end in its own
    states, and which has a start state or no state at all, signatureDFS does
    not throw: it returns undefined exactly when the automaton is not
    deterministic, before as after the renaming, and a string otherwise.
    When it returns, the DFS renaming has been made in place: the states that
    can be reached from the first start state are numbered 0, 1, 2, ...
    without gap or repetition, the first start state 0, each carries the
    Base62 name of its number, and every other state has kept its name. *)
Theorem signatureDFS_undefined σ a :
  closedAutomaton σ a →
  states a = [] ∨ Automaton.getStartStates σ a ≠ [] →
  ∃ p r order,
    Automaton.signatureDFS (σ, a) = (p, Ok r)
    ∧ (r = None ↔ Automaton.isDeterministic σ a = false)
    ∧ Automaton.isDeterministic p.1 p.2 = Automaton.isDeterministic σ a
    ∧ states p.2 = states a
    ∧ NoDup order
    ∧ head order = head (Automaton.getStartStates σ a)
    ∧ (∀ u, u ∈ order ↔ reachable σ (take 1 (Automaton.getStartStates σ a)) u)
    ∧ (∀ i u, order !! i = Some u →
         sname (st p.1 u) = Util.toBase62 i (Util.totalDigits (length (states a))))
    ∧ (∀ u, u ∉ order → sname (st p.1 u) = sname (st σ u)).
Proof.
  intros Hcl Hstart.
  destruct (Automaton.getStartStates σ a) as [|s0 rest] eqn:Hss.
  - destruct Hstart as [Hempty|?]; [|done].
    assert (Automaton.renameStatesDFS (σ, a) = ((σ, a), Ok tt)) as Hrun.
    { unfold Automaton.renameStatesDFS, bind, getThis, gets. cbn [fst snd].
      by rewrite decide_True by (by rewrite Hempty). }
    destruct (signatureDFS_after _ _ _ Hrun) as (r & Hsig & Hr & Hdet).
    exists (σ, a), r, []. split_and!; try done; [constructor|].
    intros u. split; [by intros ?%elem_of_nil|].
    by intros (s & ?%elem_of_nil & _).
  - destruct (renameStatesDFS_order σ a s0 Hcl) as
      (p & order & Hrun & Hnd & Hhead & Hin & Hnm & Hkeep); [by rewrite Hss|].
    destruct (signatureDFS_after _ _ _ Hrun) as (r & Hsig & Hr & Hdet).
    pose proof (sameShape_renameStatesDFS (σ, a)) as Hshape. rewrite Hrun in Hshape.
    destruct Hshape as (Hst & _).
    exists p, r, order. split_and!; try done.
    intros u. rewrite Hin. simpl. unfold reachable. split.
    + intros Hu. exists s0. split; [left|done].
    + intros (s & ->%list_elem_of_singleton & Hu). done.
Qed.

Lemma signatureDFS_undefined_witness :
  closedAutomaton twoStarts.1 twoStarts.2
  ∧ (states twoStarts.2 = [] ∨ Automaton.getStartStates twoStarts.1 twoStarts.2 ≠ [])
  ∧ Automaton.isDeterministic twoStarts.1 twoStarts.2 = false
  ∧ ∃ p r order,
      Automaton.signatureDFS (twoStarts.1, twoStarts.2) = (p, Ok r)
      ∧ (r = None ↔ Automaton.isDeterministic twoStarts.1 twoStarts.2 = false)
      ∧ Automaton.isDeterministic p.1 p.2
        = Automaton.isDeterministic twoStarts.1 twoStarts.2
      ∧ states p.2 = states twoStarts.2
      ∧ NoDup order
      ∧ head order = head (Automaton.getStartStates twoStarts.1 twoStarts.2)
      ∧ (∀ u, u ∈ order
              ↔ reachable twoStarts.1
                  (take 1 (Automaton.getStartStates twoStarts.1 twoStarts.2)) u)
      ∧ (∀ i u, order !! i = Some u →
           sname (st p.1 u)
           = Util.toBase62 i (Util.totalDigits (length (states twoStarts.2))))
      ∧ (∀ u, u ∉ order → sname (st p.1 u) = sname (st twoStarts.1 u)).
Proof.
  assert (closedAutomaton twoStarts.1 twoStarts.2) as Hcl.
  { apply closedAutomaton_check_ok. vm_compute. reflexivity. }
  assert (states twoStarts.2 = []
          ∨ Automaton.getStartStates twoStarts.1 twoStarts.2 ≠ []) as Hstart.
  { right. vm_compute. discriminate. }
  split; [exact Hcl|]. split; [exact Hstart|]. split; [vm_compute; reflexivity|].
  exact (signatureDFS_undefined twoStarts.1 twoStarts.2 Hcl Hstart).
Defined.

(** C9 as stated fails for an automaton with states and no start state: it
    is not deterministic, the renaming throws before the test is reached,
    and signatureDFS throws with it. *)
Lemma signatureDFS_counterexample :
  let t := execAll [OpAddState "q" false true NoTag false]
             (emptyStore, Automaton.new "A" "ab") in
  states t.2 = [0]
  ∧ Automaton.getStartStates t.1 t.2 = []
  ∧ Automaton.isDeterministic t.1 t.2 = false
  ∧ Automaton.signatureDFS t = (t, Throw "renameStatesDFS: no start states").
Proof. vm_compute. split_and!; reflexivity. Qed.

(** ** automaton.js: states, names and acceptance *)

Lemma uniquify_xs fuel (m : gmap string nat) name :
  ∃ k, Automaton.uniquify fuel m name = name +:+ xs k
       ∧ ∀ j, j < k → is_Some (m !! (name +:+ xs j)).
Proof.
  revert name. induction fuel as [|fuel IH]; intros name; simpl.
  - exists 0. rewrite append_nil_r. split; [done|lia].
  - destruct (m !! name) as [s|] eqn:Hn.
    + destruct (IH (name +:+ "x")) as (k & -> & Hk). exists (S k).
      rewrite append_assoc, xs_S. split; [done|].
      intros [|j] Hj; [rewrite append_nil_r; eauto|].
      rewrite <- xs_S, <- append_assoc. apply Hk. lia.
    + exists 0. rewrite append_nil_r. split; [done|lia].
Qed.

(** X13: [addState] always completes and returns a state that the automaton
    then finds under the name used.  Without [forceNew] that name is the
    given one, and when it is taken the existing state is returned and
    nothing changes, whatever flags and tag were passed.  With [forceNew]
    the name is the given one followed by the least number of ['x'] that
    makes it free.  A state that is created is new in the store, carries the
    given flags and tag, and no other name or state is affected. *)
Theorem addState_spec name start final tag forceNew σ a :
  ∃ s name' σ' a',
    Automaton.addState name start final tag forceNew (σ, a) = ((σ', a'), Ok s)
    ∧ Automaton.getStateByName a' name' = Some s
    ∧ (if forceNew
       then ∃ k, name' = name +:+ xs k
                 ∧ Automaton.getStateByName a name' = None
                 ∧ ∀ j, j < k → is_Some (Automaton.getStateByName a (name +:+ xs j))
       else name' = name)
    ∧ (Automaton.getStateByName a name' = Some s → σ' = σ ∧ a' = a)
    ∧ (Automaton.getStateByName a name' = None →
         s = length (sts σ)
         ∧ st σ' s = newState name' start final tag
         ∧ states a' = JsSet.add s (states a)
         ∧ (∀ t, t < length (sts σ) → st σ' t = st σ t)
         ∧ eds σ' = eds σ
         ∧ ∀ k, k ≠ name' → Automaton.getStateByName a' k = Automaton.getStateByName a k).
Proof.
  set (name' := if forceNew
                then Automaton.uniquify (size (stateNameMap a)) (stateNameMap a) name
                else name).
  assert (Automaton.addState name start final tag forceNew (σ, a)
    = match stateNameMap a !! name' with
      | Some s => ((σ, a), Ok s)
      | None =>
          ((mkStore (sts σ ++ [newState name' start final tag]) (eds σ),
            set_stateNameMap (<[name' := length (sts σ)]> (stateNameMap a))
              (set_states (JsSet.add (length (sts σ)) (states a)) a)),
           Ok (length (sts σ)))
      end) as Hrun.
  { unfold Automaton.addState, bind, getThis, gets, ret. cbn [fst snd].
    unfold Automaton.getStateByName. fold name'. by destruct (stateNameMap a !! name'). }
  assert (if forceNew
          then ∃ k, name' = name +:+ xs k
                    ∧ Automaton.getStateByName a name' = None
                    ∧ ∀ j, j < k → is_Some (Automaton.getStateByName a (name +:+ xs j))
          else name' = name) as Hname.
  { subst name'. destruct forceNew; [|done].
    destruct (uniquify_xs (size (stateNameMap a)) (stateNameMap a) name) as (k & Hk & Hlt).
    exists k. split; [done|]. split; [apply uniquify_fresh|done]. }
  unfold Automaton.getStateByName in *.
  destruct (stateNameMap a !! name') as [s|] eqn:Hn.
  - exists s, name', σ, a. split_and!; try done.
    + destruct forceNew; [|done]. by destruct Hname as (? & ? & ? & ?).
    + by rewrite Hn.
  - eexists (length (sts σ)), name', _, _. split; [exact Hrun|].
    cbn [stateNameMap set_stateNameMap set_states states sts eds].
    split_and!.
    + by rewrite lookup_insert_eq.
    + destruct forceNew; [|done]. destruct Hname as (k & ? & _ & ?). by exists k.
    + rewrite Hn. done.
    + intros _. split_and!; try done.
      * apply st_alloc_new.
      * intros t Ht. by apply st_alloc.
      * intros k Hk. by rewrite lookup_insert_ne.
Qed.

Lemma foldl_orb_existsb {A} (f : A → bool) l b :
  foldl (λ acc x, acc || f x) b l = b || existsb f l.
Proof.
  revert b. induction l as [|x l IH]; intros b; simpl; [by rewrite orb_false_r|].
  by rewrite IH, orb_assoc.
Qed.

(** X14: [acceptsEmptyWord ()] agrees with [accepts ('')], also on the
    automaton without states, and holds exactly when some state is both a
    start state and final. *)
Theorem acceptsEmptyWord_accepts σ a :
  Automaton.acceptsEmptyWord σ a = Automaton.accepts σ a ""
  ∧ (Automaton.acceptsEmptyWord σ a = true
     ↔ ∃ s, s ∈ states a ∧ sstart (st σ s) = true ∧ sfinal (st σ s) = true).
Proof.
  assert (Automaton.acceptsEmptyWord σ a = Automaton.accepts σ a "") as Heq.
  { unfold Automaton.acceptsEmptyWord, Automaton.accepts, Automaton.isEmpty.
    rewrite foldl_orb_existsb. simpl. case_bool_decide as Hemp; [|done].
    apply nil_length_inv in Hemp. unfold Automaton.getStartStates. by rewrite Hemp. }
  split; [done|]. rewrite Heq, accepts_iff. simpl. split.
  - intros (s & t & Hs & Hst & Hr & Hf). inversion Hr; subst. by exists t.
  - intros (s & Hs & Hst & Hf). exists s, s. split_and!; try done. constructor.
Qed.

Lemma deterministic_deltaStar a S w :
  (∀ c dm s targets,
     deltaMap a !! c = Some dm → dm !! s = Some targets → length targets ≤ 1) →
  length S ≤ 1 → length (Automaton.deltaStar a S w) ≤ 1.
Proof.
  intros Hdet. revert S. induction w as [|c w IH]; intros S HS; [done|].
  rewrite deltaStar_cons. apply IH.
  destruct S as [|s [|]]; [simpl; lia| |simpl in HS; lia].
  unfold nextStates. simpl.
  etrans; [apply length_foldl_add|]. simpl.
  unfold Automaton.delta. simpl.
  destruct (deltaMap a !! c) as [dm|] eqn:Hc; [|simpl; lia].
  destruct (dm !! s) as [targets|] eqn:Hs; [|simpl; lia].
  etrans; [apply length_foldl_add|]. simpl. by eapply Hdet.
Qed.

(** X15: a deterministic automaton is in at most one state after any word:
    the set of states reached from the start state never has more than one
    member, and at most one state is reached from any single state. *)
Theorem isDeterministic_deltaStar σ a :
  Automaton.isDeterministic σ a = true →
  ∀ word,
    length (Automaton.deltaStar a (Automaton.getStartStates σ a) word) ≤ 1
    ∧ ∀ s, length (Automaton.deltaStar a [s] word) ≤ 1.
Proof.
  intros [Hst Hdet]%isDeterministic_spec word. split.
  - apply deterministic_deltaStar; [done|lia].
  - intros s. by apply deterministic_deltaStar.
Qed.

Lemma isDeterministic_deltaStar_witness :
  let p := execAll [OpAddState "0" true false NoTag false;
                    OpAddState "1" false true NoTag false;
                    OpAddEdge (ByName "0") (ByName "1") "a";
                    OpAddEdge (ByName "1") (ByName "1") "a"]
             (emptyStore, Automaton.new "A" "ab") in
  Automaton.isDeterministic p.1 p.2 = true
  ∧ length (Automaton.deltaStar p.2 (Automaton.getStartStates p.1 p.2) ["a"; "a"]%char) ≤ 1.
Proof.
  intros p. split; [vm_compute; reflexivity|].
  apply (isDeterministic_deltaStar p.1 p.2); vm_compute; reflexivity.
Defined.

(** Calls that leave the states, their flags and the transitions alone. *)
Definition sameLanguage (p p' : Store * Automaton) : Prop :=
  states p'.2 = states p.2 ∧ deltaMap p'.2 = deltaMap p.2
  ∧ (∀ s, sstart (st p'.1 s) = sstart (st p.1 s))
  ∧ ∀ s, sfinal (st p'.1 s) = sfinal (st p.1 s).

Global Instance sameLanguage_preorder : PreOrder sameLanguage.
Proof.
  split.
  - by intros p.
  - intros p1 p2 p3 (?&?&H12&F12) (?&?&H23&F23).
    split_and!; try congruence; intros s; by rewrite ?H23, ?H12, ?F23, ?F12.
Qed.

Lemma sameLanguage_accepts p p' word :
  sameLanguage p p' → Automaton.accepts p'.1 p'.2 word = Automaton.accepts p.1 p.2 word.
Proof.
  intros (Hst & Hdm & Hs & Hf).
  apply eq_true_iff_eq. rewrite !accepts_iff.
  assert (∀ s w t, run p'.2 s w t ↔ run p.2 s w t) as Hrun.
  { intros s w t.
    split; intros H; induction H as [|s c u w t Hstep Hr IH]; try constructor.
    all: econstructor; [|exact IH].
    all: destruct Hstep as (dm & tg & Hc & Hs' & Ht); exists dm, tg.
    all: split_and!; try done; congruence. }
  rewrite Hst. by setoid_rewrite Hrun; setoid_rewrite Hs; setoid_rewrite Hf.
Qed.

Lemma sameLanguage_modStore s f :
  (∀ x, sstart (f x) = sstart x) → (∀ x, sfinal (f x) = sfinal x) →
  always sameLanguage (modStore (updState s f)).
Proof.
  intros Hs Hf. apply always_modify. intros [σ a]. repeat split; simpl.
  - intros t. by apply sstart_updState.
  - intros t. rewrite st_updState. by case_decide.
Qed.

Lemma sameLanguage_renameState s newName :
  always sameLanguage (Automaton.renameState s newName).
Proof.
  unfold Automaton.renameState, getStore.
  repeat first [ by apply sameLanguage_modStore
               | by (apply always_modify; intros [??])
               | always_step ].
Qed.

Lemma sameLanguage_renameStates permutation :
  always sameLanguage (Automaton.renameStates permutation).
Proof.
  unfold Automaton.renameStates, getThis.
  apply always_bind; [apply _|apply always_gets, _|intros a].
  destruct permutation as [p|].
  - case_decide; [always_leaf|].
    apply always_forEach; [apply _|]. intros sp _. apply sameLanguage_renameState.
  - apply always_forEach; [apply _|]. intros sp _. apply sameLanguage_renameState.
Qed.

Lemma sameLanguage_renameStatesDFS_dfs fuel d s count :
  always sameLanguage (Automaton.renameStatesDFS_dfs fuel d s count).
Proof.
  revert s count. induction fuel as [|fuel IH]; intros s count; simpl.
  - always_leaf.
  - apply always_bind; [apply _|by apply sameLanguage_modStore|intros _].
    apply always_bind; [apply _|apply sameLanguage_renameState|intros _].
    apply always_bind; [apply _|apply always_gets, _|intros σ].
    apply always_foldlM; [apply _|]. intros c e _.
    apply always_bind; [apply _|apply always_gets, _|intros σ'].
    destruct (marked _); [always_leaf|apply IH].
Qed.

Lemma sameLanguage_renameStatesDFS : always sameLanguage Automaton.renameStatesDFS.
Proof.
  unfold Automaton.renameStatesDFS, getThis, getStore.
  apply always_bind; [apply _|apply always_gets, _|intros a].
  case_decide; [always_leaf|].
  apply always_bind; [apply _| |intros _].
  { apply always_forEach; [apply _|]. intros s _. by apply sameLanguage_modStore. }
  apply always_bind; [apply _|apply always_gets, _|intros σ].
  destruct (Automaton.getStartStates σ a) as [|s0 ?]; [always_leaf|].
  apply always_bind; [apply _|apply sameLanguage_renameStatesDFS_dfs|intros _].
  always_leaf.
Qed.

(** X16: renaming never changes the language: after [renameState],
    [renameStates] (with or without a permutation) and [renameStatesDFS],
    whether they complete or throw, the automaton accepts the words it
    accepted before. *)
Theorem renaming_keeps_language σ a word :
  (∀ s newName,
     let p := (Automaton.renameState s newName (σ, a)).1 in
     Automaton.accepts p.1 p.2 word = Automaton.accepts σ a word)
  ∧ (∀ permutation,
       let p := (Automaton.renameStates permutation (σ, a)).1 in
       Automaton.accepts p.1 p.2 word = Automaton.accepts σ a word)
  ∧ (let p := (Automaton.renameStatesDFS (σ, a)).1 in
     Automaton.accepts p.1 p.2 word = Automaton.accepts σ a word).
Proof.
  split_and!; intros; apply (sameLanguage_accepts (σ, a)).
  - apply sameLanguage_renameState.
  - apply sameLanguage_renameStates.
  - apply sameLanguage_renameStatesDFS.
Qed.

(** ** The data structures of an automaton stay coherent *)

(** The sets of states and edges, the edge lists of the states and the
    transition table describe the same graph: every edge joins two states of
    the automaton on a symbol of its alphabet, is listed with its source and
    its sink, and is the only edge between them on that symbol; the
    transition table has an entry exactly for the edges; and the name index
    points to states of the automaton. *)
Record coherent (σ : Store) (a : Automaton) : Prop := mkCoherent {
  co_nodup : NoDup (states a);
  co_states : ∀ s, s ∈ states a → s < length (sts σ);
  co_map : ∀ k s, stateNameMap a !! k = Some s → s ∈ states a;
  co_alpha : ∀ c, is_Some (deltaMap a !! c) ↔ c ∈ alphabet a;
  co_edges : ∀ e, e ∈ edges a →
    e < length (eds σ) ∧ source (ed σ e) ∈ states a ∧ sink (ed σ e) ∈ states a
    ∧ symbol (ed σ e) ∈ alphabet a;
  co_unique : ∀ e e', e ∈ edges a → e' ∈ edges a →
    source (ed σ e) = source (ed σ e') → sink (ed σ e) = sink (ed σ e') →
    symbol (ed σ e) = symbol (ed σ e') → e = e';
  co_out : ∀ s e, s ∈ states a →
    e ∈ edgesOut (st σ s) ↔ e ∈ edges a ∧ source (ed σ e) = s;
  co_in : ∀ s e, s ∈ states a →
    e ∈ edgesIn (st σ s) ↔ e ∈ edges a ∧ sink (ed σ e) = s;
  co_delta : ∀ s c t,
    step a s c t
    ↔ ∃ e, e ∈ edges a ∧ source (ed σ e) = s ∧ sink (ed σ e) = t
           ∧ symbol (ed σ e) = c
}.

Lemma step_new name symbols s c t : ¬ step (Automaton.new name symbols) s c t.
Proof.
  intros (dm & targets & Hc & Hs & _). apply (deltaMap_new_empty name symbols) in Hc as ->.
  by rewrite lookup_empty in Hs.
Qed.

Lemma coherent_new σ name symbols : coherent σ (Automaton.new name symbols).
Proof.
  split; simpl.
  - constructor.
  - by intros s ?%elem_of_nil.
  - intros k s. by rewrite lookup_empty.
  - intros c. apply (deltaMap_new name symbols c).
  - by intros e ?%elem_of_nil.
  - by intros e e' ?%elem_of_nil.
  - by intros s e ?%elem_of_nil.
  - by intros s e ?%elem_of_nil.
  - intros s c t. split; [by intros ?%step_new|]. by intros (e & ?%elem_of_nil & _).
Qed.

(** *** [addState] *)

Lemma coherent_addState name start final tag forceNew σ a :
  coherent σ a →
  coherent (Automaton.addState name start final tag forceNew (σ, a)).1.1
           (Automaton.addState name start final tag forceNew (σ, a)).1.2.
Proof.
  intros [Hnd Hst Hmap Hal Hed Hun Hout Hin Hdl].
  destruct (addState_cases name start final tag forceNew σ a) as [name' ->].
  destruct (stateNameMap a !! name') as [s|] eqn:Hn; [done|].
  cbn [fst snd].
  set (s0 := length (sts σ)).
  assert (s0 ∉ states a) as Hfresh by (intros ?%Hst; unfold s0 in *; lia).
  assert (∀ s, s ∈ states a →
            st (mkStore (sts σ ++ [newState name' start final tag]) (eds σ)) s = st σ s)
    as Hold by (intros s ?%Hst; by apply st_alloc).
  assert (∀ e, e ∈ edges a → source (ed σ e) ≠ s0 ∧ sink (ed σ e) ≠ s0) as Hends.
  { intros e (_ & Hsrc & Hsnk & _)%Hed. split; intros Heq; rewrite Heq in *; done. }
  split; cbn [states stateNameMap deltaMap alphabet edges set_stateNameMap set_states
              sts eds].
  - by apply NoDup_JsSet_add.
  - intros s. rewrite elem_of_JsSet_add, length_app. simpl.
    intros [?%Hst| ->]; unfold s0; lia.
  - intros k s. rewrite elem_of_JsSet_add. destruct (decide (k = name')) as [->|Hne].
    + rewrite lookup_insert_eq. intros [= <-]. by right.
    + rewrite lookup_insert_ne by done. intros ?%Hmap. by left.
  - done.
  - intros e He. destruct (Hed e He) as (? & ? & ? & ?).
    rewrite !elem_of_JsSet_add. split_and!; auto.
  - done.
  - intros s e. rewrite elem_of_JsSet_add. intros [Hs| ->].
    + rewrite Hold by done. by apply Hout.
    + unfold s0. rewrite st_alloc_new. simpl. split; [by intros ?%elem_of_nil|].
      intros [He Hsrc]. by destruct (Hends e He).
  - intros s e. rewrite elem_of_JsSet_add. intros [Hs| ->].
    + rewrite Hold by done. by apply Hin.
    + unfold s0. rewrite st_alloc_new. simpl. split; [by intros ?%elem_of_nil|].
      intros [He Hsnk]. by destruct (Hends e He).
  - done.
Qed.

(** *** [addEdge] *)

Lemma findEdge_Some σ f t c e :
  Automaton.findEdge σ f (Some t) c = Some e →
  e ∈ edgesOut (st σ f) ∧ symbol (ed σ e) = c ∧ sink (ed σ e) = t.
Proof.
  unfold Automaton.findEdge. intros [Hin Hp]%find_some.
  apply bool_decide_eq_true in Hp as [Hs [= Ht]]. by apply list_elem_of_In in Hin.
Qed.

Lemma findEdge_None σ f t c e :
  Automaton.findEdge σ f (Some t) c = None →
  e ∈ edgesOut (st σ f) → ¬ (symbol (ed σ e) = c ∧ sink (ed σ e) = t).
Proof.
  unfold Automaton.findEdge. intros Hnone Hin%list_elem_of_In [Hs Ht].
  pose proof (find_none _ _ Hnone e Hin) as Hp. simpl in Hp.
  apply bool_decide_eq_false in Hp. apply Hp. by rewrite Ht.
Qed.

Lemma findEdge_undefined σ f c : Automaton.findEdge σ f None c = None.
Proof.
  unfold Automaton.findEdge. induction (edgesOut (st σ f)) as [|e l IH]; [done|].
  simpl. rewrite bool_decide_eq_false_2; [done|]. by intros [_ ?].
Qed.

(** The state and the automaton after a call of [addEdge] that has made a
    new edge. *)
Definition edgeAdded (σ : Store) (a : Automaton) (f t : StateId) (c : ascii)
    (dm : gmap StateId (list StateId)) : Store * Automaton :=
  (linkEdge σ f t c,
   set_deltaMap (<[c := <[f := JsSet.add t (default [] (dm !! f))]> dm]> (deltaMap a))
     (set_edges (JsSet.add (length (eds σ)) (edges a)) a)).

Lemma addEdge_Ok_inv from to c σ a q e :
  Automaton.addEdge from to c (σ, a) = (q, Ok e) →
  ∃ f t, Automaton.getState a from = Some f ∧ Automaton.getState a to = Some t
    ∧ ((Automaton.findEdge σ f (Some t) c = Some e ∧ q = (σ, a))
       ∨ (Automaton.findEdge σ f (Some t) c = None ∧ e = length (eds σ)
          ∧ ∃ dm, deltaMap a !! c = Some dm ∧ q = edgeAdded σ a f t c dm)).
Proof.
  destruct (Automaton.getState a from) as [f|] eqn:Hf,
           (Automaton.getState a to) as [t|] eqn:Ht,
           (deltaMap a !! c) as [dm|] eqn:Hc.
  2-8: unfold Automaton.addEdge, Automaton.getEdge;
       unfold bind, getThis, getStore, gets, ret, throw, allocEdge, modThis, modStore,
         modify; cbn [fst snd]; rewrite Hf, ?Ht; cbn [fst snd];
       rewrite ?findEdge_undefined;
       try (destruct (Automaton.findEdge σ f _ c) eqn:Hfind;
            cbn [fst snd deltaMap set_edges]; rewrite ?Hc); try congruence.
  - rewrite (addEdge_eq _ _ _ _ _ _ _ _ Hf Ht Hc).
    destruct (Automaton.findEdge σ f (Some t) c) as [e'|] eqn:Hfind.
    + intros [= <- <-]. exists f, t. split_and!; try done. by left.
    + intros [= <- <-]. exists f, t. split_and!; try done. right.
      split_and!; try done. by exists dm.
  - intros [= <- <-]. exists f, t. split_and!; try done. by left.
Qed.

Lemma edgesOut_linkEdge σ f t c s :
  edgesOut (st (linkEdge σ f t c) s)
  = if decide (s = f ∧ s < length (sts σ))
    then JsSet.add (length (eds σ)) (edgesOut (st σ s)) else edgesOut (st σ s).
Proof.
  unfold linkEdge. rewrite !st_updState, length_updState. simpl.
  rewrite st_allocEdge.
  destruct (decide (t = s ∧ s < length (sts σ))) as [[-> ?]|Ht];
    destruct (decide (f = s ∧ s < length (sts σ))) as [[-> ?]|Hf]; simpl.
  - by rewrite decide_True.
  - rewrite decide_False; [done|]. intros [-> ?]. by apply Hf.
  - by rewrite decide_True.
  - rewrite decide_False; [done|]. intros [-> ?]. by apply Hf.
Qed.

Lemma edgesIn_linkEdge σ f t c s :
  edgesIn (st (linkEdge σ f t c) s)
  = if decide (s = t ∧ s < length (sts σ))
    then JsSet.add (length (eds σ)) (edgesIn (st σ s)) else edgesIn (st σ s).
Proof.
  unfold linkEdge. rewrite !st_updState, length_updState. simpl.
  rewrite st_allocEdge.
  destruct (decide (t = s ∧ s < length (sts σ))) as [[-> ?]|Ht];
    destruct (decide (f = s ∧ s < length (sts σ))) as [[-> ?]|Hf]; simpl.
  - by rewrite decide_True.
  - by rewrite decide_True.
  - rewrite decide_False; [done|]. intros [-> ?]. by apply Ht.
  - rewrite decide_False; [done|]. intros [-> ?]. by apply Ht.
Qed.

Lemma ed_linkEdge_new σ f t c :
  ed (linkEdge σ f t c) (length (eds σ)) = mkEdge f t c None.
Proof. unfold linkEdge, updState, ed. simpl. by rewrite list_lookup_middle. Qed.

Lemma ed_linkEdge_old σ f t c e :
  e < length (eds σ) → ed (linkEdge σ f t c) e = ed σ e.
Proof. intros He. unfold linkEdge, updState, ed. simpl. by rewrite lookup_app_l. Qed.

Lemma step_edgeAdded σ a f t c dm x d y :
  deltaMap a !! c = Some dm →
  step (edgeAdded σ a f t c dm).2 x d y ↔ step a x d y ∨ (x = f ∧ d = c ∧ y = t).
Proof.
  intros Hc. unfold step, edgeAdded. cbn [snd deltaMap set_deltaMap set_edges].
  destruct (decide (d = c)) as [->|Hd].
  - rewrite lookup_insert_eq. destruct (decide (x = f)) as [->|Hx].
    + split.
      * intros (dm' & tg & [= <-] & Htg & Hy). rewrite lookup_insert_eq in Htg.
        injection Htg as <-. apply elem_of_JsSet_add in Hy as [Hy| ->]; [|by right].
        left. destruct (dm !! f) as [tg|] eqn:Hf; [|by apply elem_of_nil in Hy].
        by exists dm, tg.
      * intros H. eexists _, _. split; [done|]. rewrite lookup_insert_eq.
        split; [done|]. apply elem_of_JsSet_add.
        destruct H as [(dm' & tg & Hdm & Htg & Hy)|(_ & _ & ->)]; [|by right].
        rewrite Hc in Hdm. injection Hdm as <-. rewrite Htg. by left.
    + split.
      * intros (dm' & tg & [= <-] & Htg & Hy). rewrite lookup_insert_ne in Htg by done.
        left. by exists dm, tg.
      * intros [(dm' & tg & Hdm & Htg & Hy)|(? & _)]; [|done].
        rewrite Hc in Hdm. injection Hdm as <-.
        eexists _, tg. split; [done|]. by rewrite lookup_insert_ne.
  - rewrite lookup_insert_ne by done. split; [auto|]. intros [?|(_ & ? & _)]; done.
Qed.

Lemma coherent_edgeAdded σ a f t c dm :
  coherent σ a → f ∈ states a → t ∈ states a → deltaMap a !! c = Some dm →
  Automaton.findEdge σ f (Some t) c = None →
  coherent (edgeAdded σ a f t c dm).1 (edgeAdded σ a f t c dm).2.
Proof.
  intros [Hnd Hst Hmap Hal Hed Hun Hout Hin Hdl] Hf Ht Hc Hfind.
  set (e0 := length (eds σ)).
  assert (e0 ∉ edges a) as Hfresh by (intros (? & _)%Hed; unfold e0 in *; lia).
  assert (∀ e, e ∈ edges a → ed (linkEdge σ f t c) e = ed σ e) as Hold.
  { intros e (? & _)%Hed. by apply ed_linkEdge_old. }
  pose proof (ed_linkEdge_new σ f t c) as Hnew. fold e0 in Hnew.
  assert (∀ e, e ∈ edges a →
            ¬ (source (ed σ e) = f ∧ sink (ed σ e) = t ∧ symbol (ed σ e) = c)) as Hnone.
  { intros e He (Hsrc & Hsnk & Hsym).
    apply (findEdge_None σ f t c e Hfind); [|done]. apply Hout; [done|]. done. }
  split; unfold edgeAdded;
    cbn [fst snd states stateNameMap deltaMap alphabet edges set_deltaMap set_edges].
  - done.
  - intros s ?%Hst. by rewrite length_linkEdge.
  - done.
  - intros d. rewrite <- Hal. destruct (decide (d = c)) as [->|Hd].
    + rewrite lookup_insert_eq, Hc. split; eauto.
    + by rewrite lookup_insert_ne.
  - intros e. rewrite elem_of_JsSet_add. intros [He| ->].
    + rewrite (Hold e He). destruct (Hed e He) as (Hv & ?). split; [|done].
      unfold linkEdge, updState. simpl. rewrite length_app. lia.
    + fold e0. rewrite Hnew. simpl. split_and!; try done.
      * unfold linkEdge, updState. simpl. rewrite length_app. simpl. unfold e0. lia.
      * apply Hal. eauto.
  - intros e e'. rewrite !elem_of_JsSet_add. fold e0.
    intros [He| ->] [He'| ->]; rewrite ?Hold, ?Hnew by done; simpl.
    + by apply Hun.
    + intros H1 H2 H3. exfalso. by apply (Hnone e He).
    + rewrite (Hold e' He'). intros H1 H2 H3. exfalso. apply (Hnone e' He').
      by split_and!.
    + done.
  - intros s e Hs. rewrite edgesOut_linkEdge, elem_of_JsSet_add. fold e0.
    destruct (decide (s = f ∧ s < length (sts σ))) as [[-> Hv]|Hn].
    + rewrite elem_of_JsSet_add. fold e0. rewrite (Hout f e Hs). split.
      * intros [[He Hsrc]|Heq].
        -- rewrite (Hold e He). auto.
        -- subst e. rewrite Hnew. auto.
      * intros [[He|Heq] Hsrc]; [|by right]. rewrite (Hold e He) in Hsrc. by left.
    + rewrite (Hout s e Hs). split.
      * intros [He Hsrc]. rewrite (Hold e He). auto.
      * intros [[He|Heq] Hsrc]; [by rewrite (Hold e He) in Hsrc|].
        subst e. rewrite Hnew in Hsrc. simpl in Hsrc. subst s. destruct Hn.
        split; [done|]. by apply Hst.
  - intros s e Hs. rewrite edgesIn_linkEdge, elem_of_JsSet_add. fold e0.
    destruct (decide (s = t ∧ s < length (sts σ))) as [[-> Hv]|Hn].
    + rewrite elem_of_JsSet_add. fold e0. rewrite (Hin t e Hs). split.
      * intros [[He Hsnk]|Heq].
        -- rewrite (Hold e He). auto.
        -- subst e. rewrite Hnew. auto.
      * intros [[He|Heq] Hsnk]; [|by right]. rewrite (Hold e He) in Hsnk. by left.
    + rewrite (Hin s e Hs). split.
      * intros [He Hsnk]. rewrite (Hold e He). auto.
      * intros [[He|Heq] Hsnk]; [by rewrite (Hold e He) in Hsnk|].
        subst e. rewrite Hnew in Hsnk. simpl in Hsnk. subst s. destruct Hn.
        split; [done|]. by apply Hst.
  - intros x d y.
    pose proof (step_edgeAdded σ a f t c dm x d y Hc) as Hstep.
    unfold edgeAdded in Hstep. cbn [snd] in Hstep. rewrite Hstep, Hdl. split.
    + intros [(e & He & Hsrc & Hsnk & Hsym)|(-> & -> & ->)].
      * exists e. rewrite elem_of_JsSet_add, (Hold e He). auto.
      * exists e0. rewrite elem_of_JsSet_add, Hnew. auto.
    + intros (e & [He| ->]%elem_of_JsSet_add & Hsrc & Hsnk & Hsym).
      * rewrite (Hold e He) in *. left. by exists e.
      * fold e0 in Hsrc, Hsnk, Hsym. rewrite Hnew in *. simpl in *. by right.
Qed.

(** *** [renameState] and [deleteEdge] *)

Lemma coherent_renameState s newName σ a :
  coherent σ a → s ∈ states a →
  coherent (Automaton.renameState s newName (σ, a)).1.1
           (Automaton.renameState s newName (σ, a)).1.2.
Proof.
  intros [Hnd Hst Hmap Hal Hed Hun Hout Hin Hdl] Hs. rewrite renameState_eq.
  cbn [fst snd].
  assert (∀ t, edgesOut (st (updState s (set_sname newName) σ) t) = edgesOut (st σ t))
    as Ho by (intros t; rewrite st_updState; by case_decide).
  assert (∀ t, edgesIn (st (updState s (set_sname newName) σ) t) = edgesIn (st σ t))
    as Hi by (intros t; rewrite st_updState; by case_decide).
  split; cbn [states stateNameMap deltaMap alphabet edges set_stateNameMap]; try done.
  - intros t ?%Hst. by rewrite length_updState.
  - intros k t. destruct (decide (k = newName)) as [->|Hne].
    + rewrite lookup_insert_eq. by intros [= <-].
    + rewrite lookup_insert_ne by done. intros [_ Hk]%lookup_delete_Some. by eapply Hmap.
  - intros t e. rewrite Ho. apply Hout.
  - intros t e. rewrite Hi. apply Hin.
Qed.

(** The state and the automaton after [deleteEdge]. *)
Definition edgeDeleted (σ : Store) (a : Automaton) (e : EdgeId)
    (dm : gmap StateId (list StateId)) (targets : list StateId) : Store * Automaton :=
  (updState (sink (ed σ e)) (λ s, set_edgesIn (JsSet.delete e (edgesIn s)) s)
     (updState (source (ed σ e)) (λ s, set_edgesOut (JsSet.delete e (edgesOut s)) s) σ),
   set_deltaMap
     (<[symbol (ed σ e) := <[source (ed σ e) := JsSet.delete (sink (ed σ e)) targets]> dm]>
        (deltaMap a))
     (set_edges (JsSet.delete e (edges a)) a)).

Lemma deleteEdge_eq e σ a dm targets :
  deltaMap a !! symbol (ed σ e) = Some dm → dm !! source (ed σ e) = Some targets →
  Automaton.deleteEdge e (σ, a) = (edgeDeleted σ a e dm targets, Ok tt).
Proof.
  intros Hc Hs. unfold Automaton.deleteEdge, edgeDeleted.
  unfold bind, getThis, getStore, gets, ret, modThis, modStore, modify.
  cbn [fst snd deltaMap set_edges]. rewrite Hc, Hs. done.
Qed.

Lemma deleteEdge_Ok_inv e σ a q :
  Automaton.deleteEdge e (σ, a) = (q, Ok tt) →
  ∃ dm targets, deltaMap a !! symbol (ed σ e) = Some dm
    ∧ dm !! source (ed σ e) = Some targets ∧ q = edgeDeleted σ a e dm targets.
Proof.
  destruct (deltaMap a !! symbol (ed σ e)) as [dm|] eqn:Hc.
  - destruct (dm !! source (ed σ e)) as [targets|] eqn:Hs.
    + rewrite (deleteEdge_eq e σ a dm targets Hc Hs). intros [= <-]. by exists dm, targets.
    + unfold Automaton.deleteEdge.
      unfold bind, getThis, getStore, gets, ret, modThis, modStore, modify, throw.
      cbn [fst snd deltaMap set_edges]. rewrite Hc, Hs. done.
  - unfold Automaton.deleteEdge.
    unfold bind, getThis, getStore, gets, ret, modThis, modStore, modify, throw.
    cbn [fst snd deltaMap set_edges]. rewrite Hc. done.
Qed.

Lemma step_edgeDeleted σ a e dm targets x d y :
  deltaMap a !! symbol (ed σ e) = Some dm → dm !! source (ed σ e) = Some targets →
  step (edgeDeleted σ a e dm targets).2 x d y
  ↔ step a x d y
    ∧ ¬ (x = source (ed σ e) ∧ d = symbol (ed σ e) ∧ y = sink (ed σ e)).
Proof.
  intros Hc Hs. unfold step, edgeDeleted. cbn [snd deltaMap set_deltaMap set_edges].
  destruct (decide (d = symbol (ed σ e))) as [->|Hd].
  - rewrite lookup_insert_eq. destruct (decide (x = source (ed σ e))) as [->|Hx].
    + split.
      * intros (dm' & tg & [= <-] & Htg & Hy). rewrite lookup_insert_eq in Htg.
        injection Htg as <-. apply elem_of_JsSet_delete in Hy as [Hy Hne].
        split; [by exists dm, targets|]. by intros (_ & _ & ?).
      * intros [(dm' & tg & Hdm & Htg & Hy) Hne].
        rewrite Hc in Hdm. injection Hdm as <-. rewrite Hs in Htg. injection Htg as <-.
        eexists _, _. split; [done|]. rewrite lookup_insert_eq. split; [done|].
        apply elem_of_JsSet_delete. split; [done|]. intros ->. by apply Hne.
    + split.
      * intros (dm' & tg & [= <-] & Htg & Hy). rewrite lookup_insert_ne in Htg by done.
        split; [by exists dm, tg|]. by intros (? & _).
      * intros [(dm' & tg & Hdm & Htg & Hy) _].
        rewrite Hc in Hdm. injection Hdm as <-.
        eexists _, tg. split; [done|]. by rewrite lookup_insert_ne.
  - rewrite lookup_insert_ne by done. split; [|by intros [? _]].
    intros H. split; [done|]. by intros (_ & ? & _).
Qed.

Lemma coherent_edgeDeleted σ a e dm targets :
  coherent σ a → e ∈ edges a →
  deltaMap a !! symbol (ed σ e) = Some dm → dm !! source (ed σ e) = Some targets →
  coherent (edgeDeleted σ a e dm targets).1 (edgeDeleted σ a e dm targets).2.
Proof.
  intros [Hnd Hst Hmap Hal Hed Hun Hout Hin Hdl] He Hc Hs.
  destruct (Hed e He) as (Hev & Hsrc & Hsnk & Hsym).
  set (σ' := (edgeDeleted σ a e dm targets).1).
  assert (∀ e', ed σ' e' = ed σ e') as Hsame by done.
  assert (length (sts σ') = length (sts σ)) as Hlen.
  { unfold σ', edgeDeleted. cbn [fst]. by rewrite !length_updState. }
  assert (∀ s, edgesOut (st σ' s)
               = if decide (s = source (ed σ e) ∧ s < length (sts σ))
                 then JsSet.delete e (edgesOut (st σ s)) else edgesOut (st σ s)) as Ho.
  { intros s. unfold σ', edgeDeleted. cbn [fst].
    rewrite !st_updState, length_updState.
    destruct (decide (sink (ed σ e) = s ∧ s < length (sts σ))) as [[Heq ?]|Ht];
      destruct (decide (source (ed σ e) = s ∧ s < length (sts σ))) as [[Heq' ?]|Hf];
      simpl.
    - by rewrite decide_True.
    - rewrite decide_False; [done|]. intros [-> ?]. by apply Hf.
    - by rewrite decide_True.
    - rewrite decide_False; [done|]. intros [-> ?]. by apply Hf. }
  assert (∀ s, edgesIn (st σ' s)
               = if decide (s = sink (ed σ e) ∧ s < length (sts σ))
                 then JsSet.delete e (edgesIn (st σ s)) else edgesIn (st σ s)) as Hi.
  { intros s. unfold σ', edgeDeleted. cbn [fst].
    rewrite !st_updState, length_updState.
    destruct (decide (sink (ed σ e) = s ∧ s < length (sts σ))) as [[Heq ?]|Ht];
      destruct (decide (source (ed σ e) = s ∧ s < length (sts σ))) as [[Heq' ?]|Hf];
      simpl.
    - by rewrite decide_True.
    - by rewrite decide_True.
    - rewrite decide_False; [done|]. intros [-> ?]. by apply Ht.
    - rewrite decide_False; [done|]. intros [-> ?]. by apply Ht. }
  split; fold σ'; unfold edgeDeleted;
    cbn [snd states stateNameMap deltaMap alphabet edges set_deltaMap set_edges].
  - done.
  - intros s ?%Hst. by rewrite Hlen.
  - done.
  - intros d. rewrite <- Hal. destruct (decide (d = symbol (ed σ e))) as [->|Hd].
    + rewrite lookup_insert_eq, Hc. split; eauto.
    + by rewrite lookup_insert_ne.
  - intros e' [He' _]%elem_of_JsSet_delete. rewrite Hsame.
    destruct (Hed e' He') as (? & ? & ? & ?). split_and!; try done.
  - intros e1 e2 [H1 _]%elem_of_JsSet_delete [H2 _]%elem_of_JsSet_delete.
    rewrite !Hsame. by apply Hun.
  - intros s e' Hs'. rewrite Ho, Hsame, elem_of_JsSet_delete.
    destruct (decide (s = source (ed σ e) ∧ s < length (sts σ))) as [[-> Hv]|Hn].
    + rewrite elem_of_JsSet_delete, (Hout _ e' Hs'). tauto.
    + rewrite (Hout _ e' Hs'). split; [|tauto].
      intros [He' Heq]. split_and!; try done. intros ->. apply Hn.
      split; [done|]. by apply Hst.
  - intros s e' Hs'. rewrite Hi, Hsame, elem_of_JsSet_delete.
    destruct (decide (s = sink (ed σ e) ∧ s < length (sts σ))) as [[-> Hv]|Hn].
    + rewrite elem_of_JsSet_delete, (Hin _ e' Hs'). tauto.
    + rewrite (Hin _ e' Hs'). split; [|tauto].
      intros [He' Heq]. split_and!; try done. intros ->. apply Hn.
      split; [done|]. by apply Hst.
  - intros x d y.
    pose proof (step_edgeDeleted σ a e dm targets x d y Hc Hs) as Hstep.
    unfold edgeDeleted in Hstep. cbn [snd] in Hstep. rewrite Hstep, Hdl. split.
    + intros [(e' & He' & H1 & H2 & H3) Hne]. exists e'.
      rewrite elem_of_JsSet_delete, Hsame. split_and!; try done.
      intros ->. apply Hne. done.
    + intros (e' & [He' Hne]%elem_of_JsSet_delete & H1 & H2 & H3).
      rewrite Hsame in *. split; [by exists e'|].
      intros (-> & -> & ->). apply Hne. by apply Hun.
Qed.

Lemma coherent_deleteEdge_total σ a e :
  coherent σ a → e ∈ edges a →
  ∃ dm targets, deltaMap a !! symbol (ed σ e) = Some dm
                ∧ dm !! source (ed σ e) = Some targets.
Proof.
  intros Hco He. destruct (co_edges _ _ Hco e He) as (_ & _ & _ & Hsym).
  destruct (proj2 (co_delta _ _ Hco (source (ed σ e)) (symbol (ed σ e)) (sink (ed σ e))))
    as (dm & targets & Hc & Hs & _); [by exists e|by exists dm, targets].
Qed.

(** *** Sequences of calls *)

(** A call that addresses states and edges of the automaton itself. *)
Definition ownCall (p : Store * Automaton) (op : Op) : Prop :=
  match op with
  | OpAddState _ _ _ _ _ => True
  | OpAddEdge from to _ => ownRef p.2 from ∧ ownRef p.2 to
  | OpRenameState s _ => s ∈ states p.2
  | OpDeleteEdge e => e ∈ edges p.2
  | OpDeleteState _ => False
  end.

(** A sequence of such calls, each of which completes normally. *)
Fixpoint calls (ops : list Op) (p : Store * Automaton) : Prop :=
  match ops with
  | [] => True
  | op :: ops' =>
      ownCall p op ∧ (∃ q, exec op p = (q, Ok tt)) ∧ calls ops' (exec op p).1
  end.

Lemma coherent_getState p r s :
  coherent p.1 p.2 → ownRef p.2 r → Automaton.getState p.2 r = Some s → s ∈ states p.2.
Proof.
  intros Hco Hown. destruct r as [k|s']; simpl in *.
  - by apply (co_map _ _ Hco).
  - by intros [= <-].
Qed.

Lemma coherent_addEdge from to c p q e :
  coherent p.1 p.2 → ownRef p.2 from → ownRef p.2 to →
  Automaton.addEdge from to c p = (q, Ok e) → coherent q.1 q.2.
Proof.
  destruct p as [σ a]. intros Hco Hfrom Hto Hrun.
  apply addEdge_Ok_inv in Hrun
    as (f & t & Hf & Ht & [[_ ->]|(Hfind & _ & dm & Hc & ->)]); [done|].
  apply coherent_edgeAdded; try done.
  - by apply (coherent_getState (σ, a) from).
  - by apply (coherent_getState (σ, a) to).
Qed.

Lemma coherent_exec op p q :
  coherent p.1 p.2 → ownCall p op → exec op p = (q, Ok tt) → coherent q.1 q.2.
Proof.
  intros Hco Hown Hrun.
  destruct op as [name start final tag forceNew|from to c|s n|e|state]; simpl in *.
  - assert (q = (Automaton.addState name start final tag forceNew p).1) as ->.
    { unfold bind in Hrun.
      destruct (Automaton.addState name start final tag forceNew p) as [q' [x| |]];
        by inversion Hrun. }
    destruct p as [σ a]. by apply coherent_addState.
  - destruct Hown as [Hfrom Hto]. unfold bind in Hrun.
    destruct (Automaton.addEdge from to c p) as [q' [e| |]] eqn:Hadd; try done.
    injection Hrun as <-. by apply (coherent_addEdge from to c p q' e).
  - assert (q = (Automaton.renameState s n p).1) as -> by (by rewrite Hrun).
    destruct p as [σ a]. by apply coherent_renameState.
  - destruct p as [σ a].
    apply deleteEdge_Ok_inv in Hrun as (dm & targets & Hc & Hs & ->).
    by apply coherent_edgeDeleted.
  - done.
Qed.

Lemma coherent_execAll ops p :
  coherent p.1 p.2 → calls ops p → coherent (execAll ops p).1 (execAll ops p).2.
Proof.
  revert p. induction ops as [|op ops IH]; intros p Hco Hops; [done|].
  destruct Hops as (Hown & [q Hrun] & Hrest). simpl. apply IH; [|done].
  rewrite Hrun. by apply (coherent_exec op p q).
Qed.

(** X17: the data structures of an automaton stay coherent.  A new automaton
    is coherent, and so is the automaton after any sequence of completed
    calls of [addState], [addEdge], [renameState] and [deleteEdge] on its own
    states and edges: the transition table holds exactly the edges, every
    state lists exactly its own outgoing and incoming edges, no two edges
    join the same states on the same symbol, and every edge joins states of
    the automaton on a symbol of the alphabet. *)
Theorem coherent_calls :
  (∀ σ name symbols, coherent σ (Automaton.new name symbols))
  ∧ ∀ ops p,
      coherent p.1 p.2 → calls ops p →
      coherent (execAll ops p).1 (execAll ops p).2.
Proof. split; [apply coherent_new|apply coherent_execAll]. Qed.

(** ** What a construction leaves untouched *)

(** [untouched σ τ]: the states and edges of [σ] are in [τ] as they were. *)
Definition untouched (σ τ : Store) : Prop :=
  length (sts σ) ≤ length (sts τ) ∧ length (eds σ) ≤ length (eds τ)
  ∧ (∀ s, s < length (sts σ) → st τ s = st σ s)
  ∧ (∀ e, e < length (eds σ) → ed τ e = ed σ e).

Global Instance untouched_preorder : PreOrder untouched.
Proof.
  split.
  - intros σ. by split_and!.
  - intros σ1 σ2 σ3 (L12 & E12 & S12 & D12) (L23 & E23 & S23 & D23).
    split_and!; try lia.
    + intros s Hs. rewrite S23, S12 by lia. done.
    + intros e He. rewrite D23, D12 by lia. done.
Qed.

Lemma untouched_storeExt σ τ : untouched σ τ → storeExt σ τ.
Proof.
  intros (L & E & S & D). split; [split|]; try done.
  all: intros s Hs; by rewrite S.
Qed.

Lemma coherent_untouched σ τ a : coherent σ a → untouched σ τ → coherent τ a.
Proof.
  intros [Hnd Hst Hmap Hal Hed Hun Hout Hinc Hdl] (L & E & S & D).
  assert (∀ e, e ∈ edges a → ed τ e = ed σ e) as He.
  { intros e (? & _)%Hed. by apply D. }
  assert (∀ s, s ∈ states a → st τ s = st σ s) as Hs.
  { intros s ?%Hst. by apply S. }
  split; try done.
  - intros s ?%Hst. lia.
  - intros e Hi. rewrite (He e Hi). destruct (Hed e Hi) as (? & ?). split; [lia|done].
  - intros e e' Hi Hi'. rewrite (He e Hi), (He e' Hi'). by apply Hun.
  - intros s e Hs'. rewrite (Hs s Hs'), (Hout s e Hs'). split.
    + intros [Hi Hsrc]. by rewrite (He e Hi).
    + intros [Hi Hsrc]. by rewrite (He e Hi) in Hsrc.
  - intros s e Hs'. rewrite (Hs s Hs'), (Hinc s e Hs'). split.
    + intros [Hi Hsnk]. by rewrite (He e Hi).
    + intros [Hi Hsnk]. by rewrite (He e Hi) in Hsnk.
  - intros s c t. rewrite Hdl. split.
    + intros (e & Hi & ?). exists e. by rewrite (He e Hi).
    + intros (e & Hi & H). exists e. by rewrite (He e Hi) in H.
Qed.

(** [apart σ0 p]: the automaton of [p] lives in [p]'s store beside an
    untouched [σ0]: all its states were made after [σ0], and nothing made
    after [σ0] is marked. *)
Definition apart (σ0 : Store) (p : Store * Automaton) : Prop :=
  untouched σ0 p.1
  ∧ (∀ s, s ∈ states p.2 → length (sts σ0) ≤ s)
  ∧ ∀ s, length (sts σ0) ≤ s → marked (st p.1 s) = false.

Lemma apart_new σ name symbols : apart σ (σ, Automaton.new name symbols).
Proof.
  split_and!; [reflexivity|by intros s ?%elem_of_nil|].
  intros s Hs. by rewrite st_invalid.
Qed.

Lemma apart_addState σ0 name start final tag forceNew p :
  apart σ0 p → apart σ0 (Automaton.addState name start final tag forceNew p).1.
Proof.
  destruct p as [σ a]. intros ((L & E & S & D) & Hfresh & Hum). cbn [fst snd] in *.
  destruct (addState_cases name start final tag forceNew σ a) as [name' ->].
  destruct (stateNameMap a !! name') as [s|] eqn:Hn; [done|].
  split_and!; cbn [fst snd states set_stateNameMap set_states].
  - split_and!; cbn [sts eds]; try done.
    + rewrite length_app. lia.
    + intros s Hs. rewrite st_alloc by lia. by apply S.
  - intros s [?%Hfresh| ->]%elem_of_JsSet_add; lia.
  - intros s Hs. destruct (decide (s < length (sts σ))) as [Hlt|Hge].
    + rewrite st_alloc by done. by apply Hum.
    + destruct (decide (s = length (sts σ))) as [->|Hne].
      * by rewrite st_alloc_new.
      * rewrite st_invalid; [done|]. cbn [sts]. rewrite length_app. simpl. lia.
Qed.

Lemma apart_addEdge σ0 from to c p q e :
  apart σ0 p → coherent p.1 p.2 → ownRef p.2 from → ownRef p.2 to →
  Automaton.addEdge from to c p = (q, Ok e) → apart σ0 q.
Proof.
  destruct p as [σ a]. intros ((L & E & S & D) & Hfresh & Hum) Hco Hfrom Hto Hrun.
  cbn [fst snd] in *.
  apply addEdge_Ok_inv in Hrun
    as (f & t & Hf & Ht & [[_ ->]|(Hfind & _ & dm & Hc & ->)]); [done|].
  assert (f ∈ states a) as Hfs by (by apply (coherent_getState (σ, a) from)).
  assert (t ∈ states a) as Hts by (by apply (coherent_getState (σ, a) to)).
  apply Hfresh in Hfs, Hts.
  split_and!; unfold edgeAdded; cbn [fst snd states set_deltaMap set_edges]; [|done|].
  - split_and!.
    + by rewrite length_linkEdge.
    + unfold linkEdge, updState. cbn [eds]. rewrite length_app. lia.
    + intros s Hs. rewrite <- (S s Hs). unfold linkEdge.
      rewrite !st_updState. rewrite !decide_False; [done| |]; intros [-> _]; lia.
    + intros e' He'. rewrite ed_linkEdge_old by lia. by apply D.
  - intros s Hs. rewrite st_linkEdge. simpl. by apply Hum.
Qed.

(** ** Automata built from the description of a graph *)

Lemma step_ext a b x c y : deltaMap a = deltaMap b → step a x c y ↔ step b x c y.
Proof. intros H. unfold step. by rewrite H. Qed.

Section mirror.
Context {X : Type}.
Variable key : X → string.
Variables start final : X → bool.

(** A path through a list of labelled edges. *)
Inductive path (E : list (X * ascii * X)) : X → list ascii → X → Prop :=
| path_nil u : path E u [] u
| path_cons u c v w z : (u, c, v) ∈ E → path E v w z → path E u (c :: w) z.

(** The automaton of [p] has one state for every vertex in [V], indexed
    under the key of the vertex and with its flags, and one transition for
    every edge in [E]. *)
Record mirrors (V : list X) (E : list (X * ascii * X)) (p : Store * Automaton)
    : Prop := mkMirrors {
  mi_coherent : coherent p.1 p.2;
  mi_keyinj : ∀ u v, u ∈ V → v ∈ V → key u = key v → u = v;
  mi_mapinj : ∀ k k' s,
    stateNameMap p.2 !! k = Some s → stateNameMap p.2 !! k' = Some s → k = k';
  mi_keys : ∀ k, is_Some (stateNameMap p.2 !! k) ↔ ∃ v, v ∈ V ∧ key v = k;
  mi_states : ∀ s, s ∈ states p.2 → ∃ v, v ∈ V ∧ stateNameMap p.2 !! key v = Some s;
  mi_flags : ∀ v s, v ∈ V → stateNameMap p.2 !! key v = Some s →
    sstart (st p.1 s) = start v ∧ sfinal (st p.1 s) = final v;
  mi_ends : ∀ u c v, (u, c, v) ∈ E → u ∈ V ∧ v ∈ V;
  mi_step : ∀ x c y,
    step p.2 x c y
    ↔ ∃ u v, (u, c, v) ∈ E ∧ stateNameMap p.2 !! key u = Some x
             ∧ stateNameMap p.2 !! key v = Some y
}.

Lemma mirrors_new σ name symbols : mirrors [] [] (σ, Automaton.new name symbols).
Proof.
  split; cbn [fst snd].
  - apply coherent_new.
  - by intros u v ?%elem_of_nil.
  - intros k k' s. simpl. by rewrite lookup_empty.
  - intros k. simpl. rewrite lookup_empty. split; [by intros [? [=]]|].
    by intros (v & ?%elem_of_nil & _).
  - by intros s ?%elem_of_nil.
  - by intros v s ?%elem_of_nil.
  - by intros u c v ?%elem_of_nil.
  - intros x c y. split; [by intros ?%step_new|]. by intros (u & v & ?%elem_of_nil & _).
Qed.

(** [addState] for a vertex whose key is new. *)
Lemma mirrors_addState V E p v tag :
  mirrors V E p → (∀ u, u ∈ V → key u ≠ key v) →
  ∃ q s, Automaton.addState (key v) (start v) (final v) tag false p = (q, Ok s)
       ∧ mirrors (V ++ [v]) E q
       ∧ storeExt p.1 q.1 ∧ alphabet q.2 = alphabet p.2
       ∧ length (states q.2) = S (length (states p.2))
       ∧ stateNameMap q.2 !! key v = Some s.
Proof.
  destruct p as [σ a]. intros [Hco Hki Hmi Hkeys Hst Hfl Hends Hstep] Hnew.
  cbn [fst snd] in *.
  assert (stateNameMap a !! key v = None) as Hn.
  { destruct (stateNameMap a !! key v) as [s|] eqn:Hs; [|done].
    destruct (proj1 (Hkeys (key v))) as (u & Hu & Heq); [eauto|]. by destruct (Hnew u Hu). }
  pose proof (coherent_addState (key v) (start v) (final v) tag false σ a Hco) as Hco'.
  rewrite addState_eq, Hn in Hco' |- *. cbn [fst snd] in Hco'.
  set (s0 := length (sts σ)) in *.
  assert (∀ k s, stateNameMap a !! k = Some s → s < s0) as Hvalid.
  { intros k s Hk. apply (co_states _ _ Hco). by apply (co_map _ _ Hco) in Hk. }
  assert (s0 ∉ states a) as Hfresh.
  { intros Hin%(co_states _ _ Hco). unfold s0 in Hin. lia. }
  eexists _, _. split; [done|]. cbn [fst snd]. split_and!.
  - split; cbn [fst snd stateNameMap states deltaMap set_stateNameMap set_states].
    + done.
    + intros u w [Hu| ->%list_elem_of_singleton]%elem_of_app
               [Hw| ->%list_elem_of_singleton]%elem_of_app Heq; try done.
      * by apply Hki.
      * by destruct (Hnew u Hu).
      * by destruct (Hnew w Hw).
    + intros k k' s. destruct (decide (k = key v)) as [->|Hk];
        destruct (decide (k' = key v)) as [->|Hk'];
        rewrite ?lookup_insert_eq, ?lookup_insert_ne by done; try done.
      * intros [= <-] Hs%Hvalid. lia.
      * intros Hs%Hvalid [= <-]. lia.
      * apply Hmi.
    + intros k. destruct (decide (k = key v)) as [->|Hk].
      * rewrite lookup_insert_eq. split; [|eauto]. intros _. exists v.
        split; [|done]. apply elem_of_app. right. left.
      * rewrite lookup_insert_ne, Hkeys by done. split.
        -- intros (u & Hu & Heq). exists u. split; [|done]. apply elem_of_app. by left.
        -- intros (u & [Hu| ->%list_elem_of_singleton]%elem_of_app & Heq); [eauto|done].
    + intros s [Hs| ->]%elem_of_JsSet_add.
      * destruct (Hst s Hs) as (u & Hu & Hk). exists u.
        split; [apply elem_of_app; by left|].
        rewrite lookup_insert_ne; [done|]. intros Heq. by destruct (Hnew u Hu).
      * exists v. split; [apply elem_of_app; right; left|]. by rewrite lookup_insert_eq.
    + intros u s [Hu| ->%list_elem_of_singleton]%elem_of_app.
      * rewrite lookup_insert_ne by (intros Heq; by destruct (Hnew u Hu)).
        intros Hk. rewrite st_alloc by (by eapply Hvalid). by apply Hfl.
      * rewrite lookup_insert_eq. intros [= <-]. unfold s0. by rewrite st_alloc_new.
    + intros u c w [Hu Hw]%Hends. rewrite !elem_of_app. auto.
    + intros x c y. rewrite (step_ext _ a) by done. rewrite Hstep. split.
      * intros (u & w & HE & Hu & Hw). exists u, w.
        destruct (Hends u c w HE) as [HuV HwV].
        rewrite !lookup_insert_ne; [done| |]; intros Heq.
        -- by destruct (Hnew w HwV).
        -- by destruct (Hnew u HuV).
      * intros (u & w & HE & Hu & Hw). exists u, w.
        destruct (Hends u c w HE) as [HuV HwV].
        rewrite !lookup_insert_ne in Hu, Hw; [done| |]; intros Heq.
        -- by destruct (Hnew w HwV).
        -- by destruct (Hnew u HuV).
  - apply storeExt_alloc.
  - done.
  - cbn [states set_stateNameMap set_states]. unfold JsSet.add.
    rewrite decide_False by done. rewrite length_app. simpl. lia.
  - cbn [stateNameMap set_stateNameMap]. by rewrite lookup_insert_eq.
Qed.

(** [addEdge] between two vertices, addressed by their keys or by the
    states that stand for them. *)
Lemma mirrors_addEdge_ref V E p from to u v c :
  mirrors V E p → u ∈ V → v ∈ V → c ∈ alphabet p.2 →
  Automaton.getState p.2 from = stateNameMap p.2 !! key u →
  Automaton.getState p.2 to = stateNameMap p.2 !! key v →
  ∃ q e, Automaton.addEdge from to c p = (q, Ok e)
       ∧ mirrors V (E ++ [(u, c, v)]) q
       ∧ storeExt p.1 q.1 ∧ alphabet q.2 = alphabet p.2
       ∧ states q.2 = states p.2 ∧ stateNameMap q.2 = stateNameMap p.2.
Proof.
  destruct p as [σ a].
  intros [Hco Hki Hmi Hkeys Hst Hfl Hends Hstep] Hu Hv Hc Hfrom Hto.
  cbn [fst snd] in *.
  destruct (proj2 (Hkeys (key u))) as [x Hx]; [eauto|].
  destruct (proj2 (Hkeys (key v))) as [y Hy]; [eauto|].
  rewrite Hx in Hfrom. rewrite Hy in Hto.
  destruct (proj2 (co_alpha _ _ Hco c) Hc) as [dm Hdm].
  assert (x ∈ states a) as Hxs by (by eapply (co_map _ _ Hco)).
  assert (y ∈ states a) as Hys by (by eapply (co_map _ _ Hco)).
  rewrite (addEdge_eq from to c σ a x y dm Hfrom Hto Hdm).
  assert (∀ u' v', u' ∈ V → v' ∈ V →
            stateNameMap a !! key u' = Some x → stateNameMap a !! key v' = Some y →
            u' = u ∧ v' = v) as Hsame.
  { intros u' v' Hu' Hv' Hx' Hy'. split; apply Hki; try done; eapply Hmi; done. }
  destruct (Automaton.findEdge σ x (Some y) c) as [e|] eqn:Hfind.
  - eexists _, _. split; [done|]. cbn [fst snd]. split_and!; try done.
    assert ((u, c, v) ∈ E) as HE.
    { apply findEdge_Some in Hfind as (Hout & Hsym & Hsnk).
      apply (co_out _ _ Hco x e Hxs) in Hout as [He Hsrc].
      destruct (proj1 (Hstep x c y)) as (u' & v' & HE & Hx' & Hy').
      { apply (co_delta _ _ Hco). by exists e. }
      destruct (Hends _ _ _ HE) as [Hu' Hv'].
      destruct (Hsame u' v') as [-> ->]; done. }
    split; cbn [fst snd]; try done.
    + intros u' c' v'. rewrite elem_of_app, list_elem_of_singleton.
      intros [?%Hends|[= -> -> ->]]; done.
    + intros x' c' y'. rewrite Hstep. split.
      * intros (u' & v' & HE' & ?). exists u', v'. rewrite elem_of_app. auto.
      * intros (u' & v' & [HE'|[= -> -> ->]%list_elem_of_singleton]%elem_of_app & ?);
          eauto.
  - eexists _, _. split; [done|].
    change (linkEdge σ x y c, _) with (edgeAdded σ a x y c dm).
    split_and!; [|apply storeExt_linkEdge|done|done|done].
    destruct (storeExt_linkEdge σ x y c) as [Hse _].
    split; try done.
    + by apply coherent_edgeAdded.
    + intros v' s Hv' Hk. cbn [fst snd edgeAdded] in *.
      assert (s < length (sts σ)) as Hs.
      { apply (co_states _ _ Hco). by eapply (co_map _ _ Hco). }
      rewrite (se_start _ _ Hse), (se_final _ _ Hse) by done. by apply Hfl.
    + intros u' c' v'. rewrite elem_of_app, list_elem_of_singleton.
      intros [?%Hends|[= -> -> ->]]; done.
    + intros x' c' y'. rewrite (step_edgeAdded σ a x y c dm x' c' y' Hdm), Hstep.
      cbn [snd edgeAdded stateNameMap set_deltaMap set_edges]. split.
      * intros [(u' & v' & HE' & ?)|(-> & -> & ->)].
        -- exists u', v'. rewrite elem_of_app. auto.
        -- exists u, v. rewrite elem_of_app, list_elem_of_singleton. auto.
      * intros (u' & v' & [HE'|[= -> -> ->]%list_elem_of_singleton]%elem_of_app
                & Hx' & Hy').
        -- left. eauto.
        -- right. split_and!; congruence.
Qed.

Lemma mirrors_addEdge V E p u v c :
  mirrors V E p → u ∈ V → v ∈ V → c ∈ alphabet p.2 →
  ∃ q e, Automaton.addEdge (ByName (key u)) (ByName (key v)) c p = (q, Ok e)
       ∧ mirrors V (E ++ [(u, c, v)]) q
       ∧ storeExt p.1 q.1 ∧ alphabet q.2 = alphabet p.2
       ∧ states q.2 = states p.2.
Proof.
  intros Hmi Hu Hv Hc.
  destruct (mirrors_addEdge_ref V E p (ByName (key u)) (ByName (key v)) u v c)
    as (q & e & ? & ? & ? & ? & ? & ?); try done.
  by exists q, e.
Qed.

(** The runs of a mirrored graph are its paths. *)
Lemma mirrors_run V E p u x w y :
  mirrors V E p → u ∈ V → stateNameMap p.2 !! key u = Some x →
  run p.2 x w y
  ↔ ∃ v, v ∈ V ∧ stateNameMap p.2 !! key v = Some y ∧ path E u w v.
Proof.
  intros [Hco Hki Hmi Hkeys Hst Hfl Hends Hstep] Hu Hx. split.
  - intros Hrun. revert u Hu Hx.
    induction Hrun as [s|s c s' w t Hsc Hrun IH]; intros u Hu Hk.
    + exists u. split_and!; try done. constructor.
    + apply Hstep in Hsc as (u' & v' & HE & Hx & Hy).
      destruct (Hends _ _ _ HE) as [Hu' Hv'].
      assert (u' = u) as -> by (apply Hki; try done; by eapply Hmi).
      destruct (IH v' Hv' Hy) as (v & Hv & Hkv & Hp).
      exists v. split_and!; try done. by econstructor.
  - intros (v & Hv & Hy & Hp). revert x Hx.
    induction Hp as [u|u c u' w v HE Hp IH]; intros x Hx.
    + assert (x = y) as -> by congruence. constructor.
    + destruct (Hends _ _ _ HE) as [Hu1 Hu'].
      destruct (proj2 (Hkeys (key u'))) as [s' Hs']; [eauto|].
      econstructor; [|by apply IH]. apply Hstep. by exists u, u'.
Qed.

(** The language of a mirrored graph. *)
Lemma mirrors_accepts V E τ b word :
  mirrors V E (τ, b) →
  Automaton.accepts τ b word = true
  ↔ ∃ u v, u ∈ V ∧ v ∈ V ∧ start u = true ∧ final v = true
           ∧ path E u (String.list_ascii_of_string word) v.
Proof.
  intros [Hco Hki Hmi Hkeys Hst Hfl Hends Hstep]. cbn [fst snd] in *.
  rewrite accepts_iff. generalize (String.list_ascii_of_string word). intros w. split.
  - intros (s & t & Hs & Hstart & Hrun & Hfinal).
    destruct (Hst s Hs) as (u & Hu & Hk).
    assert (∃ v, v ∈ V ∧ stateNameMap b !! key v = Some t ∧ path E u w v)
      as (v & Hv & Hkv & Hp).
    { clear Hstart Hs. revert u Hu Hk.
      induction Hrun as [s|s c s' w t Hsc Hrun IH]; intros u Hu Hk.
      - exists u. split_and!; try done. constructor.
      - apply Hstep in Hsc as (u' & v' & HE & Hx & Hy).
        destruct (Hends _ _ _ HE) as [Hu' Hv'].
        assert (u' = u) as -> by (apply Hki; try done; by eapply Hmi).
        destruct (IH Hfinal v' Hv' Hy) as (v & Hv & Hkv & Hp).
        exists v. split_and!; try done. by econstructor. }
    exists u, v. split_and!; try done.
    + destruct (Hfl u s Hu Hk) as [<- _]. done.
    + destruct (Hfl v t Hv Hkv) as [_ <-]. done.
  - intros (u & v & Hu & Hv & Hstart & Hfinal & Hp).
    destruct (proj2 (Hkeys (key u))) as [s Hs]; [eauto|].
    destruct (proj2 (Hkeys (key v))) as [t Ht]; [eauto|].
    exists s, t. split_and!.
    + by eapply (co_map _ _ Hco).
    + destruct (Hfl u s Hu Hs) as [-> _]. done.
    + clear Hstart Hu. revert s Hs.
      induction Hp as [u|u c u' w v HE Hp IH]; intros s Hs.
      * assert (s = t) as -> by congruence. constructor.
      * destruct (Hends _ _ _ HE) as [Hu Hu'].
        destruct (proj2 (Hkeys (key u'))) as [s' Hs']; [eauto|].
        econstructor; [|by apply IH]. apply Hstep. by exists u, u'.
    + destruct (Hfl v t Hv Ht) as [_ ->]. done.
Qed.

End mirror.

(** ** [copy] and [reverse] *)

(** The states of the automaton have pairwise distinct names. *)
Definition namesDistinct (σ : Store) (a : Automaton) : Prop :=
  ∀ s t, s ∈ states a → t ∈ states a → sname (st σ s) = sname (st σ t) → s = t.

(** The edge [e] as a labelled pair of states, reversed when [rev] holds. *)
Definition triple (rev : bool) (σ : Store) (e : EdgeId) : StateId * ascii * StateId :=
  if rev then (sink (ed σ e), symbol (ed σ e), source (ed σ e))
  else (source (ed σ e), symbol (ed σ e), sink (ed σ e)).

(** The two loops of [copy] ([rev = false]) and of [reverse] ([rev = true]). *)
Definition copyLoops (rev : bool) (a : Automaton) : MA unit :=
  forEach (states a) (λ s,
    let* σ := getStore in
    Automaton.addState (sname (st σ s))
      (if rev then sfinal (st σ s) else sstart (st σ s))
      (if rev then sstart (st σ s) else sfinal (st σ s)) (stag (st σ s)) false ;;
    ret tt) ;;
  forEach (edges a) (λ e,
    let* σ := getStore in
    Automaton.addEdge
      (ByName (sname (st σ (if rev then sink (ed σ e) else source (ed σ e)))))
      (ByName (sname (st σ (if rev then source (ed σ e) else sink (ed σ e)))))
      (symbol (ed σ e)) ;;
    ret tt).

Lemma copy_copyLoops a :
  Automaton.copy a
  = let* r := on (Automaton.new ("copy of " +:+ aname a)
                    (String.string_of_list_ascii (alphabet a))) (copyLoops false a) in
    ret r.1.
Proof. reflexivity. Qed.

Lemma reverse_copyLoops a :
  Automaton.reverse a
  = let* r := on (Automaton.new ("reverse of " +:+ aname a)
                    (String.string_of_list_ascii (alphabet a))) (copyLoops true a) in
    ret r.1.
Proof. reflexivity. Qed.

(** The name and the flags that the copy of a state receives. *)
Definition keyOf (σ : Store) (s : StateId) : string := sname (st σ s).
Definition startOf (rev : bool) (σ : Store) (s : StateId) : bool :=
  if rev then sfinal (st σ s) else sstart (st σ s).
Definition finalOf (rev : bool) (σ : Store) (s : StateId) : bool :=
  if rev then sstart (st σ s) else sfinal (st σ s).

(** The target while the states and edges [V], [E] have been copied. *)
Definition copied (rev : bool) (σ : Store) (a : Automaton)
    (V : list StateId) (E : list EdgeId) (p : Store * Automaton) : Prop :=
  mirrors (keyOf σ) (startOf rev σ) (finalOf rev σ) V (triple rev σ <$> E) p
  ∧ apart σ p ∧ alphabet p.2 = alphabet a
  ∧ length (states p.2) = length V.

Section copyLoops.
Variable rev : bool.
Variable σ : Store.
Variable a : Automaton.
Hypothesis Hco : coherent σ a.
Hypothesis Hnames : namesDistinct σ a.

Lemma copyLoops_copied name :
  ∃ q, copyLoops rev a (σ, Automaton.new name (String.string_of_list_ascii (alphabet a)))
       = (q, Ok tt)
     ∧ copied rev σ a (states a) (edges a) q.
Proof.
  unfold copyLoops.
  set (loop1 := forEach (states a) _). set (loop2 := forEach (edges a) _).
  assert (hoare (copied rev σ a [] []) (loop1 ;; loop2)
            (λ _, copied rev σ a (states a) (edges a)))
    as Hloops.
  { eapply hoare_bind; [|intros []].
    - apply (hoare_forEach (λ done, copied rev σ a done [])).
      intros done s rest Hsplit [σc ac] (Hmi & Hap & Hal & Hlen).
      assert (s ∈ states a) as Hs by (rewrite Hsplit, elem_of_app; right; left).
      assert (s < length (sts σ)) as Hv by (by apply (co_states _ _ Hco)).
      destruct (untouched_storeExt σ σc (proj1 Hap)) as [Hse Hmk]. cbn [fst snd] in *.
      unfold bind at 1, getStore, gets. cbn [fst snd].
      rewrite (se_name _ _ Hse), (se_start _ _ Hse), (se_final _ _ Hse),
        (se_tag _ _ Hse) by done.
      destruct (mirrors_addState (keyOf σ) (startOf rev σ) (finalOf rev σ) done []
                  (σc, ac) s (stag (st σ s)) Hmi)
        as (q & s' & Hrun & Hq & Hext' & Hal' & Hlen' & _).
      { intros u Hu Heq.
        assert (u ∈ states a) as Hu' by (rewrite Hsplit, elem_of_app; by left).
        assert (u = s) as -> by (by apply Hnames).
        pose proof (co_nodup _ _ Hco) as Hnd. rewrite Hsplit in Hnd.
        apply NoDup_app in Hnd as (_ & Hdisj & _). apply (Hdisj s Hu). left. }
      pose proof (apart_addState σ (keyOf σ s) (startOf rev σ s) (finalOf rev σ s)
                    (stag (st σ s)) false (σc, ac) Hap) as Hap'.
      rewrite Hrun in Hap'.
      unfold bind. unfold keyOf, startOf, finalOf in Hrun. rewrite Hrun.
      eexists _, _. split; [done|]. split_and!; try done.
      + by rewrite Hal'.
      + rewrite Hlen', length_app. simpl. cbn [fst snd] in *. lia.
    - apply (hoare_forEach (λ done, copied rev σ a (states a) done)).
      intros done e rest Hsplit [σc ac] (Hmi & Hap & Hal & Hlen).
      assert (e ∈ edges a) as He by (rewrite Hsplit, elem_of_app; right; left).
      destruct (co_edges _ _ Hco e He) as (Hev & Hsrc & Hsnk & Hsym).
      destruct (untouched_storeExt σ σc (proj1 Hap)) as [Hse Hmk]. cbn [fst snd] in *.
      unfold bind at 1, getStore, gets. cbn [fst snd].
      rewrite (se_ed _ _ Hse) by done.
      assert (∀ s, s ∈ states a → sname (st σc s) = keyOf σ s) as Hkey.
      { intros s Hs. apply (se_name _ _ Hse). by apply (co_states _ _ Hco). }
      rewrite !Hkey by (by destruct rev).
      destruct (mirrors_addEdge (keyOf σ) (startOf rev σ) (finalOf rev σ) (states a)
                  (triple rev σ <$> done)
                  (σc, ac)
                  (if rev then sink (ed σ e) else source (ed σ e))
                  (if rev then source (ed σ e) else sink (ed σ e))
                  (symbol (ed σ e)) Hmi)
        as (q & e' & Hrun & Hq & Hext' & Hal' & Hst'); try (by destruct rev).
      { cbn [snd]. by rewrite Hal. }
      assert (apart σ q) as Hap'.
      { eapply (apart_addEdge σ _ _ _ (σc, ac) q e' Hap); [apply Hmi| | |exact Hrun];
          exact I. }
      unfold bind. rewrite Hrun. eexists _, _. split; [done|].
      split_and!.
      + rewrite fmap_app. simpl. unfold triple at 2. by destruct rev.
      + done.
      + by rewrite Hal'.
      + by rewrite Hst'. }
  destruct (Hloops (σ, Automaton.new name (String.string_of_list_ascii (alphabet a))))
    as (q & [] & Hrun & Hq).
  { split_and!; cbn [fst snd].
    - apply mirrors_new.
    - apply apart_new.
    - apply alphabet_new.
    - done. }
  by exists q.
Qed.

End copyLoops.

Lemma path_ext {X} (E E' : list (X * ascii * X)) u w v :
  (∀ x, x ∈ E → x ∈ E') → path E u w v → path E' u w v.
Proof. intros H. induction 1; econstructor; eauto. Qed.

Lemma path_app {X} (E : list (X * ascii * X)) u w1 v w2 z :
  path E u w1 v → path E v w2 z → path E u (w1 ++ w2) z.
Proof. induction 1; intros H2; [done|]. simpl. econstructor; eauto. Qed.

Lemma path_reverse {X} (E E' : list (X * ascii * X)) u w v :
  (∀ x c y, (x, c, y) ∈ E → (y, c, x) ∈ E') →
  path E u w v → path E' v (rev w) u.
Proof.
  intros H. induction 1 as [u|u c u' w v HE Hp IH]; [constructor|].
  simpl. eapply path_app; [exact IH|]. econstructor; [by apply H|constructor].
Qed.

Lemma elem_of_triples rev σ (E : list EdgeId) x c y :
  (x, c, y) ∈ triple rev σ <$> E
  ↔ ∃ e, e ∈ E ∧ symbol (ed σ e) = c
         ∧ (if rev then sink (ed σ e) = x ∧ source (ed σ e) = y
            else source (ed σ e) = x ∧ sink (ed σ e) = y).
Proof.
  rewrite list_elem_of_fmap. unfold triple. split.
  - intros (e & Heq & He). exists e. destruct rev; injection Heq as -> -> ->; done.
  - intros (e & He & <- & Hxy). exists e. split; [|done].
    destruct rev; destruct Hxy as [<- <-]; done.
Qed.

Lemma run_path σ a s w t :
  coherent σ a → run a s w t ↔ path (triple false σ <$> edges a) s w t.
Proof.
  intros Hco.
  assert (∀ x c y, step a x c y ↔ (x, c, y) ∈ triple false σ <$> edges a) as Hstep.
  { intros x c y. rewrite (co_delta _ _ Hco), elem_of_triples. split.
    - intros (e & He & H1 & H2 & H3). by exists e.
    - intros (e & He & H3 & H1 & H2). by exists e. }
  split; induction 1; econstructor; eauto; by apply Hstep.
Qed.

Lemma accepts_ext σ τ a word :
  (∀ s, s ∈ states a → sstart (st τ s) = sstart (st σ s)) →
  (∀ s, s ∈ states a → sfinal (st τ s) = sfinal (st σ s)) →
  (∀ s c t, step a s c t → t ∈ states a) →
  Automaton.accepts τ a word = Automaton.accepts σ a word.
Proof.
  intros Hs Hf Hcl. apply eq_true_iff_eq. rewrite !accepts_iff.
  assert (∀ s w t, s ∈ states a → run a s w t → t ∈ states a) as Hrun.
  { intros s w t Hin Hr. induction Hr; eauto. }
  split; intros (s & t & Hin & Hst & Hr & Hfin); exists s, t; split_and!; try done.
  - by rewrite <- Hs.
  - rewrite <- Hf; [done|]. by eapply Hrun.
  - by rewrite Hs.
  - rewrite Hf; [done|]. by eapply Hrun.
Qed.

Lemma coherent_step_states σ a s c t : coherent σ a → step a s c t → t ∈ states a.
Proof.
  intros Hco (e & He & _ & <- & _)%(co_delta _ _ Hco).
  by destruct (co_edges _ _ Hco e He) as (_ & _ & ? & _).
Qed.

Lemma coherent_storeExt_accepts σ τ a word :
  coherent σ a → storeExt σ τ →
  Automaton.accepts τ a word = Automaton.accepts σ a word.
Proof.
  intros Hco [Hse _]. apply accepts_ext.
  - intros s Hs. apply (se_start _ _ Hse). by apply (co_states _ _ Hco).
  - intros s Hs. apply (se_final _ _ Hse). by apply (co_states _ _ Hco).
  - intros s c t. by apply (coherent_step_states σ).
Qed.

Lemma copyLoops_language rev σ a name :
  coherent σ a → namesDistinct σ a →
  ∃ τ b, (let* r := on (Automaton.new name (String.string_of_list_ascii (alphabet a)))
                       (copyLoops rev a) in ret r.1) σ = (τ, Ok b)
    ∧ untouched σ τ ∧ coherent τ b ∧ alphabet b = alphabet a
    ∧ length (states b) = length (states a)
    ∧ ∀ word,
        Automaton.accepts τ b word = true
        ↔ ∃ u v, u ∈ states a ∧ v ∈ states a
                 ∧ startOf rev σ u = true ∧ finalOf rev σ v = true
                 ∧ path (triple rev σ <$> edges a) u (String.list_ascii_of_string word) v.
Proof.
  intros Hco Hnames.
  destruct (copyLoops_copied rev σ a Hco Hnames name)
    as ([τ b] & Hrun & Hmi & Hap & Hal & Hlen).
  exists τ, b. split.
  { unfold bind at 1. unfold on. rewrite Hrun. done. }
  cbn [fst snd] in *. split_and!; try done.
  - apply Hap.
  - apply Hmi.
  - intros word. by apply (mirrors_accepts _ _ _ _ _ τ b word) in Hmi.
Qed.

Lemma accepts_path σ a word :
  coherent σ a →
  Automaton.accepts σ a word = true
  ↔ ∃ u v, u ∈ states a ∧ v ∈ states a
           ∧ sstart (st σ u) = true ∧ sfinal (st σ v) = true
           ∧ path (triple false σ <$> edges a) u (String.list_ascii_of_string word) v.
Proof.
  intros Hco. rewrite accepts_iff. split.
  - intros (s & t & Hs & Hst & Hr & Hf). exists s, t. split_and!; try done.
    + clear Hst Hf. induction Hr; [done|]. apply IHHr.
      by eapply (coherent_step_states σ).
    + by apply (run_path σ a).
  - intros (s & t & Hs & Ht & Hst & Hf & Hp). exists s, t. split_and!; try done.
    by apply (run_path σ a).
Qed.

(** X18: [copy ()] of a coherent automaton whose states have distinct names
    completes and returns a coherent automaton with as many states, the same
    alphabet and the same language; the states and edges that existed before
    are untouched, so the original is still coherent and accepts what it
    accepted. *)
Theorem copy_language σ a :
  coherent σ a → namesDistinct σ a →
  ∃ τ ac, Automaton.copy a σ = (τ, Ok ac)
    ∧ untouched σ τ ∧ coherent τ a ∧ coherent τ ac ∧ alphabet ac = alphabet a
    ∧ length (states ac) = length (states a)
    ∧ ∀ word,
        Automaton.accepts τ ac word = Automaton.accepts σ a word
        ∧ Automaton.accepts τ a word = Automaton.accepts σ a word.
Proof.
  intros Hco Hnames. rewrite copy_copyLoops.
  destruct (copyLoops_language false σ a ("copy of " +:+ aname a) Hco Hnames)
    as (τ & b & Hrun & Hext & Hcb & Hal & Hlen & Hacc).
  exists τ, b. split_and!; try done; [by eapply coherent_untouched|].
  intros word. split.
  - apply eq_true_iff_eq. rewrite Hacc. by rewrite (accepts_path σ a word Hco).
  - by apply coherent_storeExt_accepts, untouched_storeExt.
Qed.

(** The word read backwards. *)
Definition reverseWord (w : string) : string :=
  String.string_of_list_ascii (rev (String.list_ascii_of_string w)).

(** X19: [reverse ()] of a coherent automaton whose states have distinct
    names completes and returns a coherent automaton that accepts exactly
    the reversals of the words of the original; the states and edges that
    existed before are untouched, so the original is still coherent and
    accepts what it accepted. *)
Theorem reverse_language σ a :
  coherent σ a → namesDistinct σ a →
  ∃ τ ar, Automaton.reverse a σ = (τ, Ok ar)
    ∧ untouched σ τ ∧ coherent τ a ∧ coherent τ ar ∧ alphabet ar = alphabet a
    ∧ length (states ar) = length (states a)
    ∧ ∀ word,
        Automaton.accepts τ ar word = Automaton.accepts σ a (reverseWord word)
        ∧ Automaton.accepts τ a word = Automaton.accepts σ a word.
Proof.
  intros Hco Hnames. rewrite reverse_copyLoops.
  destruct (copyLoops_language true σ a ("reverse of " +:+ aname a) Hco Hnames)
    as (τ & b & Hrun & Hext & Hcb & Hal & Hlen & Hacc).
  exists τ, b. split_and!; try done; [by eapply coherent_untouched|].
  intros word. split.
  - apply eq_true_iff_eq. rewrite Hacc. rewrite (accepts_path σ a _ Hco).
    unfold reverseWord. rewrite String.list_ascii_of_string_of_list_ascii.
    unfold startOf, finalOf. split.
    + intros (u & v & Hu & Hv & Hst & Hf & Hp). exists v, u. split_and!; try done.
      eapply path_reverse; [|exact Hp].
      intros x c y. rewrite !elem_of_triples.
      intros (e & He & Hc & Hx & Hy). by exists e.
    + intros (u & v & Hu & Hv & Hst & Hf & Hp). exists v, u. split_and!; try done.
      rewrite <- (rev_involutive (String.list_ascii_of_string word)).
      eapply path_reverse; [|exact Hp].
      intros x c y. rewrite !elem_of_triples.
      intros (e & He & Hc & Hx & Hy). by exists e.
  - by apply coherent_storeExt_accepts, untouched_storeExt.
Qed.

(** A check of [namesDistinct] for concrete automata. *)
Lemma namesDistinct_NoDup σ a :
  NoDup ((λ s, sname (st σ s)) <$> states a) → namesDistinct σ a.
Proof.
  intros Hnd s t Hs Ht Heq.
  apply list_elem_of_lookup in Hs as [i Hi]. apply list_elem_of_lookup in Ht as [j Hj].
  assert (i = j) as ->; [|congruence].
  eapply (NoDup_lookup _ i j (sname (st σ s))); [exact Hnd| |].
  - by rewrite list_lookup_fmap, Hi.
  - by rewrite list_lookup_fmap, Hj, Heq.
Qed.

(** A check of [calls] for concrete sequences of calls. *)
Definition ownCall_check (p : Store * Automaton) (op : Op) : bool :=
  match op with
  | OpAddState _ _ _ _ _ => true
  | OpAddEdge from to _ =>
      match from with ByName _ => true | ByObj s => bool_decide (s ∈ states p.2) end
      && match to with ByName _ => true | ByObj s => bool_decide (s ∈ states p.2) end
  | OpRenameState s _ => bool_decide (s ∈ states p.2)
  | OpDeleteEdge e => bool_decide (e ∈ edges p.2)
  | OpDeleteState _ => false
  end.

Fixpoint calls_check (ops : list Op) (p : Store * Automaton) : bool :=
  match ops with
  | [] => true
  | op :: ops' =>
      ownCall_check p op
      && match exec op p with
         | (q, Ok _) => calls_check ops' q
         | _ => false
         end
  end.

Lemma calls_check_ok ops p : calls_check ops p = true → calls ops p.
Proof.
  revert p. induction ops as [|op ops IH]; intros p; [done|].
  simpl. intros [Hown Hrun]%andb_prop.
  destruct (exec op p) as [q [[]| |]] eqn:Hex; try done.
  split_and!; [|by exists q|by apply IH].
  destruct op as [| [?|?] [?|?] ?| | |]; simpl in *; try done.
  all: repeat match goal with
       | H : _ && _ = true |- _ => apply andb_prop in H as [? ?]
       | H : bool_decide _ = true |- _ => apply bool_decide_eq_true in H
       end; done.
Qed.

Lemma endsWithA_coherent :
  coherent endsWithA.1 endsWithA.2 ∧ namesDistinct endsWithA.1 endsWithA.2.
Proof.
  split.
  - apply coherent_execAll; [apply coherent_new|].
    apply calls_check_ok. vm_compute. reflexivity.
  - apply namesDistinct_NoDup. vm_compute. by apply (bool_decide_unpack _).
Qed.

Lemma copy_language_witness :
  ∃ τ ac, Automaton.copy endsWithA.2 endsWithA.1 = (τ, Ok ac)
    ∧ untouched endsWithA.1 τ ∧ coherent τ endsWithA.2 ∧ coherent τ ac
    ∧ alphabet ac = alphabet endsWithA.2
    ∧ length (states ac) = length (states endsWithA.2)
    ∧ ∀ word,
        Automaton.accepts τ ac word = Automaton.accepts endsWithA.1 endsWithA.2 word
        ∧ Automaton.accepts τ endsWithA.2 word
          = Automaton.accepts endsWithA.1 endsWithA.2 word.
Proof.
  apply (copy_language endsWithA.1 endsWithA.2); apply endsWithA_coherent.
Defined.

Lemma reverse_language_witness :
  ∃ τ ar, Automaton.reverse endsWithA.2 endsWithA.1 = (τ, Ok ar)
    ∧ untouched endsWithA.1 τ ∧ coherent τ endsWithA.2 ∧ coherent τ ar
    ∧ alphabet ar = alphabet endsWithA.2
    ∧ length (states ar) = length (states endsWithA.2)
    ∧ ∀ word,
        Automaton.accepts τ ar word
        = Automaton.accepts endsWithA.1 endsWithA.2 (reverseWord word)
        ∧ Automaton.accepts τ endsWithA.2 word
          = Automaton.accepts endsWithA.1 endsWithA.2 word.
Proof.
  apply (reverse_language endsWithA.1 endsWithA.2); apply endsWithA_coherent.
Defined.

(** ** [addEdge], [getEdge] and [deleteEdge] together *)

Lemma findEdge_ext σ τ f t c :
  edgesOut (st τ f) = edgesOut (st σ f) →
  (∀ e, e ∈ edgesOut (st σ f) → ed τ e = ed σ e) →
  Automaton.findEdge τ f t c = Automaton.findEdge σ f t c.
Proof.
  unfold Automaton.findEdge. intros -> Hed.
  induction (edgesOut (st σ f)) as [|e l IH]; [done|]. simpl.
  rewrite (Hed e) by left. rewrite IH; [done|]. intros e' He'. apply Hed. by right.
Qed.

Lemma find_app_None {A} (P : A → bool) l1 l2 :
  List.find P l1 = None → List.find P (l1 ++ l2) = List.find P l2.
Proof.
  induction l1 as [|x l1 IH]; [done|]. simpl. destruct (P x); [done|]. apply IH.
Qed.

Lemma findEdge_edgeAdded σ a f t c dm :
  coherent σ a → f ∈ states a →
  Automaton.findEdge σ f (Some t) c = None →
  Automaton.findEdge (edgeAdded σ a f t c dm).1 f (Some t) c = Some (length (eds σ)).
Proof.
  intros Hco Hf Hnone. unfold Automaton.findEdge, edgeAdded. cbn [fst].
  rewrite edgesOut_linkEdge, decide_True
    by (split; [done|by apply (co_states _ _ Hco)]).
  assert (length (eds σ) ∉ edgesOut (st σ f)) as Hfresh.
  { intros [Hin _]%(co_out _ _ Hco f _ Hf).
    destruct (co_edges _ _ Hco _ Hin) as (? & _). lia. }
  unfold JsSet.add. rewrite decide_False by done.
  rewrite find_app_None.
  - simpl. rewrite ed_linkEdge_new. simpl. by rewrite bool_decide_eq_true_2.
  - unfold Automaton.findEdge in Hnone.
    assert (∀ e, e ∈ edgesOut (st σ f) → ed (linkEdge σ f t c) e = ed σ e) as Hed.
    { intros e [Hin _]%(co_out _ _ Hco f _ Hf). apply ed_linkEdge_old.
      by destruct (co_edges _ _ Hco _ Hin) as (? & _). }
    revert Hnone Hed. generalize (edgesOut (st σ f)). intros l.
    induction l as [|e l IH]; [done|]. simpl. intros Hnone Hed.
    rewrite (Hed e) by left.
    destruct (bool_decide _); [done|]. apply IH; [done|].
    intros e' He'. apply Hed. by right.
Qed.

Lemma getEdge_eq from to c σ a f :
  Automaton.getState a from = Some f →
  Automaton.getEdge from to c (σ, a)
  = ((σ, a), Ok (Automaton.findEdge σ f (Automaton.getState a to) c)).
Proof.
  intros Hf. unfold Automaton.getEdge, bind, getThis, getStore, gets, ret.
  cbn [fst snd]. by rewrite Hf.
Qed.

Lemma JsSet_delete_add {A} `{EqDecision A} (x : A) l :
  x ∉ l → JsSet.delete x (JsSet.add x l) = l.
Proof.
  intros Hx. unfold JsSet.add, JsSet.delete. rewrite decide_False by done.
  rewrite filter_app. simpl. rewrite filter_cons, decide_False by (by intros ?).
  simpl. rewrite app_nil_r.
  induction l as [|y l IH]; [done|]. apply not_elem_of_cons in Hx as [Hy Hl].
  rewrite filter_cons, decide_True by done. f_equal. by apply IH.
Qed.

Lemma edgesOut_edgeDeleted σ a e dm tg s :
  edgesOut (st (edgeDeleted σ a e dm tg).1 s)
  = if decide (s = source (ed σ e) ∧ s < length (sts σ))
    then JsSet.delete e (edgesOut (st σ s)) else edgesOut (st σ s).
Proof.
  unfold edgeDeleted. cbn [fst]. rewrite !st_updState, length_updState.
  destruct (decide (sink (ed σ e) = s ∧ s < length (sts σ))) as [[Heq ?]|Ht];
    destruct (decide (source (ed σ e) = s ∧ s < length (sts σ))) as [[Heq' ?]|Hf];
    simpl.
  - by rewrite decide_True.
  - rewrite decide_False; [done|]. intros [-> ?]. by apply Hf.
  - by rewrite decide_True.
  - rewrite decide_False; [done|]. intros [-> ?]. by apply Hf.
Qed.

Lemma edgesIn_edgeDeleted σ a e dm tg s :
  edgesIn (st (edgeDeleted σ a e dm tg).1 s)
  = if decide (s = sink (ed σ e) ∧ s < length (sts σ))
    then JsSet.delete e (edgesIn (st σ s)) else edgesIn (st σ s).
Proof.
  unfold edgeDeleted. cbn [fst]. rewrite !st_updState, length_updState.
  destruct (decide (sink (ed σ e) = s ∧ s < length (sts σ))) as [[Heq ?]|Ht];
    destruct (decide (source (ed σ e) = s ∧ s < length (sts σ))) as [[Heq' ?]|Hf];
    simpl.
  - by rewrite decide_True.
  - by rewrite decide_True.
  - rewrite decide_False; [done|]. intros [-> ?]. by apply Ht.
  - rewrite decide_False; [done|]. intros [-> ?]. by apply Ht.
Qed.

Lemma addEdge_spec_aux from to c σ a f t :
  coherent σ a → ownRef a from → ownRef a to →
  Automaton.getState a from = Some f → Automaton.getState a to = Some t →
  c ∈ alphabet a →
  ∃ q e, Automaton.addEdge from to c (σ, a) = (q, Ok e)
    ∧ coherent q.1 q.2
    ∧ e ∈ edges q.2
    ∧ source (ed q.1 e) = f ∧ sink (ed q.1 e) = t ∧ symbol (ed q.1 e) = c
    ∧ Automaton.getEdge from to c q = (q, Ok (Some e))
    ∧ Automaton.addEdge from to c q = (q, Ok e)
    ∧ states q.2 = states a ∧ stateNameMap q.2 = stateNameMap a
    ∧ (∀ x d y, step q.2 x d y ↔ step a x d y ∨ (x = f ∧ d = c ∧ y = t))
    ∧ (e ∉ edges a →
       ∃ q', Automaton.deleteEdge e q = (q', Ok tt)
         ∧ coherent q'.1 q'.2
         ∧ edges q'.2 = edges a
         ∧ (∀ s, s ∈ states a →
              edgesOut (st q'.1 s) = edgesOut (st σ s)
              ∧ edgesIn (st q'.1 s) = edgesIn (st σ s))
         ∧ ∀ x d y, step q'.2 x d y ↔ step a x d y).
Proof.
  intros Hco Hfrom Hto Hf Ht Hc.
  assert (f ∈ states a) as Hfs by (by apply (coherent_getState (σ, a) from)).
  assert (t ∈ states a) as Hts by (by apply (coherent_getState (σ, a) to)).
  destruct (proj2 (co_alpha _ _ Hco c) Hc) as [dm Hdm].
  pose proof (addEdge_eq from to c σ a f t dm Hf Ht Hdm) as Hrun.
  destruct (Automaton.findEdge σ f (Some t) c) as [e|] eqn:Hfind.
  - exists (σ, a), e. cbn [fst snd].
    pose proof (findEdge_Some _ _ _ _ _ Hfind) as (Hout & Hsym & Hsnk).
    apply (co_out _ _ Hco f e Hfs) in Hout as [He Hsrc].
    split; [exact Hrun|]. split_and!; try done.
    + by rewrite (getEdge_eq from to c σ a f Hf), Ht, Hfind.
    + intros x d y. split; [auto|]. intros [?|(-> & -> & ->)]; [done|].
      apply (co_delta _ _ Hco). by exists e.
  - set (σq := linkEdge σ f t c). set (e0 := length (eds σ)).
    set (aq := set_deltaMap
                 (<[c := <[f := JsSet.add t (default [] (dm !! f))]> dm]> (deltaMap a))
                 (set_edges (JsSet.add e0 (edges a)) a)).
    change (linkEdge σ f t c, _) with (σq, aq) in Hrun.
    assert (edgeAdded σ a f t c dm = (σq, aq)) as Hqeq by done.
    assert (coherent σq aq) as Hq.
    { pose proof (coherent_edgeAdded σ a f t c dm Hco Hfs Hts Hdm Hfind) as H.
      by rewrite Hqeq in H. }
    assert (Automaton.findEdge σq f (Some t) c = Some e0) as Hfind'.
    { pose proof (findEdge_edgeAdded σ a f t c dm Hco Hfs Hfind) as H.
      by rewrite Hqeq in H. }
    assert (deltaMap aq !! c
            = Some (<[f := JsSet.add t (default [] (dm !! f))]> dm)) as Hdm'.
    { unfold aq. cbn [deltaMap set_deltaMap]. by rewrite lookup_insert_eq. }
    assert (e0 ∉ edges a) as Hfresh.
    { intros (? & _)%(co_edges _ _ Hco). unfold e0 in *. lia. }
    assert (Automaton.getState aq from = Some f) as Hfq by (by destruct from).
    assert (Automaton.getState aq to = Some t) as Htq by (by destruct to).
    assert (ed σq e0 = mkEdge f t c None) as Hed by apply ed_linkEdge_new.
    assert (e0 ∈ edges aq) as He0.
    { unfold aq. cbn [edges set_deltaMap set_edges]. apply elem_of_JsSet_add. by right. }
    assert (∀ x d y, step aq x d y ↔ step a x d y ∨ (x = f ∧ d = c ∧ y = t)) as Hstep.
    { intros x d y. pose proof (step_edgeAdded σ a f t c dm x d y Hdm) as H.
      by rewrite Hqeq in H. }
    exists (σq, aq), e0. split; [exact Hrun|]. cbn [fst snd].
    split_and!; try done; try (by rewrite Hed).
    + by rewrite (getEdge_eq from to c σq aq f Hfq), Htq, Hfind'.
    + by rewrite (addEdge_eq from to c σq aq f t _ Hfq Htq Hdm'), Hfind'.
    + intros _.
      destruct (coherent_deleteEdge_total σq aq e0 Hq He0) as (dm2 & tg & Hc2 & Hs2).
      rewrite (deleteEdge_eq e0 σq aq dm2 tg Hc2 Hs2).
      eexists. split; [done|].
      pose proof (coherent_edgeDeleted σq aq e0 dm2 tg Hq He0 Hc2 Hs2) as Hq'.
      split; [done|].
      split_and!.
      * unfold edgeDeleted. cbn [snd edges set_deltaMap set_edges].
        unfold aq. cbn [edges set_deltaMap set_edges]. by apply JsSet_delete_add.
      * intros s Hs.
        rewrite edgesOut_edgeDeleted, edgesIn_edgeDeleted, Hed. cbn [source sink].
        assert (length (sts σq) = length (sts σ)) as -> by apply length_linkEdge.
        unfold σq. rewrite edgesOut_linkEdge, edgesIn_linkEdge. fold e0.
        assert (e0 ∉ edgesOut (st σ s)) as Ho.
        { intros Hin. by apply (co_out _ _ Hco s _ Hs) in Hin as [Hin _]. }
        assert (e0 ∉ edgesIn (st σ s)) as Hi.
        { intros Hin. by apply (co_in _ _ Hco s _ Hs) in Hin as [Hin _]. }
        split; case_decide; by rewrite ?JsSet_delete_add.
      * intros x d y.
        rewrite (step_edgeDeleted σq aq e0 dm2 tg x d y Hc2 Hs2).
        rewrite Hed. cbn [source sink symbol]. rewrite Hstep.
        split; [tauto|]. intros Hst. split; [by left|].
        intros (-> & -> & ->). apply (co_delta _ _ Hco) in Hst as (e & He & H1 & H2 & H3).
        apply (findEdge_None σ f t c e Hfind); [|done].
        by apply (co_out _ _ Hco f e Hfs).
Qed.

(** X20: [addEdge] between two states of a coherent automaton on a symbol of
    its alphabet completes and returns an edge of the automaton with the
    given end points and symbol; [getEdge] then finds that edge, and a
    second [addEdge] with the same arguments returns it again and changes
    nothing.  The states and the name index are untouched and the
    transition table gains exactly this transition.  When the edge is new,
    [deleteEdge] on it completes and restores the set of edges, the edge
    lists of every state and the transitions. *)
Theorem addEdge_spec from to c σ a f t :
  coherent σ a → ownRef a from → ownRef a to →
  Automaton.getState a from = Some f → Automaton.getState a to = Some t →
  c ∈ alphabet a →
  ∃ q e, Automaton.addEdge from to c (σ, a) = (q, Ok e)
    ∧ coherent q.1 q.2
    ∧ e ∈ edges q.2
    ∧ source (ed q.1 e) = f ∧ sink (ed q.1 e) = t ∧ symbol (ed q.1 e) = c
    ∧ Automaton.getEdge from to c q = (q, Ok (Some e))
    ∧ Automaton.addEdge from to c q = (q, Ok e)
    ∧ states q.2 = states a ∧ stateNameMap q.2 = stateNameMap a
    ∧ (∀ x d y, step q.2 x d y ↔ step a x d y ∨ (x = f ∧ d = c ∧ y = t))
    ∧ (e ∉ edges a →
       ∃ q', Automaton.deleteEdge e q = (q', Ok tt)
         ∧ coherent q'.1 q'.2
         ∧ edges q'.2 = edges a
         ∧ (∀ s, s ∈ states a →
              edgesOut (st q'.1 s) = edgesOut (st σ s)
              ∧ edgesIn (st q'.1 s) = edgesIn (st σ s))
         ∧ ∀ x d y, step q'.2 x d y ↔ step a x d y).
Proof. apply addEdge_spec_aux. Qed.

Lemma addEdge_spec_witness :
  ∃ q e, Automaton.addEdge (ByName "0") (ByName "1") "b" (endsWithA.1, endsWithA.2)
         = (q, Ok e)
    ∧ coherent q.1 q.2
    ∧ e ∈ edges q.2
    ∧ source (ed q.1 e) = 0 ∧ sink (ed q.1 e) = 1 ∧ symbol (ed q.1 e) = "b"%char
    ∧ Automaton.getEdge (ByName "0") (ByName "1") "b" q = (q, Ok (Some e))
    ∧ Automaton.addEdge (ByName "0") (ByName "1") "b" q = (q, Ok e)
    ∧ states q.2 = states endsWithA.2
    ∧ stateNameMap q.2 = stateNameMap endsWithA.2
    ∧ (∀ x d y, step q.2 x d y
                ↔ step endsWithA.2 x d y ∨ (x = 0 ∧ d = "b"%char ∧ y = 1))
    ∧ (e ∉ edges endsWithA.2 →
       ∃ q', Automaton.deleteEdge e q = (q', Ok tt)
         ∧ coherent q'.1 q'.2
         ∧ edges q'.2 = edges endsWithA.2
         ∧ (∀ s, s ∈ states endsWithA.2 →
              edgesOut (st q'.1 s) = edgesOut (st endsWithA.1 s)
              ∧ edgesIn (st q'.1 s) = edgesIn (st endsWithA.1 s))
         ∧ ∀ x d y, step q'.2 x d y ↔ step endsWithA.2 x d y).
Proof.
  apply (addEdge_spec (ByName "0") (ByName "1") "b" endsWithA.1 endsWithA.2 0 1).
  - apply endsWithA_coherent.
  - exact I.
  - exact I.
  - vm_compute. reflexivity.
  - vm_compute. reflexivity.
  - apply (bool_decide_unpack _). vm_compute. reflexivity.
Defined.

(** ** A check of coherence for concrete automata *)

Definition coherent_check (σ : Store) (a : Automaton) : bool :=
  bool_decide (NoDup (states a))
  && forallb (λ s, bool_decide (s < length (sts σ))) (states a)
  && forallb (λ kv, bool_decide (kv.2 ∈ states a)) (map_to_list (stateNameMap a))
  && forallb (λ c, bool_decide (is_Some (deltaMap a !! c))) (alphabet a)
  && forallb (λ kv, bool_decide (kv.1 ∈ alphabet a)) (map_to_list (deltaMap a))
  && forallb (λ e, bool_decide (e < length (eds σ))
                   && bool_decide (source (ed σ e) ∈ states a)
                   && bool_decide (sink (ed σ e) ∈ states a)
                   && bool_decide (symbol (ed σ e) ∈ alphabet a)
                   && bool_decide (e ∈ edgesOut (st σ (source (ed σ e))))
                   && bool_decide (e ∈ edgesIn (st σ (sink (ed σ e))))
                   && bool_decide (sink (ed σ e)
                                   ∈ default [] (default ∅ (deltaMap a !! symbol (ed σ e))
                                                   !! source (ed σ e)))
                   && forallb (λ e', bool_decide
                                 (source (ed σ e) = source (ed σ e')
                                  → sink (ed σ e) = sink (ed σ e')
                                  → symbol (ed σ e) = symbol (ed σ e') → e = e'))
                        (edges a))
       (edges a)
  && forallb (λ s,
                forallb (λ e, bool_decide (e ∈ edges a ∧ source (ed σ e) = s))
                  (edgesOut (st σ s))
                && forallb (λ e, bool_decide (e ∈ edges a ∧ sink (ed σ e) = s))
                     (edgesIn (st σ s)))
       (states a)
  && forallb (λ kv,
                forallb (λ kv',
                   forallb (λ t,
                      existsb (λ e, bool_decide (source (ed σ e) = kv'.1
                                                 ∧ sink (ed σ e) = t
                                                 ∧ symbol (ed σ e) = kv.1))
                        (edges a))
                     kv'.2)
                  (map_to_list kv.2))
       (map_to_list (deltaMap a)).

Lemma forallb_elem_of {A} (f : A → bool) l x :
  forallb f l = true → x ∈ l → f x = true.
Proof. rewrite forallb_forall. intros H Hx%list_elem_of_In. by apply H. Qed.

Lemma coherent_check_ok σ a : coherent_check σ a = true → coherent σ a.
Proof.
  unfold coherent_check. rewrite !andb_true_iff.
  intros (((((((Hnd & Hst) & Hmap) & Hal1) & Hal2) & Hed) & Hio) & Hdl).
  apply bool_decide_eq_true in Hnd.
  assert (∀ e, e ∈ edges a →
            e < length (eds σ) ∧ source (ed σ e) ∈ states a ∧ sink (ed σ e) ∈ states a
            ∧ symbol (ed σ e) ∈ alphabet a
            ∧ e ∈ edgesOut (st σ (source (ed σ e)))
            ∧ e ∈ edgesIn (st σ (sink (ed σ e)))
            ∧ step a (source (ed σ e)) (symbol (ed σ e)) (sink (ed σ e))
            ∧ ∀ e', e' ∈ edges a →
                source (ed σ e) = source (ed σ e') → sink (ed σ e) = sink (ed σ e') →
                symbol (ed σ e) = symbol (ed σ e') → e = e') as He.
  { intros e Hin. pose proof (forallb_elem_of _ _ _ Hed Hin) as H.
    cbn beta in H. rewrite !andb_true_iff in H.
    destruct H as (((((((H1 & H2) & H3) & H4) & H5) & H6) & H7) & H8).
    apply bool_decide_eq_true in H1, H2, H3, H4, H5, H6, H7.
    split_and!; try done.
    - unfold step.
      destruct (deltaMap a !! symbol (ed σ e)) as [dm|]; simpl in H7;
        [|rewrite lookup_empty in H7; by apply elem_of_nil in H7].
      destruct (dm !! source (ed σ e)) as [tg|] eqn:Htg; simpl in H7;
        [|by apply elem_of_nil in H7].
      by exists dm, tg.
    - intros e' Hin'. pose proof (forallb_elem_of _ _ _ H8 Hin') as H.
      by apply bool_decide_eq_true in H. }
  split.
  - done.
  - intros s Hs. pose proof (forallb_elem_of _ _ _ Hst Hs) as H.
    by apply bool_decide_eq_true in H.
  - intros k s Hk%elem_of_map_to_list. pose proof (forallb_elem_of _ _ _ Hmap Hk) as H.
    by apply bool_decide_eq_true in H.
  - intros c. split.
    + intros [dm Hc%elem_of_map_to_list].
      pose proof (forallb_elem_of _ _ _ Hal2 Hc) as H. by apply bool_decide_eq_true in H.
    + intros Hc. pose proof (forallb_elem_of _ _ _ Hal1 Hc) as H.
      by apply bool_decide_eq_true in H.
  - intros e Hin. destruct (He e Hin) as (? & ? & ? & ? & _). done.
  - intros e e' Hin Hin'. destruct (He e Hin) as (_ & _ & _ & _ & _ & _ & _ & Hun).
    by apply Hun.
  - intros s e Hs. pose proof (forallb_elem_of _ _ _ Hio Hs) as H. cbn beta in H.
    apply andb_true_iff in H as [Ho _]. split.
    + intros Hin. pose proof (forallb_elem_of _ _ _ Ho Hin) as H.
      by apply bool_decide_eq_true in H.
    + intros [Hin <-]. destruct (He e Hin) as (_ & _ & _ & _ & ? & _). done.
  - intros s e Hs. pose proof (forallb_elem_of _ _ _ Hio Hs) as H. cbn beta in H.
    apply andb_true_iff in H as [_ Hi]. split.
    + intros Hin. pose proof (forallb_elem_of _ _ _ Hi Hin) as H.
      by apply bool_decide_eq_true in H.
    + intros [Hin <-]. destruct (He e Hin) as (_ & _ & _ & _ & _ & ? & _). done.
  - intros s c t. split.
    + intros (dm & tg & Hc%elem_of_map_to_list & Hs%elem_of_map_to_list & Ht).
      pose proof (forallb_elem_of _ _ _ Hdl Hc) as H1. cbn beta in H1.
      pose proof (forallb_elem_of _ _ _ H1 Hs) as H2. cbn beta in H2.
      pose proof (forallb_elem_of _ _ _ H2 Ht) as H3. cbn beta in H3.
      apply existsb_exists in H3 as (e & Hin%list_elem_of_In & H).
      apply bool_decide_eq_true in H as (? & ? & ?). by exists e.
    + intros (e & Hin & <- & <- & <-).
      destruct (He e Hin) as (_ & _ & _ & _ & _ & _ & ? & _). done.
Qed.

(** ** [union] *)

Section union.
Variable σ : Store.
Variables a1 a2 : Automaton.

(** The states and edges of the union are tagged with the automaton they
    come from: [false] for the receiver, [true] for the argument. *)
Definition side (i : bool) : Automaton := if i then a2 else a1.

Definition keyU (v : bool * StateId) : string :=
  aname (side v.1) +:+ ":" +:+ sname (st σ v.2).
Definition startU (v : bool * StateId) : bool := sstart (st σ v.2).
Definition finalU (v : bool * StateId) : bool := sfinal (st σ v.2).

Definition statesU : list (bool * StateId) :=
  (pair false <$> states a1) ++ (pair true <$> states a2).

Definition tripleU (i : bool) (e : EdgeId)
    : (bool * StateId) * ascii * (bool * StateId) :=
  ((i, source (ed σ e)), symbol (ed σ e), (i, sink (ed σ e))).

Definition edgesU : list ((bool * StateId) * ascii * (bool * StateId)) :=
  (tripleU false <$> edges a1) ++ (tripleU true <$> edges a2).

(** The prefixed names of the states of both automata are pairwise
    distinct. *)
Definition unionNamesDistinct : Prop :=
  ∀ u v, u ∈ statesU → v ∈ statesU → keyU u = keyU v → u = v.

Hypothesis Hco1 : coherent σ a1.
Hypothesis Hco2 : coherent σ a2.
Hypothesis Hnames : unionNamesDistinct.
Hypothesis Hab :
  Forall (λ c, c = "a"%char ∨ c = "b"%char) (alphabet a1 ++ alphabet a2).

Lemma coherent_side i : coherent σ (side i).
Proof. by destruct i. Qed.

Lemma elem_of_statesU i s : (i, s) ∈ statesU ↔ s ∈ states (side i).
Proof.
  unfold statesU. rewrite elem_of_app, !list_elem_of_fmap. split.
  - intros [(s' & [= -> ->] & Hs)|(s' & [= -> ->] & Hs)]; done.
  - intros Hs. destruct i; [right|left]; by exists s.
Qed.

(** The target of the union while it is built. *)
Definition uniting (V : list (bool * StateId))
    (E : list ((bool * StateId) * ascii * (bool * StateId)))
    (p : Store * Automaton) : Prop :=
  mirrors keyU startU finalU V E p ∧ storeExt σ p.1
  ∧ alphabet p.2 = ["a"; "b"]%char ∧ length (states p.2) = length V.

Lemma union_states i V0 :
  (∀ v, v ∈ V0 → v ∈ statesU) → (∀ s, (i, s) ∉ V0) →
  hoare (uniting V0 [])
    (forEach (states (side i)) (λ s,
       let* σ := getStore in
       Automaton.addState (aname (side i) +:+ ":" +:+ sname (st σ s))
         (sstart (st σ s)) (sfinal (st σ s)) NoTag false ;;
       ret tt))
    (λ _, uniting (V0 ++ (pair i <$> states (side i))) []).
Proof.
  intros HV0 Hnew.
  pose proof (coherent_side i) as Hco.
  eapply hoare_conseq.
  - apply (hoare_forEach (λ done, uniting (V0 ++ (pair i <$> done)) [])).
    intros done s rest Hsplit [σc ac] (Hmi & Hext & Hal & Hlen).
    assert (s ∈ states (side i)) as Hs by (rewrite Hsplit, elem_of_app; right; left).
    assert (s < length (sts σ)) as Hv by (by apply (co_states _ _ Hco)).
    destruct Hext as [Hse Hmk]. cbn [fst snd] in *.
    unfold bind at 1, getStore, gets. cbn [fst snd].
    rewrite (se_name _ _ Hse), (se_start _ _ Hse), (se_final _ _ Hse) by done.
    destruct (mirrors_addState keyU startU finalU _ [] (σc, ac) (i, s) NoTag Hmi)
      as (q & s' & Hrun & Hq & Hext' & Hal' & Hlen' & _).
    { intros u Hu Heq.
      assert (u = (i, s)) as ->.
      { apply Hnames; [|by apply elem_of_statesU|done].
        apply elem_of_app in Hu as [Hu|(s0 & -> & Hs0)%list_elem_of_fmap]; [by apply HV0|].
        apply elem_of_statesU. rewrite Hsplit, elem_of_app. by left. }
      apply elem_of_app in Hu as [Hu|(s0 & [= <-] & Hs0)%list_elem_of_fmap].
      - by apply (Hnew s).
      - pose proof (co_nodup _ _ Hco) as Hnd. rewrite Hsplit in Hnd.
        apply NoDup_app in Hnd as (_ & Hdisj & _). apply (Hdisj s Hs0). left. }
    unfold bind. unfold keyU, startU, finalU in Hrun. cbn [fst snd] in Hrun.
    rewrite Hrun. eexists _, _. split; [done|]. split_and!.
    + by rewrite fmap_app, app_assoc.
    + etrans; [|exact Hext']. by split.
    + by rewrite Hal'.
    + rewrite Hlen'. cbn [snd]. rewrite Hlen, !length_app, !length_fmap, length_app.
      simpl. lia.
  - intros p. by rewrite app_nil_r.
  - done.
Qed.

Lemma union_edges i E0 :
  hoare (uniting statesU E0)
    (forEach (edges (side i)) (λ e,
       let* σ := getStore in
       Automaton.addEdge
         (ByName (aname (side i) +:+ ":" +:+ sname (st σ (source (ed σ e)))))
         (ByName (aname (side i) +:+ ":" +:+ sname (st σ (sink (ed σ e)))))
         (symbol (ed σ e)) ;;
       ret tt))
    (λ _, uniting statesU (E0 ++ (tripleU i <$> edges (side i)))).
Proof.
  pose proof (coherent_side i) as Hco.
  eapply hoare_conseq.
  - apply (hoare_forEach (λ done, uniting statesU (E0 ++ (tripleU i <$> done)))).
    intros done e rest Hsplit [σc ac] (Hmi & Hext & Hal & Hlen).
    assert (e ∈ edges (side i)) as He by (rewrite Hsplit, elem_of_app; right; left).
    destruct (co_edges _ _ Hco e He) as (Hev & Hsrc & Hsnk & Hsym).
    destruct Hext as [Hse Hmk]. cbn [fst snd] in *.
    unfold bind at 1, getStore, gets. cbn [fst snd].
    rewrite (se_ed _ _ Hse) by done.
    rewrite !(se_name _ _ Hse) by (by apply (co_states _ _ Hco)).
    destruct (mirrors_addEdge keyU startU finalU statesU _ (σc, ac)
                (i, source (ed σ e)) (i, sink (ed σ e)) (symbol (ed σ e)) Hmi)
      as (q & e' & Hrun & Hq & Hext' & Hal' & Hst').
    { by apply elem_of_statesU. }
    { by apply elem_of_statesU. }
    { cbn [snd]. rewrite Hal. rewrite Forall_forall in Hab.
      destruct (Hab (symbol (ed σ e))) as [->| ->].
      - apply elem_of_app. destruct i; auto.
      - left.
      - right. left. }
    unfold bind. unfold keyU in Hrun. cbn [fst snd] in Hrun.
    rewrite Hrun. eexists _, _. split; [done|]. split_and!.
    + by rewrite fmap_app, app_assoc.
    + etrans; [|exact Hext']. by split.
    + by rewrite Hal'.
    + by rewrite Hst'.
  - intros p. by rewrite app_nil_r.
  - done.
Qed.

Lemma union_uniting :
  ∃ τ u, Automaton.union a1 a2 σ = (τ, Ok u) ∧ uniting statesU edgesU (τ, u).
Proof.
  unfold Automaton.union.
  set (u0 := Automaton.new _ "ab").
  set (prog := (forEach [a1; a2] _ ;; forEach [a1; a2] _)).
  assert (hoare (uniting [] []) prog (λ _, uniting statesU edgesU)) as Hprog.
  { unfold prog. simpl.
    apply (hoare_bind _ _ (λ _, uniting statesU [])); [|intros []].
    - apply (hoare_bind _ _ (λ _, uniting (pair false <$> states a1) [])); [|intros []].
      + apply (union_states false []); [by intros v ?%elem_of_nil|].
        by intros s ?%elem_of_nil.
      + apply (hoare_bind _ _ (λ _, uniting statesU [])); [|intros []].
        * apply (union_states true (pair false <$> states a1)).
          -- intros v Hv. unfold statesU. apply elem_of_app. by left.
          -- intros s Hs. by apply list_elem_of_fmap in Hs as (? & [=] & _).
        * apply hoare_ret. intros p Hp. exact Hp.
    - apply (hoare_bind _ _ (λ _, uniting statesU (tripleU false <$> edges a1)));
        [|intros []].
      + apply (union_edges false []).
      + apply (hoare_bind _ _ (λ _, uniting statesU edgesU)); [|intros []].
        * apply (union_edges true (tripleU false <$> edges a1)).
        * apply hoare_ret. intros p Hp. exact Hp. }
  destruct (Hprog (σ, u0)) as ([τ u] & [] & Hrun & Hu).
  { split_and!; cbn [fst snd].
    - apply mirrors_new.
    - reflexivity.
    - done.
    - done. }
  exists τ, u. split; [|done]. unfold bind at 1. unfold on. by rewrite Hrun.
Qed.

Lemma path_edgesU i s w z :
  path edgesU (i, s) w z
  ↔ ∃ t, z = (i, t) ∧ path (triple false σ <$> edges (side i)) s w t.
Proof.
  assert (∀ x c y, (x, c, y) ∈ edgesU
            ↔ ∃ e, e ∈ edges (side x.1) ∧ y.1 = x.1 ∧ source (ed σ e) = x.2
                   ∧ symbol (ed σ e) = c ∧ sink (ed σ e) = y.2) as HE.
  { intros [j x] c [k y]. unfold edgesU. rewrite elem_of_app, !list_elem_of_fmap.
    unfold tripleU. cbn [fst snd]. split.
    - intros [(e & [= -> -> -> -> ->] & He)|(e & [= -> -> -> -> ->] & He)]; by exists e.
    - intros (e & He & -> & <- & <- & <-). destruct j; [right|left]; by exists e. }
  split.
  - remember (i, s) as x eqn:Hx. intros Hp. revert s Hx.
    induction Hp as [u|u c v w z Huv Hp IH]; intros s ->.
    + exists s. split; [done|constructor].
    + apply HE in Huv as (e & He & Hk & Hsrc & Hsym & Hsnk). cbn [fst snd] in *.
      destruct v as [k v]. cbn [fst snd] in *. subst k.
      destruct (IH v eq_refl) as (t & -> & Hp'). exists t. split; [done|].
      econstructor; [|exact Hp']. apply elem_of_triples. by exists e.
  - intros (t & -> & Hp). induction Hp as [u|u c v w z Huv Hp IH]; [constructor|].
    econstructor; [|exact IH]. apply HE. cbn [fst snd].
    apply elem_of_triples in Huv as (e & He & Hsym & Hsrc & Hsnk). by exists e.
Qed.

Lemma union_language_aux :
  ∃ τ u, Automaton.union a1 a2 σ = (τ, Ok u)
    ∧ storeExt σ τ ∧ coherent τ u
    ∧ length (states u) = length (states a1) + length (states a2)
    ∧ ∀ word,
        Automaton.accepts τ u word
        = Automaton.accepts σ a1 word || Automaton.accepts σ a2 word.
Proof.
  destruct union_uniting as (τ & u & Hrun & Hmi & Hext & Hal & Hlen).
  cbn [fst snd] in *.
  exists τ, u. split_and!; try done.
  - apply Hmi.
  - rewrite Hlen. unfold statesU. by rewrite length_app, !length_fmap.
  - intros word. apply eq_true_iff_eq.
    rewrite (mirrors_accepts keyU startU finalU statesU edgesU τ u word Hmi).
    rewrite orb_true_iff, (accepts_path σ a1 word Hco1), (accepts_path σ a2 word Hco2).
    split.
    + intros ([i s] & z & Hs & Hz & Hst & Hf & Hp).
      apply path_edgesU in Hp as (t & -> & Hp).
      apply elem_of_statesU in Hs, Hz.
      destruct i; [right|left]; by exists s, t.
    + intros [(s & t & Hs & Ht & Hst & Hf & Hp)|(s & t & Hs & Ht & Hst & Hf & Hp)].
      * exists (false, s), (false, t). split_and!; try done.
        1,2: by apply elem_of_statesU.
        apply path_edgesU. by exists t.
      * exists (true, s), (true, t). split_and!; try done.
        1,2: by apply elem_of_statesU.
        apply path_edgesU. by exists t.
Qed.

End union.

(** X21: [union] of two coherent automata over symbols among a and b, when
    the names of their states, prefixed with the names of the automata, are
    pairwise distinct, completes and returns a coherent automaton with the
    states of both that accepts a word exactly when one of the two accepts
    it. *)
Theorem union_language σ a1 a2 :
  coherent σ a1 → coherent σ a2 → unionNamesDistinct σ a1 a2 →
  Forall (λ c, c = "a"%char ∨ c = "b"%char) (alphabet a1 ++ alphabet a2) →
  ∃ τ u, Automaton.union a1 a2 σ = (τ, Ok u)
    ∧ storeExt σ τ ∧ coherent τ u
    ∧ length (states u) = length (states a1) + length (states a2)
    ∧ ∀ word,
        Automaton.accepts τ u word
        = Automaton.accepts σ a1 word || Automaton.accepts σ a2 word.
Proof. apply union_language_aux. Qed.

Lemma inj_on_NoDup {A B} (f : A → B) (l : list A) x y :
  NoDup (f <$> l) → x ∈ l → y ∈ l → f x = f y → x = y.
Proof.
  intros Hnd Hx Hy Heq.
  apply list_elem_of_lookup in Hx as [i Hi]. apply list_elem_of_lookup in Hy as [j Hj].
  assert (i = j) as ->; [|congruence].
  eapply (NoDup_lookup _ i j (f x)); [exact Hnd| |].
  - by rewrite list_lookup_fmap, Hi.
  - by rewrite list_lookup_fmap, Hj, Heq.
Qed.

(** Two automata in one store: 0 -a-> 1 called A and 1 -b-> 0 called B. *)
Definition twoChains : Store * (Automaton * Automaton) :=
  match (let* r1 := on (Automaton.new "A" "ab") chain01 in
         let* r2 := on (Automaton.new "B" "ab") chain10 in
         ret (r1.1, r2.1)) emptyStore with
  | (σ, Ok p) => (σ, p)
  | (σ, _) => (σ, (Automaton.new "A" "ab", Automaton.new "B" "ab"))
  end.

Lemma twoChains_coherent :
  coherent twoChains.1 twoChains.2.1 ∧ coherent twoChains.1 twoChains.2.2
  ∧ unionNamesDistinct twoChains.1 twoChains.2.1 twoChains.2.2.
Proof.
  split_and!.
  - apply coherent_check_ok. vm_compute. reflexivity.
  - apply coherent_check_ok. vm_compute. reflexivity.
  - intros u v Hu Hv.
    apply (inj_on_NoDup _ (statesU twoChains.2.1 twoChains.2.2)); [|done..].
    apply (bool_decide_unpack _). vm_compute. reflexivity.
Qed.

Lemma union_language_witness :
  ∃ τ u, Automaton.union twoChains.2.1 twoChains.2.2 twoChains.1 = (τ, Ok u)
    ∧ storeExt twoChains.1 τ ∧ coherent τ u
    ∧ length (states u) = length (states twoChains.2.1) + length (states twoChains.2.2)
    ∧ ∀ word,
        Automaton.accepts τ u word
        = Automaton.accepts twoChains.1 twoChains.2.1 word
          || Automaton.accepts twoChains.1 twoChains.2.2 word.
Proof.
  apply (union_language twoChains.1 twoChains.2.1 twoChains.2.2);
    try apply twoChains_coherent.
  apply (bool_decide_unpack _). vm_compute. reflexivity.
Defined.

(** ** [reduce] *)

Lemma coherent_run_states σ a s w t :
  coherent σ a → s ∈ states a → run a s w t → t ∈ states a.
Proof.
  intros Hco Hs Hr. induction Hr; [done|]. apply IHHr.
  by eapply (coherent_step_states σ).
Qed.

Lemma successor_step σ a s t :
  coherent σ a → s ∈ states a → successor σ s t ↔ ∃ c, step a s c t.
Proof.
  intros Hco Hs. unfold successor. split.
  - intros (e & [He Hsrc]%(co_out _ _ Hco s e Hs) & Hsnk).
    exists (symbol (ed σ e)). apply (co_delta _ _ Hco). by exists e.
  - intros (c & (e & He & Hsrc & Hsnk & Hsym)%(co_delta _ _ Hco)).
    exists e. split; [|done]. by apply (co_out _ _ Hco s e Hs).
Qed.

Lemma rtc_successor_run σ a s t :
  coherent σ a → s ∈ states a → rtc (successor σ) s t ↔ ∃ w, run a s w t.
Proof.
  intros Hco Hs. split.
  - intros Hr. induction Hr as [s|s s' t Hst Hr IH].
    + exists []. constructor.
    + apply (successor_step σ a) in Hst as (c & Hc); [|done..].
      destruct IH as [w Hw]; [by eapply (coherent_step_states σ)|].
      exists (c :: w). by econstructor.
  - intros [w Hr]. induction Hr as [s|s c s' w t Hst Hr IH]; [done|].
    eapply rtc_l; [apply (successor_step σ a); eauto|].
    apply IH. by eapply (coherent_step_states σ).
Qed.

Lemma coherent_searched σ τ a : coherent σ a → searched σ τ → coherent τ a.
Proof.
  intros [Hnd Hst Hmap Hal Hed Hun Hout Hinc Hdl] (L & E & F & _).
  assert (∀ e, ed τ e = ed σ e) as He by (intros e; unfold ed; by rewrite E).
  assert (∀ s, edgesOut (st τ s) = edgesOut (st σ s)) as Ho.
  { intros s. specialize (F s). by apply (f_equal edgesOut) in F. }
  assert (∀ s, edgesIn (st τ s) = edgesIn (st σ s)) as Hi.
  { intros s. specialize (F s). by apply (f_equal edgesIn) in F. }
  split; try done.
  - intros s ?%Hst. lia.
  - intros e Hin. rewrite He, E. by apply Hed.
  - intros e e'. rewrite !He. apply Hun.
  - intros s e. rewrite Ho, He. apply Hout.
  - intros s e. rewrite Hi, He. apply Hinc.
  - intros s c t. rewrite Hdl. by setoid_rewrite He.
Qed.

Lemma searched_flags σ τ s :
  searched σ τ →
  sname (st τ s) = sname (st σ s) ∧ sstart (st τ s) = sstart (st σ s)
  ∧ sfinal (st τ s) = sfinal (st σ s) ∧ stag (st τ s) = stag (st σ s).
Proof.
  intros (_ & _ & F & _). specialize (F s).
  split_and!.
  - by apply (f_equal sname) in F.
  - by apply (f_equal sstart) in F.
  - by apply (f_equal sfinal) in F.
  - by apply (f_equal stag) in F.
Qed.

Lemma mirrors_searched {X} (key : X → string) (start final : X → bool) V E σ τ b :
  mirrors key start final V E (σ, b) → searched σ τ →
  mirrors key start final V E (τ, b).
Proof.
  intros [Hco Hki Hmi Hkeys Hst Hfl Hends Hstep] Hs. split; try done.
  - by apply (coherent_searched σ).
  - intros v s Hv Hk. cbn [fst snd] in *.
    destruct (searched_flags σ τ s Hs) as (_ & -> & -> & _). by apply Hfl.
Qed.

(** The states that lie on a path from a start state, and those from which
    a path leads to a final state. *)
Definition reach (σ : Store) (a : Automaton) (v : StateId) : Prop :=
  ∃ s w, s ∈ states a ∧ sstart (st σ s) = true ∧ run a s w v.
Definition coreach (σ : Store) (a : Automaton) (v : StateId) : Prop :=
  ∃ t w, t ∈ states a ∧ sfinal (st σ t) = true ∧ run a v w t.

Lemma reachable_startStates σ0 σ a v :
  coherent σ a → (∀ s, s ∈ states a → sstart (st σ s) = sstart (st σ0 s)) →
  reachable σ (Automaton.getStartStates σ a) v ↔ reach σ0 a v.
Proof.
  intros Hco Hfl. unfold reachable, reach. split.
  - intros (s & [Hs Hst]%elem_of_getStartStates & Hr).
    apply (rtc_successor_run σ a) in Hr as [w Hw]; [|done..].
    exists s, w. split_and!; try done. by rewrite <- Hfl.
  - intros (s & w & Hs & Hst & Hr). exists s. split.
    + apply elem_of_getStartStates. split; [done|]. by rewrite Hfl.
    + apply (rtc_successor_run σ a); [done..|]. by exists w.
Qed.

Lemma path_triple_rev σ (E : list EdgeId) u w v :
  path (triple true σ <$> E) u w v ↔ path (triple false σ <$> E) v (rev w) u.
Proof.
  split; intros Hp.
  - eapply path_reverse; [|exact Hp]. intros x c y. rewrite !elem_of_triples.
    intros (e & He & Hc & Hx & Hy). by exists e.
  - rewrite <- (rev_involutive w). eapply path_reverse; [|exact Hp].
    intros x c y. rewrite !elem_of_triples.
    intros (e & He & Hc & Hx & Hy). by exists e.
Qed.

Lemma reverse_copied σ a :
  coherent σ a → namesDistinct σ a →
  ∃ σ1 aRev, Automaton.reverse a σ = (σ1, Ok aRev)
             ∧ copied true σ a (states a) (edges a) (σ1, aRev).
Proof.
  intros Hco Hnames. rewrite reverse_copyLoops.
  destruct (copyLoops_copied true σ a Hco Hnames ("reverse of " +:+ aname a))
    as ([σ1 aRev] & Hrun & Hcp).
  exists σ1, aRev. split; [|done]. unfold bind at 1. unfold on. by rewrite Hrun.
Qed.

(** The two searches of [reduce], from unmarked states. *)
Lemma reduce_searches σ a :
  coherent σ a → namesDistinct σ a →
  (∀ s, s ∈ states a → marked (st σ s) = false) →
  ∃ σ1 aRev σ2 σ3,
    Automaton.reverse a σ = (σ1, Ok aRev)
    ∧ Graph.dfs (searchFuel σ1) (Automaton.getStartStates σ1 a) σ1 = (σ2, Ok tt)
    ∧ Graph.dfs (searchFuel σ2) (Automaton.getStartStates σ2 aRev) σ2 = (σ3, Ok tt)
    ∧ shapeExt σ σ3
    ∧ (∀ v, v ∈ states a → marked (st σ3 v) = true ↔ reach σ a v)
    ∧ (∀ v, v ∈ states a →
         ∃ r, stateNameMap aRev !! keyOf σ v = Some r ∧ r < length (sts σ3)
              ∧ (marked (st σ3 r) = true ↔ coreach σ a v)).
Proof.
  intros Hco Hnames Hclean.
  destruct (reverse_copied σ a Hco Hnames)
    as (σ1 & aRev & Hrev & Hmi1 & (Hun1 & Hfresh & Hnew) & Hal1 & Hlen1).
  cbn [fst snd] in *.
  pose proof (mi_coherent _ _ _ _ _ _ Hmi1) as HcoR1. cbn [fst snd] in HcoR1.
  pose proof (coherent_untouched σ σ1 a Hco Hun1) as Hco1.
  pose proof (untouched_storeExt σ σ1 Hun1) as [Hse1 Hmk1].
  assert (∀ s, s ∈ states a → s < length (sts σ)) as Hva by apply (co_states _ _ Hco).
  assert (∀ x, x ∈ states aRev → length (sts σ) ≤ x ∧ x < length (sts σ1)) as HvR.
  { intros x Hx. split; [by apply Hfresh|by apply (co_states _ _ HcoR1)]. }
  (* the first search *)
  destruct (dfs_reachable (Automaton.getStartStates σ1 a) σ1) as (σ2 & Hd1 & Hs2 & Hm2).
  { intros t (s & [Hs _]%elem_of_getStartStates & Hr).
    apply (rtc_successor_run σ1 a) in Hr as [w Hw]; [|done..].
    assert (t ∈ states a) as Ht by (by eapply (coherent_run_states σ1)).
    rewrite Hmk1 by auto. by apply Hclean. }
  assert (∀ v, v ∈ states a → marked (st σ2 v) = true ↔ reach σ a v) as Hreach.
  { intros v Hv. rewrite Hm2, Hmk1, (Hclean v Hv) by auto.
    rewrite (reachable_startStates σ σ1 a v Hco1)
      by (intros s Hs; apply (se_start _ _ Hse1); auto).
    split; [by intros [?|[_ ?]]|]. intros Hr. right. split; [|done].
    destruct Hun1 as (? & _). specialize (Hva v Hv). lia. }
  assert (∀ x, length (sts σ) ≤ x → marked (st σ2 x) = false) as Hnew2.
  { intros x Hx. apply not_true_is_false. rewrite Hm2, Hnew by done.
    intros [?|[_ (s & [Hs _]%elem_of_getStartStates & Hr)]]; [done|].
    apply (rtc_successor_run σ1 a) in Hr as [w Hw]; [|done..].
    assert (x ∈ states a) as Hxa by (by eapply (coherent_run_states σ1)).
    specialize (Hva x Hxa). lia. }
  pose proof (coherent_searched σ1 σ2 aRev HcoR1 Hs2) as HcoR2.
  pose proof (mirrors_searched _ _ _ _ _ σ1 σ2 aRev Hmi1 Hs2) as Hmi2.
  (* the second search *)
  destruct (dfs_reachable (Automaton.getStartStates σ2 aRev) σ2)
    as (σ3 & Hd2 & Hs3 & Hm3).
  { intros t (s & [Hs _]%elem_of_getStartStates & Hr).
    apply (rtc_successor_run σ2 aRev) in Hr as [w Hw]; [|done..].
    assert (t ∈ states aRev) as Ht by (by eapply (coherent_run_states σ2)).
    apply Hnew2. by apply HvR. }
  assert (length (sts σ2) = length (sts σ1)) as Hl2 by (by destruct Hs2 as (? & _)).
  exists σ1, aRev, σ2, σ3. split_and!; try done.
  - etrans; [exact Hse1|]. etrans; by apply searched_shapeExt.
  - intros v Hv. rewrite Hm3, (Hreach v Hv). split; [|by left].
    intros [?|[_ (s & [Hs _]%elem_of_getStartStates & Hr)]]; [done|].
    apply (rtc_successor_run σ2 aRev) in Hr as [w Hw]; [|done..].
    assert (v ∈ states aRev) as HvR' by (by eapply (coherent_run_states σ2)).
    destruct (HvR v HvR'). specialize (Hva v Hv). lia.
  - intros v Hv.
    destruct (proj2 (mi_keys _ _ _ _ _ _ Hmi1 (keyOf σ v))) as [r Hr]; [by exists v|].
    cbn [fst snd] in Hr.
    assert (r ∈ states aRev) as HrR by (by eapply (co_map _ _ HcoR1)).
    destruct (HvR r HrR) as [Hr0 Hr1].
    exists r. split_and!; [done|destruct Hs3 as (? & _); lia|].
    rewrite Hm3, (Hnew2 r Hr0), Hl2. split.
    + intros [?|[_ (y & [Hy Hsty]%elem_of_getStartStates & Hrun)]]; [done|].
      apply (rtc_successor_run σ2 aRev) in Hrun as [w Hw]; [|done..].
      destruct (mi_states _ _ _ _ _ _ Hmi1 y Hy) as (t & Ht & Hky). cbn [fst snd] in *.
      destruct (proj1 (mirrors_run _ _ _ _ _ (σ1, aRev) t y w r Hmi1 Ht Hky) Hw)
        as (v' & Hv' & Hkv' & Hp).
      assert (v' = v) as ->.
      { apply (mi_keyinj _ _ _ _ _ _ Hmi1); try done.
        by eapply (mi_mapinj _ _ _ _ _ _ Hmi1). }
      apply path_triple_rev, (run_path σ a) in Hp; [|done].
      exists t, (rev w). split_and!; try done.
      destruct (mi_flags _ _ _ _ _ _ Hmi1 t y Ht Hky) as [Hfl _]. cbn [fst snd] in Hfl.
      destruct (searched_flags σ1 σ2 y Hs2) as (_ & Hfl2 & _).
      unfold startOf in Hfl. by rewrite <- Hfl, <- Hfl2.
    + intros (t & w & Ht & Hfin & Hrun). right. split; [done|].
      destruct (proj2 (mi_keys _ _ _ _ _ _ Hmi1 (keyOf σ t))) as [y Hy]; [by exists t|].
      cbn [fst snd] in Hy.
      assert (y ∈ states aRev) as HyR by (by eapply (co_map _ _ HcoR1)).
      exists y. split.
      * apply elem_of_getStartStates. split; [done|].
        destruct (mi_flags _ _ _ _ _ _ Hmi1 t y Ht Hy) as [Hfl _]. cbn [fst snd] in Hfl.
        destruct (searched_flags σ1 σ2 y Hs2) as (_ & Hfl2 & _).
        unfold startOf in Hfl. by rewrite Hfl2, Hfl.
      * apply (rtc_successor_run σ2 aRev); [done..|]. exists (rev w).
        apply (mirrors_run _ _ _ _ _ (σ1, aRev) t y (rev w) r Hmi1 Ht Hy).
        exists v. split_and!; try done.
        apply path_triple_rev. rewrite rev_involutive. by apply (run_path σ a).
Qed.

Section reduceLoops.
Variables (σ : Store) (a aRev : Automaton) (σ3 : Store).
Hypothesis Hco : coherent σ a.
Hypothesis Hnames : namesDistinct σ a.
Hypothesis Hext : shapeExt σ σ3.
Hypothesis Hk : ∀ v, v ∈ states a →
  ∃ r, stateNameMap aRev !! keyOf σ v = Some r ∧ r < length (sts σ3).

(** The states that both searches have marked, and the edges between
    them. *)
Definition useful (v : StateId) : bool :=
  marked (st σ3 v)
  && match stateNameMap aRev !! keyOf σ v with
     | Some r => marked (st σ3 r)
     | None => false
     end.
Definition usefulEdge (e : EdgeId) : bool :=
  useful (source (ed σ e)) && useful (sink (ed σ e)).

(** The reduced automaton while the states [V] and the edges [E] of the
    original have been visited. *)
Definition reducing (V : list StateId) (E : list EdgeId) (p : Store * Automaton)
    : Prop :=
  mirrors (keyOf σ) (startOf false σ) (finalOf false σ)
    (filter (λ v, useful v = true) V)
    (triple false σ <$> filter (λ e, usefulEdge e = true) E) p
  ∧ storeExt σ3 p.1 ∧ alphabet p.2 = alphabet a
  ∧ length (states p.2) = length (filter (λ v, useful v = true) V).

Lemma reduce_loops name :
  ∃ q,
    (forEach (states a) (λ s,
       let* σ := getStore in
       if marked (st σ s) then
         let* m := Automaton.markedByName aRev (sname (st σ s)) in
         if m then
           Automaton.addState (sname (st σ s)) (sstart (st σ s)) (sfinal (st σ s))
             (stag (st σ s)) false ;; ret tt
         else ret tt
       else ret tt) ;;
     forEach (edges a) (λ e,
       let* σ := getStore in
       let src := st σ (source (ed σ e)) in
       let snk := st σ (sink (ed σ e)) in
       if marked src && marked snk then
         let* m1 := Automaton.markedByName aRev (sname src) in
         if m1 then
           let* m2 := Automaton.markedByName aRev (sname snk) in
           if m2 then
             Automaton.addEdge (ByName (sname src)) (ByName (sname snk))
               (symbol (ed σ e)) ;; ret tt
           else ret tt
         else ret tt
       else ret tt))
      (σ3, Automaton.new name (String.string_of_list_ascii (alphabet a)))
    = (q, Ok tt)
    ∧ reducing (states a) (edges a) q.
Proof.
  set (loop1 := forEach (states a) _). set (loop2 := forEach (edges a) _).
  assert (∀ s, s ∈ states a → s < length (sts σ)) as Hva by apply (co_states _ _ Hco).
  assert (hoare (reducing [] []) (loop1 ;; loop2) (λ _, reducing (states a) (edges a)))
    as Hloops.
  { eapply hoare_bind; [|intros []].
    - apply (hoare_forEach (λ done, reducing done [])).
      intros done s rest Hsplit [σc ac] (Hmi & [Hse Hmk] & Hal & Hlen).
      cbn [fst snd] in *.
      assert (s ∈ states a) as Hs by (rewrite Hsplit, elem_of_app; right; left).
      assert (s < length (sts σ3)) as Hv3.
      { pose proof (se_len _ _ Hext). specialize (Hva s Hs). lia. }
      destruct (Hk s Hs) as (r & Hr & Hrv).
      rewrite (bind_Ok getStore _ (σc, ac) (σc, ac) σc) by done.
      rewrite Hmk by done.
      rewrite (se_name _ _ Hse), (se_start _ _ Hse), (se_final _ _ Hse),
        (se_tag _ _ Hse) by done.
      rewrite (se_name _ _ Hext), (se_start _ _ Hext), (se_final _ _ Hext),
        (se_tag _ _ Hext) by auto.
      fold (keyOf σ s).
      assert (useful s = false → reducing (done ++ [s]) [] (σc, ac)) as Hskip.
      { intros Hu. unfold reducing. rewrite filter_app, filter_cons, filter_nil.
        rewrite decide_False by (by rewrite Hu). rewrite app_nil_r. done. }
      unfold useful in Hskip. rewrite Hr in Hskip.
      destruct (marked (st σ3 s)) eqn:Hm.
      2: { eexists _, _. split; [done|]. by apply Hskip. }
      rewrite (bind_Ok _ _ _ _ _ (markedByName_eq _ _ _ _ Hr)). cbn [fst].
      rewrite Hmk by done.
      destruct (marked (st σ3 r)) eqn:Hmr.
      2: { eexists _, _. split; [done|]. by apply Hskip. }
      destruct (mirrors_addState (keyOf σ) (startOf false σ) (finalOf false σ) _ []
                  (σc, ac) s (stag (st σ s)) Hmi)
        as (q & s' & Hrun & Hq & Hext' & Hal' & Hlen' & _).
      { intros u [_ Hu]%list_elem_of_filter Heq.
        assert (u ∈ states a) as Hu' by (rewrite Hsplit, elem_of_app; by left).
        assert (u = s) as -> by (by apply Hnames).
        pose proof (co_nodup _ _ Hco) as Hnd. rewrite Hsplit in Hnd.
        apply NoDup_app in Hnd as (_ & Hdisj & _). apply (Hdisj s Hu). left. }
      unfold startOf, finalOf in Hrun. rewrite (bind_Ok _ _ _ _ _ Hrun).
      eexists _, _. split; [done|].
      assert (useful s = true) as Hus by (unfold useful; by rewrite Hr, Hm, Hmr).
      unfold reducing. rewrite filter_app, filter_cons, filter_nil.
      rewrite decide_True by done. split_and!; try done.
      + etrans; [|exact Hext']. by split.
      + by rewrite Hal'.
      + rewrite Hlen', length_app. simpl. cbn [snd]. lia.
    - apply (hoare_forEach (λ done, reducing (states a) done)).
      intros done e rest Hsplit [σc ac] (Hmi & [Hse Hmk] & Hal & Hlen).
      cbn [fst snd] in *.
      assert (e ∈ edges a) as He by (rewrite Hsplit, elem_of_app; right; left).
      destruct (co_edges _ _ Hco e He) as (Hev & Hsrc & Hsnk & Hsym).
      assert (∀ s, s ∈ states a → s < length (sts σ3)) as Hv3.
      { intros s Hs. pose proof (se_len _ _ Hext). specialize (Hva s Hs). lia. }
      assert (e < length (eds σ3)) as Hev3 by (pose proof (se_elen _ _ Hext); lia).
      rewrite (bind_Ok getStore _ (σc, ac) (σc, ac) σc) by done.
      rewrite (se_ed _ _ Hse), (se_ed _ _ Hext) by done.
      rewrite !Hmk, !(se_name _ _ Hse), !(se_name _ _ Hext) by auto.
      fold (keyOf σ (source (ed σ e))) (keyOf σ (sink (ed σ e))).
      destruct (Hk _ Hsrc) as (r1 & Hr1 & Hrv1). destruct (Hk _ Hsnk) as (r2 & Hr2 & Hrv2).
      assert (usefulEdge e = false → reducing (states a) (done ++ [e]) (σc, ac)) as Hskip.
      { intros Hu. unfold reducing. rewrite filter_app, filter_cons, filter_nil.
        rewrite decide_False by (by rewrite Hu). rewrite app_nil_r. done. }
      unfold usefulEdge, useful in Hskip. rewrite Hr1, Hr2 in Hskip.
      destruct (marked (st σ3 (source (ed σ e)))) eqn:Hm1.
      2: { eexists _, _. split; [done|]. by apply Hskip. }
      destruct (marked (st σ3 (sink (ed σ e)))) eqn:Hm2.
      2: { eexists _, _. split; [done|]. apply Hskip. by rewrite andb_false_r. }
      cbn [andb].
      rewrite (bind_Ok _ _ _ _ _ (markedByName_eq _ _ _ _ Hr1)). cbn [fst].
      rewrite Hmk by done.
      destruct (marked (st σ3 r1)) eqn:Hmr1.
      2: { eexists _, _. split; [done|]. by apply Hskip. }
      rewrite (bind_Ok _ _ _ _ _ (markedByName_eq _ _ _ _ Hr2)). cbn [fst].
      rewrite Hmk by done.
      destruct (marked (st σ3 r2)) eqn:Hmr2.
      2: { eexists _, _. split; [done|]. by apply Hskip. }
      assert (useful (source (ed σ e)) = true) as Hu1
        by (unfold useful; by rewrite Hr1, Hm1, Hmr1).
      assert (useful (sink (ed σ e)) = true) as Hu2
        by (unfold useful; by rewrite Hr2, Hm2, Hmr2).
      destruct (mirrors_addEdge (keyOf σ) (startOf false σ) (finalOf false σ) _ _
                  (σc, ac) (source (ed σ e)) (sink (ed σ e)) (symbol (ed σ e)) Hmi)
        as (q & e' & Hrun & Hq & Hext' & Hal' & Hst').
      { by apply list_elem_of_filter. }
      { by apply list_elem_of_filter. }
      { cbn [snd]. by rewrite Hal. }
      rewrite (bind_Ok _ _ _ _ _ Hrun). eexists _, _. split; [done|].
      unfold reducing. rewrite filter_app, filter_cons, filter_nil.
      rewrite decide_True by (unfold usefulEdge; by rewrite Hu1, Hu2).
      rewrite fmap_app. split_and!; try done.
      + etrans; [|exact Hext']. by split.
      + by rewrite Hal'.
      + by rewrite Hst'. }
  destruct (Hloops (σ3, Automaton.new name (String.string_of_list_ascii (alphabet a))))
    as (q & [] & Hrun & Hq).
  { split_and!; cbn [fst snd].
    - apply mirrors_new.
    - reflexivity.
    - apply alphabet_new.
    - done. }
  by exists q.
Qed.

End reduceLoops.

Lemma elem_of_getFinalStates σ a s :
  s ∈ Automaton.getFinalStates σ a ↔ s ∈ states a ∧ sfinal (st σ s) = true.
Proof.
  unfold Automaton.getFinalStates. rewrite elem_of_JsSet_ofList, list_elem_of_filter. tauto.
Qed.

Lemma reduce_language_aux σ a :
  coherent σ a → namesDistinct σ a →
  (∀ s, s ∈ states a → marked (st σ s) = false) →
  ∃ τ ar, Automaton.reduce a σ = (τ, Ok ar)
    ∧ coherent τ ar ∧ alphabet ar = alphabet a
    ∧ (∃ V, NoDup V ∧ length (states ar) = length V
            ∧ ∀ v, v ∈ V ↔ v ∈ states a ∧ reach σ a v ∧ coreach σ a v)
    ∧ ∀ word, Automaton.accepts τ ar word = Automaton.accepts σ a word.
Proof.
  intros Hco Hnames Hclean. unfold Automaton.reduce. set (ar := Automaton.new _ _).
  rewrite (bind_Ok get _ σ σ σ) by done.
  case_decide as Hemp.
  { exists σ, ar. split; [done|].
    assert (∀ v, ¬ (v ∈ states a ∧ reach σ a v ∧ coreach σ a v)) as Hnone.
    { intros v (Hv & (s & w & Hs & Hst & Hr) & (t & w' & Ht & Hfin & Hr')).
      destruct Hemp as [Hemp|[Hemp|Hemp]]; apply nil_length_inv in Hemp.
      - rewrite Hemp in Hv. by apply elem_of_nil in Hv.
      - assert (s ∈ Automaton.getStartStates σ a) as Hin
          by (by apply elem_of_getStartStates).
        rewrite Hemp in Hin. by apply elem_of_nil in Hin.
      - assert (t ∈ Automaton.getFinalStates σ a) as Hin
          by (by apply elem_of_getFinalStates).
        rewrite Hemp in Hin. by apply elem_of_nil in Hin. }
    split_and!.
    - apply coherent_new.
    - apply alphabet_new.
    - exists []. split_and!; [constructor|done|]. intros v. split; [by intros ?%elem_of_nil|].
      intros H. by destruct (Hnone v).
    - intros word. apply eq_true_iff_eq. rewrite !accepts_iff. split.
      + intros (s & t & Hs & _). by apply elem_of_nil in Hs.
      + intros (s & t & Hs & Hst & Hr & Hfin).
        assert (t ∈ states a) as Ht by (by eapply (coherent_run_states σ)).
        destruct (Hnone t). split_and!; [done| |].
        * by exists s, (String.list_ascii_of_string word).
        * exists t, []. split_and!; try done. constructor. }
  destruct (reduce_searches σ a Hco Hnames Hclean)
    as (σ1 & aRev & σ2 & σ3 & Hrev & Hd1 & Hd2 & Hext & Hreach & Hcoreach).
  rewrite (bind_Ok _ _ _ _ _ Hrev).
  rewrite (bind_Ok get _ σ1 σ1 σ1) by done.
  rewrite (bind_Ok _ _ _ _ _ Hd1).
  rewrite (bind_Ok get _ σ2 σ2 σ2) by done.
  rewrite (bind_Ok _ _ _ _ _ Hd2).
  destruct (reduce_loops σ a aRev σ3 Hco Hnames Hext) with (name := "reduced of " +:+ aname a)
    as ([τ b] & Hrun & Hmi & Hse & Hal & Hlen).
  { intros v Hv. destruct (Hcoreach v Hv) as (r & Hr & Hrv & _). by exists r. }
  cbn [fst snd] in *.
  assert (∀ v, v ∈ states a →
            useful σ aRev σ3 v = true ↔ reach σ a v ∧ coreach σ a v) as Huseful.
  { intros v Hv. unfold useful. destruct (Hcoreach v Hv) as (r & -> & _ & Hcr).
    rewrite andb_true_iff, (Hreach v Hv), Hcr. done. }
  exists τ, b. split.
  { unfold bind at 1. unfold on. cbv zeta. fold ar in Hrun. rewrite Hrun. done. }
  split_and!; try done.
  - apply Hmi.
  - exists (filter (λ v, useful σ aRev σ3 v = true) (states a)). split_and!.
    + apply NoDup_filter, (co_nodup _ _ Hco).
    + done.
    + intros v. rewrite list_elem_of_filter. split.
      * intros [Hu Hv]. split; [done|]. by apply Huseful.
      * intros (Hv & Hr & Hc). split; [|done]. by apply Huseful.
  - intros word. apply eq_true_iff_eq.
    rewrite (mirrors_accepts _ _ _ _ _ τ b word Hmi), (accepts_path σ a word Hco).
    unfold startOf, finalOf.
    generalize (String.list_ascii_of_string word). intros w. split.
    + intros (u & v & [_ Hu]%list_elem_of_filter & [_ Hv]%list_elem_of_filter
              & Hst & Hfin & Hp).
      exists u, v. split_and!; try done.
      eapply path_ext; [|exact Hp].
      intros x (e & -> & [_ He]%list_elem_of_filter)%list_elem_of_fmap.
      apply list_elem_of_fmap. by exists e.
    + intros (u & v & Hu & Hv & Hst & Hfin & Hp).
      assert (reach σ a u) as Hru by (exists u, []; split_and!; try done; constructor).
      assert (∀ x w', x ∈ states a → reach σ a x →
                path (triple false σ <$> edges a) x w' v →
                useful σ aRev σ3 x = true
                ∧ path (triple false σ
                          <$> filter (λ e, usefulEdge σ aRev σ3 e = true) (edges a))
                       x w' v) as Hpath.
      { intros x w' Hx Hrx Hpx.
        assert (∀ y w'', y ∈ states a → reach σ a y →
                  path (triple false σ <$> edges a) y w'' v →
                  useful σ aRev σ3 y = true) as Hus.
        { intros y w'' Hy Hry Hpy. apply Huseful; [done|]. split; [done|].
          exists v, w''. split_and!; try done. by apply (run_path σ a). }
        split; [by eapply Hus|].
        induction Hpx as [x|x c x' w' v HE Hpx IH]; [constructor|].
        pose proof HE as (e & He & Hc & Hsrc & Hsnk)%elem_of_triples.
        destruct (co_edges _ _ Hco e He) as (_ & _ & Hx' & _). rewrite Hsnk in Hx'.
        assert (reach σ a x') as Hrx'.
        { destruct Hrx as (s & w0 & Hs & Hst0 & Hr0). exists s, (w0 ++ [c]).
          split_and!; try done. eapply run_app; [exact Hr0|].
          econstructor; [|constructor]. apply (co_delta _ _ Hco). by exists e. }
        econstructor; [|by apply IH].
        apply elem_of_triples. exists e. split_and!; try done.
        apply list_elem_of_filter. split; [|done]. unfold usefulEdge.
        rewrite Hsrc, Hsnk.
        rewrite (Hus x (c :: w') Hx Hrx) by (by econstructor).
        by rewrite (Hus x' w' Hx' Hrx' Hpx). }
      destruct (Hpath u w Hu Hru Hp) as [Huu Hp'].
      assert (useful σ aRev σ3 v = true) as Huv.
      { apply Huseful; [done|]. split.
        - exists u, w. split_and!; try done. by apply (run_path σ a).
        - exists v, []. split_and!; try done. constructor. }
      exists u, v. split_and!; try done; by apply list_elem_of_filter.
Qed.



(** ** sample-automata.js *)

Lemma to_uint_nonnil n : Nat.to_uint n ≠ Decimal.Nil.
Proof.
  pose proof (Unsigned.to_of (Nat.to_uint n)) as H. rewrite Unsigned.of_to in H.
  rewrite H. apply DecimalFacts.unorm_nonnil.
Qed.

(** [String (i)] tells the numbers apart. *)
Lemma String__inj i j : String_ i = String_ j → i = j.
Proof.
  intros H. apply (f_equal NilZero.uint_of_string) in H. unfold String_ in H.
  rewrite !NilZero.usu in H by apply to_uint_nonnil.
  injection H as H. by apply Unsigned.to_uint_inj.
Qed.

Lemma list_ascii_of_string_nil w : String.list_ascii_of_string w = [] ↔ w = "".
Proof. by destruct w. Qed.

Lemma list_ascii_of_string_inj v w :
  String.list_ascii_of_string v = String.list_ascii_of_string w → v = w.
Proof.
  intros H. rewrite <- (String.string_of_list_ascii_of_string v),
    <- (String.string_of_list_ascii_of_string w). by rewrite H.
Qed.

(** *** One state with a loop on every symbol *)

Definition loops (symbols : list ascii) : list (unit * ascii * unit) :=
  (λ c, (tt, c, tt)) <$> symbols.

Lemma path_loops symbols u w v :
  path (loops symbols) u w v ↔ Forall (λ c, c ∈ symbols) w.
Proof.
  split.
  - induction 1 as [u|u c v w z HE _ IH]; [constructor|]. constructor; [|done].
    apply list_elem_of_fmap in HE as (c' & Heq & Hc). by simplify_eq.
  - destruct u, v. induction 1 as [|c w Hc _ IH]; [constructor|].
    apply (path_cons _ tt c tt); [|done]. apply list_elem_of_fmap. by exists c.
Qed.

(** The automaton made of the state 1, a start state, and the loops. *)
Lemma oneState_loops name symbols final σ :
  ∃ τ a,
    on (Automaton.new name symbols) (
      let* s := Automaton.addState "1" true final NoTag false in
      let* a := getThis in
      forEach (alphabet a) (λ sym,
        Automaton.addEdge (ByObj s) (ByObj s) sym ;; ret tt)) σ
    = (τ, Ok (a, tt))
    ∧ mirrors (λ _ : unit, "1") (λ _, true) (λ _, final) [tt]
        (loops (String.list_ascii_of_string symbols)) (τ, a)
    ∧ alphabet a = String.list_ascii_of_string symbols
    ∧ length (states a) = 1.
Proof.
  set (key := λ _ : unit, "1"). set (start := λ _ : unit, true).
  set (fin := λ _ : unit, final). set (syms := String.list_ascii_of_string symbols).
  destruct (mirrors_addState key start fin [] [] (σ, Automaton.new name symbols) tt NoTag)
    as (q & s & Hadd & Hmi & _ & Hal & Hlen & Hs).
  { apply mirrors_new. }
  { by intros u ?%elem_of_nil. }
  cbn [fst snd app] in *. change (alphabet (Automaton.new name symbols)) with syms in Hal.
  change (Automaton.addState "1" true final NoTag false (σ, Automaton.new name symbols)
          = (q, Ok s)) in Hadd.
  assert (hoare (λ p, mirrors key start fin [tt] (loops []) p ∧ alphabet p.2 = syms
                      ∧ stateNameMap p.2 !! "1" = Some s ∧ length (states p.2) = 1)
            (forEach syms (λ sym, Automaton.addEdge (ByObj s) (ByObj s) sym ;; ret tt))
            (λ _ p, mirrors key start fin [tt] (loops syms) p ∧ alphabet p.2 = syms
                    ∧ stateNameMap p.2 !! "1" = Some s ∧ length (states p.2) = 1))
    as Hloop.
  { apply (hoare_forEach
             (λ done p, mirrors key start fin [tt] (loops done) p ∧ alphabet p.2 = syms
                        ∧ stateNameMap p.2 !! "1" = Some s ∧ length (states p.2) = 1)).
    intros done c rest Hsplit p (Hm & Ha & Hk & Hl).
    destruct (mirrors_addEdge_ref key start fin [tt] (loops done) p
                (ByObj s) (ByObj s) tt tt c Hm)
      as (q' & e & Hrun & Hm' & _ & Ha' & Hst' & Hmap'); try done.
    - apply list_elem_of_singleton. done.
    - apply list_elem_of_singleton. done.
    - rewrite Ha, Hsplit. apply elem_of_app. right. left.
    - unfold bind. rewrite Hrun. eexists _, _. split; [done|]. split_and!.
      + unfold loops. by rewrite fmap_app.
      + congruence.
      + by rewrite Hmap'.
      + by rewrite Hst'. }
  destruct (Hloop q) as ([τ a] & [] & Hrun & Hm & Ha & _ & Hl).
  { split_and!; try done. }
  exists τ, a. split; [|done].
  unfold on, bind at 1. rewrite Hadd. unfold bind at 1, getThis, gets. cbn [fst snd].
  rewrite Hal. by rewrite Hrun.
Qed.

(** X23: the three one-state samples.  [onlyEmptyWord] accepts the empty word
    and nothing else, [allWords] accepts exactly the words written with the
    symbols given, and [noWords] accepts nothing; each completes and has one
    state and the symbols given as its alphabet. *)
Theorem sample_languages symbols σ :
  (∃ τ a, Sample.onlyEmptyWord symbols σ = (τ, Ok a)
     ∧ coherent τ a ∧ length (states a) = 1
     ∧ alphabet a = String.list_ascii_of_string symbols
     ∧ ∀ word, Automaton.accepts τ a word = true ↔ word = "")
  ∧ (∃ τ a, Sample.allWords symbols σ = (τ, Ok a)
       ∧ coherent τ a ∧ length (states a) = 1
       ∧ alphabet a = String.list_ascii_of_string symbols
       ∧ ∀ word, Automaton.accepts τ a word = true
                 ↔ Forall (λ c, c ∈ String.list_ascii_of_string symbols)
                     (String.list_ascii_of_string word))
  ∧ (∃ τ a, Sample.noWords symbols σ = (τ, Ok a)
       ∧ coherent τ a ∧ length (states a) = 1
       ∧ alphabet a = String.list_ascii_of_string symbols
       ∧ ∀ word, Automaton.accepts τ a word = false).
Proof.
  split_and!.
  - destruct (mirrors_addState (λ _ : unit, "1") (λ _, true) (λ _, true) [] []
                (σ, Automaton.new "empty word" symbols) tt NoTag)
      as ([τ a] & s & Hadd & Hmi & _ & Hal & Hlen & _).
    { apply mirrors_new. }
    { by intros u ?%elem_of_nil. }
    cbn [fst snd app] in *.
    exists τ, a. split_and!; [|apply (mi_coherent _ _ _ _ _ _ Hmi)|done|done|].
    { unfold Sample.onlyEmptyWord, bind, on. by rewrite Hadd. }
    intros word. rewrite (mirrors_accepts _ _ _ _ _ _ _ word Hmi).
    rewrite <- list_ascii_of_string_nil. split.
    + intros (u & v & _ & _ & _ & _ & Hp). inversion Hp as [|? ? ? ? ? HE]; [done|].
      by apply elem_of_nil in HE.
    + intros ->. exists tt, tt. split_and!; try done; try apply list_elem_of_singleton;
        try done. constructor.
  - destruct (oneState_loops "all words" symbols true σ) as (τ & a & Hrun & Hmi & Hal & Hlen).
    exists τ, a. split_and!; [|apply (mi_coherent _ _ _ _ _ _ Hmi)|done|done|].
    { unfold Sample.allWords. unfold bind at 1. by rewrite Hrun. }
    intros word. rewrite (mirrors_accepts _ _ _ _ _ _ _ word Hmi). split.
    + intros (u & v & _ & _ & _ & _ & Hp). by apply path_loops in Hp.
    + intros Hw. exists tt, tt. split_and!; try done; try apply list_elem_of_singleton;
        try done. by apply path_loops.
  - destruct (oneState_loops "no words" symbols false σ) as (τ & a & Hrun & Hmi & Hal & Hlen).
    exists τ, a. split_and!; [|apply (mi_coherent _ _ _ _ _ _ Hmi)|done|done|].
    { unfold Sample.noWords. unfold bind at 1. by rewrite Hrun. }
    intros word. apply not_true_is_false.
    rewrite (mirrors_accepts _ _ _ _ _ _ _ word Hmi).
    intros (u & v & _ & _ & _ & Hf & _). done.
Qed.
(** *** A chain of states that spells a word *)

Definition chain (w : list ascii) : list (nat * ascii * nat) :=
  imap (λ i c, (i, c, S i)) w.

Lemma elem_of_chain w u c v : (u, c, v) ∈ chain w ↔ v = S u ∧ w !! u = Some c.
Proof.
  unfold chain. rewrite elem_of_lookup_imap. split.
  - intros (i & y & Heq & Hy). by simplify_eq.
  - intros [-> H]. eauto.
Qed.

Lemma chain_snoc w c : chain (w ++ [c]) = chain w ++ [(length w, c, S (length w))].
Proof. unfold chain. rewrite imap_app. simpl. by rewrite Nat.add_0_r. Qed.

(** The paths of a chain read the pieces of the word. *)
Lemma path_chain w i word j :
  path (chain w) i word j
  ↔ j = i + length word ∧ take (length word) (drop i w) = word.
Proof.
  split.
  - induction 1 as [u|u c v word z HE _ IH]; simpl.
    + split; [lia|]. by rewrite take_0.
    + apply elem_of_chain in HE as [-> Hc]. destruct IH as [-> IH].
      split; [lia|]. rewrite (drop_S _ _ _ Hc). simpl. by rewrite IH.
  - revert i. induction word as [|c word IH]; intros i [-> Hw]; simpl in *.
    + rewrite Nat.add_0_r. constructor.
    + destruct (drop i w) as [|x rest] eqn:Hd; [done|]. injection Hw as -> Hw.
      assert (w !! i = Some c) as Hc.
      { rewrite <- (Nat.add_0_r i), <- lookup_drop, Hd. done. }
      rewrite (drop_S _ _ _ Hc) in Hd. injection Hd as <-.
      apply (path_cons _ i c (S i)); [by apply elem_of_chain|].
      apply IH. split; [lia|done].
Qed.

Lemma get_lookup w i : String.get i w = String.list_ascii_of_string w !! i.
Proof.
  revert i. induction w as [|c w IH]; intros [|i]; simpl; try done.
Qed.

Lemma seq_split_middle start n (done : list nat) i rest :
  seq start n = done ++ i :: rest → i = start + length done ∧ length done < n.
Proof.
  intros H. apply lookup_seq. rewrite H. by apply list_lookup_middle.
Qed.

(** [onlyWord] builds the chain of its word. *)
Lemma onlyWord_chain w symbols σ :
  Forall (λ c, c ∈ String.list_ascii_of_string symbols) (String.list_ascii_of_string w) →
  ∃ τ a, Sample.onlyWord w symbols σ = (τ, Ok a)
    ∧ mirrors String_ (λ i, bool_decide (i = 0))
        (λ i, bool_decide (i = String.length w))
        (seq 0 (S (String.length w))) (chain (String.list_ascii_of_string w)) (τ, a)
    ∧ alphabet a = String.list_ascii_of_string symbols
    ∧ length (states a) = S (String.length w).
Proof.
  intros Hw.
  set (n := String.length w). set (wl := String.list_ascii_of_string w) in *.
  set (syms := String.list_ascii_of_string symbols) in *.
  assert (length wl = n) as Hn by apply length_list_ascii_of_string.
  pose (start := λ i : nat, bool_decide (i = 0)).
  pose (fin := λ i : nat, bool_decide (i = n)).
  destruct (mirrors_addState String_ start fin [] [] (σ, Automaton.new w symbols) 0 NoTag)
    as (q & s & Hadd & Hmi & _ & Hal & Hlen & _).
  { apply mirrors_new. }
  { by intros u ?%elem_of_nil. }
  cbn [fst snd app] in *. change (alphabet (Automaton.new w symbols)) with syms in Hal.
  assert (fin 0 = bool_decide (w = "")) as Hfin.
  { apply bool_decide_ext. subst n. destruct w; split; done. }
  rewrite Hfin in Hadd.
  change (Automaton.addState "0" true (bool_decide (w = "")) NoTag false
            (σ, Automaton.new w symbols) = (q, Ok s)) in Hadd.
  pose (I := λ (done : list nat) (p : Store * Automaton),
               mirrors String_ start fin (seq 0 (S (length done)))
                 (chain (take (length done) wl)) p
               ∧ alphabet p.2 = syms ∧ length (states p.2) = S (length done)).
  assert (hoare (I [])
            (forEach (seq 1 n) (λ i,
               Automaton.addState (String_ i) false (bool_decide (i = n)) NoTag false ;;
               match String.get (i - 1) w with
               | Some c =>
                   Automaton.addEdge (ByName (String_ (i - 1))) (ByName (String_ i)) c ;;
                   ret tt
               | None => throw "TypeError: deltaMap.get(symbol) is undefined"
               end))
            (λ _, I (seq 1 n))) as Hloop.
  { apply (hoare_forEach I). intros done i rest Hsplit p (Hm & Ha & Hl).
    apply seq_split_middle in Hsplit as [-> Hk]. set (k := length done) in *.
    destruct (mirrors_addState String_ start fin _ _ p (1 + k) NoTag Hm)
      as (q1 & s1 & Hrun1 & Hm1 & _ & Ha1 & Hl1 & _).
    { intros u Hu%elem_of_seq Heq%String__inj. lia. }
    assert (start (1 + k) = false) as Hstart by (by apply bool_decide_eq_false_2).
    rewrite Hstart in Hrun1. change (fin (1 + k)) with (bool_decide (1 + k = n)) in Hrun1.
    unfold bind at 1. rewrite Hrun1.
    destruct (lookup_lt_is_Some_2 wl k) as [c Hc]; [lia|].
    replace (1 + k - 1) with k by lia. rewrite get_lookup. fold wl. rewrite Hc.
    assert (seq 0 (S k) ++ [1 + k] = seq 0 (S (S k))) as HV.
    { by rewrite (seq_S (S k) 0). }
    rewrite HV in Hm1.
    destruct (mirrors_addEdge String_ start fin _ _ q1 k (1 + k) c Hm1)
      as (q2 & e & Hrun2 & Hm2 & _ & Ha2 & Hl2).
    { apply elem_of_seq. lia. }
    { apply elem_of_seq. lia. }
    { rewrite Ha1, Ha. rewrite Forall_forall in Hw. apply Hw.
      by eapply list_elem_of_lookup_2. }
    unfold bind. rewrite Hrun2. eexists _, _. split; [done|].
    assert (length (done ++ [1 + k]) = S k) as Hlen'.
    { rewrite length_app. simpl. lia. }
    unfold I. rewrite Hlen'. split_and!.
    - rewrite (take_S_r _ _ _ Hc), chain_snoc, length_take.
      replace (k `min` length wl) with k by lia. done.
    - congruence.
    - rewrite Hl2, Hl1, Hl. done. }
  destruct (Hloop q) as ([τ a] & [] & Hrun & Hm & Ha & Hl).
  { unfold I. simpl. rewrite take_0. split_and!; done. }
  rewrite length_seq in Hm, Hl. rewrite take_ge in Hm by lia.
  exists τ, a. split; [|done].
  unfold Sample.onlyWord. unfold bind at 1. unfold on. unfold bind at 1.
  rewrite Hadd. fold n. by rewrite Hrun.
Qed.

(** X24: when every letter of [w] is among the symbols, [onlyWord (w, symbols)]
    completes and returns a coherent automaton with one state more than [w]
    has letters that accepts [w] and no other word. *)
Theorem onlyWord_language w symbols σ :
  Forall (λ c, c ∈ String.list_ascii_of_string symbols) (String.list_ascii_of_string w) →
  ∃ τ a, Sample.onlyWord w symbols σ = (τ, Ok a)
    ∧ coherent τ a
    ∧ alphabet a = String.list_ascii_of_string symbols
    ∧ length (states a) = S (String.length w)
    ∧ ∀ word, Automaton.accepts τ a word = true ↔ word = w.
Proof.
  intros Hw. destruct (onlyWord_chain w symbols σ Hw) as (τ & a & Hrun & Hmi & Hal & Hlen).
  exists τ, a. split_and!; [done|apply (mi_coherent _ _ _ _ _ _ Hmi)|done|done|].
  intros word. rewrite (mirrors_accepts _ _ _ _ _ _ _ word Hmi).
  pose proof (length_list_ascii_of_string w) as Hn. split.
  - intros (u & v & _ & _ & ->%bool_decide_eq_true & ->%bool_decide_eq_true & Hp).
    apply path_chain in Hp as [Hl Hp]. simpl in Hl. rewrite drop_0 in Hp.
    apply list_ascii_of_string_inj. rewrite <- Hp. rewrite take_ge; [done|lia].
  - intros ->. exists 0, (String.length w).
    split_and!; try (apply elem_of_seq; lia); try by apply bool_decide_eq_true_2.
    apply path_chain. split; [simpl; lia|]. rewrite drop_0, take_ge; [done|lia].
Qed.

Lemma onlyWord_language_witness :
  Forall (λ c, c ∈ String.list_ascii_of_string "ab") (String.list_ascii_of_string "abba")
  ∧ ∃ τ a, Sample.onlyWord "abba" "ab" emptyStore = (τ, Ok a)
      ∧ coherent τ a
      ∧ alphabet a = String.list_ascii_of_string "ab"
      ∧ length (states a) = S (String.length "abba")
      ∧ ∀ word, Automaton.accepts τ a word = true ↔ word = "abba".
Proof.
  assert (Forall (λ c, c ∈ String.list_ascii_of_string "ab")
            (String.list_ascii_of_string "abba")) as Hw.
  { simpl. repeat constructor. }
  split; [exact Hw|]. exact (onlyWord_language "abba" "ab" emptyStore Hw).
Defined.
(** *** A ladder of states that counts letters up to a bound *)

(** One edge per symbol from every state in [from] to the next one. *)
Definition rungs (from : list nat) (symbols : list ascii) : list (nat * ascii * nat) :=
  from ≫= λ i, (λ c, (i, c, i + 1)) <$> symbols.

Definition ladder (min : nat) (symbols : list ascii) : list (nat * ascii * nat) :=
  rungs (seq 0 min) symbols ++ ((λ c, (min, c, min)) <$> symbols).

Lemma elem_of_rungs from symbols u c v :
  (u, c, v) ∈ rungs from symbols ↔ u ∈ from ∧ c ∈ symbols ∧ v = u + 1.
Proof.
  unfold rungs. rewrite list_elem_of_bind. split.
  - intros (i & (c' & Heq & Hc)%list_elem_of_fmap & Hi). by simplify_eq.
  - intros (Hu & Hc & ->). exists u. split; [|done]. apply list_elem_of_fmap. by exists c.
Qed.

Lemma elem_of_ladder min symbols u c v :
  (u, c, v) ∈ ladder min symbols
  ↔ c ∈ symbols ∧ ((u < min ∧ v = u + 1) ∨ (u = min ∧ v = min)).
Proof.
  unfold ladder. rewrite elem_of_app, elem_of_rungs, elem_of_seq, list_elem_of_fmap.
  split.
  - intros [(Hu & Hc & ->)|(c' & Heq & Hc)].
    + split; [done|]. left. split; [lia|done].
    + simplify_eq. split; [done|]. by right.
  - intros [Hc [[Hu ->]|[-> ->]]].
    + left. split_and!; try done; lia.
    + right. by exists c.
Qed.

(** A path climbs one rung per letter and stays on the last one. *)
Lemma path_ladder min symbols i word j :
  i ≤ min →
  path (ladder min symbols) i word j
  ↔ Forall (λ c, c ∈ symbols) word ∧ j = (i + length word) `min` min.
Proof.
  intros Hi. split.
  - intros Hp. induction Hp as [u|u c v word z HE _ IH]; simpl.
    + split; [constructor|lia].
    + apply elem_of_ladder in HE as [Hc [[Hu ->]|[-> ->]]].
      * destruct IH as [IH ->]; [lia|]. split; [by constructor|lia].
      * destruct IH as [IH ->]; [lia|]. split; [by constructor|lia].
  - intros [Hw ->]. revert i Hi. induction Hw as [|c word Hc _ IH]; intros i Hi; simpl.
    + replace ((i + 0) `min` min) with i by lia. constructor.
    + destruct (decide (i < min)) as [Hlt|Hge].
      * apply (path_cons _ i c (i + 1)).
        -- apply elem_of_ladder. split; [done|]. left. done.
        -- replace ((i + S (length word)) `min` min)
             with ((i + 1 + length word) `min` min) by lia.
           apply IH. lia.
      * assert (i = min) as -> by lia.
        apply (path_cons _ min c min).
        -- apply elem_of_ladder. split; [done|]. by right.
        -- replace ((min + S (length word)) `min` min)
             with ((min + length word) `min` min) by lia.
           by apply IH.
Qed.

Section minLength.
Variable min : nat.
Variable syms : list ascii.

Definition startL (i : nat) : bool := bool_decide (i = 0).
Definition finalL (i : nat) : bool := bool_decide (i = min).

(** The construction in progress: the states made and the edges drawn. *)
Definition climbing (V : list nat) (E : list (nat * ascii * nat))
    (p : Store * Automaton) : Prop :=
  mirrors String_ startL finalL V E p ∧ alphabet p.2 = syms
  ∧ length (states p.2) = length V.

Lemma minLength_states :
  hoare (climbing [] [])
    (forEach (seq 0 (S min)) (λ i,
       Automaton.addState (String_ i) (bool_decide (i = 0)) (bool_decide (i = min))
         NoTag false ;;
       ret tt))
    (λ _, climbing (seq 0 (S min)) []).
Proof.
  apply (hoare_forEach (λ done, climbing done [])).
  intros done i rest Hsplit p (Hm & Ha & Hl).
  destruct (mirrors_addState String_ startL finalL done [] p i NoTag Hm)
    as (q & s & Hrun & Hm' & _ & Ha' & Hl' & _).
  { intros u Hu Heq%String__inj. subst u.
    pose proof (NoDup_seq 0 (S min)) as Hnd. rewrite Hsplit in Hnd.
    apply NoDup_app in Hnd as (_ & Hdisj & _). apply (Hdisj i Hu). left. }
  unfold bind. unfold startL, finalL in Hrun. rewrite Hrun.
  eexists _, _. split; [done|]. split_and!; [done|congruence|].
  rewrite Hl', Hl, length_app. simpl. lia.
Qed.

Lemma minLength_edges V E u v :
  u ∈ V → v ∈ V →
  hoare (climbing V E)
    (forEach syms (λ sym,
       Automaton.addEdge (ByName (String_ u)) (ByName (String_ v)) sym ;; ret tt))
    (λ _, climbing V (E ++ ((λ c, (u, c, v)) <$> syms))).
Proof.
  intros Hu Hv. eapply hoare_conseq.
  - apply (hoare_forEach (λ done, climbing V (E ++ ((λ c, (u, c, v)) <$> done)))).
    intros done c rest Hsplit p (Hm & Ha & Hl).
    destruct (mirrors_addEdge String_ startL finalL _ _ p u v c Hm)
      as (q & e & Hrun & Hm' & _ & Ha' & Hst'); try done.
    { rewrite Ha, Hsplit. apply elem_of_app. right. left. }
    unfold bind. rewrite Hrun. eexists _, _. split; [done|]. split_and!.
    + by rewrite fmap_app, app_assoc.
    + congruence.
    + by rewrite Hst'.
  - intros p. by rewrite app_nil_r.
  - done.
Qed.

Lemma minLength_rungs :
  hoare (climbing (seq 0 (S min)) [])
    (forEach (seq 0 min) (λ i,
       forEach syms (λ sym,
         Automaton.addEdge (ByName (String_ i)) (ByName (String_ (i + 1))) sym ;;
         ret tt)))
    (λ _, climbing (seq 0 (S min)) (rungs (seq 0 min) syms)).
Proof.
  apply (hoare_forEach (λ done, climbing (seq 0 (S min)) (rungs done syms))).
  intros done i rest Hsplit.
  assert (i < min) as Hi.
  { assert (i ∈ seq 0 min) as H by (rewrite Hsplit, elem_of_app; right; left).
    apply elem_of_seq in H. lia. }
  eapply hoare_conseq.
  - apply (minLength_edges (seq 0 (S min)) (rungs done syms) i (i + 1)).
    + apply elem_of_seq. lia.
    + apply elem_of_seq. lia.
  - done.
  - intros [] p. unfold rungs. rewrite bind_app. simpl. by rewrite app_nil_r.
Qed.

End minLength.

(** X25: [minLength (min, symbols)] completes and returns a coherent
    automaton with min + 1 states that accepts exactly the words over the
    symbols that have at least [min] letters. *)
Theorem minLength_language min symbols σ :
  ∃ τ a, Sample.minLength min symbols σ = (τ, Ok a)
    ∧ coherent τ a
    ∧ alphabet a = String.list_ascii_of_string symbols
    ∧ length (states a) = S min
    ∧ ∀ word, Automaton.accepts τ a word = true
              ↔ Forall (λ c, c ∈ String.list_ascii_of_string symbols)
                  (String.list_ascii_of_string word)
                ∧ min ≤ String.length word.
Proof.
  set (syms := String.list_ascii_of_string symbols).
  set (a0 := Automaton.new ("minimal length of " +:+ String_ min) symbols).
  assert (climbing min syms [] [] (σ, a0)) as H0.
  { split_and!; [apply mirrors_new|done|done]. }
  destruct (minLength_states min syms (σ, a0) H0) as (p1 & [] & Hrun1 & H1).
  assert (alphabet p1.2 = syms) as Ha1 by apply H1.
  destruct (minLength_rungs min syms p1 H1) as (p2 & [] & Hrun2 & H2).
  destruct (minLength_edges min syms (seq 0 (S min)) (rungs (seq 0 min) syms) min min)
    with (t := p2) as ([τ a] & [] & Hrun3 & Hm & Ha & Hl);
    [apply elem_of_seq; lia..|done|].
  fold (ladder min syms) in Hm. rewrite length_seq in Hl. cbn [fst snd] in *.
  exists τ, a. split_and!; [|apply (mi_coherent _ _ _ _ _ _ Hm)|done|done|].
  { unfold Sample.minLength. unfold bind at 1. unfold on. fold a0. fold syms.
    unfold bind at 1. rewrite Hrun1.
    unfold bind at 1, getThis, gets. cbn [fst snd]. rewrite Ha1.
    unfold bind at 1. rewrite Hrun2. by rewrite Hrun3. }
  intros word. rewrite (mirrors_accepts _ _ _ _ _ _ _ word Hm).
  rewrite <- length_list_ascii_of_string. split.
  - intros (u & v & _ & _ & ->%bool_decide_eq_true & ->%bool_decide_eq_true & Hp).
    apply path_ladder in Hp as [Hw Hl']; [|lia]. split; [done|]. lia.
  - intros [Hw Hl']. exists 0, min.
    split_and!; try (apply elem_of_seq; lia); try by apply bool_decide_eq_true_2.
    apply path_ladder; [lia|]. split; [done|]. lia.
Qed.

(** ** [intersect] *)

Section intersect.
Variable σ : Store.
Variables a1 a2 : Automaton.

(** The states of the intersection stand for pairs of states. *)
Definition keyI (v : StateId * StateId) : string :=
  sname (st σ v.1) +:+ "," +:+ sname (st σ v.2).
Definition startI (v : StateId * StateId) : bool :=
  sstart (st σ v.1) && sstart (st σ v.2).
Definition finalI (v : StateId * StateId) : bool :=
  sfinal (st σ v.1) && sfinal (st σ v.2).

Definition row (s1 : StateId) : list (StateId * StateId) := pair s1 <$> states a2.
Definition statesI : list (StateId * StateId) := states a1 ≫= row.

Definition tripleI (e1 e2 : EdgeId)
    : list ((StateId * StateId) * ascii * (StateId * StateId)) :=
  if decide (symbol (ed σ e1) = symbol (ed σ e2))
  then [((source (ed σ e1), source (ed σ e2)), symbol (ed σ e1),
         (sink (ed σ e1), sink (ed σ e2)))]
  else [].
Definition rowE (e1 : EdgeId) : list ((StateId * StateId) * ascii * (StateId * StateId)) :=
  edges a2 ≫= tripleI e1.
Definition edgesI : list ((StateId * StateId) * ascii * (StateId * StateId)) :=
  edges a1 ≫= rowE.

(** The names of the pairs, joined with a comma, are pairwise distinct. *)
Definition pairNamesDistinct : Prop :=
  ∀ u v, u ∈ statesI → v ∈ statesI → keyI u = keyI v → u = v.

(** The symbols that edges of both automata carry are in the alphabet that
    the intersection is created with. *)
Definition commonSymbolsAB : Prop :=
  ∀ e1 e2, e1 ∈ edges a1 → e2 ∈ edges a2 → symbol (ed σ e1) = symbol (ed σ e2) →
           symbol (ed σ e1) = "a"%char ∨ symbol (ed σ e1) = "b"%char.

Hypothesis Hco1 : coherent σ a1.
Hypothesis Hco2 : coherent σ a2.
Hypothesis Hnames : pairNamesDistinct.
Hypothesis Hab : commonSymbolsAB.

Lemma elem_of_statesI s1 s2 : (s1, s2) ∈ statesI ↔ s1 ∈ states a1 ∧ s2 ∈ states a2.
Proof.
  unfold statesI, row. rewrite list_elem_of_bind. split.
  - intros (x & (y & [= -> ->] & Hy)%list_elem_of_fmap & Hx). done.
  - intros [H1 H2]. exists s1. split; [|done]. apply list_elem_of_fmap. by exists s2.
Qed.

Lemma elem_of_edgesI x c y :
  (x, c, y) ∈ edgesI
  ↔ ∃ e1 e2, e1 ∈ edges a1 ∧ e2 ∈ edges a2
      ∧ symbol (ed σ e1) = c ∧ symbol (ed σ e2) = c
      ∧ source (ed σ e1) = x.1 ∧ source (ed σ e2) = x.2
      ∧ sink (ed σ e1) = y.1 ∧ sink (ed σ e2) = y.2.
Proof.
  unfold edgesI, rowE. rewrite list_elem_of_bind. split.
  - intros (e1 & (e2 & Ht & He2)%list_elem_of_bind & He1). unfold tripleI in Ht.
    case_decide as Hsym; [|by apply elem_of_nil in Ht].
    apply list_elem_of_singleton in Ht. injection Ht as -> -> ->.
    exists e1, e2. by split_and!.
  - intros (e1 & e2 & He1 & He2 & <- & Hsym & H1 & H2 & H3 & H4).
    exists e1. split; [|done]. apply list_elem_of_bind. exists e2. split; [|done].
    unfold tripleI. rewrite decide_True by done. apply list_elem_of_singleton.
    destruct x, y. simpl in *. by subst.
Qed.

(** The target of the intersection while it is built. *)
Definition meeting (V : list (StateId * StateId))
    (E : list ((StateId * StateId) * ascii * (StateId * StateId)))
    (p : Store * Automaton) : Prop :=
  mirrors keyI startI finalI V E p ∧ storeExt σ p.1
  ∧ alphabet p.2 = ["a"; "b"]%char ∧ length (states p.2) = length V.

Lemma intersect_row s1 V0 :
  s1 ∈ states a1 → (∀ v, v ∈ V0 → v ∈ statesI) → (∀ s2, (s1, s2) ∉ V0) →
  hoare (meeting V0 [])
    (forEach (states a2) (λ s2,
       let* σ := getStore in
       Automaton.addState (sname (st σ s1) +:+ "," +:+ sname (st σ s2))
         (sstart (st σ s1) && sstart (st σ s2))
         (sfinal (st σ s1) && sfinal (st σ s2)) NoTag false ;;
       ret tt))
    (λ _, meeting (V0 ++ row s1) []).
Proof.
  intros Hs1 HV0 Hnew.
  assert (s1 < length (sts σ)) as Hv1 by (by apply (co_states _ _ Hco1)).
  apply (hoare_conseq _ (meeting (V0 ++ (pair s1 <$> [])) []) _ _
           (λ _, meeting (V0 ++ (pair s1 <$> states a2)) []));
    [|intros p; simpl; by rewrite app_nil_r|done].
  apply (hoare_forEach (λ done, meeting (V0 ++ (pair s1 <$> done)) [])).
  - intros done s2 rest Hsplit [σc ac] (Hmi & Hext & Hal & Hlen).
    assert (s2 ∈ states a2) as Hs2 by (rewrite Hsplit, elem_of_app; right; left).
    assert (s2 < length (sts σ)) as Hv2 by (by apply (co_states _ _ Hco2)).
    destruct Hext as [Hse Hmk]. cbn [fst snd] in *.
    unfold bind at 1, getStore, gets. cbn [fst snd].
    rewrite !(se_name _ _ Hse), !(se_start _ _ Hse), !(se_final _ _ Hse) by done.
    destruct (mirrors_addState keyI startI finalI _ [] (σc, ac) (s1, s2) NoTag Hmi)
      as (q & s' & Hrun & Hq & Hext' & Hal' & Hlen' & _).
    { intros u Hu Heq.
      assert (u = (s1, s2)) as ->.
      { apply Hnames; [|by apply elem_of_statesI|done].
        apply elem_of_app in Hu as [Hu|(s0 & -> & Hs0)%list_elem_of_fmap]; [by apply HV0|].
        apply elem_of_statesI. split; [done|]. rewrite Hsplit, elem_of_app. by left. }
      apply elem_of_app in Hu as [Hu|(s0 & [= <-] & Hs0)%list_elem_of_fmap].
      - by apply (Hnew s2).
      - pose proof (co_nodup _ _ Hco2) as Hnd. rewrite Hsplit in Hnd.
        apply NoDup_app in Hnd as (_ & Hdisj & _). apply (Hdisj s2 Hs0). left. }
    unfold bind. unfold keyI, startI, finalI in Hrun. cbn [fst snd] in Hrun.
    rewrite Hrun. eexists _, _. split; [done|]. split_and!.
    + by rewrite fmap_app, app_assoc.
    + etrans; [|exact Hext']. by split.
    + by rewrite Hal'.
    + rewrite Hlen'. cbn [snd]. rewrite Hlen, !length_app, !length_fmap, length_app.
      simpl. lia.
Qed.

Lemma intersect_states :
  hoare (meeting [] [])
    (forEach (states a1) (λ s1,
       forEach (states a2) (λ s2,
         let* σ := getStore in
         Automaton.addState (sname (st σ s1) +:+ "," +:+ sname (st σ s2))
           (sstart (st σ s1) && sstart (st σ s2))
           (sfinal (st σ s1) && sfinal (st σ s2)) NoTag false ;;
         ret tt)))
    (λ _, meeting statesI []).
Proof.
  apply (hoare_conseq _ (meeting ([] ≫= row) []) _ _
           (λ _, meeting (states a1 ≫= row) [])); [|done..].
  apply (hoare_forEach (λ done, meeting (done ≫= row) [])).
  intros done s1 rest Hsplit.
  assert (s1 ∈ states a1) as Hs1 by (rewrite Hsplit, elem_of_app; right; left).
  eapply hoare_conseq.
  - apply (intersect_row s1 (done ≫= row) Hs1).
    + intros [x y] (z & (y' & [= -> ->] & Hy)%list_elem_of_fmap & Hz)%list_elem_of_bind.
      apply elem_of_statesI. split; [|done]. rewrite Hsplit, elem_of_app. by left.
    + intros s2 (z & (y' & [= <- <-] & Hy)%list_elem_of_fmap & Hz)%list_elem_of_bind.
      pose proof (co_nodup _ _ Hco1) as Hnd. rewrite Hsplit in Hnd.
      apply NoDup_app in Hnd as (_ & Hdisj & _). apply (Hdisj s1 Hz). left.
  - done.
  - intros [] p. rewrite bind_app. simpl. by rewrite app_nil_r.
Qed.

Lemma intersect_rowE e1 E0 :
  e1 ∈ edges a1 →
  hoare (meeting statesI E0)
    (forEach (edges a2) (λ e2,
       let* σ := getStore in
       if decide (symbol (ed σ e1) = symbol (ed σ e2)) then
         let* a := getThis in
         match Automaton.getStateByName a
                 (sname (st σ (source (ed σ e1))) +:+ "," +:+
                  sname (st σ (source (ed σ e2)))),
               Automaton.getStateByName a
                 (sname (st σ (sink (ed σ e1))) +:+ "," +:+
                  sname (st σ (sink (ed σ e2)))) with
         | Some f, Some t =>
             Automaton.addEdge (ByObj f) (ByObj t) (symbol (ed σ e1)) ;; ret tt
         | None, _ => throw "TypeError: from is undefined"
         | Some _, None => throw "TypeError: sink is undefined"
         end
       else ret tt))
    (λ _, meeting statesI (E0 ++ rowE e1)).
Proof.
  intros He1.
  destruct (co_edges _ _ Hco1 e1 He1) as (Hev1 & Hsrc1 & Hsnk1 & Hsym1).
  apply (hoare_conseq _ (meeting statesI (E0 ++ ([] ≫= tripleI e1))) _ _
           (λ _, meeting statesI (E0 ++ (edges a2 ≫= tripleI e1))));
    [|intros p; simpl; by rewrite app_nil_r|done].
  apply (hoare_forEach (λ done, meeting statesI (E0 ++ (done ≫= tripleI e1)))).
  intros done e2 rest Hsplit [σc ac] (Hmi & Hext & Hal & Hlen).
  assert (e2 ∈ edges a2) as He2 by (rewrite Hsplit, elem_of_app; right; left).
  destruct (co_edges _ _ Hco2 e2 He2) as (Hev2 & Hsrc2 & Hsnk2 & Hsym2).
  pose proof Hext as [Hse Hmk]. cbn [fst snd] in *.
  unfold bind at 1, getStore, gets. cbn [fst snd].
  rewrite !(se_ed _ _ Hse) by done.
  rewrite !(se_name _ _ Hse)
    by first [by apply (co_states _ _ Hco1)|by apply (co_states _ _ Hco2)].
  rewrite bind_app. simpl. rewrite app_nil_r. unfold tripleI at 2.
  case_decide as Hsym.
  - set (u := (source (ed σ e1), source (ed σ e2))).
    set (v := (sink (ed σ e1), sink (ed σ e2))).
    assert (u ∈ statesI) as Hu by (by apply elem_of_statesI).
    assert (v ∈ statesI) as Hv by (by apply elem_of_statesI).
    destruct (proj2 (mi_keys _ _ _ _ _ _ Hmi (keyI u))) as [f Hf]; [by exists u|].
    destruct (proj2 (mi_keys _ _ _ _ _ _ Hmi (keyI v))) as [t Ht]; [by exists v|].
    cbn [snd] in Hf, Ht.
    unfold bind at 1, getThis, gets. cbn [fst snd]. unfold Automaton.getStateByName.
    change (sname (st σ (source (ed σ e1))) +:+ "," +:+ sname (st σ (source (ed σ e2))))
      with (keyI u).
    change (sname (st σ (sink (ed σ e1))) +:+ "," +:+ sname (st σ (sink (ed σ e2))))
      with (keyI v).
    rewrite Hf, Ht.
    destruct (mirrors_addEdge_ref keyI startI finalI statesI _ (σc, ac)
                (ByObj f) (ByObj t) u v (symbol (ed σ e1)) Hmi Hu Hv)
      as (q & e' & Hrun & Hq & Hext' & Hal' & Hst' & _).
    { cbn [snd]. rewrite Hal. destruct (Hab e1 e2 He1 He2 Hsym) as [->| ->].
      - left.
      - right. left. }
    { done. }
    { done. }
    unfold bind. rewrite Hrun. eexists _, _. split; [done|]. split_and!.
    + by rewrite <- app_assoc in Hq.
    + etrans; [|exact Hext']. done.
    + by rewrite Hal'.
    + by rewrite Hst'.
  - eexists _, _. split; [done|]. rewrite app_nil_r. by split_and!.
Qed.

Lemma intersect_edges :
  hoare (meeting statesI [])
    (forEach (edges a1) (λ e1,
       forEach (edges a2) (λ e2,
         let* σ := getStore in
         if decide (symbol (ed σ e1) = symbol (ed σ e2)) then
           let* a := getThis in
           match Automaton.getStateByName a
                   (sname (st σ (source (ed σ e1))) +:+ "," +:+
                    sname (st σ (source (ed σ e2)))),
                 Automaton.getStateByName a
                   (sname (st σ (sink (ed σ e1))) +:+ "," +:+
                    sname (st σ (sink (ed σ e2)))) with
           | Some f, Some t =>
               Automaton.addEdge (ByObj f) (ByObj t) (symbol (ed σ e1)) ;; ret tt
           | None, _ => throw "TypeError: from is undefined"
           | Some _, None => throw "TypeError: sink is undefined"
           end
         else ret tt)))
    (λ _, meeting statesI edgesI).
Proof.
  apply (hoare_conseq _ (meeting statesI ([] ≫= rowE)) _ _
           (λ _, meeting statesI (edges a1 ≫= rowE))); [|done..].
  apply (hoare_forEach (λ done, meeting statesI (done ≫= rowE))).
  intros done e1 rest Hsplit.
  assert (e1 ∈ edges a1) as He1 by (rewrite Hsplit, elem_of_app; right; left).
  eapply hoare_conseq.
  - apply (intersect_rowE e1 (done ≫= rowE) He1).
  - done.
  - intros [] p. rewrite bind_app. simpl. by rewrite app_nil_r.
Qed.

Lemma intersect_meeting :
  ∃ τ u, Automaton.intersect a1 a2 σ = (τ, Ok u) ∧ meeting statesI edgesI (τ, u).
Proof.
  unfold Automaton.intersect.
  set (u0 := Automaton.new _ "ab").
  destruct (intersect_states (σ, u0)) as (p1 & [] & Hrun1 & H1).
  { split_and!; cbn [fst snd]; [apply mirrors_new|reflexivity|done|done]. }
  destruct (intersect_edges p1 H1) as ([τ u] & [] & Hrun2 & H2).
  exists τ, u. split; [|done].
  unfold bind at 1. unfold on. unfold bind at 1. rewrite Hrun1. by rewrite Hrun2.
Qed.

(** The paths of the product are the pairs of paths. *)
Lemma path_edgesI s1 s2 w t1 t2 :
  path edgesI (s1, s2) w (t1, t2)
  ↔ path (triple false σ <$> edges a1) s1 w t1
    ∧ path (triple false σ <$> edges a2) s2 w t2.
Proof.
  split.
  - remember (s1, s2) as x eqn:Hx. remember (t1, t2) as y eqn:Hy.
    intros Hp. revert s1 s2 Hx.
    induction Hp as [u|u c v w z Huv Hp IH]; intros s1 s2 ->.
    + injection Hy as -> ->. split; constructor.
    + apply elem_of_edgesI in Huv
        as (e1 & e2 & He1 & He2 & Hc1 & Hc2 & Hs1 & Hs2 & Hk1 & Hk2).
      destruct v as [v1 v2]. cbn [fst snd] in *.
      destruct (IH Hy v1 v2 eq_refl) as [Hp1 Hp2]. split.
      * econstructor; [|exact Hp1]. apply elem_of_triples. by exists e1.
      * econstructor; [|exact Hp2]. apply elem_of_triples. by exists e2.
  - intros [Hp1 Hp2]. revert s2 t2 Hp2.
    induction Hp1 as [u|u c v w z Huv Hp1 IH]; intros s2 t2 Hp2.
    + inversion Hp2; subst. constructor.
    + inversion Hp2 as [|? ? v2 ? ? Huv2 Hp2']; subst.
      apply (path_cons _ (u, s2) c (v, v2)); [|by apply IH].
      apply elem_of_triples in Huv as (e1 & He1 & Hsym1 & Hsrc1 & Hsnk1).
      apply elem_of_triples in Huv2 as (e2 & He2 & Hsym2 & Hsrc2 & Hsnk2).
      apply elem_of_edgesI. by exists e1, e2.
Qed.

Lemma intersect_language_aux :
  ∃ τ u, Automaton.intersect a1 a2 σ = (τ, Ok u)
    ∧ storeExt σ τ ∧ coherent τ u
    ∧ length (states u) = length (states a1) * length (states a2)
    ∧ ∀ word,
        Automaton.accepts τ u word
        = Automaton.accepts σ a1 word && Automaton.accepts σ a2 word.
Proof.
  destruct intersect_meeting as (τ & u & Hrun & Hmi & Hext & Hal & Hlen).
  cbn [fst snd] in *.
  exists τ, u. split_and!; try done.
  - apply Hmi.
  - rewrite Hlen. unfold statesI.
    induction (states a1) as [|x l IH]; [done|].
    rewrite bind_cons, length_app, IH. unfold row. by rewrite length_fmap.
  - intros word. apply eq_true_iff_eq.
    rewrite (mirrors_accepts keyI startI finalI statesI edgesI τ u word Hmi).
    rewrite andb_true_iff, (accepts_path σ a1 word Hco1), (accepts_path σ a2 word Hco2).
    unfold startI, finalI. split.
    + intros ([s1 s2] & [t1 t2] & Hs & Ht & Hst & Hf & Hp).
      apply path_edgesI in Hp as [Hp1 Hp2].
      apply elem_of_statesI in Hs as [? ?], Ht as [? ?].
      cbn [fst snd] in *. apply andb_true_iff in Hst as [? ?], Hf as [? ?].
      split; [by exists s1, t1|by exists s2, t2].
    + intros [(s1 & t1 & Hs1 & Ht1 & Hst1 & Hf1 & Hp1)
               (s2 & t2 & Hs2 & Ht2 & Hst2 & Hf2 & Hp2)].
      exists (s1, s2), (t1, t2). cbn [fst snd].
      split_and!; try (by apply elem_of_statesI); try (by apply andb_true_iff).
      by apply path_edgesI.
Qed.

End intersect.


Lemma commonSymbolsAB_alphabet σ a1 a2 :
  coherent σ a1 → Forall (λ c, c = "a"%char ∨ c = "b"%char) (alphabet a1) →
  commonSymbolsAB σ a1 a2.
Proof.
  intros Hco Hab e1 e2 He1 _ _. rewrite Forall_forall in Hab. apply Hab.
  by destruct (co_edges _ _ Hco e1 He1) as (_ & _ & _ & Hsym).
Qed.


(** ** [deleteEdgeFts] *)

Lemma deleteEdgeFts_eq from to c σ a f :
  Automaton.getState a from = Some f →
  Automaton.deleteEdgeFts from to c (σ, a)
  = match Automaton.findEdge σ f (Automaton.getState a to) c with
    | Some e => Automaton.deleteEdge e (σ, a)
    | None => ((σ, a), Throw "TypeError: e is undefined")
    end.
Proof.
  intros Hf. unfold Automaton.deleteEdgeFts. unfold bind at 1.
  rewrite (getEdge_eq from to c σ a f Hf). by destruct (Automaton.findEdge _ _ _ _).
Qed.

(** X27: on a coherent automaton, [deleteEdgeFts] between two of its states
    removes the transition if there is one, and nothing else: the automaton
    stays coherent with the same states and name index.  If there is no such
    transition it throws a TypeError and changes nothing; in particular a
    second call with the same arguments throws. *)
Theorem deleteEdgeFts_spec from to c σ a f t :
  coherent σ a → ownRef a from →
  Automaton.getState a from = Some f → Automaton.getState a to = Some t →
  (step a f c t →
     ∃ q, Automaton.deleteEdgeFts from to c (σ, a) = (q, Ok tt)
       ∧ coherent q.1 q.2
       ∧ states q.2 = states a ∧ stateNameMap q.2 = stateNameMap a
       ∧ (∀ x d y, step q.2 x d y ↔ step a x d y ∧ ¬ (x = f ∧ d = c ∧ y = t))
       ∧ Automaton.deleteEdgeFts from to c q = (q, Throw "TypeError: e is undefined"))
  ∧ (¬ step a f c t →
     Automaton.deleteEdgeFts from to c (σ, a)
     = ((σ, a), Throw "TypeError: e is undefined")).
Proof.
  intros Hco Hfrom Hf Ht.
  assert (f ∈ states a) as Hfs by (by apply (coherent_getState (σ, a) from)).
  assert (∀ τ b, coherent τ b → f ∈ states b → Automaton.getState b from = Some f →
            Automaton.getState b to = Some t → ¬ step b f c t →
            Automaton.deleteEdgeFts from to c (τ, b)
            = ((τ, b), Throw "TypeError: e is undefined")) as Hthrow.
  { intros τ b Hcb Hfb Hf' Ht' Hno. rewrite (deleteEdgeFts_eq from to c τ b f Hf'), Ht'.
    destruct (Automaton.findEdge τ f (Some t) c) as [e|] eqn:Hfind; [|done].
    exfalso. apply Hno.
    pose proof (findEdge_Some _ _ _ _ _ Hfind) as (Hout & Hsym & Hsnk).
    apply (co_out _ _ Hcb f e Hfb) in Hout as [He Hsrc].
    apply (co_delta _ _ Hcb). by exists e. }
  split; [|by apply Hthrow].
  intros Hstep. rewrite (deleteEdgeFts_eq from to c σ a f Hf), Ht.
  destruct (Automaton.findEdge σ f (Some t) c) as [e|] eqn:Hfind.
  - pose proof (findEdge_Some _ _ _ _ _ Hfind) as (Hout & Hsym & Hsnk).
    apply (co_out _ _ Hco f e Hfs) in Hout as [He Hsrc].
    destruct (coherent_deleteEdge_total σ a e Hco He) as (dm & tg & Hdm & Htg).
    rewrite (deleteEdge_eq e σ a dm tg Hdm Htg).
    pose proof (coherent_edgeDeleted σ a e dm tg Hco He Hdm Htg) as Hq.
    assert (∀ x d y, step (edgeDeleted σ a e dm tg).2 x d y
                     ↔ step a x d y ∧ ¬ (x = f ∧ d = c ∧ y = t)) as Hsteps.
    { intros x d y. rewrite (step_edgeDeleted σ a e dm tg x d y Hdm Htg).
      by rewrite Hsrc, Hsym, Hsnk. }
    eexists. split; [done|]. split_and!; try done.
    destruct (edgeDeleted σ a e dm tg) as [τ b] eqn:Hqeq. cbn [fst snd] in *.
    assert (states b = states a ∧ stateNameMap b = stateNameMap a) as [Hst Hmap].
    { unfold edgeDeleted in Hqeq. injection Hqeq as _ <-. done. }
    apply Hthrow; try done.
    + by rewrite Hst.
    + destruct from; simpl in *; [by rewrite Hmap|done].
    + destruct to; simpl in *; [by rewrite Hmap|done].
    + rewrite Hsteps. tauto.
  - exfalso. apply (co_delta _ _ Hco) in Hstep as (e & He & H1 & H2 & H3).
    apply (findEdge_None σ f t c e Hfind); [|done].
    by apply (co_out _ _ Hco f e Hfs).
Qed.

Lemma deleteEdgeFts_spec_witness :
  coherent endsWithA.1 endsWithA.2
  ∧ step endsWithA.2 0 "a" 1
  ∧ (step endsWithA.2 0 "a" 1 →
     ∃ q, Automaton.deleteEdgeFts (ByName "0") (ByName "1") "a"
            (endsWithA.1, endsWithA.2) = (q, Ok tt)
       ∧ coherent q.1 q.2
       ∧ states q.2 = states endsWithA.2
       ∧ stateNameMap q.2 = stateNameMap endsWithA.2
       ∧ (∀ x d y, step q.2 x d y
                   ↔ step endsWithA.2 x d y ∧ ¬ (x = 0 ∧ d = "a"%char ∧ y = 1))
       ∧ Automaton.deleteEdgeFts (ByName "0") (ByName "1") "a" q
         = (q, Throw "TypeError: e is undefined"))
  ∧ (¬ step endsWithA.2 0 "a" 1 →
     Automaton.deleteEdgeFts (ByName "0") (ByName "1") "a" (endsWithA.1, endsWithA.2)
     = ((endsWithA.1, endsWithA.2), Throw "TypeError: e is undefined")).
Proof.
  assert (coherent endsWithA.1 endsWithA.2) as Hco by apply endsWithA_coherent.
  split; [exact Hco|]. split.
  { apply (co_delta _ _ Hco). exists 2. vm_compute. split_and!; try done.
    apply list_elem_of_In. simpl. auto. }
  apply (deleteEdgeFts_spec (ByName "0") (ByName "1") "a" endsWithA.1 endsWithA.2 0 1);
    [exact Hco|exact I|reflexivity|reflexivity].
Defined.

(** ** [deleteState] *)

(** Deleting an edge changes the edge lists of its end points and nothing
    else in the store. *)
Lemma st_edgeDeleted σ a e dm tg x :
  sname (st (edgeDeleted σ a e dm tg).1 x) = sname (st σ x)
  ∧ sstart (st (edgeDeleted σ a e dm tg).1 x) = sstart (st σ x)
  ∧ sfinal (st (edgeDeleted σ a e dm tg).1 x) = sfinal (st σ x).
Proof.
  unfold edgeDeleted. cbn [fst]. rewrite !st_updState.
  repeat case_decide; done.
Qed.

Lemma NoDup_edgeLists_edgeDeleted σ a e dm tg x :
  (NoDup (edgesOut (st σ x)) → NoDup (edgesOut (st (edgeDeleted σ a e dm tg).1 x)))
  ∧ (NoDup (edgesIn (st σ x)) → NoDup (edgesIn (st (edgeDeleted σ a e dm tg).1 x))).
Proof.
  rewrite edgesOut_edgeDeleted, edgesIn_edgeDeleted.
  split; intros Hnd; case_decide; try done; by apply NoDup_JsSet_delete.
Qed.

(** What a store keeps when edges are deleted. *)
Definition sameStates (σ τ : Store) : Prop :=
  length (sts τ) = length (sts σ) ∧ eds τ = eds σ
  ∧ (∀ x, sname (st τ x) = sname (st σ x) ∧ sstart (st τ x) = sstart (st σ x)
          ∧ sfinal (st τ x) = sfinal (st σ x))
  ∧ (∀ x, NoDup (edgesOut (st σ x)) → NoDup (edgesOut (st τ x)))
  ∧ (∀ x, NoDup (edgesIn (st σ x)) → NoDup (edgesIn (st τ x))).

Lemma sameStates_refl σ : sameStates σ σ.
Proof. by split_and!. Qed.

Lemma sameStates_trans σ1 σ2 σ3 : sameStates σ1 σ2 → sameStates σ2 σ3 → sameStates σ1 σ3.
Proof.
  intros (L1 & E1 & F1 & O1 & I1) (L2 & E2 & F2 & O2 & I2). split_and!.
  - congruence.
  - congruence.
  - intros x. destruct (F1 x) as (? & ? & ?), (F2 x) as (? & ? & ?).
    split_and!; congruence.
  - auto.
  - auto.
Qed.

Lemma sameStates_edgeDeleted σ a e dm tg : sameStates σ (edgeDeleted σ a e dm tg).1.
Proof.
  split_and!.
  - unfold edgeDeleted. cbn [fst]. by rewrite !length_updState.
  - done.
  - intros x. apply st_edgeDeleted.
  - intros x. apply NoDup_edgeLists_edgeDeleted.
  - intros x. apply NoDup_edgeLists_edgeDeleted.
Qed.

(** Deleting a list of edges of a coherent automaton. *)
Lemma deleteEdges_spec l σ a :
  coherent σ a → NoDup l → (∀ e, e ∈ l → e ∈ edges a) →
  ∃ τ b, forEach l Automaton.deleteEdge (σ, a) = ((τ, b), Ok tt)
    ∧ coherent τ b ∧ sameStates σ τ
    ∧ states b = states a ∧ stateNameMap b = stateNameMap a
    ∧ alphabet b = alphabet a
    ∧ ∀ e, e ∈ edges b ↔ e ∈ edges a ∧ e ∉ l.
Proof.
  revert σ a. induction l as [|e l IH]; intros σ a Hco Hnd Hin.
  - exists σ, a. split; [done|]. split; [done|]. split; [apply sameStates_refl|].
    split_and!; try done. intros e. split; [|by intros [? _]]. intros He. split; [done|apply not_elem_of_nil].
  - apply NoDup_cons in Hnd as [Hne Hnd].
    assert (e ∈ edges a) as He by (apply Hin; left).
    destruct (coherent_deleteEdge_total σ a e Hco He) as (dm & tg & Hdm & Htg).
    pose proof (deleteEdge_eq e σ a dm tg Hdm Htg) as Hrun.
    pose proof (coherent_edgeDeleted σ a e dm tg Hco He Hdm Htg) as Hq.
    destruct (edgeDeleted σ a e dm tg) as [σ1 a1] eqn:Hqeq. cbn [fst snd] in *.
    assert (states a1 = states a ∧ stateNameMap a1 = stateNameMap a
            ∧ alphabet a1 = alphabet a ∧ edges a1 = JsSet.delete e (edges a))
      as (Hst1 & Hmap1 & Hal1 & Hed1).
    { unfold edgeDeleted in Hqeq. injection Hqeq as _ <-. done. }
    assert (sameStates σ σ1) as Hsame.
    { pose proof (sameStates_edgeDeleted σ a e dm tg) as H. by rewrite Hqeq in H. }
    destruct (IH σ1 a1 Hq Hnd) as (τ & b & Hrun' & Hco' & Hsame' & Hst & Hmap & Hal & Hed).
    { intros e' He'. rewrite Hed1. apply elem_of_JsSet_delete. split; [apply Hin; by right|].
      intros ->. done. }
    exists τ, b. split.
    { simpl. unfold bind. rewrite Hrun. exact Hrun'. }
    split_and!; try congruence; [by eapply sameStates_trans|].
    intros e'. rewrite Hed, Hed1, elem_of_JsSet_delete, not_elem_of_cons. tauto.
Qed.

Lemma deleteState_steps state σ a s :
  coherent σ a → NamesInv (σ, a) → ownRef a state →
  NoDup (edgesIn (st σ s)) → NoDup (edgesOut (st σ s)) →
  Automaton.getState a state = Some s →
  ∃ τ b, Automaton.deleteState state (σ, a) = ((τ, b), Ok tt)
    ∧ coherent τ b ∧ NamesInv (τ, b)
    ∧ (∀ x, x ∈ states b ↔ x ∈ states a ∧ x ≠ s)
    ∧ (∀ x d y, step b x d y ↔ step a x d y ∧ x ≠ s ∧ y ≠ s)
    ∧ Automaton.getStateByName b (sname (st σ s)) = None
    ∧ (∀ x, sname (st τ x) = sname (st σ x) ∧ sstart (st τ x) = sstart (st σ x)
            ∧ sfinal (st τ x) = sfinal (st σ x)).
Proof.
  intros Hco Hinv Hown Hndi Hndo Hs.
  assert (s ∈ states a) as Hsa by (by apply (coherent_getState (σ, a) state)).
  destruct (deleteEdges_spec (edgesIn (st σ s)) σ a Hco Hndi)
    as (σ1 & a1 & Hrun1 & Hco1 & Hsame1 & Hst1 & Hmap1 & Hal1 & Hed1).
  { intros e He. by apply (co_in _ _ Hco s e Hsa) in He as [? _]. }
  assert (s ∈ states a1) as Hsa1 by (by rewrite Hst1).
  destruct (deleteEdges_spec (edgesOut (st σ1 s)) σ1 a1 Hco1)
    as (σ2 & a2 & Hrun2 & Hco2 & Hsame2 & Hst2 & Hmap2 & Hal2 & Hed2).
  { destruct Hsame1 as (_ & _ & _ & Ho & _). by apply Ho. }
  { intros e He. by apply (co_out _ _ Hco1 s e Hsa1) in He as [? _]. }
  pose proof (sameStates_trans _ _ _ Hsame1 Hsame2) as (Hlen & Heds & Hfl & _ & _).
  assert (∀ e, ed σ2 e = ed σ e) as Hed by (intros e; unfold ed; by rewrite Heds).
  assert (∀ e, ed σ1 e = ed σ e) as Hed'.
  { intros e. destruct Hsame1 as (_ & He & _). unfold ed. by rewrite He. }
  assert (∀ e, e ∈ edges a2
               ↔ e ∈ edges a ∧ source (ed σ e) ≠ s ∧ sink (ed σ e) ≠ s) as Hedges.
  { intros e. rewrite Hed2, Hed1. rewrite (co_out _ _ Hco1 s e Hsa1), Hed1, Hed'.
    rewrite (co_in _ _ Hco s e Hsa). split.
    - intros [[He Hni] Hno].
      assert (sink (ed σ e) ≠ s) as Hsnk by (intros Hsnk; apply Hni; by split).
      split_and!; [done| |done].
      intros Hsrc. apply Hno. split; [|done]. split; [done|]. by intros [_ ?].
    - intros (He & Hsrc & Hsnk). split; [split; [done|]|]; by intros [_ ?]. }
  set (b := set_states (JsSet.delete s (states a2))
              (set_stateNameMap (delete (sname (st σ2 s)) (stateNameMap a2)) a2)).
  assert (Automaton.deleteState state (σ, a) = ((σ2, b), Ok tt)) as Hrun.
  { unfold Automaton.deleteState. unfold bind at 1, getThis, gets. cbn [fst snd].
    rewrite Hs. unfold bind at 1, getStore, gets. cbn [fst snd].
    unfold bind at 1. rewrite Hrun1.
    unfold bind at 1, gets. cbn [fst snd].
    unfold bind at 1. rewrite Hrun2.
    unfold bind at 1, gets. cbn [fst snd]. done. }
  assert (NamesInv (σ2, b)) as Hinv'.
  { pose proof (NamesInv_deleteState state (σ, a)) as H. rewrite Hrun in H.
    apply H; [|done]. intros s' ->. simpl in Hs. injection Hs as ->. done. }
  assert (∀ x, x ∈ states b ↔ x ∈ states a ∧ x ≠ s) as Hstates.
  { intros x. unfold b. cbn [states set_states set_stateNameMap].
    by rewrite elem_of_JsSet_delete, Hst2, Hst1. }
  assert (∀ x d y, step a2 x d y ↔ step a x d y ∧ x ≠ s ∧ y ≠ s) as Hsteps.
  { intros x d y. rewrite (co_delta _ _ Hco2), (co_delta _ _ Hco). split.
    - intros (e & [He [Hsrc Hsnk]]%Hedges & H1 & H2 & H3).
      rewrite Hed in H1, H2, H3. split_and!; [by exists e|congruence|congruence].
    - intros ((e & He & H1 & H2 & H3) & Hx & Hy). exists e. rewrite Hed.
      split_and!; try done. apply Hedges. split_and!; congruence. }
  exists σ2, b. split; [done|]. split_and!; try done.
  - destruct Hco2 as [Hnd2 Hv2 Hm2 Ha2 He2 Hu2 Ho2 Hi2 Hd2]. split.
    + by apply NoDup_JsSet_delete.
    + intros x [Hx _]%elem_of_JsSet_delete. by apply Hv2.
    + intros k x Hk. by apply (ni_map _ Hinv') in Hk as [? _].
    + done.
    + intros e He. destruct (He2 e He) as (? & Hsrc & Hsnk & ?).
      apply Hedges in He as (_ & ? & ?). rewrite Hed in *.
      split_and!; try done; apply elem_of_JsSet_delete; done.
    + done.
    + intros x e [Hx _]%elem_of_JsSet_delete. by apply Ho2.
    + intros x e [Hx _]%elem_of_JsSet_delete. by apply Hi2.
    + done.
  - unfold b, Automaton.getStateByName. cbn [stateNameMap set_states set_stateNameMap].
    destruct (Hfl s) as (<- & _). apply lookup_delete_eq.
Qed.

(** X28: on a coherent automaton whose states are indexed under their names,
    [deleteState] of one of its states completes and removes the state, its
    name and exactly the transitions from and to it; the automaton stays
    coherent and indexed, and the names and flags of all states are left as
    they were. *)
Theorem deleteState_spec state σ a s :
  coherent σ a → NamesInv (σ, a) → ownRef a state →
  NoDup (edgesIn (st σ s)) → NoDup (edgesOut (st σ s)) →
  Automaton.getState a state = Some s →
  ∃ τ b, Automaton.deleteState state (σ, a) = ((τ, b), Ok tt)
    ∧ coherent τ b ∧ NamesInv (τ, b)
    ∧ (∀ x, x ∈ states b ↔ x ∈ states a ∧ x ≠ s)
    ∧ (∀ x d y, step b x d y ↔ step a x d y ∧ x ≠ s ∧ y ≠ s)
    ∧ Automaton.getStateByName b (sname (st σ s)) = None
    ∧ (∀ x, sname (st τ x) = sname (st σ x) ∧ sstart (st τ x) = sstart (st σ x)
            ∧ sfinal (st τ x) = sfinal (st σ x)).
Proof. apply deleteState_steps. Qed.

Lemma deleteState_spec_witness :
  ∃ τ b, Automaton.deleteState (ByName "1") (endsWithA.1, endsWithA.2) = ((τ, b), Ok tt)
    ∧ coherent τ b ∧ NamesInv (τ, b)
    ∧ (∀ x, x ∈ states b ↔ x ∈ states endsWithA.2 ∧ x ≠ 1)
    ∧ (∀ x d y, step b x d y ↔ step endsWithA.2 x d y ∧ x ≠ 1 ∧ y ≠ 1)
    ∧ Automaton.getStateByName b (sname (st endsWithA.1 1)) = None
    ∧ (∀ x, sname (st τ x) = sname (st endsWithA.1 x)
            ∧ sstart (st τ x) = sstart (st endsWithA.1 x)
            ∧ sfinal (st τ x) = sfinal (st endsWithA.1 x)).
Proof.
  apply (deleteState_spec (ByName "1") endsWithA.1 endsWithA.2 1).
  - apply endsWithA_coherent.
  - assert (NamesInv endsWithA) as H; [|by destruct endsWithA].
    apply NamesInv_execAll; [|apply NamesInv_new]. simpl. by split_and!.
  - exact I.
  - apply (bool_decide_unpack _). vm_compute. reflexivity.
  - apply (bool_decide_unpack _). vm_compute. reflexivity.
  - reflexivity.
Defined.

(** ** [complete] *)

(** A loop over a list that grows while it is read, of at most [bound]
    elements. *)
Lemma hoare_foldlLive {T A B} (I : nat → B → T → Prop) (cur : T → list A)
    (f : B → A → M T B) (bound : nat) :
  (∀ i b t, I i b t → length (cur t) ≤ bound) →
  (∀ i b x, hoare (λ t, I i b t ∧ cur t !! i = Some x) (f b x) (λ b' t', I (S i) b' t')) →
  ∀ fuel i b, bound - i < fuel →
    hoare (I i b) (foldlLive fuel cur i f b)
      (λ b' t', ∃ j, I j b' t' ∧ length (cur t') ≤ j).
Proof.
  intros Hb Hf. induction fuel as [|fuel IH]; intros i b Hfuel; [lia|].
  intros t Ht. simpl. unfold bind at 1, gets. cbn [fst snd].
  destruct (cur t !! i) as [x|] eqn:Hx.
  - destruct (Hf i b x t) as (t' & b' & Hrun & HI); [done|].
    unfold bind. rewrite Hrun.
    apply (IH (S i) b'); [|done].
    apply lookup_lt_Some in Hx. pose proof (Hb i b t Ht). lia.
  - exists t, b. split; [done|]. exists i. split; [done|]. by apply lookup_ge_None.
Qed.

(** [addState] with a name that is not indexed makes a new state. *)
Lemma addState_fresh name start final σ a :
  coherent σ a → stateNameMap a !! name = None →
  ∃ q, Automaton.addState name start final NoTag false (σ, a) = (q, Ok (length (sts σ)))
    ∧ coherent q.1 q.2 ∧ storeExt σ q.1
    ∧ states q.2 = states a ++ [length (sts σ)]
    ∧ (length (sts σ) ∉ states a)
    ∧ alphabet q.2 = alphabet a ∧ deltaMap q.2 = deltaMap a
    ∧ stateNameMap q.2 = <[name := length (sts σ)]> (stateNameMap a)
    ∧ sstart (st q.1 (length (sts σ))) = start
    ∧ sfinal (st q.1 (length (sts σ))) = final.
Proof.
  intros Hco Hn.
  pose proof (coherent_addState name start final NoTag false σ a Hco) as Hq.
  rewrite addState_eq, Hn in *. cbn [fst snd] in Hq.
  assert (length (sts σ) ∉ states a) as Hfresh.
  { intros H%(co_states _ _ Hco). lia. }
  eexists. split; [done|]. cbn [fst snd]. split_and!; try done.
  - apply storeExt_alloc.
  - cbn [states set_stateNameMap set_states]. unfold JsSet.add.
    by rewrite decide_False.
  - by rewrite st_alloc_new.
  - by rewrite st_alloc_new.
Qed.

(** [addEdge] between two states of the automaton, given as objects. *)
Lemma addEdge_obj f t c σ a :
  coherent σ a → f ∈ states a → t ∈ states a → c ∈ alphabet a →
  ∃ q e, Automaton.addEdge (ByObj f) (ByObj t) c (σ, a) = (q, Ok e)
    ∧ coherent q.1 q.2 ∧ storeExt σ q.1
    ∧ states q.2 = states a ∧ stateNameMap q.2 = stateNameMap a
    ∧ alphabet q.2 = alphabet a
    ∧ (∀ x d y, step q.2 x d y ↔ step a x d y ∨ (x = f ∧ d = c ∧ y = t)).
Proof.
  intros Hco Hf Ht Hc.
  destruct (addEdge_spec_aux (ByObj f) (ByObj t) c σ a f t Hco)
    as (q & e & Hrun & Hq & _ & _ & _ & _ & _ & _ & Hst & Hmap & Hstep & _); try done.
  exists q, e. split; [done|]. split_and!; try done.
  - apply addEdge_Ok_inv in Hrun as (f' & t' & _ & _ & [[_ ->]|(_ & _ & dm & _ & ->)]).
    + reflexivity.
    + apply storeExt_linkEdge.
  - apply addEdge_Ok_inv in Hrun as (f' & t' & _ & _ & [[_ ->]|(_ & _ & dm & _ & ->)]);
      done.
Qed.

(** The names that [reduce] indexes are names of states of the original. *)
Lemma reduce_keys σ a :
  coherent σ a → namesDistinct σ a →
  (∀ s, s ∈ states a → marked (st σ s) = false) →
  ∃ τ ar, Automaton.reduce a σ = (τ, Ok ar)
    ∧ ∀ k, is_Some (stateNameMap ar !! k) → ∃ v, v ∈ states a ∧ sname (st σ v) = k.
Proof.
  intros Hco Hnames Hclean. unfold Automaton.reduce. set (ar := Automaton.new _ _).
  rewrite (bind_Ok get _ σ σ σ) by done.
  case_decide as Hemp.
  { exists σ, ar. split; [done|]. intros k [s Hs]. simpl in Hs.
    by rewrite lookup_empty in Hs. }
  destruct (reduce_searches σ a Hco Hnames Hclean)
    as (σ1 & aRev & σ2 & σ3 & Hrev & Hd1 & Hd2 & Hext & Hreach & Hcoreach).
  rewrite (bind_Ok _ _ _ _ _ Hrev).
  rewrite (bind_Ok get _ σ1 σ1 σ1) by done.
  rewrite (bind_Ok _ _ _ _ _ Hd1).
  rewrite (bind_Ok get _ σ2 σ2 σ2) by done.
  rewrite (bind_Ok _ _ _ _ _ Hd2).
  destruct (reduce_loops σ a aRev σ3 Hco Hnames Hext) with (name := "reduced of " +:+ aname a)
    as ([τ b] & Hrun & Hmi & Hse & Hal & Hlen).
  { intros v Hv. destruct (Hcoreach v Hv) as (r & Hr & Hrv & _). by exists r. }
  cbn [fst snd] in *.
  exists τ, b. split.
  { unfold bind at 1. unfold on. cbv zeta. fold ar in Hrun. rewrite Hrun. done. }
  intros k Hk. apply (mi_keys _ _ _ _ _ _ Hmi) in Hk as (v & [_ Hv]%list_elem_of_filter & Hkey).
  by exists v.
Qed.

Section completing.
(** The reduced automaton that [complete] starts from. *)
Variable τ0 : Store.
Variable ar : Automaton.
Hypothesis Hco0 : coherent τ0 ar.

Definition errList (err : option StateId) : list StateId :=
  match err with Some e => [e] | None => [] end.

(** The automaton while it is completed: the states of [ar] and, once it has
    been made, the error state [err], which is neither a start state nor
    final; the transitions of [ar] and new ones that lead to [err]. *)
Record completing (err : option StateId) (p : Store * Automaton) : Prop := mkCompleting {
  cg_coherent : coherent p.1 p.2;
  cg_ext : storeExt τ0 p.1;
  cg_alpha : alphabet p.2 = alphabet ar;
  cg_states : states p.2 = states ar ++ errList err;
  cg_err : ∀ e, err = Some e →
    (e ∉ states ar) ∧ sstart (st p.1 e) = false ∧ sfinal (st p.1 e) = false;
  cg_noerr : err = None → stateNameMap p.2 !! "err" = None;
  cg_old : ∀ x c y, step ar x c y → step p.2 x c y;
  cg_new : ∀ x c y, step p.2 x c y → step ar x c y ∨ err = Some y
}.

(** Facts about the transitions that more transitions do not undo. *)
Definition monotone (M : Store * Automaton → Prop) : Prop :=
  ∀ p q, (∀ x d y, step p.2 x d y → step q.2 x d y) → M p → M q.

Definition errLoops (cs : list ascii) (err : option StateId)
    (p : Store * Automaton) : Prop :=
  ∀ e c, err = Some e → c ∈ cs → step p.2 e c e.

Definition hasStep (s : StateId) (cs : list ascii) (p : Store * Automaton) : Prop :=
  ∀ c, c ∈ cs → ∃ y, step p.2 s c y.

Definition completedTo (i : nat) (l : list StateId) (p : Store * Automaton) : Prop :=
  ∀ j x, j < i → l !! j = Some x → hasStep x (alphabet ar) p.

Lemma monotone_errLoops cs err : monotone (errLoops cs err).
Proof. intros p q Hpq H e c He Hc. by apply Hpq, H. Qed.

Lemma monotone_hasStep s cs : monotone (hasStep s cs).
Proof. intros p q Hpq H c Hc. destruct (H c Hc) as [y Hy]. exists y. by apply Hpq. Qed.

Lemma monotone_completedTo i l : monotone (completedTo i l).
Proof. intros p q Hpq H j x Hj Hx. by apply (monotone_hasStep x _ p q Hpq), (H j x). Qed.

Lemma monotone_and M N : monotone M → monotone N → monotone (λ p, M p ∧ N p).
Proof. intros HM HN p q Hpq [? ?]. split; [by eapply HM|by eapply HN]. Qed.

(** An edge to the error state. *)
Lemma completing_addEdge e s c p :
  completing (Some e) p → s ∈ states p.2 → c ∈ alphabet ar →
  ∃ q x, Automaton.addEdge (ByObj s) (ByObj e) c p = (q, Ok x)
    ∧ completing (Some e) q
    ∧ (∀ x d y, step p.2 x d y → step q.2 x d y)
    ∧ step q.2 s c e.
Proof.
  destruct p as [σ a]. intros [Hco Hext Hal Hst Herr _ Hold Hnew] Hs Hc. cbn [fst snd] in *.
  assert (e ∈ states a) as He by (rewrite Hst; apply elem_of_app; right; left).
  destruct (addEdge_obj s e c σ a Hco Hs He) as (q & x & Hrun & Hq & Hext' & Hst' & Hmap' & Hal' & Hstep).
  { by rewrite Hal. }
  exists q, x. split; [done|]. split_and!.
  - destruct (Herr e eq_refl) as (Hne & Hstart & Hfinal).
    assert (e < length (sts σ)) as Hv by (by apply (co_states _ _ Hco)).
    pose proof Hext' as [Hse _]. split; try done.
    + etrans; [exact Hext|exact Hext'].
    + congruence.
    + congruence.
    + intros e' [= <-]. split_and!; [done|..].
      * by rewrite (se_start _ _ Hse).
      * by rewrite (se_final _ _ Hse).
    + intros x' d y Hxy. apply Hstep. left. by apply Hold.
    + intros x' d y [Hxy|(-> & -> & ->)]%Hstep; [by apply Hnew|by right].
  - intros x' d y Hxy. apply Hstep. by left.
  - apply Hstep. by right.
Qed.

(** The error state. *)
Lemma completing_addErr p :
  completing None p →
  ∃ q e, Automaton.addState "err" false false NoTag false p = (q, Ok e)
    ∧ completing (Some e) q
    ∧ (∀ x d y, step p.2 x d y → step q.2 x d y).
Proof.
  destruct p as [σ a]. intros [Hco Hext Hal Hst _ Hnoerr Hold Hnew]. cbn [fst snd] in *.
  destruct (addState_fresh "err" false false σ a Hco (Hnoerr eq_refl))
    as (q & Hrun & Hq & Hext' & Hst' & Hfresh & Hal' & Hdm & _ & Hstart & Hfinal).
  assert (∀ x d y, step q.2 x d y ↔ step a x d y) as Hstep.
  { intros x d y. by apply step_ext. }
  exists q, (length (sts σ)). split; [done|]. split.
  - split; try done.
    + etrans; [exact Hext|done].
    + congruence.
    + rewrite Hst', Hst. simpl. by rewrite app_nil_r.
    + intros e [= <-]. split_and!; [|done..].
      intros H. apply Hfresh. rewrite Hst. apply elem_of_app. by left.
    + intros x d y Hxy. apply Hstep. by apply Hold.
    + intros x d y Hxy%Hstep. destruct (Hnew x d y Hxy) as [?|[=]]. by left.
  - intros x d y Hxy. by apply Hstep.
Qed.

(** [errorState], made when it is asked for the first time. *)
Lemma complete_getErr err M :
  monotone M →
  hoare (λ p, completing err p ∧ errLoops (alphabet ar) err p ∧ M p)
    (match err with
     | Some e => ret e
     | None =>
         let* e := Automaton.addState "err" false false NoTag false in
         forEach (alphabet ar) (λ se,
           Automaton.addEdge (ByObj e) (ByObj e) se ;; ret tt) ;;
         ret e
     end)
    (λ e q, completing (Some e) q ∧ errLoops (alphabet ar) (Some e) q ∧ M q
            ∧ ∀ e0, err = Some e0 → e = e0).
Proof.
  intros HM. destruct err as [e|].
  - apply hoare_ret. intros p (? & ? & ?). split_and!; try done. by intros e0 [= ->].
  - intros p (Hp & _ & HMp).
    destruct (completing_addErr p Hp) as (q & e & Hrun & Hq & Hmono).
    unfold bind at 1. rewrite Hrun.
    assert (hoare (λ t, completing (Some e) t ∧ errLoops [] (Some e) t ∧ M t)
              (forEach (alphabet ar) (λ se,
                 Automaton.addEdge (ByObj e) (ByObj e) se ;; ret tt))
              (λ _ t, completing (Some e) t ∧ errLoops (alphabet ar) (Some e) t ∧ M t))
      as Hloop.
    { apply (hoare_forEach
               (λ done t, completing (Some e) t ∧ errLoops done (Some e) t ∧ M t)).
      intros done c rest Hsplit t (Ht & Hl & HMt).
      destruct (completing_addEdge e e c t Ht) as (t' & x & Hrun' & Ht' & Hmono' & Hstep).
      { rewrite (cg_states _ _ Ht). apply elem_of_app. right. left. }
      { rewrite Hsplit. apply elem_of_app. right. left. }
      unfold bind. rewrite Hrun'. eexists _, _. split; [done|]. split_and!; [done| |].
      - intros e' c' [= <-] [Hc'| ->%list_elem_of_singleton]%elem_of_app; [|done].
        apply Hmono'. by apply Hl.
      - by apply (HM t t'). }
    destruct (Hloop q) as (t & [] & Hrun' & Ht & Hl & HMt).
    { split_and!; [done| |by apply (HM p q)]. by intros e' c' _ ?%elem_of_nil. }
    unfold bind at 1. rewrite Hrun'. eexists _, _. split; [done|]. split_and!; done.
Qed.

(** One symbol for one state. *)
Lemma complete_symbol err s sym M :
  monotone M → sym ∈ alphabet ar →
  hoare (λ p, completing err p ∧ errLoops (alphabet ar) err p ∧ M p ∧ s ∈ states p.2)
    (let* aResult := getThis in
     if decide (length (Automaton.delta aResult s (Some sym)) = 0) then
       let* errorState :=
         match err with
         | Some e => ret e
         | None =>
             let* e := Automaton.addState "err" false false NoTag false in
             forEach (alphabet aResult) (λ se,
               Automaton.addEdge (ByObj e) (ByObj e) se ;; ret tt) ;;
             ret e
         end in
       Automaton.addEdge (ByObj s) (ByObj errorState) sym ;;
       ret (Some errorState)
     else ret err)
    (λ err' q, completing err' q ∧ errLoops (alphabet ar) err' q ∧ M q
               ∧ s ∈ states q.2 ∧ hasStep s [sym] q
               ∧ ∀ e0, err = Some e0 → err' = Some e0).
Proof.
  intros HM Hsym p (Hp & Hl & HMp & Hs).
  unfold bind at 1, getThis, gets. cbn [fst snd].
  case_decide as Hdelta.
  - rewrite (cg_alpha _ _ Hp).
    destruct (complete_getErr err M HM p) as (q & e & Hrun & Hq & Hlq & HMq & Hpers);
      [by split_and!|].
    assert (s ∈ states q.2) as Hsq.
    { rewrite (cg_states _ _ Hq). rewrite (cg_states _ _ Hp) in Hs.
      apply elem_of_app in Hs as [?|Hs]; apply elem_of_app; [by left|right].
      destruct err as [e0|]; [|by apply elem_of_nil in Hs].
      by rewrite (Hpers e0 eq_refl). }
    unfold bind at 1. rewrite Hrun.
    destruct (completing_addEdge e s sym q Hq Hsq Hsym) as (t & x & Hrun' & Ht & Hmono & Hstep).
    unfold bind. rewrite Hrun'. eexists _, _. split; [done|]. split_and!; try done.
    + by apply (monotone_errLoops _ _ q t).
    + by apply (HM q t).
    + by rewrite (cg_states _ _ Ht), <- (cg_states _ _ Hq).
    + intros c ->%list_elem_of_singleton. by exists e.
    + intros e0 He0. by rewrite (Hpers e0 He0).
  - eexists _, _. split; [done|]. split_and!; try done.
    intros c ->%list_elem_of_singleton.
    destruct (Automaton.delta p.2 s (Some sym)) as [|y l] eqn:Hd; [done|].
    exists y. apply elem_of_delta. rewrite Hd. left.
Qed.

(** All symbols for one state. *)
Lemma complete_state err s M :
  monotone M →
  hoare (λ p, completing err p ∧ errLoops (alphabet ar) err p ∧ M p ∧ s ∈ states p.2)
    (foldlM (λ errorState sym,
       let* aResult := getThis in
       if decide (length (Automaton.delta aResult s (Some sym)) = 0) then
         let* errorState :=
           match errorState with
           | Some e => ret e
           | None =>
               let* e := Automaton.addState "err" false false NoTag false in
               forEach (alphabet aResult) (λ se,
                 Automaton.addEdge (ByObj e) (ByObj e) se ;; ret tt) ;;
               ret e
           end in
         Automaton.addEdge (ByObj s) (ByObj errorState) sym ;;
         ret (Some errorState)
       else ret errorState) err (alphabet ar))
    (λ err' q, completing err' q ∧ errLoops (alphabet ar) err' q ∧ M q
               ∧ hasStep s (alphabet ar) q
               ∧ ∀ e0, err = Some e0 → err' = Some e0).
Proof.
  intros HM.
  pose (I := λ (done : list ascii) (err' : option StateId) (q : Store * Automaton),
               completing err' q ∧ errLoops (alphabet ar) err' q ∧ M q
               ∧ s ∈ states q.2 ∧ hasStep s done q
               ∧ ∀ e0, err = Some e0 → err' = Some e0).
  apply (hoare_conseq _ (I [] err) _ _ (λ err', I (alphabet ar) err')).
  - apply (hoare_foldlM I).
    intros done sym rest err1 Hsplit p (Hp & Hl & HMp & Hs & Hst & Hpers).
    destruct (complete_symbol err1 s sym (λ t, M t ∧ hasStep s done t)) with (t := p)
      as (q & err2 & Hrun & Hq & Hlq & [HMq Hstq] & Hsq & Hnew & Hpers').
    + apply monotone_and; [done|apply monotone_hasStep].
    + rewrite Hsplit. apply elem_of_app. right. left.
    + by split_and!.
    + exists q, err2. split; [done|]. unfold I. split_and!; try done.
      * intros c [Hc| ->%list_elem_of_singleton]%elem_of_app; [by apply Hstq|].
        apply Hnew. left.
      * intros e0 He0. by apply Hpers', Hpers.
  - intros p (? & ? & ? & ?). unfold I. split_and!; try done. by intros c ?%elem_of_nil.
  - intros err' q (? & ? & ? & ? & ? & ?). by split_and!.
Qed.

(** The loop over the states, those added on the way included. *)
Lemma complete_loop fuel :
  length (states ar) + 1 < fuel →
  hoare (completing None)
    (foldlLive fuel (λ p, states p.2) 0
       (λ errorState s,
          foldlM (λ errorState sym,
            let* aResult := getThis in
            if decide (length (Automaton.delta aResult s (Some sym)) = 0) then
              let* errorState :=
                match errorState with
                | Some e => ret e
                | None =>
                    let* e := Automaton.addState "err" false false NoTag false in
                    forEach (alphabet aResult) (λ se,
                      Automaton.addEdge (ByObj e) (ByObj e) se ;; ret tt) ;;
                    ret e
                end in
              Automaton.addEdge (ByObj s) (ByObj errorState) sym ;;
              ret (Some errorState)
            else ret errorState) errorState (alphabet ar))
       None)
    (λ err q, completing err q
              ∧ ∀ x, x ∈ states q.2 → hasStep x (alphabet ar) q).
Proof.
  intros Hfuel.
  pose (I := λ (i : nat) (err : option StateId) (p : Store * Automaton),
               completing err p ∧ errLoops (alphabet ar) err p
               ∧ completedTo i (states p.2) p).
  eapply hoare_conseq.
  - apply (hoare_foldlLive I (λ p, states p.2) _ (length (states ar) + 1)).
    + intros i err p (Hp & _). rewrite (cg_states _ _ Hp), length_app.
      destruct err; simpl; lia.
    + intros i err s t [(Ht & Hl & Hc) Hs]. cbn beta in Hs.
      destruct (complete_state err s (completedTo i (states t.2))) with (t := t)
        as (q & err' & Hrun & Hq & Hlq & Hcq & Hsq & Hpers).
      * apply monotone_completedTo.
      * split_and!; try done. by eapply list_elem_of_lookup_2.
      * exists q, err'. split; [done|]. unfold I. split_and!; try done.
        assert (∃ k, states q.2 = states t.2 ++ k) as [k Hk].
        { rewrite (cg_states _ _ Hq), (cg_states _ _ Ht). destruct err as [e0|].
          - exists []. by rewrite (Hpers e0 eq_refl), app_nil_r.
          - exists (errList err'). simpl. by rewrite app_nil_r. }
        intros j x Hj Hx. apply lookup_lt_Some in Hs as Hlt.
        rewrite Hk, lookup_app_l in Hx by lia.
        destruct (decide (j = i)) as [->|Hne].
        -- rewrite Hs in Hx. by injection Hx as <-.
        -- apply (Hcq j x); [lia|done].
    + lia.
  - intros p Hp. unfold I. split_and!; [done| |].
    + by intros e c [=].
    + intros j x Hj. lia.
  - intros err q (j & (Hq & Hl & Hc) & Hlen). split; [done|].
    intros x (idx & Hidx)%list_elem_of_lookup. apply (Hc idx x); [|done].
    apply lookup_lt_Some in Hidx. lia.
Qed.

(** A run that does not end in the error state is a run of [ar]. *)
Lemma completing_run err p s w t :
  completing err p → run p.2 s w t → err ≠ Some t → run ar s w t.
Proof.
  intros Hp Hrun Ht.
  assert (∀ e w' u, err = Some e → run p.2 e w' u → u = e) as Hstay.
  { intros e w' u He. remember e as x eqn:Hx. intros Hr. revert Hx.
    induction Hr as [x|x c y w' u Hxy Hr IH]; intros ->; [done|].
    destruct (cg_new _ _ Hp _ _ _ Hxy) as [Har|Hy].
    - exfalso. destruct (cg_err _ _ Hp e He) as (Hne & _). apply Hne.
      apply (co_delta _ _ Hco0) in Har as (ed0 & He0 & <- & _).
      by apply (co_edges _ _ Hco0).
    - assert (y = e) as -> by congruence. by apply IH. }
  induction Hrun as [x|x c y w' u Hxy Hr IH]; [constructor|].
  destruct (cg_new _ _ Hp _ _ _ Hxy) as [Har|Hy].
  - econstructor; [done|]. by apply IH.
  - exfalso. apply Ht. rewrite Hy. f_equal. symmetry. by apply (Hstay y w').
Qed.

Lemma completing_accepts err τ b word :
  completing err (τ, b) → Automaton.accepts τ b word = Automaton.accepts τ0 ar word.
Proof.
  intros Hp. apply eq_true_iff_eq. rewrite !accepts_iff.
  pose proof (cg_ext _ _ Hp) as [Hse _]. pose proof (cg_states _ _ Hp) as Hstates.
  cbn [fst snd] in *.
  assert (∀ x, x ∈ states ar → sstart (st τ x) = sstart (st τ0 x)
                               ∧ sfinal (st τ x) = sfinal (st τ0 x)) as Hfl.
  { intros x Hx%(co_states _ _ Hco0). by rewrite (se_start _ _ Hse), (se_final _ _ Hse). }
  assert (∀ x, x ∈ states b → sstart (st τ x) = true ∨ sfinal (st τ x) = true →
            x ∈ states ar ∧ err ≠ Some x) as Hold.
  { intros x Hx Hflag. rewrite Hstates in Hx.
    assert (err ≠ Some x) as Hne.
    { intros He. destruct (cg_err _ _ Hp x He) as (_ & H1 & H2). cbn [fst] in *.
      destruct Hflag; congruence. }
    split; [|done]. apply elem_of_app in Hx as [?|Hx]; [done|].
    destruct err as [e|]; [|by apply elem_of_nil in Hx].
    apply list_elem_of_singleton in Hx. congruence. }
  split.
  - intros (s & t & Hs & Hst & Hrun & Hfin).
    assert (t ∈ states b) as Ht.
    { eapply (coherent_run_states τ b s); [exact (cg_coherent _ _ Hp)|done|exact Hrun]. }
    destruct (Hold s Hs) as [Hs' _]; [by left|].
    destruct (Hold t Ht) as [Ht' Hne]; [by right|].
    exists s, t. split_and!; try done.
    + by rewrite <- (proj1 (Hfl s Hs')).
    + by apply (completing_run err (τ, b)).
    + by rewrite <- (proj2 (Hfl t Ht')).
  - intros (s & t & Hs & Hst & Hrun & Hfin).
    assert (t ∈ states ar) as Ht.
    { eapply (coherent_run_states τ0 ar s); [exact Hco0|done|exact Hrun]. }
    exists s, t. split_and!.
    + rewrite Hstates. apply elem_of_app. by left.
    + by rewrite (proj1 (Hfl s Hs)).
    + clear Hs Hst Ht Hfin. induction Hrun as [x|x c y w' u Hxy Hr IH]; [constructor|].
      econstructor; [|done]. by apply (cg_old _ _ Hp).
    + by rewrite (proj2 (Hfl t Ht)).
Qed.

End completing.

(** The automaton made for a reduced automaton without states: the state 0
    with a loop on every symbol. *)
Lemma complete_empty τ0 ar :
  coherent τ0 ar → states ar = [] →
  ∃ τ b,
    on ar (
      let* startState := Automaton.addState "0" true false NoTag false in
      forEach (alphabet ar) (λ s,
        Automaton.addEdge (ByObj startState) (ByObj startState) s ;; ret tt)) τ0
    = (τ, Ok (b, tt))
    ∧ coherent τ b ∧ alphabet b = alphabet ar ∧ states b ≠ []
    ∧ (∀ x, x ∈ states b → hasStep x (alphabet ar) (τ, b))
    ∧ ∀ word, Automaton.accepts τ b word = false.
Proof.
  intros Hco Hemp.
  assert (stateNameMap ar !! "0" = None) as Hnew.
  { destruct (stateNameMap ar !! "0") as [s|] eqn:Hs; [|done].
    apply (co_map _ _ Hco) in Hs. rewrite Hemp in Hs. by apply elem_of_nil in Hs. }
  destruct (addState_fresh "0" true false τ0 ar Hco Hnew)
    as (q & Hadd & Hq & _ & Hst & _ & Hal & _ & _ & _ & Hfinal).
  set (e := length (sts τ0)) in *. rewrite Hemp in Hst. simpl in Hst.
  pose (I := λ (done : list ascii) (t : Store * Automaton),
               coherent t.1 t.2 ∧ states t.2 = [e] ∧ alphabet t.2 = alphabet ar
               ∧ sfinal (st t.1 e) = false ∧ hasStep e done t).
  assert (hoare (I [])
            (forEach (alphabet ar) (λ s,
               Automaton.addEdge (ByObj e) (ByObj e) s ;; ret tt))
            (λ _, I (alphabet ar))) as Hloop.
  { apply (hoare_forEach I). intros done c rest Hsplit [σ a] (Ht & Hs & Ha & Hf & Hd).
    cbn [fst snd] in *.
    assert (e ∈ states a) as He by (rewrite Hs; left).
    destruct (addEdge_obj e e c σ a Ht He He)
      as (t' & x & Hrun & Ht' & [Hse _] & Hs' & _ & Ha' & Hstep).
    { rewrite Ha, Hsplit. apply elem_of_app. right. left. }
    unfold bind. rewrite Hrun. eexists _, _. split; [done|]. unfold I. split_and!.
    - done.
    - congruence.
    - congruence.
    - rewrite (se_final _ _ Hse); [done|]. by apply (co_states _ _ Ht).
    - intros c' [Hc'| ->%list_elem_of_singleton]%elem_of_app.
      + destruct (Hd c' Hc') as [y Hy]. exists y. apply Hstep. by left.
      + exists e. apply Hstep. by right. }
  destruct (Hloop q) as ([τ b] & [] & Hrun & Hb & Hs & Ha & Hf & Hd).
  { unfold I. split_and!; try done. by intros c ?%elem_of_nil. }
  cbn [fst snd] in *.
  exists τ, b. split.
  { unfold on, bind at 1. rewrite Hadd. by rewrite Hrun. }
  split_and!; try done.
  - by rewrite Hs.
  - intros x Hx. rewrite Hs in Hx. by apply list_elem_of_singleton in Hx as ->.
  - intros word. apply not_true_is_false. rewrite accepts_iff.
    intros (s & t & Hs' & _ & Hr & Hfin).
    assert (t ∈ states b) as Ht.
    { eapply (coherent_run_states τ b s); [exact Hb|done|exact Hr]. }
    rewrite Hs in Ht. apply list_elem_of_singleton in Ht as ->. congruence.
Qed.

(** X29: from unmarked states, [complete ()] of a coherent automaton with
    pairwise distinct state names, none of them err, completes and returns a
    coherent automaton over the same alphabet that has a state, that has a
    transition from every state on every symbol of the alphabet, and that
    accepts the same words. *)
Theorem complete_language σ a :
  coherent σ a → namesDistinct σ a →
  (∀ s, s ∈ states a → marked (st σ s) = false) →
  (∀ s, s ∈ states a → sname (st σ s) ≠ "err") →
  ∃ τ b, Automaton.complete a σ = (τ, Ok b)
    ∧ coherent τ b ∧ alphabet b = alphabet a ∧ states b ≠ []
    ∧ (∀ s c, s ∈ states b → c ∈ alphabet b → ∃ t, step b s c t)
    ∧ ∀ word, Automaton.accepts τ b word = Automaton.accepts σ a word.
Proof.
  intros Hco Hnames Hclean Hnoerr.
  destruct (reduce_language_aux σ a Hco Hnames Hclean)
    as (τ0 & ar & Hred & Hco0 & Hal0 & _ & Hlang).
  destruct (reduce_keys σ a Hco Hnames Hclean) as (τ0' & ar' & Hred' & Hkeys).
  rewrite Hred in Hred'. injection Hred' as <- <-.
  unfold Automaton.complete. rewrite (bind_Ok _ _ _ _ _ Hred).
  case_decide as Hemp.
  - apply nil_length_inv in Hemp.
    destruct (complete_empty τ0 ar Hco0 Hemp) as (τ & b & Hrun & Hb & Hal & Hne & Hsteps & Hno).
    exists τ, b. split.
    { unfold bind at 1. by rewrite Hrun. }
    split_and!; try done.
    + congruence.
    + intros s c Hs Hc. apply (Hsteps s Hs). by rewrite <- Hal.
    + intros word. rewrite Hno, <- Hlang. symmetry. apply not_true_is_false.
      rewrite accepts_iff. intros (s & _ & Hs & _). rewrite Hemp in Hs.
      by apply elem_of_nil in Hs.
  - assert (completing τ0 ar None (τ0, ar)) as H0.
    { split; cbn [fst snd]; try done.
      - by rewrite app_nil_r.
      - intros _. destruct (stateNameMap ar !! "err") as [s|] eqn:Hs; [|done].
        destruct (Hkeys "err") as (v & Hv & Hname); [by exists s|].
        by destruct (Hnoerr v Hv).
      - by left. }
    destruct (complete_loop τ0 ar (2 + length (states ar))) with (t := (τ0, ar))
      as ([τ b] & err & Hrun & Hq & Hsteps); [lia|done|].
    exists τ, b. split.
    { unfold bind at 1. unfold on. by rewrite Hrun. }
    pose proof (cg_states _ _ _ _ Hq) as Hst. pose proof (cg_alpha _ _ _ _ Hq) as Hal.
    cbn [fst snd] in *.
    split_and!.
    + apply (cg_coherent _ _ _ _ Hq).
    + congruence.
    + rewrite Hst. destruct (states ar); [done|]. done.
    + intros s c Hs Hc. apply (Hsteps s Hs). by rewrite <- Hal.
    + intros word. rewrite <- Hlang. by apply (completing_accepts τ0 ar Hco0 err).
Qed.

Lemma complete_language_witness :
  ∃ τ b, Automaton.complete endsWithA.2 endsWithA.1 = (τ, Ok b)
    ∧ coherent τ b ∧ alphabet b = alphabet endsWithA.2 ∧ states b ≠ []
    ∧ (∀ s c, s ∈ states b → c ∈ alphabet b → ∃ t, step b s c t)
    ∧ ∀ word, Automaton.accepts τ b word = Automaton.accepts endsWithA.1 endsWithA.2 word.
Proof.
  apply (complete_language endsWithA.1 endsWithA.2); try apply endsWithA_coherent.
  - intros s Hs%list_elem_of_In. vm_compute in Hs.
    destruct Hs as [<-|[<-|[]]]; reflexivity.
  - intros s Hs%list_elem_of_In. vm_compute in Hs.
    destruct Hs as [<-|[<-|[]]]; vm_compute; discriminate.
Defined.

(** The name err must be free: [complete] takes a state of that name for its
    error state.  For the automaton whose only state, start and final, is
    named err, it adds the loops to that state, and the result accepts every
    word where the original accepts the empty word only. *)
Lemma complete_state_named_err :
  let p := execAll [OpAddState "err" true true NoTag false]
             (emptyStore, Automaton.new "A" "ab") in
  ∃ τ b, Automaton.complete p.2 p.1 = (τ, Ok b)
    ∧ Automaton.accepts p.1 p.2 "a" = false
    ∧ Automaton.accepts τ b "a" = true.
Proof.
  eexists _, _. split; [vm_compute; reflexivity|]. split; vm_compute; reflexivity.
Qed.
